(** * Cache partitioning and contention scoring: a shallow embedding

    The development follows the repository's sources:
    - [split_cache_and_monitor.c] (header name vm_cache_partition_monitor.c)
      and [cos.c]: the bit-mask partitioner [split_mask], the monitoring
      loop [monitor_pids_pair] and the two-phase [main];
    - [run_rdt.c]: [monitor_cores], which writes the same sample rows;
    - [noisy_detector.sh]: the awk parser of the sample log, the per-process
      aggregation and the awk scorer;
    - the per-core scorer script kept in the file of [victim.c]: its awk
      program;
    - the loads: the pointer chains (the program kept after [cos.c], and
      [victim.c]), the random load and the tree of [tree_victim.c].

    C integers are modelled as [Z] with the wrap-around of their width
    written out.  awk numbers are modelled as exact rationals [Q]; for
    the scorer of noisy_detector.sh, whose verdict compares computed
    scores, [Rounded] makes the rounding of awk's binary64 arithmetic
    explicit. *)

From Stdlib Require Import ZArith QArith List String Ascii Bool Lia Sorted.
From stdpp Require Import gmap strings.

Local Open Scope Z_scope.

(** ** Machine integers *)

Definition wrap64 (z : Z) : Z := z mod 2 ^ 64.

Definition in_u64 (z : Z) : Prop := 0 <= z < 2 ^ 64.

(** Number of set bits of [m] strictly below bit position [i]. *)
Fixpoint rank (m : Z) (i : nat) : Z :=
  match i with
  | O => 0
  | S j => rank m j + Z.b2z (Z.testbit m (Z.of_nat j))
  end.

(** Number of set bits of a 64-bit mask. *)
Definition popcount (m : Z) : Z := rank m 64.

(** ** Text utilities shared by the C programs and the awk scripts *)

Definition char_code (c : ascii) : Z := Z.of_nat (nat_of_ascii c).

Definition is_digit (c : ascii) : bool :=
  (48 <=? char_code c) && (char_code c <=? 57).

Definition digit_val (c : ascii) : Z := char_code c - 48.

(** C [isspace] and awk's [[:space:]]: blank, and the controls 9..13. *)
Definition is_space (c : ascii) : bool :=
  (char_code c =? 32) || ((9 <=? char_code c) && (char_code c <=? 13)).

Fixpoint skip_space (s : string) : string :=
  match s with
  | String c r => if is_space c then skip_space r else s
  | EmptyString => s
  end.

Definition digit_char (d : Z) : ascii := ascii_of_nat (Z.to_nat (48 + d)).

(** Decimal digits of a non-negative number, most significant first
    ([%llu], [%d] of a non-negative value). *)
Fixpoint dec_digits (fuel : nat) (n : Z) (acc : string) : string :=
  match fuel with
  | O => acc
  | S fuel' =>
      let acc' := String (digit_char (n mod 10)) acc in
      if n <? 10 then acc' else dec_digits fuel' (n / 10) acc'
  end.

Definition dec_of_nonneg (n : Z) : string :=
  dec_digits (S (Z.to_nat (Z.log2 n))) n EmptyString.

(** [%d] of an [int]. *)
Definition dec_of_Z (n : Z) : string :=
  if n <? 0 then String "-" (dec_of_nonneg (- n)) else dec_of_nonneg n.

Fixpoint repeat_char (c : ascii) (n : nat) : string :=
  match n with
  | O => EmptyString
  | S n' => String c (repeat_char c n')
  end.

(** Right-justification in a field of [width] columns ([%8s], [%016x]). *)
Definition pad_left (c : ascii) (width : nat) (s : string) : string :=
  repeat_char c (width - String.length s) +:+ s.

Definition hex_char (d : Z) : ascii :=
  if d <? 10 then digit_char d else ascii_of_nat (Z.to_nat (87 + d)).

Fixpoint hex_digits (fuel : nat) (n : Z) (acc : string) : string :=
  match fuel with
  | O => acc
  | S fuel' =>
      let acc' := String (hex_char (n mod 16)) acc in
      if n <? 16 then acc' else hex_digits fuel' (n / 16) acc'
  end.

(** [%llx] of a 64-bit value. *)
Definition hex_of_u64 (n : Z) : string := hex_digits 16 n EmptyString.

(** An optional sign, as [strtod] and [strtoull] accept it. *)
Definition take_sign (s : string) : bool * string :=
  match s with
  | String "-" r => (true, r)
  | String "+" r => (false, r)
  | _ => (false, s)
  end.

(** ** The host as the C programs see it *)

(** [strtoull] in base 16. *)
Definition hex_val (c : ascii) : option Z :=
  let n := char_code c in
  if (48 <=? n) && (n <=? 57) then Some (n - 48)
  else if (97 <=? n) && (n <=? 102) then Some (n - 87)
  else if (65 <=? n) && (n <=? 70) then Some (n - 55)
  else None.

(** Leading hex digits: value, number of digits, overflow of 64 bits, and
    the unread rest. *)
Fixpoint scan_hex (s : string) (acc : Z) (n : Z) (ovf : bool)
  : Z * Z * bool * string :=
  match s with
  | String c r =>
      match hex_val c with
      | Some d =>
          let acc' := 16 * acc + d in
          scan_hex r acc' (n + 1) (ovf || (2 ^ 64 <=? acc'))
      | None => (acc, n, ovf, s)
      end
  | EmptyString => (acc, n, ovf, s)
  end.

(** The prefix [0x]/[0X] is skipped when a hex digit follows it. *)
Definition skip_0x (s : string) : string :=
  match s with
  | String "0" (String x (String d r)) =>
      if ((char_code x =? 120) || (char_code x =? 88)) && bool_decide (is_Some (hex_val d))
      then String d r else s
  | _ => s
  end.

(** [strtoull(s, &endp, 16)]: the value, whether [errno] was set
    ([ERANGE]), and the text at [endp]. *)
Definition strtoull16 (s : string) : Z * bool * string :=
  let '(neg, s1) := take_sign (skip_space s) in
  let '(v, n, ovf, rest) := scan_hex (skip_0x s1) 0 0 false in
  if n =? 0 then (0, false, s)
  else if ovf then (2 ^ 64 - 1, true, rest)
  else (if neg then wrap64 (- v) else v, false, rest).

(** The digits of a base up to 16. *)
Definition digit_below (base : Z) (c : ascii) : option Z :=
  match hex_val c with
  | Some d => if d <? base then Some d else None
  | None => None
  end.

Fixpoint scan_base (base : Z) (s : string) (acc : Z) (n : Z) (ovf : bool)
  : Z * Z * bool * string :=
  match s with
  | String c r =>
      match digit_below base c with
      | Some d =>
          let acc' := base * acc + d in
          scan_base base r acc' (n + 1) (ovf || (2 ^ 64 <=? acc'))
      | None => (acc, n, ovf, s)
      end
  | EmptyString => (acc, n, ovf, s)
  end.

(** The base that [strtoull] takes for [base == 0]: 16 after [0x] or
    [0X], 8 after any other leading [0], 10 otherwise. *)
Definition base_of (s1 : string) : Z :=
  match s1 with
  | String "0" (String x _) =>
      if (char_code x =? 120) || (char_code x =? 88) then 16 else 8
  | String "0" EmptyString => 8
  | _ => 10
  end.

(** [strtoull(s, &endp, 0)]. *)
Definition strtoull0 (s : string) : Z * bool * string :=
  let '(neg, s1) := take_sign (skip_space s) in
  let base := base_of s1 in
  if base =? 16 then strtoull16 s
  else
    let '(v, n, ovf, rest) := scan_base base s1 0 0 false in
    if n =? 0 then (0, false, s)
    else if ovf then (2 ^ 64 - 1, true, rest)
    else (if neg then wrap64 (- v) else v, false, rest).

(** [parse_hex_no_prefix] of cos.c, [strtoull] in base 16; [None] stands
    for [-1]. *)
Definition parse_hex_no_prefix (hexstr : string) : option Z :=
  let '(val, err, endp) := strtoull16 hexstr in
  if err || negb (String.eqb endp EmptyString) then None else Some val.

(** [parse_hex_u64] of split_cache_and_monitor.c, [strtoull] in base 0. *)
Definition parse_hex_u64 (hexstr : string) : option Z :=
  let '(val, err, endp) := strtoull0 hexstr in
  if err || negb (String.eqb endp EmptyString) then None else Some val.

(** What [getline] reads first, the final newline removed. *)
Fixpoint upto_newline (s : string) : string :=
  match s with
  | EmptyString => EmptyString
  | String c r => if (char_code c =? 10) then EmptyString else String c (upto_newline r)
  end.

Definition first_line (s : string) : option string :=
  match s with
  | EmptyString => None
  | _ => Some (upto_newline s)
  end.

(** A monitoring target of the pqos library. *)
Inductive target :=
| Pid (pid : Z)
| Cores (start nc : Z).

(** [struct pqos_event_values], the fields the programs read; the
    floating-point [ipc] is kept as a rational. *)
Record mon_values := {
  ipc : Q;
  llc_misses_delta : Z;
  llc : Z;
  mbm_local_delta : Z;
  mbm_remote_delta : Z
}.

(** One row of a sample log: the two lines of one [fprintf]. *)
Record sample := {
  row_time : nat;
  row_target : string;
  row_ipc : Q;
  row_misses : string;
  row_llc_kb : Z;
  row_mbl : Q;
  row_mbr : Q
}.

(** What was written to a file, in order. *)
Inductive chunk :=
| Text (s : string)
| Header (target_column : string)
| Row (r : sample).

Inductive event :=
| EvMkdir (path : string)
| EvWrite (path : string) (s : string)
| EvAppend (path : string) (s : string)
| EvRmdir (path : string)
| EvFopen (path : string)
| EvPqosInit
| EvPqosFini
| EvMonReset
| EvMonStart (t : target)
| EvMonPoll
| EvMonStop (t : target).

(** The reasons for which the programs call [die]. *)
Inductive fatal :=
| InvalidDuration
| CannotRead (path : string)
| UnexpectedCBM (s : string)
| InvalidCBM (s : string)
| ZeroBitsSet
| SocketsFailed
| MkdirFailed (path : string)
| WritingFailed (path : string)
| NoQemuPid (vm : string)
| SamePid (pid : Z)
| AppendFailed (pid : Z) (path : string)
| PqosInitFailed
| MonResetFailed
| PqosInitPhase2Failed
| MonResetPhase2Failed
| RmdirFailed (path : string)
| PidNotRunning (pid : Z)
| MonStartFailed (pid : Z) (ret : Z)
| MonStartCoresFailed
| FopenFailed (path : string)
| PidDisappeared (pid : Z)
| MonPollFailed
| MonStopFailed.

(** What the programs cannot control: processes, permissions, topology,
    the pqos library.  Times are seconds slept so far. *)
Record host := {
  proc_alive : Z -> nat -> bool;
  io_denied : string -> bool;
  cpu_packages : option (list (option Z));
  vm_pid : string -> Z;
  pqos_init_ret : nat -> Z;
  pqos_reset_ret : nat -> Z;
  mon_start_ret : target -> nat -> Z;
  mon_poll_ret : nat -> Z;
  mon_stop_ret : target -> nat -> Z;
  mon_read : target -> nat -> mon_values
}.

(** What the programs change. *)
Record world := {
  files : gmap string (list chunk);
  dirs : gset string;
  now : nat;
  trace : list event
}.

Inductive result (A : Type) :=
| Ok (a : A)
| Exit (f : fatal).
Arguments Ok {A} a.
Arguments Exit {A} f.

Definition PQOS_RETVAL_OK : Z := 0.

Definition set_files (w : world) (fs : gmap string (list chunk)) : world :=
  {| files := fs; dirs := dirs w; now := now w; trace := trace w |}.

Definition set_dirs (w : world) (ds : gset string) : world :=
  {| files := files w; dirs := ds; now := now w; trace := trace w |}.

Definition log_event (w : world) (e : event) : world :=
  {| files := files w; dirs := dirs w; now := now w; trace := trace w ++ [e] |}.

Definition tick (w : world) (n : nat) : world :=
  {| files := files w; dirs := dirs w; now := (now w + n)%nat; trace := trace w |}.

Fixpoint text_of (cs : list chunk) : option string :=
  match cs with
  | [] => Some EmptyString
  | Text s :: rest => option_map (String.append s) (text_of rest)
  | _ :: _ => None
  end.

(** Programs run on the world and end with a value or with
    [exit(EXIT_FAILURE)]; stdio buffers are flushed by [exit], so a
    [fprintf] is modelled as reaching its file at once. *)
Definition prog (A : Type) : Type := world -> world * result A.

Global Instance prog_ret : MRet prog := fun A a w => (w, Ok a).

Global Instance prog_bind : MBind prog := fun A B k c w =>
  match c w with
  | (w', Ok a) => k a w'
  | (w', Exit f) => (w', Exit f)
  end.

Definition die {A} (f : fatal) : prog A := fun w => (w, Exit f).

Section Programs.
Variable h : host.

Definition when (b : bool) (c : prog unit) : prog unit :=
  if b then c else mret tt.

Definition emit (e : event) : prog unit := fun w => (log_event w e, Ok tt).

Definition sleep (n : nat) : prog unit := fun w => (tick w n, Ok tt).

Definition time : prog nat := fun w => (w, Ok (now w)).

(** [stat("/proc/<pid>")] *)
Definition stat_proc (pid : Z) : prog bool :=
  fun w => (w, Ok (proc_alive h pid (now w))).

Definition read_file (path : string) : prog (option string) :=
  fun w => (w, Ok (cs ← files w !! path; s ← text_of cs; first_line s)).

(** [false] stands for the return value [-1], here and below.  Whether
    a path can be created or opened is the answer of the host,
    [io_denied]: it stands for every reason for which [mkdir] or [fopen]
    fails, a missing directory among them; a text handed to [fwrite] is
    taken to be written whole. *)
Definition mkdir_if_missing (path : string) : prog bool :=
  fun w =>
    if bool_decide (path ∈ dirs w) then (w, Ok true)
    else if bool_decide (is_Some (files w !! path)) then (w, Ok false)
    else if io_denied h path then (w, Ok false)
    else (log_event (set_dirs w ({[path]} ∪ dirs w)) (EvMkdir path), Ok true).

Definition write_str_to_file (path str : string) : prog bool :=
  fun w =>
    if io_denied h path then (w, Ok false)
    else (log_event (set_files w (<[path := [Text str]]> (files w)))
            (EvWrite path str), Ok true).

Definition append_str_to_file (path str : string) : prog bool :=
  fun w =>
    if io_denied h path then (w, Ok false)
    else
      let old := default [] (files w !! path) in
      (log_event
         (set_files w (<[path := old ++ [Text str; Text (String "010" EmptyString)]]>
                         (files w)))
         (EvAppend path str), Ok true).

(** [rmdir] of a resctrl group: the directory goes with the control
    files in it. *)
Definition rmdir (path : string) : prog bool :=
  fun w =>
    if io_denied h path || negb (bool_decide (path ∈ dirs w)) then (w, Ok false)
    else
      let outside (e : string * list chunk) :=
        String.prefix (path +:+ "/") e.1 = false in
      let w1 := set_files w (filter outside (files w)) in
      (log_event (set_dirs w1 (dirs w ∖ {[path]})) (EvRmdir path), Ok true).

(** [fopen(path, "w")]: the file is created, or emptied. *)
Definition fopen_w (path : string) : prog bool :=
  fun w =>
    if io_denied h path then (w, Ok false)
    else (log_event (set_files w (<[path := []]> (files w))) (EvFopen path),
          Ok true).

Definition fprintf (path : string) (c : chunk) : prog unit :=
  fun w =>
    (set_files w (<[path := default [] (files w !! path) ++ [c]]> (files w)),
     Ok tt).

Definition pqos_init : prog Z :=
  fun w => (log_event w EvPqosInit, Ok (pqos_init_ret h (now w))).

Definition pqos_fini : prog unit := emit EvPqosFini.

Definition pqos_mon_reset : prog Z :=
  fun w => (log_event w EvMonReset, Ok (pqos_reset_ret h (now w))).

Definition pqos_mon_start (t : target) : prog Z :=
  fun w => (log_event w (EvMonStart t), Ok (mon_start_ret h t (now w))).

Definition pqos_mon_poll : prog Z :=
  fun w => (log_event w EvMonPoll, Ok (mon_poll_ret h (now w))).

Definition pqos_mon_stop (t : target) : prog Z :=
  fun w => (log_event w (EvMonStop t), Ok (mon_stop_ret h t (now w))).

Definition group_values (t : target) : prog mon_values :=
  fun w => (w, Ok (mon_read h t (now w))).

Definition find_vm_pid (vmname : string) : prog Z :=
  fun w => (w, Ok (vm_pid h vmname)).

End Programs.


(** ** Monitoring, as both cache-partition programs and run_rdt.c do it *)

(** The MISSES column: [%8" PRIu64 "k] of [miss/1024]. *)
Definition miss_field (miss : Z) : string :=
  pad_left " " 8 (dec_of_nonneg (miss / 1024)) +:+ "k".

Definition sample_of (t : nat) (target_text : string) (v : mon_values) : sample :=
  {| row_time := t;
     row_target := target_text;
     row_ipc := ipc v;
     row_misses := miss_field (llc_misses_delta v);
     row_llc_kb := llc v / 1024;
     row_mbl := (inject_Z (mbm_local_delta v) / inject_Z 1000000)%Q;
     row_mbr := (inject_Z (mbm_remote_delta v) / inject_Z 1000000)%Q |}.

Section Monitoring.
Variable h : host.

(** [for (i = 0; i < timeout_sec; i++) { if (stat(path) == 0) return 0;
    sleep(1); } return -1;] *)
Fixpoint wait_loop (n : nat) (pid : Z) : prog Z :=
  match n with
  | O => mret (-1)
  | S n' =>
      alive ← stat_proc h pid;
      if alive : bool then mret 0 else (sleep 1;; wait_loop n' pid)
  end.

Definition wait_for_pid (pid : Z) (timeout_sec : Z) : prog Z :=
  wait_loop (Z.to_nat timeout_sec) pid.

(** One round of the polling loop of [monitor_pids_pair]. *)
Definition poll_pair (pid1 pid2 : Z) (outfile1 outfile2 : string) : prog unit :=
  sleep 1;;
  alive1 ← stat_proc h pid1;
  when (negb alive1) (die (PidDisappeared pid1));;
  alive2 ← stat_proc h pid2;
  when (negb alive2) (die (PidDisappeared pid2));;
  t ← time;
  r ← pqos_mon_poll h;
  when (negb (r =? PQOS_RETVAL_OK)) (die MonPollFailed);;
  v1 ← group_values h (Pid pid1);
  v2 ← group_values h (Pid pid2);
  fprintf outfile1 (Row (sample_of t (pad_left " " 6 (dec_of_Z pid1)) v1));;
  fprintf outfile2 (Row (sample_of t (pad_left " " 6 (dec_of_Z pid2)) v2)).

Fixpoint poll_pair_loop (n : nat) (pid1 pid2 : Z) (outfile1 outfile2 : string)
  : prog unit :=
  match n with
  | O => mret tt
  | S n' =>
      poll_pair pid1 pid2 outfile1 outfile2;;
      poll_pair_loop n' pid1 pid2 outfile1 outfile2
  end.

(** [monitor_pids_pair], the same text in split_cache_and_monitor.c and
    in cos.c. *)
Definition monitor_pids_pair (pid1 pid2 duration : Z)
    (outfile1 outfile2 : string) : prog unit :=
  r1 ← wait_for_pid pid1 5;
  when (r1 <? 0) (die (PidNotRunning pid1));;
  r2 ← wait_for_pid pid2 5;
  when (r2 <? 0) (die (PidNotRunning pid2));;
  ret1 ← pqos_mon_start h (Pid pid1);
  when (negb (ret1 =? PQOS_RETVAL_OK)) (die (MonStartFailed pid1 ret1));;
  ret2 ← pqos_mon_start h (Pid pid2);
  when (negb (ret2 =? PQOS_RETVAL_OK))
    (pqos_mon_stop h (Pid pid1);; die (MonStartFailed pid2 ret2));;
  f1 ← fopen_w h outfile1;
  when (negb f1) (die (FopenFailed outfile1));;
  f2 ← fopen_w h outfile2;
  when (negb f2) (die (FopenFailed outfile2));;
  fprintf outfile1 (Header "PID");;
  fprintf outfile2 (Header "PID");;
  poll_pair_loop (Z.to_nat duration) pid1 pid2 outfile1 outfile2;;
  pqos_mon_stop h (Pid pid1);;
  pqos_mon_stop h (Pid pid2);;
  mret tt.

(** [detect_sockets]: the distinct package ids in first-seen order ... *)
Definition add_unique (ids : list Z) (entry : option Z) : list Z :=
  match entry with
  | None => ids
  | Some pid => if existsb (Z.eqb pid) ids then ids else ids ++ [pid]
  end.

(** ... then sorted by the exchange sort
    [for i: for j > i: if (ids[j] < ids[i]) swap]. *)
Fixpoint sort_inner (k i j : nat) (ids : list Z) : list Z :=
  match k with
  | O => ids
  | S k' =>
      let ids' :=
        match ids !! i, ids !! j with
        | Some vi, Some vj =>
            if vj <? vi then <[i := vj]> (<[j := vi]> ids) else ids
        | _, _ => ids
        end in
      sort_inner k' i (S j) ids'
  end.

Fixpoint sort_outer (k i : nat) (ids : list Z) : list Z :=
  match k with
  | O => ids
  | S k' =>
      sort_outer k' (S i) (sort_inner (length ids - S i) i (S i) ids)
  end.

(** [None] stands for the return value [-1]. *)
Definition detect_sockets : prog (option (list Z)) :=
  fun w =>
    (w, Ok (match cpu_packages h with
            | None => None
            | Some entries =>
                let ids := fold_left add_unique entries [] in
                Some (sort_outer (length ids) 0 ids)
            end)).

End Monitoring.

(** [snprintf(buf, size, ...)] keeps at most [size - 1] characters. *)
Definition snprintf (size : nat) (s : string) : string :=
  String.substring 0 (size - 1) s.

Definition CBM_MASK_PATH : string := "/sys/fs/resctrl/info/L3/cbm_mask".
Definition COS1_DIR : string := "/sys/fs/resctrl/COS1".
Definition COS2_DIR : string := "/sys/fs/resctrl/COS2".
Definition COS1_SCHEMATA : string := "/sys/fs/resctrl/COS1/schemata".
Definition COS2_SCHEMATA : string := "/sys/fs/resctrl/COS2/schemata".
Definition COS1_TASKS : string := "/sys/fs/resctrl/COS1/tasks".
Definition COS2_TASKS : string := "/sys/fs/resctrl/COS2/tasks".

(** ** BitmaskPartitioner *)

Module Partition.

(** The picking loop shared by both programs:
    [for (int b = 0; b < 64 && picked < half; b++)
       if ((full_mask >> b) & 1ULL) { m1 |= (1ULL << b); picked++; }] *)
Fixpoint pick_loop (fuel : nat) (full_mask half b m1 picked : Z) : Z :=
  match fuel with
  | O => m1
  | S fuel' =>
      if (b <? 64) && (picked <? half) then
        if negb (Z.land (Z.shiftr full_mask b) 1 =? 0) then
          pick_loop fuel' full_mask half (b + 1)
            (Z.lor m1 (wrap64 (Z.shiftl 1 b))) (picked + 1)
        else pick_loop fuel' full_mask half (b + 1) m1 picked
      else m1
  end.

(** [*mask1 = m1; *mask2 = full_mask & ~m1;] with [half] already computed. *)
Definition split_with (full_mask half : Z) : Z * Z :=
  let m1 := pick_loop 64 full_mask half 0 0 0 in
  (m1, Z.land full_mask (wrap64 (Z.lnot m1))).

End Partition.

(** [split_mask] of split_cache_and_monitor.c: the set bits are counted by
    a loop over the 64 bit positions. *)
Module SplitMonitor.

(** [for (int b = 0; b < 64; b++) if ((full_mask >> b) & 1ULL) total_bits++;] *)
Fixpoint count_loop (fuel : nat) (full_mask b total_bits : Z) : Z :=
  match fuel with
  | O => total_bits
  | S fuel' =>
      if b <? 64 then
        count_loop fuel' full_mask (b + 1)
          (if negb (Z.land (Z.shiftr full_mask b) 1 =? 0)
           then total_bits + 1 else total_bits)
      else total_bits
  end.

Definition split_mask (full_mask : Z) : Z * Z :=
  let total_bits := count_loop 64 full_mask 0 0 in
  let half := Z.quot total_bits 2 in
  Partition.split_with full_mask half.

Definition DEFAULT_TASKS : string := "/sys/fs/resctrl/tasks".

Section Main.
Variable h : host.

(** Step 1: the mask is read and parsed; a text without [0x] gets the
    prefix ([strncasecmp(cbm_raw, "0x", 2) != 0]). *)
Definition has_0x (s : string) : bool :=
  match s with
  | String "0" (String x _) => (char_code x =? 120) || (char_code x =? 88)
  | _ => false
  end.

Definition read_mask : prog Z :=
  cbm_raw ← read_file CBM_MASK_PATH;
  match cbm_raw with
  | None => die (CannotRead CBM_MASK_PATH)
  | Some cbm_raw =>
      let text :=
        if has_0x cbm_raw then cbm_raw else snprintf 64 ("0x" +:+ cbm_raw) in
      match parse_hex_u64 text with
      | None => die (InvalidCBM cbm_raw)
      | Some full_mask => mret full_mask
      end
  end.

(** Steps 2 to 4: the two shares, the sockets, the two classes and their
    schemata. *)
Definition write_classes (full_mask : Z) : prog unit :=
  let '(mask1, mask2) := split_mask full_mask in
  let mask1_str := snprintf 32 ("0x" +:+ pad_left "0" 16 (hex_of_u64 mask1)) in
  let mask2_str := snprintf 32 ("0x" +:+ pad_left "0" 16 (hex_of_u64 mask2)) in
  sockets ← detect_sockets h;
  match sockets with
  | Some (sock0 :: sock1 :: _) =>
      d1 ← mkdir_if_missing h COS1_DIR;
      when (negb d1) (die (MkdirFailed COS1_DIR));;
      d2 ← mkdir_if_missing h COS2_DIR;
      when (negb d2) (die (MkdirFailed COS2_DIR));;
      let schem1 :=
        snprintf 64 ("L3:" +:+ dec_of_Z sock0 +:+ "=0x0;L3:"
                     +:+ dec_of_Z sock1 +:+ "=" +:+ mask1_str) in
      let schem2 :=
        snprintf 64 ("L3:" +:+ dec_of_Z sock0 +:+ "=0x0;L3:"
                     +:+ dec_of_Z sock1 +:+ "=" +:+ mask2_str) in
      w1 ← write_str_to_file h COS1_SCHEMATA schem1;
      when (negb w1) (die (WritingFailed COS1_SCHEMATA));;
      w2 ← write_str_to_file h COS2_SCHEMATA schem2;
      when (negb w2) (die (WritingFailed COS2_SCHEMATA))
  | _ => die SocketsFailed
  end.

(** Steps 5 and 6: the two pids, each put into its class. *)
Definition assign_pids (vm1 vm2 : string) : prog (Z * Z) :=
  pid1 ← find_vm_pid h vm1;
  when (pid1 <=? 0) (die (NoQemuPid vm1));;
  pid2 ← find_vm_pid h vm2;
  when (pid2 <=? 0) (die (NoQemuPid vm2));;
  when (pid1 =? pid2) (die (SamePid pid1));;
  a1 ← append_str_to_file h COS1_TASKS (snprintf 32 (dec_of_Z pid1));
  when (negb a1) (die (AppendFailed pid1 COS1_TASKS));;
  a2 ← append_str_to_file h COS2_TASKS (snprintf 32 (dec_of_Z pid2));
  when (negb a2) (die (AppendFailed pid2 COS2_TASKS));;
  mret (pid1, pid2).

(** Step 9: both pids go back to the default group, both classes are
    removed, PQoS is started again. *)
Definition teardown (pid1 pid2 : Z) : prog unit :=
  pqos_mon_reset h;;
  a1 ← append_str_to_file h DEFAULT_TASKS (snprintf 32 (dec_of_Z pid1));
  when (negb a1) (die (AppendFailed pid1 DEFAULT_TASKS));;
  a2 ← append_str_to_file h DEFAULT_TASKS (snprintf 32 (dec_of_Z pid2));
  when (negb a2) (die (AppendFailed pid2 DEFAULT_TASKS));;
  r1 ← rmdir h COS1_DIR;
  when (negb r1) (die (RmdirFailed COS1_DIR));;
  r2 ← rmdir h COS2_DIR;
  when (negb r2) (die (RmdirFailed COS2_DIR));;
  pqos_fini;;
  i ← pqos_init h;
  when (negb (i =? PQOS_RETVAL_OK)) (die PqosInitPhase2Failed);;
  r ← pqos_mon_reset h;
  when (negb (r =? PQOS_RETVAL_OK)) (die MonResetPhase2Failed).

(** [main], with [duration = atoi(argv[3])]. *)
Definition main (vm1 vm2 : string) (duration : Z) : prog unit :=
  when (duration <=? 0) (die InvalidDuration);;
  full_mask ← read_mask;
  write_classes full_mask;;
  '(pid1, pid2) ← assign_pids vm1 vm2;
  i ← pqos_init h;
  when (negb (i =? PQOS_RETVAL_OK)) (die PqosInitFailed);;
  r ← pqos_mon_reset h;
  when (negb (r =? PQOS_RETVAL_OK)) (die MonResetFailed);;
  pqos_mon_reset h;;
  monitor_pids_pair h pid1 pid2 duration
    "VM1_half_baseline.txt" "VM2_half_baseline.txt";;
  teardown pid1 pid2;;
  pqos_mon_reset h;;
  monitor_pids_pair h pid1 pid2 duration "VM1_normal.txt" "VM2_normal.txt";;
  pqos_fini.

End Main.

End SplitMonitor.

(** [count_bits] and [split_mask] of cos.c. *)
Module Cos.

(** [while (x) { x &= (x - 1); cnt++; }]; each round clears one bit of a
    64-bit word, so 64 rounds of fuel always reach [x == 0]. *)
Fixpoint count_bits_loop (fuel : nat) (x cnt : Z) : Z :=
  match fuel with
  | O => cnt
  | S fuel' =>
      if x =? 0 then cnt
      else count_bits_loop fuel' (Z.land x (wrap64 (x - 1))) (cnt + 1)
  end.

Definition count_bits (x : Z) : Z := count_bits_loop 64 x 0.

Definition split_mask (full_mask : Z) : Z * Z :=
  let total_bits := count_bits full_mask in
  let half := Z.quot total_bits 2 in
  Partition.split_with full_mask half.

Section Main.
Variable h : host.

(** Step 1: a prefix [0x] is skipped, the width is checked, the text is
    parsed, and a mask without a set bit is refused. *)
Definition skip_prefix (cbm_raw : string) : string :=
  match cbm_raw with
  | String "0" (String x r) =>
      if (char_code x =? 120) || (char_code x =? 88) then r else cbm_raw
  | _ => cbm_raw
  end.

Definition read_mask : prog (Z * nat) :=
  cbm_raw ← read_file CBM_MASK_PATH;
  match cbm_raw with
  | None => die (CannotRead CBM_MASK_PATH)
  | Some cbm_raw =>
      let hex_no_prefix := skip_prefix cbm_raw in
      let width := String.length hex_no_prefix in
      if (width =? 0)%nat || (16 <? width)%nat
      then die (UnexpectedCBM hex_no_prefix)
      else
        match parse_hex_no_prefix hex_no_prefix with
        | None => die (InvalidCBM hex_no_prefix)
        | Some full_mask =>
            let total_ways := count_bits full_mask in
            if total_ways =? 0 then die ZeroBitsSet
            else mret (full_mask, width)
        end
  end.

Definition L2_line : string :=
  "L2:0=ffff;1=ffff;2=ffff;3=ffff;4=ffff;5=ffff;6=ffff;7=ffff;"
  +:+ "8=ffff;9=ffff;10=ffff;11=ffff;12=ffff;13=ffff;14=ffff;15=ffff;"
  +:+ "16=ffff;17=ffff;18=ffff;19=ffff;64=ffff;65=ffff;66=ffff;67=ffff;"
  +:+ "68=ffff;69=ffff;70=ffff;71=ffff;72=ffff;73=ffff;74=ffff;75=ffff;"
  +:+ "76=ffff;77=ffff;78=ffff;79=ffff;80=ffff;81=ffff;82=ffff;83=ffff".

Definition newline : string := String "010" EmptyString.

Definition schema (mb : string) (sock0 sock1 : Z) (plain : string) : string :=
  snprintf 1024
    (mb +:+ newline +:+ L2_line +:+ newline
     +:+ "L3:" +:+ dec_of_Z sock0 +:+ "=" +:+ plain +:+ ";"
     +:+ dec_of_Z sock1 +:+ "=" +:+ plain +:+ newline).

(** Steps 2 to 8: the two shares, the sockets, the two classes, PQoS and
    the schemata. *)
Definition write_classes (full_mask : Z) (width : nat) : prog unit :=
  let '(mask_lower, mask_upper) := split_mask full_mask in
  let plain_lower := snprintf 32 (pad_left "0" width (hex_of_u64 mask_lower)) in
  let plain_upper := snprintf 32 (pad_left "0" width (hex_of_u64 mask_upper)) in
  sockets ← detect_sockets h;
  match sockets with
  | Some (sock0 :: sock1 :: _) =>
      d1 ← mkdir_if_missing h COS1_DIR;
      when (negb d1) (die (MkdirFailed COS1_DIR));;
      d2 ← mkdir_if_missing h COS2_DIR;
      when (negb d2) (die (MkdirFailed COS2_DIR));;
      i ← pqos_init h;
      when (negb (i =? PQOS_RETVAL_OK)) (die PqosInitFailed);;
      r ← pqos_mon_reset h;
      when (negb (r =? PQOS_RETVAL_OK)) (die MonResetFailed);;
      w1 ← write_str_to_file h COS1_SCHEMATA
             (schema "MB:0=80;1=80" sock0 sock1 plain_lower);
      when (negb w1) (die (WritingFailed COS1_SCHEMATA));;
      w2 ← write_str_to_file h COS2_SCHEMATA
             (schema "MB:0=20;1=20" sock0 sock1 plain_upper);
      when (negb w2) (die (WritingFailed COS2_SCHEMATA))
  | _ => die SocketsFailed
  end.

(** Step 9: the two pids, each put into its class. *)
Definition assign_pids (vm1 vm2 : string) : prog (Z * Z) :=
  pid1 ← find_vm_pid h vm1;
  when (pid1 <=? 0) (die (NoQemuPid vm1));;
  pid2 ← find_vm_pid h vm2;
  when (pid2 <=? 0) (die (NoQemuPid vm2));;
  when (pid1 =? pid2) (die (SamePid pid1));;
  a1 ← append_str_to_file h COS1_TASKS (snprintf 32 (dec_of_Z pid1));
  when (negb a1) (die (AppendFailed pid1 COS1_TASKS));;
  a2 ← append_str_to_file h COS2_TASKS (snprintf 32 (dec_of_Z pid2));
  when (negb a2) (die (AppendFailed pid2 COS2_TASKS));;
  mret (pid1, pid2).

(** The block headed CLEANUP & PHASE 2: the pids are appended to
    [COS1_TASKS] and [COS2_TASKS], the two classes are removed, PQoS is
    started again. *)
Definition teardown (pid1 pid2 : Z) : prog unit :=
  pqos_mon_reset h;;
  a1 ← append_str_to_file h COS1_TASKS (snprintf 32 (dec_of_Z pid1));
  when (negb a1) (die (AppendFailed pid1 COS1_TASKS));;
  a2 ← append_str_to_file h COS2_TASKS (snprintf 32 (dec_of_Z pid2));
  when (negb a2) (die (AppendFailed pid2 COS2_TASKS));;
  r1 ← rmdir h COS1_DIR;
  when (negb r1) (die (RmdirFailed COS1_DIR));;
  r2 ← rmdir h COS2_DIR;
  when (negb r2) (die (RmdirFailed COS2_DIR));;
  pqos_fini;;
  i ← pqos_init h;
  when (negb (i =? PQOS_RETVAL_OK)) (die PqosInitPhase2Failed);;
  r ← pqos_mon_reset h;
  when (negb (r =? PQOS_RETVAL_OK)) (die MonResetPhase2Failed).

(** [main], with [duration = atoi(argv[3])]. *)
Definition main (vm1 vm2 : string) (duration : Z) : prog unit :=
  when (duration <=? 0) (die InvalidDuration);;
  '(full_mask, width) ← read_mask;
  write_classes full_mask width;;
  '(pid1, pid2) ← assign_pids vm1 vm2;
  monitor_pids_pair h pid1 pid2 duration
    "VM1_half_baseline.txt" "VM2_half_baseline.txt";;
  teardown pid1 pid2;;
  monitor_pids_pair h pid1 pid2 duration "VM1_normal.txt" "VM2_normal.txt";;
  pqos_fini.

End Main.

End Cos.

(** [monitor_cores] of run_rdt.c. *)
Module RunRdt.

Section Monitor.
Variable h : host.

Definition cores_text (start nc : Z) : string :=
  pad_left " " 2 (dec_of_Z start) +:+ "-"
  +:+ pad_left " " 2 (dec_of_Z (start + nc - 1)).

Definition poll_cores (start nc : Z) (outfile : string) : prog unit :=
  sleep 1;;
  t ← time;
  r ← pqos_mon_poll h;
  when (negb (r =? PQOS_RETVAL_OK)) (die MonPollFailed);;
  v ← group_values h (Cores start nc);
  fprintf outfile (Row (sample_of t (cores_text start nc) v)).

Fixpoint poll_cores_loop (n : nat) (start nc : Z) (outfile : string)
  : prog unit :=
  match n with
  | O => mret tt
  | S n' => poll_cores start nc outfile;; poll_cores_loop n' start nc outfile
  end.

Definition monitor_cores (start nc duration : Z) (outfile : string)
  : prog unit :=
  r ← pqos_mon_start h (Cores start nc);
  when (negb (r =? PQOS_RETVAL_OK)) (die MonStartCoresFailed);;
  f ← fopen_w h outfile;
  when (negb f) (die (FopenFailed outfile));;
  fprintf outfile (Header "CORE");;
  poll_cores_loop (Z.to_nat duration) start nc outfile;;
  s ← pqos_mon_stop h (Cores start nc);
  when (negb (s =? PQOS_RETVAL_OK)) (die MonStopFailed).

End Monitor.

End RunRdt.

(** Bit [i] belongs to the low share: it is set in [m] and fewer than
    [half] set bits lie below it. *)
Definition low_share_bit (m half : Z) (i : nat) : bool :=
  Z.testbit m (Z.of_nat i) && (rank m i <? half).

(** What the partitioner promises for a mask [m] and its two shares. *)
Definition low_half_split (m a b : Z) : Prop :=
  Z.lor a b = m /\
  Z.land a b = 0 /\
  popcount a = popcount m / 2 /\
  (forall i : nat,
      Z.testbit a (Z.of_nat i)
      = Z.testbit m (Z.of_nat i) && (rank m i <? popcount m / 2)) /\
  (popcount m = 1 -> a = 0 /\ b = m).

(** ** awk numbers and fields (noisy_detector.sh) *)

Module Awk.

Local Open Scope Q_scope.

(** Leading decimal digits: value accumulated so far, number of digits
    read, and the unread rest. *)
Fixpoint scan_digits (s : string) (acc : Z) (n : Z) : Z * Z * string :=
  match s with
  | String c r =>
      if is_digit c then scan_digits r (10 * acc + digit_val c)%Z (n + 1)%Z
      else (acc, n, s)
  | EmptyString => (acc, n, s)
  end.

(** The exponent part [e[+-]ddd] is taken only when it has a digit. *)
Definition scan_exponent (s : string) : Z :=
  match s with
  | String c r =>
      if (char_code c =? 101)%Z || (char_code c =? 69)%Z then
        let '(neg, r1) := take_sign r in
        let '(e, n, _) := scan_digits r1 0%Z 0%Z in
        if (n =? 0)%Z then 0%Z else if neg then (- e)%Z else e
      else 0%Z
  | EmptyString => 0%Z
  end.

(** String to number, as in [$4+0]: the longest numeric prefix in decimal
    notation (blanks, sign, digits, fraction, exponent); [0] when there is
    none. *)
Definition strtonum (s : string) : Q :=
  let '(neg, s1) := take_sign (skip_space s) in
  let '(ip, ni, s2) := scan_digits s1 0%Z 0%Z in
  let '(mant, nf, s3) :=
    match s2 with
    | String "." r => scan_digits r ip 0%Z
    | _ => (ip, 0%Z, s2)
    end in
  if (ni + nf =? 0)%Z then 0
  else
    let v := inject_Z mant * Qpower (10 # 1) (scan_exponent s3 - nf) in
    if neg then - v else v.

(** [gsub(/c$/, repl, s)]: a final character [c] is replaced by [repl]. *)
Fixpoint gsub_suffix (c : ascii) (repl : string) (s : string) : string :=
  match s with
  | EmptyString => EmptyString
  | String a EmptyString => if Ascii.eqb a c then repl else s
  | String a r => String a (gsub_suffix c repl r)
  end.

(** The MISSES column as the block rule reads it:
    [gsub(/k$/,"000",$4); gsub(/m$/,"000000",$4); ... $4+0]. *)
Definition expand_miss (f : string) : Q :=
  strtonum (gsub_suffix "m" "000000" (gsub_suffix "k" "000" f)).

(** Default field splitting: runs of blanks separate fields. *)
Definition is_blank (c : ascii) : bool :=
  (char_code c =? 32)%Z || (char_code c =? 9)%Z || (char_code c =? 10)%Z.

Fixpoint fields_from (s : string) (cur : option string) : list string :=
  match s with
  | EmptyString => match cur with Some w => [w] | None => [] end
  | String c r =>
      if is_blank c then
        match cur with
        | Some w => w :: fields_from r None
        | None => fields_from r None
        end
      else
        fields_from r (Some (default EmptyString cur +:+ String c EmptyString))
  end.

Definition fields (line : string) : list string := fields_from line None.

(** [$n]; a field beyond [NF] is the empty string. *)
Definition field (n : nat) (fs : list string) : string :=
  nth (n - 1) fs EmptyString.

(** [printf "%d"]: truncation towards zero. *)
Definition to_int (q : Q) : Z := Z.quot (Qnum q) (Zpos (Qden q)).

(** The record pattern [/^[[:space:]]*[0-9]/]. *)
Definition data_line (line : string) : bool :=
  match skip_space line with
  | String c _ => is_digit c
  | EmptyString => false
  end.

End Awk.

(** ** Aggregator: step 4 of noisy_detector.sh *)

Module Aggregator.

Local Open Scope Q_scope.

(** bash arithmetic is 64-bit signed and wraps. *)
Definition wrap_s64 (z : Z) : Z := ((z + 2 ^ 63) mod 2 ^ 64 - 2 ^ 63)%Z.

Definition bash_add (a b : Z) : Z := wrap_s64 (a + b).

(** The lines after the last line matching [^TIME]:
    [tail -n +$(( $(grep -n '^TIME' "$LOG" | tail -1 | cut -d: -f1) + 1 ))].
    Without such a line the command substitution is empty, the arithmetic
    gives 1 and the whole log is kept. *)
Fixpoint after_last_TIME (log : list string) : option (list string) :=
  match log with
  | [] => None
  | l :: rest =>
      match after_last_TIME rest with
      | Some blk => Some blk
      | None => if String.prefix "TIME" l then Some rest else None
      end
  end.

Definition last_block (log : list string) : list string :=
  default log (after_last_TIME log).

Record sums := { sum_miss : Q; sum_llc : Q; sum_bw : Q }.

(** The awk rule of the block parser, for one line. *)
Definition block_rule (acc : sums) (line : string) : sums :=
  if Awk.data_line line then
    let fs := Awk.fields line in
    {| sum_miss := sum_miss acc + (Awk.expand_miss (Awk.field 4 fs) + 0);
       sum_llc := sum_llc acc + Awk.strtonum (Awk.field 5 fs);
       sum_bw := sum_bw acc
                 + (Awk.strtonum (Awk.field 6 fs) + Awk.strtonum (Awk.field 7 fs)) |}
  else acc.

(** [miss_val llc_val bw_val] read back from
    [END { printf("%d %d %d\n", sum_miss, sum_llc, sum_bw) }]. *)
Definition parse_log (log : list string) : Z * Z * Z :=
  let t := fold_left block_rule (last_block log)
             {| sum_miss := 0; sum_llc := 0; sum_bw := 0 |} in
  (Awk.to_int (sum_miss t), Awk.to_int (sum_llc t), Awk.to_int (sum_bw t)).

(** One line of /tmp/noisy_agg.csv after the header. *)
Record agg_row := { proc : string; mis_sum : Z; llc_kb_sum : Z; bw_sum : Z }.

Section WithHost.
(** [pqos pid] is the log written by
    [sudo pqos -I -p "all:$pid" -t "$DUR"] (empty when pqos fails). *)
Variable pqos : Z -> list string.

(** Body of [for pid in $pid_line]. *)
Definition pid_step (acc : Z * Z * Z) (pid : Z) : Z * Z * Z :=
  let '(mis, llc, bw) := acc in
  let '(miss_val, llc_val, bw_val) := parse_log (pqos pid) in
  (bash_add mis miss_val, bash_add llc llc_val, bash_add bw bw_val).

(** Body of [for idx in "${!TOP_PIDS[@]}"]: a process without pids is
    skipped ([[[ -z "$pid_line" ]] && continue]). *)
Definition proc_row (entry : string * list Z) : option agg_row :=
  let '(name, pid_line) := entry in
  match pid_line with
  | [] => None
  | _ =>
      let '(mis, llc, bw) := fold_left pid_step pid_line (0, 0, 0)%Z in
      Some {| proc := name; mis_sum := mis; llc_kb_sum := llc; bw_sum := bw |}
  end.

(** [tops] pairs each entry of [TOP_PIDS] with its entry of [PID_LISTS]. *)
Definition aggregate (tops : list (string * list Z)) : list agg_row :=
  omap proc_row tops.

End WithHost.

End Aggregator.

(** ** ContentionScorer: step 5 of noisy_detector.sh *)

Module Scorer.

Import Aggregator.
Local Open Scope Q_scope.

(** The awk variables of the scoring program. *)
Record scorer := {
  MIS : gmap string Q;
  LLC : gmap string Q;
  BW : gmap string Q;
  sum_mis : Q;
  sum_llc : Q;
  sum_bw : Q;
  procs : list string
}.

(** No awk variable is set when the first line is read. *)
Definition start : scorer :=
  {| MIS := ∅; LLC := ∅; BW := ∅;
     sum_mis := 0; sum_llc := 0; sum_bw := 0; procs := [] |}.

(** The rule [NR>1 { ... }] for one line of the CSV. *)
Definition row_rule (st : scorer) (r : agg_row) : scorer :=
  let p := proc r in
  let mis := inject_Z (mis_sum r) in
  let llc := inject_Z (llc_kb_sum r) in
  let bw := inject_Z (bw_sum r) in
  {| MIS := <[p := mis]> (MIS st);
     LLC := <[p := llc]> (LLC st);
     BW := <[p := bw]> (BW st);
     sum_mis := sum_mis st + mis;
     sum_llc := sum_llc st + llc;
     sum_bw := sum_bw st + bw;
     procs := procs st ++ [p] |}.

(** An array cell; an unset cell reads as 0. *)
Definition cell (arr : gmap string Q) (p : string) : Q := default 0 (arr !! p).

(** [sum = sum ? sum : 1] *)
Definition or_one (sum : Q) : Q := if Qeq_bool sum 0 then 1 else sum.

(** awk division: dividing by zero is a fatal error. *)
Definition div (a b : Q) : option Q :=
  if Qeq_bool b 0 then None else Some (a / b).

Definition gt (a b : Q) : bool := negb (Qle_bool a b).

Record score_line := {
  process : string;
  Occ_Score : Q;
  Harm_Score : Q;
  Noise_Score : Q
}.

(** What the END block has printed and remembers. *)
Record report := { lines : list score_line; maxN : Q; noisy : string }.

(** Body of [for(i=1;i<=n;i++)]. *)
Definition score_step (K : Q) (st : scorer) (acc : report) (p : string)
  : option report :=
  nbw ← div (cell (BW st) p) (sum_bw st);
  nocc ← div (cell (LLC st) p) (sum_llc st);
  let occ := nbw + nocc in
  harm ← div (cell (MIS st) p) (sum_mis st);
  let noise := occ + K * harm in
  let line := {| process := p; Occ_Score := occ;
                 Harm_Score := harm; Noise_Score := noise |} in
  Some (if gt noise (maxN acc)
        then {| lines := lines acc ++ [line]; maxN := noise; noisy := p |}
        else {| lines := lines acc ++ [line];
                maxN := maxN acc; noisy := noisy acc |}).

Fixpoint score_loop (K : Q) (st : scorer) (ps : list string) (acc : report)
  : option report :=
  match ps with
  | [] => Some acc
  | p :: rest => acc' ← score_step K st acc p; score_loop K st rest acc'
  end.

(** The END block: the three floors, then the scoring loop from
    [maxN=-1] with [noisy] unset. *)
Definition floors (st : scorer) : scorer :=
  {| MIS := MIS st; LLC := LLC st; BW := BW st;
     sum_mis := or_one (sum_mis st);
     sum_llc := or_one (sum_llc st);
     sum_bw := or_one (sum_bw st);
     procs := procs st |}.

Definition END (K : Q) (st : scorer) : option report :=
  score_loop K (floors st) (procs st)
    {| lines := []; maxN := - (1); noisy := EmptyString |}.

(** The whole scoring program on the rows of the CSV; [None] stands for a
    fatal awk error. *)
Definition score (K : Q) (rows : list agg_row) : option report :=
  END K (fold_left row_rule rows start).

End Scorer.


(** ** Decimal texts, for the statements about parsing *)

Fixpoint all_digits (s : string) : bool :=
  match s with
  | EmptyString => true
  | String c r => is_digit c && all_digits r
  end.

(** A non-empty text of decimal digits. *)
Definition digits_only (s : string) : bool :=
  match s with
  | EmptyString => false
  | _ => all_digits s
  end.

Fixpoint dec_from (acc : Z) (s : string) : Z :=
  match s with
  | EmptyString => acc
  | String c r => dec_from (10 * acc + digit_val c) r
  end.

(** The number a text of decimal digits denotes. *)
Definition dec_value (s : string) : Z := dec_from 0 s.

(** The tick-wide total of one column, as the rule [NR>1] accumulates it. *)
Definition total (f : Aggregator.agg_row -> Z) (rows : list Aggregator.agg_row) : Q :=
  fold_left (fun s r => (s + inject_Z (f r))%Q) rows 0%Q.

(** The scores of one row of the CSV, from the row and the tick's totals. *)
Definition scored (K : Q) (rows : list Aggregator.agg_row) (r : Aggregator.agg_row)
  : Scorer.score_line :=
  let normBW := (inject_Z (Aggregator.bw_sum r)
                 / Scorer.or_one (total Aggregator.bw_sum rows))%Q in
  let normOcc := (inject_Z (Aggregator.llc_kb_sum r)
                  / Scorer.or_one (total Aggregator.llc_kb_sum rows))%Q in
  let normMiss := (inject_Z (Aggregator.mis_sum r)
                   / Scorer.or_one (total Aggregator.mis_sum rows))%Q in
  {| Scorer.process := Aggregator.proc r;
     Scorer.Occ_Score := (normBW + normOcc)%Q;
     Scorer.Harm_Score := normMiss;
     Scorer.Noise_Score := ((normBW + normOcc) + K * normMiss)%Q |}.

Definition agg (name : string) (mis llc bw : Z) : Aggregator.agg_row :=
  {| Aggregator.proc := name; Aggregator.mis_sum := mis;
     Aggregator.llc_kb_sum := llc; Aggregator.bw_sum := bw |}.

(** Three processes with bandwidths 10, 20 and 70, 100 misses each, and
    occupancies [o1], [o2], [o3]. *)
Definition three_processes (n1 n2 n3 : string) (o1 o2 o3 : Z)
  : list Aggregator.agg_row :=
  [agg n1 100 o1 10; agg n2 100 o2 20; agg n3 100 o3 70].


(** The same three processes with equal occupancies, and with the
    occupancy held by the process of bandwidth 10. *)
Definition tick_equal_occupancy : list Aggregator.agg_row :=
  three_processes "p10" "p20" "p70" 500 500 500.

Definition tick_skewed_occupancy : list Aggregator.agg_row :=
  three_processes "p10" "p20" "p70" 1000 0 0.



(** A tick without bandwidth and without occupancy. *)
Definition tick_idle : list Aggregator.agg_row :=
  [agg "a" 5 0 0; agg "b" 7 0 0].

(** ** The aggregation, for the statements about it *)

Definition Zsum (l : list Z) : Z := fold_right Z.add 0 l.

(** The occupancy the block parser hands to bash for one pid. *)
Definition llc_val (pqos : Z -> list string) (pid : Z) : Z :=
  snd (fst (Aggregator.parse_log (pqos pid))).

(** The pids the loop over [PID_LISTS] runs pqos for, in order. *)
Definition sampled (tops : list (string * list Z)) : list Z :=
  flat_map snd tops.

(** The entries of [TOP_PIDS] that resolved to a pid. *)
Definition resolved (tops : list (string * list Z)) : list string :=
  map fst (List.filter (fun e => negb (Nat.eqb (length (snd e)) 0)) tops).

(** A pqos log with one block of one row, whose LLC[KB] column is [llc]. *)
Definition one_row_log (llc : string) : list string :=
  ["TIME 2024-05-01 10:00:01";
   "    PID       CORE         IPC      MISSES     LLC[KB]   MBL[MB/s]   MBR[MB/s]";
   "   4242        0-3        1.10         12k  " +:+ llc +:+ "         1.0         2.0"].

(** A host on which pid 1 holds 9.5 KB and pid 7 holds 5 KB of cache, and
    a list in which both belong to one process. *)
Definition pqos_two_targets (pid : Z) : list string :=
  if pid =? 1 then one_row_log "9.5"
  else if pid =? 7 then one_row_log "5.0"
  else [].

Definition tops_two_targets : list (string * list Z) :=
  [("procA", [1; 7]); ("procB", [])].

(** A text without blanks: one awk field. *)
Fixpoint no_blank (s : string) : bool :=
  match s with
  | EmptyString => true
  | String c r => negb (Awk.is_blank c) && no_blank r
  end.

(** ** Sample inputs used by the examples *)

(** One poll of a group: 5000 misses, 4000 KB of cache, 2 MB/s locally. *)
Definition poll_5000 : mon_values :=
  {| ipc := 1; llc_misses_delta := 5000; llc := 4096000;
     mbm_local_delta := 2000000; mbm_remote_delta := 0 |}.

(** ** The scorer's output, for the statements about it *)

(** The line the scoring loop prints for process [p]. *)
Definition line_for (K : Q) (st : Scorer.scorer) (p : string) : Scorer.score_line :=
  let occ := (Scorer.cell (Scorer.BW st) p / Scorer.sum_bw st
              + Scorer.cell (Scorer.LLC st) p / Scorer.sum_llc st)%Q in
  let harm := (Scorer.cell (Scorer.MIS st) p / Scorer.sum_mis st)%Q in
  {| Scorer.process := p;
     Scorer.Occ_Score := occ;
     Scorer.Harm_Score := harm;
     Scorer.Noise_Score := (occ + K * harm)%Q |}.

(** The running maximum after one more line: [if(noise>maxN){...}]. *)
Definition pick (best : Q * string) (l : Scorer.score_line) : Q * string :=
  if Scorer.gt (Scorer.Noise_Score l) (fst best)
  then (Scorer.Noise_Score l, Scorer.process l)
  else best.


(** A two-socket host on which every call succeeds: the VMs "vm1" and
    "vm2" run as pids 100 and 200, and every poll reads [poll_5000]. *)
Definition host_ok : host :=
  {| proc_alive := fun _ _ => true;
     io_denied := fun _ => false;
     cpu_packages := Some [Some 1; Some 0; None; Some 1; Some 0];
     vm_pid := fun vm => if String.eqb vm "vm1" then 100 else 200;
     pqos_init_ret := fun _ => 0;
     pqos_reset_ret := fun _ => 0;
     mon_start_ret := fun _ _ => 0;
     mon_poll_ret := fun _ => 0;
     mon_stop_ret := fun _ _ => 0;
     mon_read := fun _ _ => poll_5000 |}.

(** The same host, on which pid 100 is gone one second after the start. *)
Definition host_vanishing : host :=
  {| proc_alive := fun pid t => negb (pid =? 100) || Nat.eqb t 0;
     io_denied := io_denied host_ok;
     cpu_packages := cpu_packages host_ok;
     vm_pid := vm_pid host_ok;
     pqos_init_ret := pqos_init_ret host_ok;
     pqos_reset_ret := pqos_reset_ret host_ok;
     mon_start_ret := mon_start_ret host_ok;
     mon_poll_ret := mon_poll_ret host_ok;
     mon_stop_ret := mon_stop_ret host_ok;
     mon_read := mon_read host_ok |}.

(** A world at time 0 in which the platform's mask file holds [cbm]. *)
Definition world_with_mask (cbm : string) : world :=
  {| files := {[ CBM_MASK_PATH := [Text cbm] ]};
     dirs := ∅; now := 0; trace := [] |}.

(** The events that change or use class membership: appends to a tasks
    file, removals of a class, starts of a monitoring group. *)
Definition membership_event (e : event) : bool :=
  match e with
  | EvAppend _ _ | EvRmdir _ | EvMonStart _ => true
  | _ => false
  end.

(** ** Hexadecimal texts, for the statements about masks *)

Fixpoint all_hex (s : string) : bool :=
  match s with
  | EmptyString => true
  | String c r => match hex_val c with Some _ => all_hex r | None => false end
  end.

(** A non-empty text of hexadecimal digits. *)
Definition hex_only (s : string) : bool :=
  match s with
  | EmptyString => false
  | _ => all_hex s
  end.

Fixpoint hex_from (acc : Z) (s : string) : Z :=
  match s with
  | EmptyString => acc
  | String c r => hex_from (16 * acc + default 0 (hex_val c)) r
  end.

(** The number a text of hexadecimal digits denotes. *)
Definition hex_value (s : string) : Z := hex_from 0 s.

(** ** The exchange sort of [detect_sockets], on the part it still changes *)

(** One run of the inner loop over [rest], with [x] in slot [i]: a smaller
    element found takes the slot, and the slot's element takes its place. *)
Fixpoint sweep (x : Z) (rest : list Z) : Z * list Z :=
  match rest with
  | [] => (x, [])
  | y :: r =>
      if y <? x
      then let '(x', r') := sweep y r in (x', x :: r')
      else let '(x', r') := sweep x r in (x', y :: r')
  end.

(** The outer loop from slot [i] on. *)
Fixpoint sweep_all (n : nat) (l : list Z) : list Z :=
  match n, l with
  | S n', x :: rest => let '(x', rest') := sweep x rest in x' :: sweep_all n' rest'
  | _, _ => l
  end.

(** ** Contiguous masks *)

(** The mask with [len] set bits from bit [lo] on. *)
Definition run_mask (lo len : Z) : Z := Z.shiftl (Z.ones len) lo.

(** ** Texts without a line break *)

Fixpoint no_newline (s : string) : bool :=
  match s with
  | EmptyString => true
  | String c r => negb (char_code c =? 10) && no_newline r
  end.

(** ** The rows of a sample log, for the statements about monitoring *)

(** The rows written for [pid] at the seconds [t0 + 1] to [t0 + n]. *)
Definition pair_rows (h : host) (t0 : nat) (pid : Z) (n : nat) : list chunk :=
  map (fun k => Row (sample_of (t0 + k) (pad_left " " 6 (dec_of_Z pid))
                       (mon_read h (Pid pid) (t0 + k))))
      (seq 1 n).

(** The rows written for the cores [start] to [start + nc - 1]. *)
Definition core_rows (h : host) (t0 : nat) (start nc : Z) (n : nat) : list chunk :=
  map (fun k => Row (sample_of (t0 + k) (RunRdt.cores_text start nc)
                       (mon_read h (Cores start nc) (t0 + k))))
      (seq 1 n).

(** The world after the header lines of [monitor_pids_pair] are written. *)
Definition after_headers (w : world) (pid1 pid2 : Z) (outfile1 outfile2 : string)
  : world :=
  {| files := <[outfile2 := [Header "PID"]]>
                (<[outfile1 := [Header "PID"]]> (files w));
     dirs := dirs w;
     now := now w;
     trace := trace w ++ [EvMonStart (Pid pid1); EvMonStart (Pid pid2);
                          EvFopen outfile1; EvFopen outfile2] |}.

(** The host of [host_ok] on which pid 100 is gone after second [n]. *)
Definition host_gone_after (n : nat) : host :=
  {| proc_alive := fun pid t => negb (pid =? 100) || (t <=? n)%nat;
     io_denied := io_denied host_ok;
     cpu_packages := cpu_packages host_ok;
     vm_pid := vm_pid host_ok;
     pqos_init_ret := pqos_init_ret host_ok;
     pqos_reset_ret := pqos_reset_ret host_ok;
     mon_start_ret := mon_start_ret host_ok;
     mon_poll_ret := mon_poll_ret host_ok;
     mon_stop_ret := mon_stop_ret host_ok;
     mon_read := mon_read host_ok |}.

(** The host of [host_ok] with a single package, and the one on which
    both VM names resolve to the same QEMU process. *)
Definition host_one_socket : host :=
  {| proc_alive := proc_alive host_ok;
     io_denied := io_denied host_ok;
     cpu_packages := Some [Some 0; None; Some 0];
     vm_pid := vm_pid host_ok;
     pqos_init_ret := pqos_init_ret host_ok;
     pqos_reset_ret := pqos_reset_ret host_ok;
     mon_start_ret := mon_start_ret host_ok;
     mon_poll_ret := mon_poll_ret host_ok;
     mon_stop_ret := mon_stop_ret host_ok;
     mon_read := mon_read host_ok |}.

Definition host_one_vm : host :=
  {| proc_alive := proc_alive host_ok;
     io_denied := io_denied host_ok;
     cpu_packages := cpu_packages host_ok;
     vm_pid := fun _ => 100;
     pqos_init_ret := pqos_init_ret host_ok;
     pqos_reset_ret := pqos_reset_ret host_ok;
     mon_start_ret := mon_start_ret host_ok;
     mon_poll_ret := mon_poll_ret host_ok;
     mon_stop_ret := mon_stop_ret host_ok;
     mon_read := mon_read host_ok |}.

(** An event that creates a class or writes a schemata file. *)
Definition setup_event (e : event) : bool :=
  match e with
  | EvMkdir _ | EvWrite _ _ => true
  | _ => false
  end.

(** ** Sums of rationals, for the statements about shares *)

Definition Qsum (l : list Q) : Q := fold_right Qplus 0%Q l.

(** A pqos log of two blocks for one pid: 700 KB held at the first
    second, 900 KB at the second. *)
Definition two_block_log : list string :=
  ["TIME 2024-05-01 10:00:01";
   "    PID       CORE         IPC      MISSES     LLC[KB]   MBL[MB/s]   MBR[MB/s]";
   "   4242        0-3        1.10         12k       700.0         1.0         2.0";
   "TIME 2024-05-01 10:00:02";
   "    PID       CORE         IPC      MISSES     LLC[KB]   MBL[MB/s]   MBR[MB/s]";
   "   4242        0-3        1.20         15k       900.0         3.0         4.0"].

(** ** The pointer chain of the pointer-chasing load *)

Module Chase.

Section Chain.
(** [rand_r]: the value returned and the seed left behind. *)
Variable rand_r : Z -> Z * Z.

(** [tmp = idx[i]; idx[i] = idx[j]; idx[j] = tmp;] *)
Definition swap (idx : list nat) (i j : nat) : list nat :=
  match idx !! i, idx !! j with
  | Some tmp, Some b => <[j := tmp]> (<[i := b]> idx)
  | _, _ => idx
  end.

(** [for (size_t i = n - 1; i > 0; --i) { j = rand_r(&seed) % (i + 1); swap }],
    from the index [i] down. *)
Fixpoint shuffle_loop (i : nat) (idx : list nat) (seed : Z) : list nat :=
  match i with
  | O => idx
  | S i' =>
      let '(r, seed') := rand_r seed in
      let j := Z.to_nat (r mod Z.of_nat (i + 1)) in
      shuffle_loop i' (swap idx i j) seed'
  end.

(** [shuffle]; with [n == 0] the index [n - 1] wraps around and leaves the
    array, for which [None] stands. *)
Definition shuffle (idx : list nat) (n : nat) (seed : Z) : option (list nat) :=
  match n with
  | O => None
  | S m => Some (shuffle_loop m idx seed)
  end.

(** [for (i = 0; i < nodes - 1; ++i) chain[idx[i]] = &chain[idx[i+1]];]
    with [k] rounds left; a cell of the chain holds the index of the cell
    it points to, and [None] while it is not written. *)
Fixpoint link (k i : nat) (idx : list nat) (chain : list (option nat))
  : list (option nat) :=
  match k with
  | O => chain
  | S k' =>
      match idx !! i, idx !! S i with
      | Some a, Some b => link k' (S i) idx (<[a := Some b]> chain)
      | _, _ => chain
      end
  end.

(** [build_chain] for a buffer of [nodes] cache lines. *)
Definition build_chain (nodes : nat) (seed : Z) : option (list (option nat)) :=
  match shuffle (seq 0%nat nodes) nodes seed with
  | None => None
  | Some idx =>
      let chain := link (nodes - 1)%nat 0%nat idx (replicate nodes None) in
      match idx !! (nodes - 1)%nat, idx !! 0%nat with
      | Some a, Some b => Some (<[a := Some b]> chain)
      | _, _ => None
      end
  end.

(** The worker follows the pointer in the cell [p], [k] times. *)
Fixpoint chase (chain : list (option nat)) (k : nat) (p : nat) : option nat :=
  match k with
  | O => Some p
  | S k' =>
      match chain !! p with
      | Some (Some q) => chase chain k' q
      | _ => None
      end
  end.

(** victim.c keeps pointers into a data buffer instead:
    [for (i = 0; i < nodes; ++i) chain[i] = rawbuf + idx[i] * STRIDE;],
    a pointer being its offset from [rawbuf]. *)
Definition STRIDE : Z := 64.

Definition fill (idx : list nat) (nodes : nat) : list (option Z) :=
  map (fun i => (fun x => Z.of_nat x * STRIDE) <$> idx !! i) (seq 0%nat nodes).

Definition build_offsets (nodes : nat) (seed : Z) : option (list (option Z)) :=
  match shuffle (seq 0%nat nodes) nodes seed with
  | None => None
  | Some idx => Some (fill idx nodes)
  end.

End Chain.

(** [BUF_SIZE / STRIDE] *)
Definition nodes : nat := Z.to_nat (18 * 1024 * 1024 / 64).

End Chase.

(** A linear congruential generator in the place of [rand_r]. *)
Definition lcg (seed : Z) : Z * Z :=
  let next := (seed * 1103515245 + 12345) mod 2 ^ 31 in (next, next).

(** ** The per-core scorer: the awk program of the script kept after
       victim.c (its step 4) *)

Module CoreScript.

Local Open Scope Q_scope.

(** [gsub(/k$/,"000",mis); gsub(/m$/,"000000",mis);
     gsub(/K$/,"000",mis); gsub(/M$/,"000000",mis); mis+=0] *)
Definition expand_mis (mis : string) : Q :=
  Awk.strtonum
    (Awk.gsub_suffix "M" "000000"
       (Awk.gsub_suffix "K" "000"
          (Awk.gsub_suffix "m" "000000"
             (Awk.gsub_suffix "k" "000" mis)))).

Fixpoint skip_digits (s : string) : string :=
  match s with
  | String c r => if is_digit c then skip_digits r else s
  | EmptyString => s
  end.

(** The record pattern [/^[[:space:]]*[0-9]+[[:space:]]+/]. *)
Definition data_line (line : string) : bool :=
  match skip_space line with
  | String c r =>
      is_digit c
      && match skip_digits r with
         | String d _ => is_space d
         | EmptyString => false
         end
  | EmptyString => false
  end.

(** One data line of the block, as the arrays [core], [PROC], [IPC],
    [MIS], [LLC], [MBL] and [MBR] hold it under one subscript. *)
Record row := {
  core : Q;
  PROC : string;
  IPC : Q;
  MIS : Q;
  LLC : Q;
  MBL : Q;
  MBR : Q
}.

(** The sums [P_IPC[p]], [P_MIS[p]], [P_LLC[p]], [P_MBL[p]], [P_MBR[p]]. *)
Record sums := { P_IPC : Q; P_MIS : Q; P_LLC : Q; P_MBL : Q; P_MBR : Q }.

(** One line of proc_scores.csv after its header. *)
Record score_line := {
  line_time : string;
  process : string;
  per_process : sums;
  norm_bw : Q;
  norm_llc_occ : Q;
  norm_llc_miss : Q;
  Occ_Score : Q;
  Harm_Score : Q;
  Noise_Score : Q
}.

(** One line of culprits.log. *)
Record verdict := { verdict_time : string; culprit : string; noise : Q }.

(** The awk variables between two input lines, and what was printed.
    [idx] is [None] while nothing was assigned to it; [rows] holds the
    seven block arrays, which are always written under the same
    subscript. *)
Record state := {
  time : string;
  have_block : bool;
  idx : option nat;
  rows : gmap string row;
  OUT : list score_line;
  VER : list verdict
}.

(** No block variable is set by the BEGIN block. *)
Definition BEGIN : state :=
  {| time := EmptyString; have_block := false; idx := None; rows := ∅;
     OUT := []; VER := [] |}.

(** A number used as array subscript: an integral value is converted as
    an integer (the data rule yields integral core ids only). *)
Definition subscript (n : Q) : string := dec_of_Z (Awk.to_int n).

(** [idx] used as array subscript: a variable that was never assigned is
    the empty string there. *)
Definition index (i : option nat) : string :=
  match i with
  | None => EmptyString
  | Some n => dec_of_Z (Z.of_nat n)
  end.

(** What the seven arrays give for a subscript that was never written. *)
Definition unset_row : row :=
  {| core := 0; PROC := EmptyString; IPC := 0; MIS := 0; LLC := 0;
     MBL := 0; MBR := 0 |}.

Section Script.
(** The array [core2proc] as the BEGIN block loaded it, the weight [K],
    and the order in which [for (p in P_IPC)] visits the subscripts. *)
Variable core2proc : gmap string string.
Variable K : Q.
Variable for_in : gset string -> list string.

(** The data rule, up to [idx++; have_block=1]. *)
Definition read_row (line : string) : row :=
  let fs := Awk.fields line in
  let core_id := (Awk.strtonum (Awk.field 1 fs) + 0)%Q in
  {| core := core_id;
     PROC := default "unmapped" (core2proc !! subscript core_id);
     IPC := Awk.strtonum (Awk.field 2 fs) + 0;
     MIS := expand_mis (Awk.field 3 fs) + 0;
     LLC := Awk.strtonum (Awk.field 4 fs) + 0;
     MBL := Awk.strtonum (Awk.field 5 fs) + 0;
     MBR := Awk.strtonum (Awk.field 6 fs) + 0 |}.

Definition no_sums : sums :=
  {| P_IPC := 0; P_MIS := 0; P_LLC := 0; P_MBL := 0; P_MBR := 0 |}.

(** [P_IPC[p]+=IPC[i]; P_MIS[p]+=MIS[i]; ...] on the five sums of [p]. *)
Definition plus_row (old : sums) (r : row) : sums :=
  {| P_IPC := P_IPC old + IPC r;
     P_MIS := P_MIS old + MIS r;
     P_LLC := P_LLC old + LLC r;
     P_MBL := P_MBL old + MBL r;
     P_MBR := P_MBR old + MBR r |}.

(** Body of the first loop of [flush_block], with [p=PROC[i]]; an unset
    sum counts as 0. *)
Definition add_row (P : gmap string sums) (r : row) : gmap string sums :=
  <[PROC r := plus_row (default no_sums (P !! PROC r)) r]> P.

Record totals := { sum_bw : Q; sum_occ : Q; sum_mis : Q }.

(** Body of the second loop: [bw=P_MBL[p]+P_MBR[p]; sum_bw+=bw; ...]. *)
Definition add_total (P : gmap string sums) (t : totals) (p : string) : totals :=
  let s := default no_sums (P !! p) in
  {| sum_bw := sum_bw t + (P_MBL s + P_MBR s);
     sum_occ := sum_occ t + P_LLC s;
     sum_mis := sum_mis t + P_MIS s |}.

(** [if(sum_bw==0) sum_bw=1; ...] *)
Definition floors (t : totals) : totals :=
  {| sum_bw := Scorer.or_one (sum_bw t);
     sum_occ := Scorer.or_one (sum_occ t);
     sum_mis := Scorer.or_one (sum_mis t) |}.

(** Body of the third loop: the line printed for [p], and the running
    maximum. *)
Definition score_step (tm : string) (P : gmap string sums) (t : totals)
    (acc : list score_line * (Q * string)) (p : string)
  : option (list score_line * (Q * string)) :=
  let s := default no_sums (P !! p) in
  let bw := P_MBL s + P_MBR s in
  nbw ← Scorer.div bw (sum_bw t);
  nocc ← Scorer.div (P_LLC s) (sum_occ t);
  nharm ← Scorer.div (P_MIS s) (sum_mis t);
  let occ := nbw + nocc in
  let harm := nharm in
  let noise := occ + K * harm in
  let line := {| line_time := tm; process := p; per_process := s;
                 norm_bw := nbw; norm_llc_occ := nocc; norm_llc_miss := nharm;
                 Occ_Score := occ; Harm_Score := harm; Noise_Score := noise |} in
  Some (acc.1 ++ [line],
        if Scorer.gt noise acc.2.1 then (noise, p) else acc.2).

Fixpoint score_loop (tm : string) (P : gmap string sums) (t : totals)
    (ps : list string) (acc : list score_line * (Q * string))
  : option (list score_line * (Q * string)) :=
  match ps with
  | [] => Some acc
  | p :: rest => acc' ← score_step tm P t acc p; score_loop tm P t rest acc'
  end.

(** The rows that [for(i=0;i<idx;i++)] reads. *)
Definition block (st : state) : list row :=
  map (fun i => default unset_row (rows st !! index (Some i)))
      (seq 0 (default 0%nat (idx st))).

(** [flush_block]; both loops over [P_IPC] visit the subscripts in the
    same order; [None] stands for a fatal awk error. *)
Definition flush_block (st : state) : option state :=
  let P := fold_left add_row (block st) ∅ in
  let ps := for_in (dom P) in
  let t := floors (fold_left (add_total P) ps
                     {| sum_bw := 0; sum_occ := 0; sum_mis := 0 |}) in
  '(lines, (maxN, culprit)) ←
    score_loop (time st) P t ps ([], (- (1), EmptyString));
  Some {| time := time st; have_block := have_block st;
          idx := idx st; rows := rows st;
          OUT := OUT st ++ lines;
          VER := VER st ++ [{| verdict_time := time st; culprit := culprit;
                               noise := maxN |}] |}.

(** [reset_block] empties the arrays and sets [idx=0]; [have_block] keeps
    its value. *)
Definition reset_block (st : state) : state :=
  {| time := time st; have_block := have_block st;
     idx := Some 0%nat; rows := ∅;
     OUT := OUT st; VER := VER st |}.

(** The two rules, for one input line. *)
Definition rules (st : state) (line : string) : option state :=
  let fs := Awk.fields line in
  if String.eqb (Awk.field 1 fs) "TIME" then
    st' ← (if have_block st
           then option_map reset_block (flush_block st)
           else Some st);
    Some {| time := Awk.field 2 fs +:+ " " +:+ Awk.field 3 fs;
            have_block := have_block st';
            idx := idx st'; rows := rows st';
            OUT := OUT st'; VER := VER st' |}
  else if data_line line then
    Some {| time := time st; have_block := true;
            idx := Some (S (default 0%nat (idx st)));
            rows := <[index (idx st) := read_row line]> (rows st);
            OUT := OUT st; VER := VER st |}
  else Some st.

(** [END{ if(have_block) flush_block(); }] *)
Definition END (st : state) : option state :=
  if have_block st then flush_block st else Some st.

Fixpoint run_rules (st : state) (log : list string) : option state :=
  match log with
  | [] => Some st
  | line :: rest => st' ← rules st line; run_rules st' rest
  end.

(** The awk program on the lines of the pqos log. *)
Definition run (log : list string) : option state :=
  st ← run_rules BEGIN log; END st.

End Script.

End CoreScript.

(** ** The per-core scorer, for the statements about it *)

(** The rows of a block that carry the label [p], in the order of the block. *)
Definition rows_of (p : string) (rs : list CoreScript.row) : list CoreScript.row :=
  List.filter (fun r => String.eqb (CoreScript.PROC r) p) rs.

(** The five sums of the rows labelled [p], added in the order of the block. *)
Definition label_sums (p : string) (rs : list CoreScript.row) : CoreScript.sums :=
  fold_left CoreScript.plus_row (rows_of p rs) CoreScript.no_sums.

(** A TIME line of the log. *)
Definition time_line (line : string) : bool :=
  String.eqb (Awk.field 1 (Awk.fields line)) "TIME".

(** The state that [reset_block] leaves once a data line was read. *)
Definition after_reset (st : CoreScript.state) : Prop :=
  CoreScript.have_block st = true
  /\ CoreScript.idx st = Some 0%nat /\ CoreScript.rows st = ∅.

(** A log of one block of three cores, and the same block as the second
    block of a log. *)
Definition one_block_log : list string :=
  ["TIME 2024-05-01 10:00:01";
   "    CORE         IPC      MISSES     LLC[KB]   MBL[MB/s]   MBR[MB/s]";
   "      24        1.10         12k       700.0         1.0         2.0";
   "      25        0.90          3K       100.0         5.0         0.0";
   "      40        0.50          1M       200.0         0.0         0.0"].

(** Core 24 belongs to proc1, cores 25 and 26 to proc2. *)
Definition sample_core_map : gmap string string :=
  <["24" := "proc1"]> (<["25" := "proc2"]> (<["26" := "proc2"]> ∅)).

(** The variables after the three data lines of [one_block_log], read as
    the second block of a log. *)
Definition second_block : CoreScript.state :=
  {| CoreScript.time := "2024-05-01 10:00:02";
     CoreScript.have_block := true;
     CoreScript.idx := Some 3%nat;
     CoreScript.rows :=
       list_to_map
         (zip ["0"; "1"; "2"]
              (map (CoreScript.read_row sample_core_map) (drop 2 one_block_log)));
     CoreScript.OUT := [];
     CoreScript.VER := [] |}.

(** ** The random load: the offset it touches *)

Module RandomLoad.

Definition BUF_SIZE : Z := 512 * 1024 * 1024.
Definition STRIDE : Z := 64.
Definition ADDR_MASK : Z := Z.shiftl 1 29 - 1.

(** [low = (uint32_t)tsc; high = (uint32_t)(tsc >> 32); rnd = low ^ high;
     offset = rnd & ADDR_MASK;] for the time-stamp counter [tsc]. *)
Definition offset (tsc : Z) : Z :=
  let low := tsc mod 2 ^ 32 in
  let high := Z.shiftr tsc 32 mod 2 ^ 32 in
  let rnd := Z.lxor low high in
  Z.land rnd ADDR_MASK.

End RandomLoad.

(** ** The tree load: tree_victim.c *)

Module Tree.

(** A node without its padding. A pointer to a node is the number of the
    node among the nodes allocated, counted from 0; [None] is [NULL]. *)
Record Node := { val : Z; left : option nat; right : option nat }.

(** [X->val = count; X->left = X->right = NULL;] *)
Definition leaf (count : Z) : Node :=
  {| val := count; left := None; right := None |}.

Definition set_left (L : option nat) (n : Node) : Node :=
  {| val := val n; left := L; right := right n |}.

Definition set_right (R : option nat) (n : Node) : Node :=
  {| val := val n; left := left n; right := R |}.

(** [sizeof(Node)] and the size of a pointer to a node. *)
Definition NODE_SIZE : Z := 64.
Definition POINTER_SIZE : Z := 8.

(** How a call ends: with a value, or in [perror(what); exit(1)]. *)
Inductive result (A : Type) :=
| Ret (a : A)
| Exit (what : string).
Arguments Ret {A} a.
Arguments Exit {A} what.

(** The nodes allocated so far, the slots of [queue] below [tail], the
    number of slots that [queue] has room for, and the variables [head]
    and [count]; [count] stays below [max_nodes + 1], so it does not
    wrap. *)
Record state := {
  heap : list Node;
  queue : list nat;
  slots : Z;
  head : nat;
  count : Z
}.

Section Alloc.
(** [malloc k size]: whether the call number [k] of [malloc], counted from
    0 and asking for [size] bytes, returns a pointer; the queue is call 0
    and the node number [i] is call [i + 1]. *)
Variable malloc : nat -> Z -> bool.

(** One round of [while (count < max_nodes)]; [None] when [queue[head]]
    was never written or [queue[tail]] lies outside the block
    allocated. *)
Definition step (max_nodes : Z) (s : state) : option (result state) :=
  parent ← queue s !! head s;
  if negb (malloc (S (length (heap s))) NODE_SIZE) then Some (Exit "malloc L")
  else if slots s <=? Z.of_nat (length (queue s)) then None
  else
    let L := length (heap s) in
    let heap1 := alter (set_left (Some L)) parent (heap s ++ [leaf (count s)]) in
    let queue1 := queue s ++ [L] in
    let count1 := count s + 1 in
    if count1 <? max_nodes then
      if negb (malloc (S (length heap1)) NODE_SIZE) then Some (Exit "malloc R")
      else if slots s <=? Z.of_nat (length queue1) then None
      else
        let R := length heap1 in
        Some (Ret {| heap := alter (set_right (Some R)) parent (heap1 ++ [leaf count1]);
                     queue := queue1 ++ [R];
                     slots := slots s;
                     head := S (head s);
                     count := count1 + 1 |})
    else
      Some (Ret {| heap := alter (set_right None) parent heap1;
                   queue := queue1;
                   slots := slots s;
                   head := S (head s);
                   count := count1 |}).

(** The loop, for at most [fuel] rounds. *)
Fixpoint grow (fuel : nat) (max_nodes : Z) (s : state) : option (result state) :=
  match fuel with
  | O => if count s <? max_nodes then None else Some (Ret s)
  | S fuel' =>
      if count s <? max_nodes then
        match step max_nodes s with
        | Some (Ret s') => grow fuel' max_nodes s'
        | other => other
        end
      else Some (Ret s)
  end.

(** [build_tree]: the pointer returned and the nodes allocated.  The
    size of the queue is a product in [size_t], which wraps.  A shift
    [1ULL << levels] by 64 or more is undefined, for which [None] stands
    as it does for a loop that needs more than [fuel] rounds. *)
Definition build_tree (fuel : nat) (levels : Z)
  : option (result (option nat * list Node)) :=
  if levels =? 0 then Some (Ret (None, []))
  else if 64 <=? levels then None
  else
    let max_nodes := Z.shiftl 1 levels - 1 in
    let size := wrap64 (max_nodes * POINTER_SIZE) in
    if negb (malloc 0 size) then Some (Exit "malloc queue")
    else if negb (malloc 1 NODE_SIZE) then Some (Exit "malloc root")
    else if size / POINTER_SIZE <=? 0 then None
    else
      r ← grow fuel max_nodes
            {| heap := [leaf 0]; queue := [0%nat]; slots := size / POINTER_SIZE;
               head := 0%nat; count := 1 |};
      match r with
      | Ret s => Some (Ret (Some 0%nat, heap s))
      | Exit what => Some (Exit what)
      end.

End Alloc.

(** [traverse]: the nodes whose [val] is read, in the order of the reads;
    [fuel] bounds the depth of the recursion, and [None] stands for a
    pointer that leaves the allocated nodes or a recursion deeper than
    [fuel]. *)
Fixpoint traverse (fuel : nat) (heap : list Node) (n : option nat)
  : option (list nat) :=
  match n with
  | None => Some []
  | Some p =>
      match fuel with
      | O => None
      | S fuel' =>
          nd ← heap !! p;
          if val nd mod 2 =? 0 then
            r ← traverse fuel' heap (right nd);
            l ← traverse fuel' heap (left nd);
            Some (p :: r ++ l)
          else
            l ← traverse fuel' heap (left nd);
            r ← traverse fuel' heap (right nd);
            Some (p :: l ++ r)
      end
  end.

End Tree.

(** ** The tree load, for the statements about it *)

(** The child [c] of a node in a tree of [max] nodes laid out level by
    level. *)
Definition child (max c : nat) : option nat :=
  if (c <? max)%nat then Some c else None.

(** The node [k] of that tree: its children are the nodes [2k+1] and
    [2k+2], where they exist. *)
Definition heap_node (max k : nat) : Tree.Node :=
  {| Tree.val := Z.of_nat k;
     Tree.left := child max (2 * k + 1);
     Tree.right := child max (2 * k + 2) |}.

Definition full_tree (max : nat) : list Tree.Node :=
  heap_node max <$> seq 0%nat max.

(** The nodes while [head] is [h]: the nodes below [h] have both children,
    the others none yet. *)
Definition growing (h k : nat) : Tree.Node :=
  {| Tree.val := Z.of_nat k;
     Tree.left := if (k <? h)%nat then Some (2 * k + 1)%nat else None;
     Tree.right := if (k <? h)%nat then Some (2 * k + 2)%nat else None |}.

(** The loop invariant of [build_tree] at [head = h]. *)
Definition grown (h : nat) (s : Tree.state) : Prop :=
  Tree.head s = h
  /\ Tree.count s = Z.of_nat (2 * h + 1)
  /\ Tree.queue s = seq 0 (2 * h + 1)
  /\ Tree.heap s = growing h <$> seq 0 (2 * h + 1).

(** An allocator that grants every request. *)
Definition granting : nat -> Z -> bool := fun _ _ => true.

(** The order in which a sweep reads the subtree of [d] levels below the
    node [k]. *)
Fixpoint visit (d : nat) (k : nat) : list nat :=
  match d with
  | O => []
  | S d' =>
      if Z.of_nat k mod 2 =? 0
      then k :: visit d' (2 * k + 2) ++ visit d' (2 * k + 1)
      else k :: visit d' (2 * k + 1) ++ visit d' (2 * k + 2)
  end.

(** ** The per-core scorer: reading the map file in the BEGIN block *)

Module CoreMap.

(** The class [[ \t]]. *)
Definition is_sp (c : ascii) : bool :=
  (char_code c =? 32) || (char_code c =? 9).

Definition is_comma (c : ascii) : bool := char_code c =? 44.

Fixpoint drop_sp (s : string) : string :=
  match s with
  | String c r => if is_sp c then drop_sp r else s
  | EmptyString => s
  end.

Fixpoint drop_sp_end (s : string) : string :=
  match s with
  | EmptyString => EmptyString
  | String c r =>
      let r' := drop_sp_end r in
      if is_sp c && String.eqb r' EmptyString then EmptyString else String c r'
  end.

(** [gsub(/^[ \t]+|[ \t]+$/, "", line)] *)
Definition trim (line : string) : string := drop_sp_end (drop_sp line).

(** The pieces of [s] between the matches of [/[ \t]*,[ \t]*/]: [cur] is
    the piece read so far, [pend] the blanks read after it, which belong
    to the separator when a comma follows them, and [sep] tells that the
    blanks after a comma are being read. *)
Fixpoint pieces (s : string) (cur pend : string) (sep : bool) : list string :=
  match s with
  | EmptyString => [cur +:+ pend]
  | String c r =>
      if is_sp c then
        if sep then pieces r cur pend true
        else pieces r cur (pend +:+ String c EmptyString) false
      else if is_comma c then cur :: pieces r EmptyString EmptyString true
      else pieces r (cur +:+ pend +:+ String c EmptyString) EmptyString false
  end.

(** [split(s, a, /[ \t]*,[ \t]*/)]: the array as a list; no element for the
    empty text. *)
Definition split_sep (s : string) : list string :=
  match s with
  | EmptyString => []
  | _ => pieces s EmptyString EmptyString false
  end.

Fixpoint comma_pieces (s : string) (cur : string) : list string :=
  match s with
  | EmptyString => [cur]
  | String c r =>
      if is_comma c then cur :: comma_pieces r EmptyString
      else comma_pieces r (cur +:+ String c EmptyString)
  end.

(** [split(s, parts, /,/)] *)
Definition split_comma (s : string) : list string :=
  match s with
  | EmptyString => []
  | _ => comma_pieces s EmptyString
  end.

(** One round of the [getline] loop up to [n=split(corespec, parts, /,/)]:
    [None] for a line that is skipped, else [proc] and the array [parts]
    that the segment loop goes through. *)
Definition map_line (raw : string) : option (string * list string) :=
  let line := trim raw in
  if String.eqb line EmptyString || String.prefix "#" line then None
  else
    let a := split_sep line in
    let proc := nth 0 a EmptyString in
    let corespec := nth 1 a EmptyString in
    Some (proc, split_comma corespec).

End CoreMap.

(** ** The map file, for the statements about it *)

Fixpoint no_sp (s : string) : bool :=
  match s with
  | EmptyString => true
  | String c r => negb (CoreMap.is_sp c) && no_sp r
  end.

Fixpoint no_comma (s : string) : bool :=
  match s with
  | EmptyString => true
  | String c r => negb (CoreMap.is_comma c) && no_comma r
  end.

(** One entry of a map line: a text that is not empty and holds neither a
    blank nor a comma. *)
Definition entry (s : string) : Prop :=
  s <> EmptyString /\ no_sp s = true /\ no_comma s = true.

(** [,s1,s2,...,sk]: the entries after the first one. *)
Fixpoint more_entries (l : list string) : string :=
  match l with
  | [] => EmptyString
  | s :: r => "," +:+ s +:+ more_entries r
  end.

(** ** A log with an upper-case suffix, for the statements about it *)

(** A pqos log of one block for one pid whose MISSES column reads [3M]. *)
Definition upper_case_log : list string :=
  ["TIME 2024-05-01 10:00:01";
   "    PID       CORE         IPC      MISSES     LLC[KB]   MBL[MB/s]   MBR[MB/s]";
   "   4242        0-3        1.10          3M       512.0         1.0         2.0"].

(** ** The text of a row, for the statements about reading it back *)

(** The second line that one [fprintf] of the monitoring loops prints for
    a row, without its line break:
    ["     %6d   %5.2f   %8lluk   %7llu    %6.2f     %6.2f"], and with
    [%2d-%2d] for the target in run_rdt.c.  The target and the MISSES
    column are kept as their texts in the row; [fixed2] stands for the
    digits that [%.2f] prints for a number. *)
Definition row_line (fixed2 : Q -> string) (r : sample) : string :=
  "     " +:+ row_target r
  +:+ "   " +:+ pad_left " " 5 (fixed2 (row_ipc r))
  +:+ "   " +:+ row_misses r
  +:+ "   " +:+ pad_left " " 7 (dec_of_nonneg (row_llc_kb r))
  +:+ "    " +:+ pad_left " " 6 (fixed2 (row_mbl r))
  +:+ "     " +:+ pad_left " " 6 (fixed2 (row_mbr r)).

(** A number with two decimals, rounded half away from zero: the text of
    [%.2f] for the numbers of the examples. *)
Definition two_decimals (q : Q) : string :=
  let c := (2 * Z.abs (Qnum q) * 100 + Z.pos (Qden q)) / (2 * Z.pos (Qden q)) in
  (if Qnum q <? 0 then "-" else "")
  +:+ dec_of_nonneg (c / 100) +:+ "." +:+ pad_left "0" 2 (dec_of_nonneg (c mod 100)).

(** A text that awk reads as one field. *)
Definition word (s : string) : Prop := s <> EmptyString /\ no_blank s = true.

(** ** The scorer of noisy_detector.sh in awk's arithmetic *)

(** awk computes in binary64.  [Rounded] is the scoring program of
    [Scorer] with every number that awk computes passed through [rnd],
    the rounding of the arithmetic: the numbers read from the CSV, the
    three sums, the quotients, and the sums and the product of the scores.
    With the identity for [rnd] it is [Scorer]. *)
Module Rounded.

Import Aggregator.
Local Open Scope Q_scope.

Section Rounding.
Variable rnd : Q -> Q.

(** The rule [NR>1 { ... }] for one line of the CSV. *)
Definition row_rule (st : Scorer.scorer) (r : agg_row) : Scorer.scorer :=
  let p := proc r in
  let mis := rnd (inject_Z (mis_sum r)) in
  let llc := rnd (inject_Z (llc_kb_sum r)) in
  let bw := rnd (inject_Z (bw_sum r)) in
  {| Scorer.MIS := <[p := mis]> (Scorer.MIS st);
     Scorer.LLC := <[p := llc]> (Scorer.LLC st);
     Scorer.BW := <[p := bw]> (Scorer.BW st);
     Scorer.sum_mis := rnd (Scorer.sum_mis st + mis);
     Scorer.sum_llc := rnd (Scorer.sum_llc st + llc);
     Scorer.sum_bw := rnd (Scorer.sum_bw st + bw);
     Scorer.procs := Scorer.procs st ++ [p] |}.

(** awk division: dividing by zero is a fatal error. *)
Definition div (a b : Q) : option Q :=
  if Qeq_bool b 0 then None else Some (rnd (a / b)).

(** Body of [for(i=1;i<=n;i++)]. *)
Definition score_step (K : Q) (st : Scorer.scorer) (acc : Scorer.report)
    (p : string) : option Scorer.report :=
  nbw ← div (Scorer.cell (Scorer.BW st) p) (Scorer.sum_bw st);
  nocc ← div (Scorer.cell (Scorer.LLC st) p) (Scorer.sum_llc st);
  let occ := rnd (nbw + nocc) in
  harm ← div (Scorer.cell (Scorer.MIS st) p) (Scorer.sum_mis st);
  let noise := rnd (occ + rnd (K * harm)) in
  let line := {| Scorer.process := p; Scorer.Occ_Score := occ;
                 Scorer.Harm_Score := harm; Scorer.Noise_Score := noise |} in
  Some (if Scorer.gt noise (Scorer.maxN acc)
        then {| Scorer.lines := Scorer.lines acc ++ [line];
                Scorer.maxN := noise; Scorer.noisy := p |}
        else {| Scorer.lines := Scorer.lines acc ++ [line];
                Scorer.maxN := Scorer.maxN acc; Scorer.noisy := Scorer.noisy acc |}).

Fixpoint score_loop (K : Q) (st : Scorer.scorer) (ps : list string)
    (acc : Scorer.report) : option Scorer.report :=
  match ps with
  | [] => Some acc
  | p :: rest => acc' ← score_step K st acc p; score_loop K st rest acc'
  end.

(** The END block: the three floors, then the scoring loop from
    [maxN=-1] with [noisy] unset. *)
Definition END (K : Q) (st : Scorer.scorer) : option Scorer.report :=
  score_loop K (Scorer.floors st) (Scorer.procs st)
    {| Scorer.lines := []; Scorer.maxN := - (1); Scorer.noisy := EmptyString |}.

(** The whole scoring program on the rows of the CSV; [None] stands for a
    fatal awk error. *)
Definition score (K : Q) (rows : list agg_row) : option Scorer.report :=
  END K (fold_left row_rule rows Scorer.start).

End Rounding.

(** The exponent of the binary64 number format for a positive rational:
    [floor (log2 a)], and not below that of the smallest normal number. *)
Definition exponent (a : Q) : Z :=
  let n := Qnum a in
  let d := Z.pos (Qden a) in
  let e0 := (Z.log2 n - Z.log2 d)%Z in
  let below :=
    if (0 <=? e0)%Z then (n <? d * 2 ^ e0)%Z else (n * 2 ^ (- e0) <? d)%Z in
  Z.max (if below then e0 - 1 else e0) (-1022).

(** The power of two with the exponent [z]. *)
Definition pow2 (z : Z) : Q :=
  match z with
  | Z0 => 1
  | Z.pos p => Z.pos (2 ^ p) # 1
  | Z.neg p => 1 # (2 ^ p)
  end.

(** Rounding to the nearest integer, ties to the even one. *)
Definition nearest_even (m : Q) : Z :=
  let f := (Qnum m / Z.pos (Qden m))%Z in
  match Qcompare (m - inject_Z f)%Q (1 # 2)%Q with
  | Lt => f
  | Gt => (f + 1)%Z
  | Eq => if Z.even f then f else (f + 1)%Z
  end.

(** Rounding to binary64, to nearest and ties to even, with its 53 bits
    and its subnormal numbers; a result beyond the largest finite number,
    which the arithmetic takes to infinity, is not modelled. *)
Definition binary64 (q : Q) : Q :=
  if Qeq_bool q 0 then 0
  else
    let a := Z.abs (Qnum q) # Qden q in
    let unit := pow2 (exponent a - 52) in
    let v := inject_Z (nearest_even (a / unit)) * unit in
    if (Qnum q <? 0)%Z then - v else v.

End Rounded.

(** ** A tick of three processes whose scores tie in exact arithmetic *)


(** The line the scoring loop prints for process [p] in awk's
    arithmetic: every quotient is taken by a sum of [st]. *)
Definition rounded_line (rnd : Q -> Q) (K : Q) (st : Scorer.scorer) (p : string)
  : Scorer.score_line :=
  let nbw := rnd (Scorer.cell (Scorer.BW st) p / Scorer.sum_bw st)%Q in
  let nocc := rnd (Scorer.cell (Scorer.LLC st) p / Scorer.sum_llc st)%Q in
  let occ := rnd (nbw + nocc)%Q in
  let harm := rnd (Scorer.cell (Scorer.MIS st) p / Scorer.sum_mis st)%Q in
  {| Scorer.process := p;
     Scorer.Occ_Score := occ;
     Scorer.Harm_Score := harm;
     Scorer.Noise_Score := rnd (occ + rnd (K * harm))%Q |}.

(** ** Occupancy, for the statements about its conservation *)

(** The occupancy that the lines of proc_scores.csv report, summed over
    the processes, and the occupancy of the rows of a block. *)
Definition reported_occupancy (lines : list CoreScript.score_line) : Q :=
  Qsum (map (fun l => CoreScript.P_LLC (CoreScript.per_process l)) lines).

Definition sampled_occupancy (rs : list CoreScript.row) : Q :=
  Qsum (map CoreScript.LLC rs).

(** ** Symbolic runs of the programs *)

(** One step of unfolding of the program monad and of the host calls. *)
Ltac run_prog :=
  cbv [mbind prog_bind mret prog_ret when die negb
       pqos_mon_start pqos_mon_stop pqos_mon_poll pqos_mon_reset pqos_init
       pqos_fini emit fopen_w fprintf sleep stat_proc time group_values
       log_event set_files set_dirs tick files dirs now trace
       PQOS_RETVAL_OK monitor_pids_pair poll_pair poll_pair_loop
       Z.ltb Z.eqb Z.leb Z.compare].

(** * Properties *)

(** ** Bit counting *)

Lemma rank_nonneg m i : 0 <= rank m i.
Proof.
  induction i as [|i IH]; simpl; [lia|].
  destruct (Z.testbit m (Z.of_nat i)); simpl; lia.
Qed.

Lemma rank_step_le m i : rank m i <= rank m (S i).
Proof. simpl. destruct (Z.testbit m (Z.of_nat i)); simpl; lia. Qed.

Lemma rank_mono m i j : (i <= j)%nat -> rank m i <= rank m j.
Proof.
  induction 1 as [|j Hij IH]; [lia|].
  pose proof (rank_step_le m j). lia.
Qed.

Lemma rank_set m i :
  Z.testbit m (Z.of_nat i) = true -> rank m (S i) = rank m i + 1.
Proof. intros H. simpl. rewrite H. reflexivity. Qed.

Lemma rank_below_set m i j :
  Z.testbit m (Z.of_nat i) = true -> (i < j)%nat -> rank m i < rank m j.
Proof.
  intros Hset Hlt. pose proof (rank_set m i Hset).
  pose proof (rank_mono m (S i) j ltac:(lia)). lia.
Qed.

Lemma rank_le_width m i : rank m i <= Z.of_nat i.
Proof.
  induction i as [|i IH]; simpl rank; [lia|].
  destruct (Z.testbit m (Z.of_nat i)); simpl Z.b2z; lia.
Qed.

Lemma popcount_rank m : popcount m = rank m 64.
Proof. reflexivity. Qed.

Lemma rank_ext m m' i :
  (forall j, (j < i)%nat -> Z.testbit m (Z.of_nat j) = Z.testbit m' (Z.of_nat j)) ->
  rank m i = rank m' i.
Proof.
  induction i as [|i IH]; intros H; simpl; [reflexivity|].
  rewrite IH by (intros; apply H; lia). rewrite (H i) by lia. reflexivity.
Qed.

(** The C test [(full_mask >> b) & 1ULL] reads bit [b]. *)
Lemma shift_and_one m b :
  0 <= b -> negb (Z.land (Z.shiftr m b) 1 =? 0) = Z.testbit m b.
Proof.
  intros Hb. change 1 with (Z.ones 1) at 1.
  rewrite Z.land_ones by lia. change (2 ^ 1) with 2.
  rewrite <- Z.bit0_mod, Z.shiftr_spec, Z.add_0_l by lia.
  destruct (Z.testbit m b); reflexivity.
Qed.

Lemma testbit_u64_high m i : in_u64 m -> 64 <= i -> Z.testbit m i = false.
Proof.
  intros [Hlo Hhi] Hi.
  destruct (Z.eq_dec m 0) as [->|Hne]; [apply Z.bits_0|].
  apply Z.bits_above_log2; [lia|].
  assert (Z.log2 m < 64) by (apply Z.log2_lt_pow2; lia). lia.
Qed.


(** ** The counting loop of split_cache_and_monitor.c *)

Lemma count_loop_rank m fuel k cnt :
  (k + fuel = 64)%nat ->
  SplitMonitor.count_loop fuel m (Z.of_nat k) cnt
  = cnt + (popcount m - rank m k).
Proof.
  revert k cnt. induction fuel as [|fuel IH]; intros k cnt Hk; simpl.
  - replace k with 64%nat by lia. rewrite popcount_rank. lia.
  - assert (Hlt : (Z.of_nat k <? 64) = true) by (apply Z.ltb_lt; lia).
    rewrite Hlt, shift_and_one by lia.
    replace (Z.of_nat k + 1) with (Z.of_nat (S k)) by lia.
    rewrite IH by lia. simpl rank.
    destruct (Z.testbit m (Z.of_nat k)); simpl Z.b2z; lia.
Qed.

Lemma count_loop_popcount m :
  SplitMonitor.count_loop 64 m 0 0 = popcount m.
Proof.
  pose proof (count_loop_rank m 64 0 0 eq_refl) as H.
  change (Z.of_nat 0) with 0 in H. rewrite H. simpl rank. lia.
Qed.

(** ** The picking loop *)

Section PickLoop.
Variables (m half : Z).
Hypothesis m_u64 : in_u64 m.
Hypothesis half_nonneg : 0 <= half.

Lemma pick_loop_bits fuel k m1 :
  (k + fuel = 64)%nat ->
  rank m k <= half ->
  (forall i : nat,
      Z.testbit m1 (Z.of_nat i)
      = Z.testbit m (Z.of_nat i) && (Z.of_nat i <? Z.of_nat k)) ->
  forall i : nat,
    Z.testbit
      (Partition.pick_loop fuel m half (Z.of_nat k) m1 (rank m k))
      (Z.of_nat i)
    = low_share_bit m half i.
Proof.
  revert k m1. induction fuel as [|fuel IH]; intros k m1 Hk Hle Hm1 i.
  - (* all 64 positions visited *)
    simpl. rewrite Hm1. unfold low_share_bit.
    destruct (Z.testbit m (Z.of_nat i)) eqn:Hbit; simpl; [|reflexivity].
    assert (i < 64)%nat.
    { destruct (Nat.lt_ge_cases i 64) as [?|Hge]; [assumption|].
      rewrite (testbit_u64_high m (Z.of_nat i)) in Hbit by (auto; lia).
      discriminate. }
    pose proof (rank_below_set m i k Hbit ltac:(lia)).
    transitivity true; [apply Z.ltb_lt; lia | symmetry; apply Z.ltb_lt; lia].
  - simpl.
    assert (Hlt : (Z.of_nat k <? 64) = true) by (apply Z.ltb_lt; lia).
    rewrite Hlt. simpl andb.
    destruct (rank m k <? half) eqn:Hpick.
    + (* the loop goes on *)
      apply Z.ltb_lt in Hpick. rewrite shift_and_one by lia.
      replace (Z.of_nat k + 1) with (Z.of_nat (S k)) by lia.
      destruct (Z.testbit m (Z.of_nat k)) eqn:Hbit; simpl negb.
      * rewrite <- (rank_set m k Hbit).
        apply IH; [lia | rewrite (rank_set m k Hbit); lia |].
        intros j. rewrite Z.lor_spec, Hm1. unfold wrap64.
        rewrite Z.mod_small
          by (rewrite Z.shiftl_1_l; split;
              [apply Z.pow_nonneg; lia | apply Z.pow_lt_mono_r; lia]).
        rewrite Z.shiftl_1_l.
        destruct (Nat.eq_dec j k) as [->|Hne].
        -- rewrite Z.pow2_bits_true, Hbit by lia. simpl.
           rewrite orb_true_r. symmetry. apply Z.ltb_lt. lia.
        -- rewrite Z.pow2_bits_false, orb_false_r by lia.
           f_equal. destruct (Z.ltb_spec (Z.of_nat j) (Z.of_nat k));
             [symmetry; apply Z.ltb_lt | symmetry; apply Z.ltb_ge]; lia.
      * replace (rank m k) with (rank m (S k)) at 1
          by (simpl; rewrite Hbit; simpl; lia).
        apply IH; [lia | simpl; rewrite Hbit; simpl; lia |].
        intros j. rewrite Hm1.
        destruct (Nat.eq_dec j k) as [->|Hne].
        -- rewrite Hbit. reflexivity.
        -- f_equal. destruct (Z.ltb_spec (Z.of_nat j) (Z.of_nat k));
             [symmetry; apply Z.ltb_lt | symmetry; apply Z.ltb_ge]; lia.
    + (* [picked == half]: the loop stops early *)
      apply Z.ltb_ge in Hpick. rewrite Hm1. unfold low_share_bit.
      destruct (Z.testbit m (Z.of_nat i)) eqn:Hbit; simpl; [|reflexivity].
      destruct (Z.ltb_spec (Z.of_nat i) (Z.of_nat k)) as [Hik|Hik].
      * pose proof (rank_below_set m i k Hbit ltac:(lia)).
        symmetry. apply Z.ltb_lt. lia.
      * pose proof (rank_mono m k i ltac:(lia)).
        symmetry. apply Z.ltb_ge. lia.
Qed.

Lemma pick_loop_low_share (i : nat) :
  Z.testbit (Partition.pick_loop 64 m half 0 0 0) (Z.of_nat i)
  = low_share_bit m half i.
Proof.
  change 0 with (Z.of_nat 0) at 1. change 0 with (rank m 0) at 2.
  apply (pick_loop_bits 64 0 0); [reflexivity | simpl; lia |].
  intros j. rewrite Z.bits_0.
  replace (Z.of_nat j <? Z.of_nat 0) with false
    by (symmetry; apply Z.ltb_ge; lia).
  rewrite andb_false_r. reflexivity.
Qed.

End PickLoop.

(** ** The two shares *)

Lemma bits_eq_nat a b :
  (forall i : nat, Z.testbit a (Z.of_nat i) = Z.testbit b (Z.of_nat i)) ->
  a = b.
Proof.
  intros H. apply Z.bits_inj'. intros n Hn.
  rewrite <- (Z2Nat.id n) by assumption. apply H.
Qed.

Lemma rank_low_share m half a i :
  0 <= half ->
  (forall j : nat, Z.testbit a (Z.of_nat j) = low_share_bit m half j) ->
  rank a i = Z.min (rank m i) half.
Proof.
  intros Hhalf Ha. induction i as [|i IH]; simpl.
  - lia.
  - rewrite IH, Ha. unfold low_share_bit.
    destruct (Z.testbit m (Z.of_nat i)); simpl.
    + destruct (Z.ltb_spec (rank m i) half); simpl; lia.
    + lia.
Qed.

Lemma rank_zero_bits m i :
  rank m i = 0 ->
  forall j, (j < i)%nat -> Z.testbit m (Z.of_nat j) = false.
Proof.
  intros H j Hj. destruct (Z.testbit m (Z.of_nat j)) eqn:Hbit; [|reflexivity].
  pose proof (rank_below_set m j i Hbit Hj). pose proof (rank_nonneg m j). lia.
Qed.

Lemma popcount_zero m : in_u64 m -> popcount m = 0 -> m = 0.
Proof.
  intros Hm H. rewrite popcount_rank in H.
  apply bits_eq_nat. intros i. rewrite Z.bits_0.
  destruct (Nat.lt_ge_cases i 64) as [Hlt|Hge].
  - exact (rank_zero_bits m 64 H i Hlt).
  - apply testbit_u64_high; [assumption | lia].
Qed.

Lemma submask_u64 m x :
  in_u64 m -> 0 <= x ->
  (forall i : nat, Z.testbit x (Z.of_nat i) = true ->
                   Z.testbit m (Z.of_nat i) = true) ->
  in_u64 x.
Proof.
  intros Hm Hx0 Hx. split; [assumption|].
  destruct (Z.eq_dec x 0) as [->|Hne]; [reflexivity|].
  apply Z.log2_lt_pow2; [lia|].
  destruct (Z.lt_ge_cases (Z.log2 x) 64) as [?|Hge]; [assumption|].
  pose proof (Z.bit_log2 x ltac:(lia)) as Hbit.
  rewrite <- (Z2Nat.id (Z.log2 x)) in Hbit by lia.
  apply Hx in Hbit. rewrite testbit_u64_high in Hbit by (auto; lia).
  discriminate.
Qed.

Lemma split_with_spec m half :
  in_u64 m -> 0 <= half <= popcount m ->
  let '(a, b) := Partition.split_with m half in
  Z.lor a b = m /\ Z.land a b = 0 /\ popcount a = half /\
  (forall i : nat, Z.testbit a (Z.of_nat i) = low_share_bit m half i) /\
  in_u64 a /\ in_u64 b.
Proof.
  intros Hm [Hlo Hhi]. unfold Partition.split_with.
  set (a := Partition.pick_loop 64 m half 0 0 0). cbv beta iota zeta.
  assert (Ha : forall i : nat, Z.testbit a (Z.of_nat i) = low_share_bit m half i)
    by (intros i; apply pick_loop_low_share; assumption).
  clearbody a.
  assert (Hb : forall i : nat,
             Z.testbit (Z.land m (wrap64 (Z.lnot a))) (Z.of_nat i)
             = Z.testbit m (Z.of_nat i) && negb (low_share_bit m half i)).
  { intros i. unfold wrap64.
    rewrite Z.land_spec, Z.testbit_mod_pow2, Z.lnot_spec, Ha by lia.
    destruct (Z.testbit m (Z.of_nat i)) eqn:Hbit; simpl; [|reflexivity].
    destruct (Z.ltb_spec (Z.of_nat i) 64) as [?|Hge]; [reflexivity|].
    rewrite testbit_u64_high in Hbit by (auto; lia). discriminate. }
  split; [|split; [|split; [|split; [|split]]]].
  - apply bits_eq_nat. intros i. rewrite Z.lor_spec, Ha, Hb.
    unfold low_share_bit. destruct (Z.testbit m (Z.of_nat i)), (rank m i <? half);
      reflexivity.
  - apply bits_eq_nat. intros i. rewrite Z.land_spec, Ha, Hb, Z.bits_0.
    destruct (low_share_bit m half i), (Z.testbit m (Z.of_nat i)); reflexivity.
  - rewrite popcount_rank in *. rewrite (rank_low_share m half a 64 Hlo Ha). lia.
  - exact Ha.
  - apply (submask_u64 m); [assumption | |].
    + apply Z.bits_iff_nonneg_ex. exists 64. intros j Hj.
      rewrite <- (Z2Nat.id j), Ha by lia. unfold low_share_bit.
      rewrite testbit_u64_high by (auto; lia). reflexivity.
    + intros i. rewrite Ha. unfold low_share_bit.
      destruct (Z.testbit m (Z.of_nat i)); [reflexivity | discriminate].
  - apply (submask_u64 m); [assumption | |].
    + apply Z.land_nonneg. left. apply Hm.
    + intros i. rewrite Hb.
      destruct (Z.testbit m (Z.of_nat i)); [reflexivity | discriminate].
Qed.

(** ** Kernighan's bit count of cos.c *)

Lemma rank_shift m n :
  rank m (S n) = Z.b2z (Z.testbit m 0) + rank (m / 2) n.
Proof.
  induction n as [|n IH].
  - simpl. lia.
  - change (rank m (S (S n)))
      with (rank m (S n) + Z.b2z (Z.testbit m (Z.of_nat (S n)))).
    rewrite IH. simpl rank. rewrite Z.div2_bits by lia.
    replace (Z.succ (Z.of_nat n)) with (Z.of_nat (S n)) by lia. lia.
Qed.

Lemma parity_split x : x = 2 * (x / 2) + Z.b2z (Z.testbit x 0).
Proof. rewrite Z.bit0_mod. apply Z.div_mod. lia. Qed.

(** [x & (x - 1)] clears exactly one set bit. *)
Lemma clear_lowest_rank n :
  forall x, 0 < x < 2 ^ Z.of_nat n ->
            rank (Z.land x (x - 1)) n = rank x n - 1.
Proof.
  induction n as [|n IH]; intros x Hx.
  - simpl in Hx. lia.
  - rewrite !rank_shift, Z.land_spec.
    pose proof (parity_split x) as Hpar.
    assert (Hhalf : x / 2 < 2 ^ Z.of_nat n).
    { apply Z.div_lt_upper_bound; [lia|].
      rewrite <- Z.pow_succ_r by lia.
      replace (Z.succ (Z.of_nat n)) with (Z.of_nat (S n)) by lia. lia. }
    destruct (Z.testbit x 0) eqn:Hbit0;
      [change (Z.b2z true) with 1 in * | change (Z.b2z false) with 0 in *].
    + (* odd: the lowest bit itself is cleared *)
      replace (x - 1) with (2 * (x / 2)) by lia.
      rewrite Z.testbit_even_0. change (Z.b2z (true && false)) with 0.
      rewrite (rank_ext (Z.land x (2 * (x / 2)) / 2) (x / 2) n); [lia|].
      intros j _. rewrite !Z.div2_bits, Z.land_spec by lia.
      rewrite Z.testbit_even_succ, <- Z.div2_bits by lia.
      apply andb_diag.
    + (* even: the cleared bit lies in the upper part *)
      assert (Hy : 0 < x / 2) by lia.
      change (Z.b2z (false && Z.testbit (x - 1) 0)) with 0.
      rewrite !Z.add_0_l, <- (IH (x / 2)) by lia.
      apply rank_ext. intros j _.
      rewrite Z.div2_bits, !Z.land_spec, <- Z.div2_bits by lia.
      f_equal.
      replace (x - 1) with (2 * (x / 2 - 1) + 1) by lia.
      rewrite Z.testbit_odd_succ by lia. reflexivity.
Qed.

Lemma clear_lowest_popcount x :
  in_u64 x -> x <> 0 -> popcount (Z.land x (x - 1)) = popcount x - 1.
Proof.
  intros [Hlo Hhi] Hne. rewrite !popcount_rank.
  apply clear_lowest_rank. change (Z.of_nat 64) with 64. lia.
Qed.

Lemma clear_lowest_u64 x :
  in_u64 x -> x <> 0 -> in_u64 (Z.land x (wrap64 (x - 1))).
Proof.
  intros Hx Hne. apply (submask_u64 x); [assumption | |].
  - apply Z.land_nonneg. left. apply Hx.
  - intros i. rewrite Z.land_spec. intros H.
    apply andb_true_iff in H. apply H.
Qed.

Lemma count_bits_loop_popcount fuel :
  forall x cnt, in_u64 x -> popcount x <= Z.of_nat fuel ->
                Cos.count_bits_loop fuel x cnt = cnt + popcount x.
Proof.
  induction fuel as [|fuel IH]; intros x cnt Hx Hfuel.
  - simpl. rewrite popcount_rank in *. pose proof (rank_nonneg x 64). lia.
  - simpl. destruct (Z.eqb_spec x 0) as [->|Hne].
    + rewrite popcount_rank. simpl. lia.
    + pose proof (clear_lowest_popcount x Hx Hne) as Hpc.
      assert (Hw : wrap64 (x - 1) = x - 1)
        by (unfold wrap64; apply Z.mod_small; unfold in_u64 in Hx; lia).
      rewrite IH.
      * rewrite Hw. lia.
      * apply clear_lowest_u64; assumption.
      * rewrite Hw. lia.
Qed.

Lemma count_bits_popcount x : in_u64 x -> Cos.count_bits x = popcount x.
Proof.
  intros Hx. unfold Cos.count_bits.
  rewrite count_bits_loop_popcount; [lia | assumption |].
  rewrite popcount_rank. apply (rank_le_width x 64).
Qed.

(** ** The partition theorem *)

Lemma split_with_low_half m total :
  in_u64 m -> total = popcount m ->
  low_half_split m (fst (Partition.split_with m (Z.quot total 2)))
                   (snd (Partition.split_with m (Z.quot total 2))).
Proof.
  intros Hm ->.
  assert (Hpc : 0 <= popcount m)
    by (rewrite popcount_rank; apply rank_nonneg).
  rewrite Z.quot_div_nonneg by lia.
  assert (Hhalf : 0 <= popcount m / 2 <= popcount m).
  { split; [apply Z.div_pos; lia|]. apply Z.div_le_upper_bound; lia. }
  pose proof (split_with_spec m (popcount m / 2) Hm Hhalf) as Hspec.
  destruct (Partition.split_with m (popcount m / 2)) as [a b].
  destruct Hspec as (Hor & Hand & Hcount & Hbits & Ha & Hb). simpl fst; simpl snd.
  split; [exact Hor|]. split; [exact Hand|]. split; [exact Hcount|].
  split; [exact Hbits|].
  intros Hone. rewrite Hone in Hcount. change (1 / 2) with 0 in Hcount.
  pose proof (popcount_zero a Ha Hcount) as ->.
  split; [reflexivity|]. rewrite Z.lor_0_l in Hor. exact Hor.
Qed.

Example split_7fff :
  SplitMonitor.split_mask 0x7fff = (0x7f, 0x7f80)
  /\ Cos.split_mask 0x7fff = (0x7f, 0x7f80).
Proof. split; vm_compute; reflexivity. Qed.

Example split_single_bit :
  SplitMonitor.split_mask 0x10 = (0, 0x10)
  /\ Cos.split_mask 0x10 = (0, 0x10).
Proof. split; vm_compute; reflexivity. Qed.

(** C1. For every 64-bit mask [M], and so for every nonzero one,
    [split_mask] (in both programs) returns two shares whose union is [M],
    which are disjoint, and whose first one holds exactly the lowest
    [popcount M / 2] set bits of [M], at their original positions; a mask
    with one set bit yields an empty first share and the whole mask as
    second share. *)
Theorem split_mask_low_half (M : Z) :
  in_u64 M ->
  low_half_split M (fst (SplitMonitor.split_mask M))
                   (snd (SplitMonitor.split_mask M))
  /\ low_half_split M (fst (Cos.split_mask M)) (snd (Cos.split_mask M)).
Proof.
  intros HM. split.
  - unfold SplitMonitor.split_mask. cbv zeta.
    apply split_with_low_half; [assumption | apply count_loop_popcount].
  - unfold Cos.split_mask. cbv zeta.
    apply split_with_low_half; [assumption | apply count_bits_popcount, HM].
Qed.

Lemma split_mask_low_half_witness :
  in_u64 0x7fff
  /\ low_half_split 0x7fff (fst (SplitMonitor.split_mask 0x7fff))
                           (snd (SplitMonitor.split_mask 0x7fff))
  /\ low_half_split 0x7fff (fst (Cos.split_mask 0x7fff))
                           (snd (Cos.split_mask 0x7fff)).
Proof.
  assert (Hin : in_u64 0x7fff) by (unfold in_u64; lia).
  split; [exact Hin|].
  exact (split_mask_low_half 0x7fff Hin).
Defined.

(** ** Decimal texts *)

Lemma str_app_cons c s r : String c s +:+ r = String c (s +:+ r).
Proof. reflexivity. Qed.

Lemma str_app_nil_l r : EmptyString +:+ r = r.
Proof. reflexivity. Qed.

Lemma str_app_nil_r s : s +:+ EmptyString = s.
Proof. induction s as [|c s IH]; [reflexivity|]. rewrite str_app_cons, IH. reflexivity. Qed.

Lemma str_app_assoc s r t : (s +:+ r) +:+ t = s +:+ (r +:+ t).
Proof.
  induction s as [|c s IH]; [reflexivity|]. rewrite !str_app_cons, IH. reflexivity.
Qed.

Lemma digit_char_ok d :
  0 <= d < 10 -> is_digit (digit_char d) = true /\ digit_val (digit_char d) = d.
Proof.
  intros Hd.
  assert (H : d = 0 \/ d = 1 \/ d = 2 \/ d = 3 \/ d = 4 \/ d = 5 \/ d = 6
              \/ d = 7 \/ d = 8 \/ d = 9) by lia.
  repeat (destruct H as [->|H]; [split; reflexivity|]).
  subst d. split; reflexivity.
Qed.

Lemma dec_from_app s r acc : dec_from acc (s +:+ r) = dec_from (dec_from acc s) r.
Proof.
  revert acc. induction s as [|c s IH]; intros acc; [reflexivity|].
  rewrite str_app_cons. simpl. apply IH.
Qed.

Lemma dec_from_shift s acc :
  dec_from acc s = acc * 10 ^ Z.of_nat (String.length s) + dec_value s.
Proof.
  unfold dec_value. revert acc. induction s as [|c s IH]; intros acc.
  - simpl. lia.
  - cbn [dec_from String.length]. rewrite IH, (IH (10 * 0 + digit_val c)).
    rewrite Nat2Z.inj_succ, Z.pow_succ_r by lia. ring.
Qed.

Lemma dec_value_app s r :
  dec_value (s +:+ r) = dec_value s * 10 ^ Z.of_nat (String.length r) + dec_value r.
Proof. unfold dec_value at 1. rewrite dec_from_app, dec_from_shift. reflexivity. Qed.

Lemma all_digits_app s r : all_digits (s +:+ r) = all_digits s && all_digits r.
Proof.
  induction s as [|c s IH]; [reflexivity|].
  rewrite str_app_cons. simpl. rewrite IH, andb_assoc. reflexivity.
Qed.

Lemma digits_only_all s : digits_only s = true -> all_digits s = true.
Proof. destruct s; [discriminate | trivial]. Qed.

Lemma digits_only_app_l s r :
  digits_only s = true -> all_digits r = true -> digits_only (s +:+ r) = true.
Proof.
  destruct s as [|c s]; [discriminate|]. intros Hs Hr.
  rewrite str_app_cons. change (all_digits (String c (s +:+ r)) = true).
  rewrite <- str_app_cons, all_digits_app. simpl in Hs. rewrite Hr, andb_true_r.
  exact Hs.
Qed.

Lemma one_digit_text d :
  0 <= d < 10 ->
  digits_only (String (digit_char d) EmptyString) = true
  /\ dec_value (String (digit_char d) EmptyString) = d.
Proof.
  intros Hd. destruct (digit_char_ok d Hd) as [Hc Hv]. split.
  - simpl. rewrite Hc. reflexivity.
  - unfold dec_value. simpl. exact Hv.
Qed.

(** [%llu] prints a text of digits that denotes the number printed. *)
Lemma dec_digits_spec fuel :
  forall n acc, 0 <= n < 2 ^ Z.of_nat (S fuel) ->
    exists ds, dec_digits (S fuel) n acc = ds +:+ acc
               /\ digits_only ds = true /\ dec_value ds = n.
Proof.
  induction fuel as [|fuel IH]; intros n acc Hn.
  - change (2 ^ Z.of_nat 1) with 2 in Hn.
    exists (String (digit_char (n mod 10)) EmptyString).
    assert (Hlt : (n <? 10) = true) by (apply Z.ltb_lt; lia).
    cbn [dec_digits]. rewrite Hlt.
    destruct (one_digit_text (n mod 10)) as [Hd Hv];
      [apply Z.mod_pos_bound; lia|].
    split; [reflexivity|]. split; [exact Hd|].
    rewrite Hv. apply Z.mod_small. lia.
  - cbn [dec_digits].
    destruct (one_digit_text (n mod 10)) as [Hd Hv];
      [apply Z.mod_pos_bound; lia|].
    destruct (Z.ltb_spec n 10) as [Hlt|Hge].
    + exists (String (digit_char (n mod 10)) EmptyString).
      split; [reflexivity|]. split; [exact Hd|].
      rewrite Hv. apply Z.mod_small. lia.
    + assert (Hdiv : 0 <= n / 10 < 2 ^ Z.of_nat (S fuel)).
      { split; [apply Z.div_pos; lia|].
        apply Z.div_lt_upper_bound; [lia|].
        rewrite (Nat2Z.inj_succ (S fuel)), Z.pow_succ_r in Hn by lia. lia. }
      destruct (IH (n / 10) (String (digit_char (n mod 10)) acc) Hdiv)
        as (ds & Heq & Hds & Hval).
      exists (ds +:+ String (digit_char (n mod 10)) EmptyString).
      split; [|split].
      * change (dec_digits (S fuel) (n / 10) (String (digit_char (n mod 10)) acc)
                = (ds +:+ String (digit_char (n mod 10)) EmptyString) +:+ acc).
        rewrite Heq, str_app_assoc. reflexivity.
      * apply digits_only_app_l; [assumption|]. apply digits_only_all, Hd.
      * rewrite dec_value_app, Hval, Hv. change (Z.of_nat (String.length _)) with 1.
        pose proof (Z.div_mod n 10). lia.
Qed.

Lemma dec_of_nonneg_spec n :
  0 <= n -> digits_only (dec_of_nonneg n) = true /\ dec_value (dec_of_nonneg n) = n.
Proof.
  intros Hn. unfold dec_of_nonneg.
  destruct (dec_digits_spec (Z.to_nat (Z.log2 n)) n EmptyString)
    as (ds & Heq & Hds & Hval).
  - split; [assumption|].
    destruct (Z.eq_dec n 0) as [->|Hne]; [reflexivity|].
    rewrite Nat2Z.inj_succ, Z2Nat.id by apply Z.log2_nonneg.
    apply Z.log2_spec. lia.
  - rewrite Heq, str_app_nil_r. split; assumption.
Qed.

(** ** The awk reading of a number *)

Lemma is_digit_not_space c : is_digit c = true -> is_space c = false.
Proof.
  unfold is_digit, is_space. intros H. apply andb_true_iff in H as [H1 H2].
  apply Z.leb_le in H1, H2.
  apply orb_false_iff. split; [apply Z.eqb_neq; lia|].
  apply andb_false_iff. right. apply Z.leb_gt. lia.
Qed.

Lemma is_digit_not_blank c : is_digit c = true -> Awk.is_blank c = false.
Proof.
  unfold is_digit, Awk.is_blank. intros H. apply andb_true_iff in H as [H1 H2].
  apply Z.leb_le in H1, H2.
  repeat (apply orb_false_iff; split); apply Z.eqb_neq; lia.
Qed.

Lemma take_sign_digit c r :
  is_digit c = true -> take_sign (String c r) = (false, String c r).
Proof.
  destruct c as [[] [] [] [] [] [] [] []]; try discriminate; reflexivity.
Qed.

Lemma scan_digits_all s r acc n :
  all_digits s = true ->
  Awk.scan_digits (s +:+ r) acc n
  = Awk.scan_digits r (dec_from acc s) (n + Z.of_nat (String.length s)).
Proof.
  revert acc n. induction s as [|c s IH]; intros acc n Hs.
  - rewrite str_app_nil_l. simpl. rewrite Z.add_0_r. reflexivity.
  - simpl in Hs. apply andb_true_iff in Hs as [Hc Hs].
    rewrite str_app_cons. cbn [Awk.scan_digits]. rewrite Hc, IH by assumption.
    cbn [dec_from String.length]. f_equal. lia.
Qed.

Lemma scan_digits_text s :
  all_digits s = true ->
  Awk.scan_digits s 0 0 = (dec_value s, Z.of_nat (String.length s), EmptyString).
Proof.
  intros Hs. rewrite <- (str_app_nil_r s) at 1.
  rewrite scan_digits_all by exact Hs. reflexivity.
Qed.

(** A text of digits reads as the number it denotes. *)
Lemma strtonum_digits s :
  digits_only s = true -> (Awk.strtonum s == inject_Z (dec_value s))%Q.
Proof.
  intros Hs. destruct s as [|c s]; [discriminate|].
  pose proof Hs as Hall. simpl in Hall.
  apply andb_true_iff in Hall as [Hc Hrest].
  unfold Awk.strtonum. cbn [skip_space].
  rewrite (is_digit_not_space c Hc), (take_sign_digit c s Hc).
  rewrite scan_digits_text by exact Hs.
  replace (Z.of_nat (String.length (String c s)) + 0 =? 0) with false
    by (symmetry; apply Z.eqb_neq; cbn [String.length]; lia).
  cbn [Awk.scan_exponent]. change (Qpower (10 # 1) (0 - 0)) with 1%Q.
  apply Qmult_1_r.
Qed.

Lemma skip_space_pad k s : skip_space (repeat_char " " k +:+ s) = skip_space s.
Proof. induction k as [|k IH]; [reflexivity|]. simpl repeat_char. rewrite str_app_cons. exact IH. Qed.

Lemma strtonum_pad k s : Awk.strtonum (repeat_char " " k +:+ s) = Awk.strtonum s.
Proof. unfold Awk.strtonum. rewrite skip_space_pad. reflexivity. Qed.

(** ** [gsub] at the end of a field *)

Lemma gsub_suffix_hit c repl s :
  Awk.gsub_suffix c repl (s +:+ String c EmptyString) = s +:+ repl.
Proof.
  induction s as [|a s IH].
  - rewrite !str_app_nil_l. simpl. rewrite Ascii.eqb_refl. reflexivity.
  - rewrite !str_app_cons. cbn [Awk.gsub_suffix]. rewrite IH.
    destruct s; reflexivity.
Qed.

Lemma gsub_suffix_digits c repl s :
  is_digit c = false -> all_digits s = true -> Awk.gsub_suffix c repl s = s.
Proof.
  intros Hc. induction s as [|a s IH]; intros Hs; [reflexivity|].
  simpl in Hs. apply andb_true_iff in Hs as [Ha Hs].
  cbn [Awk.gsub_suffix]. destruct s as [|b s].
  - destruct (Ascii.eqb_spec a c) as [->|_]; [congruence | reflexivity].
  - rewrite IH by assumption. reflexivity.
Qed.

Lemma length_app_str s r :
  String.length (s +:+ r) = (String.length s + String.length r)%nat.
Proof.
  induction s as [|c s IH]; [reflexivity|].
  rewrite str_app_cons. simpl. rewrite IH. reflexivity.
Qed.

(** A suffixed count [d k] or [d m] is read as [d] followed by the zeros
    that replace the suffix. *)
Lemma expand_miss_zeros d zeros :
  digits_only d = true -> all_digits zeros = true -> dec_value zeros = 0 ->
  (Awk.strtonum (d +:+ zeros)
   == inject_Z (dec_value d * 10 ^ Z.of_nat (String.length zeros)))%Q.
Proof.
  intros Hd Hz Hv.
  rewrite strtonum_digits by (apply digits_only_app_l; assumption).
  rewrite dec_value_app, Hv, Z.add_0_r. reflexivity.
Qed.

Lemma expand_miss_k d :
  digits_only d = true ->
  (Awk.expand_miss (d +:+ "k") == inject_Z (dec_value d * 1000))%Q.
Proof.
  intros Hd. unfold Awk.expand_miss. rewrite gsub_suffix_hit.
  rewrite gsub_suffix_digits;
    [| reflexivity
     | rewrite all_digits_app, (digits_only_all d Hd); reflexivity].
  apply (expand_miss_zeros d "000"); [assumption | reflexivity | reflexivity].
Qed.

Lemma expand_miss_m d :
  digits_only d = true ->
  (Awk.expand_miss (d +:+ "m") == inject_Z (dec_value d * 1000000))%Q.
Proof.
  intros Hd. unfold Awk.expand_miss.
  assert (Hk : Awk.gsub_suffix "k" "000" (d +:+ "m") = d +:+ "m").
  { clear Hd. induction d as [|a d IH]; [reflexivity|].
    rewrite !str_app_cons. cbn [Awk.gsub_suffix]. rewrite IH.
    destruct d; reflexivity. }
  rewrite Hk, gsub_suffix_hit.
  apply (expand_miss_zeros d "000000"); [assumption | reflexivity | reflexivity].
Qed.

Lemma expand_miss_plain d :
  digits_only d = true -> (Awk.expand_miss d == inject_Z (dec_value d))%Q.
Proof.
  intros Hd. unfold Awk.expand_miss.
  pose proof (digits_only_all d Hd) as Hall.
  rewrite (gsub_suffix_digits "k" "000" d), (gsub_suffix_digits "m" "000000" d)
    by (reflexivity || exact Hall).
  apply strtonum_digits, Hd.
Qed.

(** ** Field splitting of one column *)

Lemma no_blank_app s r : no_blank (s +:+ r) = no_blank s && no_blank r.
Proof.
  induction s as [|c s IH]; [reflexivity|].
  rewrite str_app_cons. simpl. rewrite IH, andb_assoc. reflexivity.
Qed.

Lemma all_digits_no_blank s : all_digits s = true -> no_blank s = true.
Proof.
  induction s as [|c s IH]; [reflexivity|]. simpl. intros H.
  apply andb_true_iff in H as [Hc Hs].
  rewrite (is_digit_not_blank c Hc), IH by assumption. reflexivity.
Qed.

Lemma fields_from_word w cur :
  no_blank w = true -> Awk.fields_from w (Some cur) = [cur +:+ w].
Proof.
  revert cur. induction w as [|c w IH]; intros cur Hw.
  - simpl. rewrite str_app_nil_r. reflexivity.
  - simpl in Hw. apply andb_true_iff in Hw as [Hc Hw].
    apply negb_true_iff in Hc. cbn [Awk.fields_from]. rewrite Hc.
    rewrite IH by assumption. cbn [default]. rewrite str_app_assoc. reflexivity.
Qed.

Lemma fields_pad_word k w :
  w <> EmptyString -> no_blank w = true ->
  Awk.fields (repeat_char " " k +:+ w) = [w].
Proof.
  intros Hne Hw. unfold Awk.fields. induction k as [|k IH].
  - rewrite str_app_nil_l. destruct w as [|c w]; [congruence|].
    simpl in Hw. apply andb_true_iff in Hw as [Hc Hw].
    apply negb_true_iff in Hc. cbn [Awk.fields_from]. rewrite Hc.
    rewrite fields_from_word by assumption. reflexivity.
  - simpl repeat_char. rewrite str_app_cons. cbn [Awk.fields_from].
    change (Awk.is_blank " ") with true. cbn iota. exact IH.
Qed.

(** ** The scoring loop *)

Lemma or_one_nonzero s : Qeq_bool (Scorer.or_one s) 0 = false.
Proof.
  unfold Scorer.or_one. destruct (Qeq_bool s 0) eqn:Hs; [reflexivity | exact Hs].
Qed.

Lemma div_defined a b : Qeq_bool b 0 = false -> Scorer.div a b = Some (a / b)%Q.
Proof. intros Hb. unfold Scorer.div. rewrite Hb. reflexivity. Qed.

Section ScoreLoop.
Variables (K : Q) (st : Scorer.scorer).
Hypothesis mis_nonzero : Qeq_bool (Scorer.sum_mis st) 0 = false.
Hypothesis llc_nonzero : Qeq_bool (Scorer.sum_llc st) 0 = false.
Hypothesis bw_nonzero : Qeq_bool (Scorer.sum_bw st) 0 = false.

Lemma score_step_ok acc p :
  Scorer.score_step K st acc p
  = Some {| Scorer.lines := Scorer.lines acc ++ [line_for K st p];
            Scorer.maxN := fst (pick (Scorer.maxN acc, Scorer.noisy acc)
                                     (line_for K st p));
            Scorer.noisy := snd (pick (Scorer.maxN acc, Scorer.noisy acc)
                                      (line_for K st p)) |}.
Proof.
  unfold Scorer.score_step.
  rewrite !div_defined by assumption. cbn [mbind option_bind].
  unfold pick. cbn [fst Scorer.Noise_Score line_for].
  destruct (Scorer.gt _ _); reflexivity.
Qed.

Lemma score_loop_ok ps :
  forall acc,
    Scorer.score_loop K st ps acc
    = Some {| Scorer.lines := Scorer.lines acc ++ map (line_for K st) ps;
              Scorer.maxN :=
                fst (fold_left pick (map (line_for K st) ps)
                       (Scorer.maxN acc, Scorer.noisy acc));
              Scorer.noisy :=
                snd (fold_left pick (map (line_for K st) ps)
                       (Scorer.maxN acc, Scorer.noisy acc)) |}.
Proof.
  induction ps as [|p ps IH]; intros acc.
  - simpl. rewrite app_nil_r. destruct acc; reflexivity.
  - cbn [Scorer.score_loop]. rewrite score_step_ok. cbn [mbind option_bind].
    rewrite IH. cbn [Scorer.lines Scorer.maxN Scorer.noisy map fold_left].
    rewrite <- app_assoc. cbn [app].
    destruct (pick (Scorer.maxN acc, Scorer.noisy acc) (line_for K st p));
      reflexivity.
Qed.

End ScoreLoop.

(** The scoring program always ends with a report. *)
Lemma score_report K rows :
  let st := Scorer.floors (fold_left Scorer.row_rule rows Scorer.start) in
  let ls := map (line_for K st) (Scorer.procs st) in
  Scorer.score K rows
  = Some {| Scorer.lines := ls;
            Scorer.maxN := fst (fold_left pick ls ((- (1))%Q, EmptyString));
            Scorer.noisy := snd (fold_left pick ls ((- (1))%Q, EmptyString)) |}.
Proof.
  cbv zeta. unfold Scorer.score, Scorer.END.
  rewrite score_loop_ok by (cbn [Scorer.floors Scorer.sum_mis Scorer.sum_llc
                                 Scorer.sum_bw]; apply or_one_nonzero).
  reflexivity.
Qed.

(** ** The running maximum *)

Lemma gt_true a b : Scorer.gt a b = true <-> (b < a)%Q.
Proof.
  unfold Scorer.gt. rewrite negb_true_iff. split.
  - intros H. apply Qnot_le_lt. intros Hle.
    apply Qle_bool_iff in Hle. congruence.
  - intros H. destruct (Qle_bool a b) eqn:Hle; [|reflexivity].
    apply Qle_bool_iff in Hle. exfalso. exact (Qlt_not_le _ _ H Hle).
Qed.



(** ** What the rule [NR>1] leaves in the awk variables *)

Lemma fold_procs rows :
  forall st0,
    Scorer.procs (fold_left Scorer.row_rule rows st0)
    = Scorer.procs st0 ++ map Aggregator.proc rows.
Proof.
  induction rows as [|r rows IH]; intros st0; simpl.
  - rewrite app_nil_r. reflexivity.
  - rewrite IH. cbn [Scorer.procs Scorer.row_rule]. rewrite <- app_assoc.
    reflexivity.
Qed.

Lemma fold_sums rows :
  forall st0,
    let st := fold_left Scorer.row_rule rows st0 in
    Scorer.sum_mis st
    = fold_left (fun s r => (s + inject_Z (Aggregator.mis_sum r))%Q) rows
        (Scorer.sum_mis st0)
    /\ Scorer.sum_llc st
       = fold_left (fun s r => (s + inject_Z (Aggregator.llc_kb_sum r))%Q) rows
           (Scorer.sum_llc st0)
    /\ Scorer.sum_bw st
       = fold_left (fun s r => (s + inject_Z (Aggregator.bw_sum r))%Q) rows
           (Scorer.sum_bw st0).
Proof.
  induction rows as [|r rows IH]; intros st0; cbn zeta.
  - repeat split.
  - cbn [fold_left]. apply (IH (Scorer.row_rule st0 r)).
Qed.

(** Rows of other processes leave the cells of [p] alone. *)
Lemma fold_cells_other rows p :
  ~ In p (map Aggregator.proc rows) ->
  forall st0,
    let st := fold_left Scorer.row_rule rows st0 in
    Scorer.MIS st !! p = Scorer.MIS st0 !! p
    /\ Scorer.LLC st !! p = Scorer.LLC st0 !! p
    /\ Scorer.BW st !! p = Scorer.BW st0 !! p.
Proof.
  induction rows as [|r rows IH]; intros Hp st0; cbn zeta.
  - repeat split.
  - cbn [fold_left]. cbn [map In] in Hp.
    destruct (IH ltac:(tauto) (Scorer.row_rule st0 r)) as (Hm & Hl & Hb).
    rewrite Hm, Hl, Hb. cbn [Scorer.row_rule Scorer.MIS Scorer.LLC Scorer.BW].
    rewrite !lookup_insert_ne by tauto. repeat split.
Qed.

(** With one row per process, each cell holds its row's value. *)
Lemma fold_cells_own rows :
  NoDup (map Aggregator.proc rows) ->
  forall st0 r, In r rows ->
    let st := fold_left Scorer.row_rule rows st0 in
    Scorer.cell (Scorer.MIS st) (Aggregator.proc r) = inject_Z (Aggregator.mis_sum r)
    /\ Scorer.cell (Scorer.LLC st) (Aggregator.proc r)
       = inject_Z (Aggregator.llc_kb_sum r)
    /\ Scorer.cell (Scorer.BW st) (Aggregator.proc r)
       = inject_Z (Aggregator.bw_sum r).
Proof.
  induction rows as [|x rows IH]; intros Hnd st0 r Hin; [destruct Hin|].
  cbn [map] in Hnd. apply NoDup_cons in Hnd as [Hx Hnd]. cbn zeta. cbn [fold_left].
  destruct Hin as [->|Hin].
  - assert (Hx' : ~ In (Aggregator.proc r) (map Aggregator.proc rows))
      by (rewrite <- list_elem_of_In; exact Hx).
    destruct (fold_cells_other rows (Aggregator.proc r) Hx' (Scorer.row_rule st0 r))
      as (Hm & Hl & Hb).
    unfold Scorer.cell. rewrite Hm, Hl, Hb.
    cbn [Scorer.row_rule Scorer.MIS Scorer.LLC Scorer.BW].
    rewrite !lookup_insert_eq. repeat split.
  - apply (IH Hnd (Scorer.row_rule st0 x) r Hin).
Qed.

(** C2, first part, in general: with one row per process the scorer prints,
    for each row, the scores computed from the row and the tick's totals. *)
Lemma score_lines_by_formula K rows rep :
  NoDup (map Aggregator.proc rows) ->
  Scorer.score K rows = Some rep ->
  Scorer.lines rep = map (scored K rows) rows.
Proof.
  intros Hnd. rewrite score_report. cbv zeta. intros Hrep.
  injection Hrep as <-. cbn [Scorer.lines Scorer.floors Scorer.procs].
  rewrite fold_procs. cbn [Scorer.procs Scorer.start app]. rewrite map_map.
  apply map_ext_in. intros r Hin.
  destruct (fold_cells_own rows Hnd Scorer.start r Hin) as (Hm & Hl & Hb).
  destruct (fold_sums rows Scorer.start) as (Sm & Sl & Sb).
  unfold line_for, scored, total.
  cbn [Scorer.floors Scorer.MIS Scorer.LLC Scorer.BW
       Scorer.sum_mis Scorer.sum_llc Scorer.sum_bw].
  rewrite Hm, Hl, Hb, Sm, Sl, Sb. reflexivity.
Qed.

(** ** Rational arithmetic of the scores *)

Lemma or_one_pos s : (0 <= s)%Q -> (0 < Scorer.or_one s)%Q.
Proof.
  intros Hs. unfold Scorer.or_one. destruct (Qeq_bool s 0) eqn:Hz.
  - reflexivity.
  - apply Qeq_bool_neq in Hz.
    destruct (Qle_lt_or_eq _ _ Hs) as [Hlt|Heq]; [exact Hlt|].
    exfalso. apply Hz. symmetry. exact Heq.
Qed.

Lemma div_le_div a b s : (0 < s)%Q -> (a <= b)%Q -> (a / s <= b / s)%Q.
Proof.
  intros Hs Hab. unfold Qdiv. apply Qmult_le_compat_r; [exact Hab|].
  apply Qinv_le_0_compat, Qlt_le_weak, Hs.
Qed.

Lemma div_nonneg a s : (0 < s)%Q -> (0 <= a)%Q -> (0 <= a / s)%Q.
Proof.
  intros Hs Ha. unfold Qdiv. apply Qmult_le_0_compat; [exact Ha|].
  apply Qinv_le_0_compat, Qlt_le_weak, Hs.
Qed.

Lemma zero_div a s : (a == 0)%Q -> (a / s == 0)%Q.
Proof. intros Ha. unfold Qdiv. rewrite Ha. apply Qmult_0_l. Qed.

Lemma fold_total_nonneg (f : Aggregator.agg_row -> Z) rows :
  Forall (fun r => 0 <= f r) rows ->
  forall s, (0 <= s)%Q ->
    (0 <= fold_left (fun s r => s + inject_Z (f r)) rows s)%Q.
Proof.
  induction 1 as [|r rows Hr Hall IH]; intros s Hs; [exact Hs|].
  cbn [fold_left]. apply IH.
  rewrite <- (Qplus_0_r 0). apply Qplus_le_compat; [exact Hs|].
  change 0%Q with (inject_Z 0). rewrite <- Zle_Qle. exact Hr.
Qed.

Lemma total_nonneg f rows :
  Forall (fun r => 0 <= f r) rows -> (0 <= total f rows)%Q.
Proof. intros H. apply fold_total_nonneg; [exact H | apply Qle_refl]. Qed.

(** ** The three-process tick *)

Lemma three_processes_lines n1 n2 n3 o1 o2 o3 :
  NoDup [n1; n2; n3] ->
  let rows := three_processes n1 n2 n3 o1 o2 o3 in
  exists rep,
    Scorer.score 1 rows = Some rep
    /\ Scorer.lines rep = map (scored 1 rows) rows
    /\ (Scorer.maxN rep, Scorer.noisy rep)
       = fold_left pick (map (scored 1 rows) rows) ((- (1))%Q, EmptyString).
Proof.
  intros Hnd rows. pose proof (score_report 1 rows) as Hrep. cbv zeta in Hrep.
  pose proof (score_lines_by_formula 1 rows _ Hnd Hrep) as Hlines.
  eexists. split; [exact Hrep|]. split; [exact Hlines|].
  cbn [Scorer.lines Scorer.maxN Scorer.noisy] in *. rewrite Hlines.
  symmetry. apply surjective_pairing.
Qed.

Lemma pick_gt best l :
  (fst best < Scorer.Noise_Score l)%Q ->
  pick best l = (Scorer.Noise_Score l, Scorer.process l).
Proof. intros H. unfold pick. apply gt_true in H. rewrite H. reflexivity. Qed.

Lemma three_processes_scores n1 n2 n3 o1 o2 o3 :
  0 <= o1 <= o3 -> 0 <= o2 <= o3 ->
  let rows := three_processes n1 n2 n3 o1 o2 o3 in
  let l1 := scored 1 rows (agg n1 100 o1 10) in
  let l2 := scored 1 rows (agg n2 100 o2 20) in
  let l3 := scored 1 rows (agg n3 100 o3 70) in
  (Scorer.Harm_Score l1 == 1 # 3)%Q
  /\ (Scorer.Harm_Score l2 == 1 # 3)%Q
  /\ (Scorer.Harm_Score l3 == 1 # 3)%Q
  /\ (Scorer.Occ_Score l1 < Scorer.Occ_Score l3)%Q
  /\ (Scorer.Occ_Score l2 < Scorer.Occ_Score l3)%Q
  /\ (Scorer.Noise_Score l1 < Scorer.Noise_Score l3)%Q
  /\ (Scorer.Noise_Score l2 < Scorer.Noise_Score l3)%Q
  /\ (- (1) < Scorer.Noise_Score l1)%Q.
Proof.
  intros H1 H2 rows l1 l2 l3.
  assert (Hbw : Scorer.or_one (total Aggregator.bw_sum rows) = 100 # 1)
    by reflexivity.
  assert (Hmis : Scorer.or_one (total Aggregator.mis_sum rows) = 300 # 1)
    by reflexivity.
  assert (HS : (0 < Scorer.or_one (total Aggregator.llc_kb_sum rows))%Q).
  { apply or_one_pos, total_nonneg. unfold rows, three_processes.
    repeat constructor; cbn; lia. }
  unfold l1, l2, l3, scored.
  cbn [Scorer.Harm_Score Scorer.Occ_Score Scorer.Noise_Score agg
       Aggregator.bw_sum Aggregator.llc_kb_sum Aggregator.mis_sum].
  rewrite Hbw, Hmis.
  set (S := Scorer.or_one (total Aggregator.llc_kb_sum rows)) in *.
  assert (Ho13 : (inject_Z o1 / S <= inject_Z o3 / S)%Q)
    by (apply div_le_div; [exact HS | rewrite <- Zle_Qle; lia]).
  assert (Ho23 : (inject_Z o2 / S <= inject_Z o3 / S)%Q)
    by (apply div_le_div; [exact HS | rewrite <- Zle_Qle; lia]).
  assert (Ho1 : (0 <= inject_Z o1 / S)%Q).
  { apply div_nonneg; [exact HS|]. change 0%Q with (inject_Z 0).
    rewrite <- Zle_Qle. lia. }
  assert (Hocc1 : (inject_Z 10 / 100 + inject_Z o1 / S
                   < inject_Z 70 / 100 + inject_Z o3 / S)%Q)
    by (apply Qplus_lt_le_compat; [reflexivity | exact Ho13]).
  assert (Hocc2 : (inject_Z 20 / 100 + inject_Z o2 / S
                   < inject_Z 70 / 100 + inject_Z o3 / S)%Q)
    by (apply Qplus_lt_le_compat; [reflexivity | exact Ho23]).
  split; [reflexivity|]. split; [reflexivity|]. split; [reflexivity|].
  split; [exact Hocc1|]. split; [exact Hocc2|].
  split; [apply Qplus_lt_l; exact Hocc1|].
  split; [apply Qplus_lt_l; exact Hocc2|].
  apply Qlt_le_trans with (y := (inject_Z 10 / 100 + 0 + 1 * (inject_Z 100 / 300))%Q);
    [reflexivity|].
  apply Qplus_le_compat; [|apply Qle_refl].
  apply Qplus_le_compat; [apply Qle_refl | exact Ho1].
Qed.


(** C2, as the code has it. The scorer computes, for every process of the
    tick, NoiseScore = (normBW + normOcc) + K * normMiss from the process's
    share of the tick's bandwidth (local plus remote, as the block rule
    adds them), occupancy and misses.  For three
    processes with bandwidths 10, 20 and 70, 100 misses each and K = 1, in
    which no process holds more cache than the one of bandwidth 70, every
    HarmScore is 1/3, and the process of bandwidth 70 has the greatest
    OccupancyScore and NoiseScore and is the verdict. *)
Theorem noise_score_three_processes :
  (forall K rows rep,
      NoDup (map Aggregator.proc rows) ->
      Scorer.score K rows = Some rep ->
      Scorer.lines rep = map (scored K rows) rows)
  /\ (forall acc line,
         Awk.data_line line = true ->
         Aggregator.sum_bw (Aggregator.block_rule acc line)
         = (Aggregator.sum_bw acc
            + (Awk.strtonum (Awk.field 6 (Awk.fields line))
               + Awk.strtonum (Awk.field 7 (Awk.fields line))))%Q)
  /\ (forall n1 n2 n3 o1 o2 o3,
         NoDup [n1; n2; n3] -> 0 <= o1 <= o3 -> 0 <= o2 <= o3 ->
         let rows := three_processes n1 n2 n3 o1 o2 o3 in
         let l1 := scored 1 rows (agg n1 100 o1 10) in
         let l2 := scored 1 rows (agg n2 100 o2 20) in
         let l3 := scored 1 rows (agg n3 100 o3 70) in
         exists rep,
           Scorer.score 1 rows = Some rep
           /\ Scorer.lines rep = [l1; l2; l3]
           /\ (Scorer.Harm_Score l1 == 1 # 3)%Q
           /\ (Scorer.Harm_Score l2 == 1 # 3)%Q
           /\ (Scorer.Harm_Score l3 == 1 # 3)%Q
           /\ (Scorer.Occ_Score l1 < Scorer.Occ_Score l3)%Q
           /\ (Scorer.Occ_Score l2 < Scorer.Occ_Score l3)%Q
           /\ (Scorer.Noise_Score l1 < Scorer.Noise_Score l3)%Q
           /\ (Scorer.Noise_Score l2 < Scorer.Noise_Score l3)%Q
           /\ Scorer.noisy rep = n3
           /\ Scorer.maxN rep = Scorer.Noise_Score l3).
Proof.
  split; [exact score_lines_by_formula|].
  split.
  { intros acc line Hline. unfold Aggregator.block_rule. rewrite Hline.
    reflexivity. }
  intros n1 n2 n3 o1 o2 o3 Hnd H1 H2 rows l1 l2 l3.
  destruct (three_processes_lines n1 n2 n3 o1 o2 o3 Hnd)
    as (rep & Hrep & Hlines & Hbest).
  destruct (three_processes_scores n1 n2 n3 o1 o2 o3 H1 H2)
    as (Hh1 & Hh2 & Hh3 & Hocc1 & Hocc2 & Hn1 & Hn2 & Hlow).
  fold rows in Hrep, Hlines, Hbest. fold rows l1 in Hh1, Hocc1, Hn1, Hlow.
  fold rows l2 in Hh2, Hocc2, Hn2. fold rows l3 in Hh3, Hocc1, Hocc2, Hn1, Hn2.
  change (map (scored 1 rows) rows) with [l1; l2; l3] in Hlines, Hbest.
  assert (Hpick : fold_left pick [l1; l2; l3] ((- (1))%Q, EmptyString)
                  = (Scorer.Noise_Score l3, n3)).
  { cbn [fold_left]. rewrite (pick_gt _ l1) by exact Hlow.
    destruct (Scorer.gt (Scorer.Noise_Score l2) (Scorer.Noise_Score l1)) eqn:Hgt.
    - rewrite (pick_gt _ l2) by (apply gt_true; exact Hgt).
      rewrite (pick_gt _ l3) by exact Hn2. reflexivity.
    - unfold pick at 2. cbn [fst]. rewrite Hgt.
      rewrite (pick_gt _ l3) by exact Hn1. reflexivity. }
  rewrite Hpick in Hbest. injection Hbest as Hmax Hnoisy.
  exists rep. repeat (split; [assumption|]). assumption.
Qed.

Lemma noise_score_three_processes_witness :
  NoDup ["p10"; "p20"; "p70"] /\ 0 <= 500 <= 500
  /\ exists rep,
       Scorer.score 1 tick_equal_occupancy = Some rep
       /\ Scorer.noisy rep = "p70".
Proof.
  assert (Hnd : NoDup ["p10"; "p20"; "p70"]) by (apply (bool_decide_unpack _); exact I).
  assert (Ho : 0 <= 500 <= 500) by lia.
  split; [exact Hnd|]. split; [exact Ho|].
  destruct (proj2 (proj2 noise_score_three_processes) "p10" "p20" "p70" 500 500 500
              Hnd Ho Ho) as (rep & Hrep & _ & _ & _ & _ & _ & _ & _ & _ & Hnoisy & _).
  exists rep. split; [exact Hrep | exact Hnoisy].
Defined.

(** C2, as the specification words it, leaves the occupancies open; when the
    process of bandwidth 10 holds all the cache it has the greatest
    OccupancyScore and NoiseScore and is the verdict. *)
Lemma three_processes_skewed_occupancy :
  exists rep,
    Scorer.score 1 tick_skewed_occupancy = Some rep
    /\ map Scorer.process (Scorer.lines rep) = ["p10"; "p20"; "p70"]
    /\ Forall2 Qeq (map Scorer.Occ_Score (Scorer.lines rep))
         [11 # 10; 2 # 10; 7 # 10]%Q
    /\ Scorer.noisy rep = "p10"
    /\ Scorer.noisy rep <> "p70".
Proof.
  eexists. split; [vm_compute; reflexivity|]. cbn [Scorer.lines Scorer.noisy].
  split; [reflexivity|].
  split; [repeat constructor|].
  split; [reflexivity | discriminate].
Qed.

(** ** The floors of the three sums *)

Lemma or_one_not_zero s : ~ (Scorer.or_one s == 0)%Q.
Proof.
  intros H. apply Qeq_bool_iff in H. rewrite or_one_nonzero in H. discriminate.
Qed.

(** ** The aggregation over the pids of the lists *)

Lemma wrap_s64_small z : - 2 ^ 63 <= z < 2 ^ 63 -> Aggregator.wrap_s64 z = z.
Proof.
  intros Hz. unfold Aggregator.wrap_s64. rewrite Z.mod_small; lia.
Qed.

Lemma wrap_s64_add_l a b :
  Aggregator.wrap_s64 (Aggregator.wrap_s64 a + b) = Aggregator.wrap_s64 (a + b).
Proof.
  unfold Aggregator.wrap_s64. f_equal.
  replace ((a + 2 ^ 63) mod 2 ^ 64 - 2 ^ 63 + b + 2 ^ 63)
    with ((a + 2 ^ 63) mod 2 ^ 64 + b) by ring.
  rewrite Zplus_mod_idemp_l. f_equal. ring.
Qed.

Lemma wrap_s64_add_compat a a' b b' :
  Aggregator.wrap_s64 a = Aggregator.wrap_s64 a' ->
  Aggregator.wrap_s64 b = Aggregator.wrap_s64 b' ->
  Aggregator.wrap_s64 (a + b) = Aggregator.wrap_s64 (a' + b').
Proof.
  intros Ha Hb.
  rewrite <- (wrap_s64_add_l a b), Ha, wrap_s64_add_l.
  rewrite (Z.add_comm a' b), <- (wrap_s64_add_l b a'), Hb, wrap_s64_add_l.
  f_equal. ring.
Qed.

Lemma Zsum_app l1 l2 : Zsum (l1 ++ l2) = Zsum l1 + Zsum l2.
Proof. unfold Zsum. induction l1 as [|x l1 IH]; simpl; lia. Qed.

Lemma Zsum_nonneg l : Forall (fun x => 0 <= x) l -> 0 <= Zsum l.
Proof. unfold Zsum. induction 1; simpl; lia. Qed.

Section Aggregation.
Variable pqos : Z -> list string.

Lemma pid_step_llc m l b pid :
  snd (fst (Aggregator.pid_step pqos (m, l, b) pid))
  = Aggregator.bash_add l (llc_val pqos pid).
Proof.
  unfold Aggregator.pid_step, llc_val.
  destruct (Aggregator.parse_log (pqos pid)) as [[mv lv] bv]. reflexivity.
Qed.

Lemma pid_fold_llc pids :
  forall acc,
    Aggregator.wrap_s64 (snd (fst (fold_left (Aggregator.pid_step pqos) pids acc)))
    = Aggregator.wrap_s64 (snd (fst acc) + Zsum (map (llc_val pqos) pids)).
Proof.
  induction pids as [|pid pids IH]; intros [[m l] b]; cbn [fold_left map].
  - cbn [Zsum fold_right fst snd]. rewrite Z.add_0_r. reflexivity.
  - rewrite IH, (pid_step_llc m l b pid). unfold Aggregator.bash_add.
    rewrite wrap_s64_add_l. cbn [fst snd]. f_equal.
    change (Zsum (llc_val pqos pid :: map (llc_val pqos) pids))
      with (llc_val pqos pid + Zsum (map (llc_val pqos) pids)). ring.
Qed.

Lemma pid_fold_llc_exact pids :
  forall acc,
    0 <= snd (fst acc) ->
    Forall (fun pid => 0 <= llc_val pqos pid) pids ->
    snd (fst acc) + Zsum (map (llc_val pqos) pids) < 2 ^ 63 ->
    snd (fst (fold_left (Aggregator.pid_step pqos) pids acc))
    = snd (fst acc) + Zsum (map (llc_val pqos) pids).
Proof.
  induction pids as [|pid pids IH]; intros [[m l] b] Hl Hall Hsum;
    cbn [fold_left map fst snd] in *.
  - cbn [Zsum fold_right]. lia.
  - apply Forall_cons in Hall as [Hpid Hall].
    change (Zsum (llc_val pqos pid :: map (llc_val pqos) pids))
      with (llc_val pqos pid + Zsum (map (llc_val pqos) pids)) in *.
    pose proof (Zsum_nonneg (map (llc_val pqos) pids)) as Hrest.
    rewrite Forall_map in Hrest. specialize (Hrest Hall).
    assert (Hstep : snd (fst (Aggregator.pid_step pqos (m, l, b) pid))
                    = l + llc_val pqos pid).
    { rewrite (pid_step_llc m l b pid). unfold Aggregator.bash_add.
      apply wrap_s64_small. lia. }
    rewrite IH; rewrite ?Hstep; [lia | lia | exact Hall | lia].
Qed.

Lemma proc_row_some name pid pids :
  exists row,
    Aggregator.proc_row pqos (name, pid :: pids) = Some row
    /\ Aggregator.proc row = name
    /\ Aggregator.llc_kb_sum row
       = snd (fst (fold_left (Aggregator.pid_step pqos) (pid :: pids) (0, 0, 0))).
Proof.
  unfold Aggregator.proc_row.
  destruct (fold_left (Aggregator.pid_step pqos) (pid :: pids) (0, 0, 0))
    as [[m l] b].
  eexists. split; [reflexivity|]. split; reflexivity.
Qed.

Lemma aggregate_cons_none name tops :
  Aggregator.aggregate pqos ((name, []) :: tops) = Aggregator.aggregate pqos tops.
Proof. reflexivity. Qed.

Lemma aggregate_cons_some name pid pids tops row :
  Aggregator.proc_row pqos (name, pid :: pids) = Some row ->
  Aggregator.aggregate pqos ((name, pid :: pids) :: tops)
  = row :: Aggregator.aggregate pqos tops.
Proof.
  intros Hrow. unfold Aggregator.aggregate. cbn [omap list_omap].
  rewrite Hrow. reflexivity.
Qed.

Lemma aggregate_labels tops :
  map Aggregator.proc (Aggregator.aggregate pqos tops) = resolved tops.
Proof.
  induction tops as [|[name [|pid pids]] tops IH]; [reflexivity | |].
  - rewrite aggregate_cons_none. exact IH.
  - destruct (proc_row_some name pid pids) as (row & Hrow & Hname & _).
    rewrite (aggregate_cons_some _ _ _ _ _ Hrow). unfold resolved.
    cbn [List.filter snd length Nat.eqb negb map fst]. rewrite Hname.
    f_equal. exact IH.
Qed.

Lemma aggregate_llc_wraps tops :
  Aggregator.wrap_s64
    (Zsum (map Aggregator.llc_kb_sum (Aggregator.aggregate pqos tops)))
  = Aggregator.wrap_s64 (Zsum (map (llc_val pqos) (sampled tops))).
Proof.
  induction tops as [|[name [|pid pids]] tops IH]; [reflexivity | |].
  - rewrite aggregate_cons_none. exact IH.
  - destruct (proc_row_some name pid pids) as (row & Hrow & _ & Hllc).
    rewrite (aggregate_cons_some _ _ _ _ _ Hrow).
    unfold sampled. cbn [flat_map snd]. rewrite map_app, Zsum_app.
    change (Zsum (map Aggregator.llc_kb_sum (row :: Aggregator.aggregate pqos tops)))
      with (Aggregator.llc_kb_sum row
            + Zsum (map Aggregator.llc_kb_sum (Aggregator.aggregate pqos tops))).
    apply wrap_s64_add_compat; [|exact IH].
    rewrite Hllc, pid_fold_llc. reflexivity.
Qed.

Lemma aggregate_llc_exact tops :
  Forall (fun pid => 0 <= llc_val pqos pid) (sampled tops) ->
  Zsum (map (llc_val pqos) (sampled tops)) < 2 ^ 63 ->
  Zsum (map Aggregator.llc_kb_sum (Aggregator.aggregate pqos tops))
  = Zsum (map (llc_val pqos) (sampled tops)).
Proof.
  induction tops as [|[name [|pid pids]] tops IH]; intros Hall Hsum;
    [reflexivity | |].
  - rewrite aggregate_cons_none. apply IH; assumption.
  - destruct (proc_row_some name pid pids) as (row & Hrow & _ & Hllc).
    rewrite (aggregate_cons_some _ _ _ _ _ Hrow).
    unfold sampled in *. cbn [flat_map snd] in *.
    rewrite map_app, Zsum_app in *. apply Forall_app in Hall as [Hown Hrest].
    pose proof (Zsum_nonneg (map (llc_val pqos) (pid :: pids))) as Hn1.
    rewrite Forall_map in Hn1. specialize (Hn1 Hown).
    pose proof (Zsum_nonneg (map (llc_val pqos) (flat_map snd tops))) as Hn2.
    rewrite Forall_map in Hn2. specialize (Hn2 Hrest).
    change (Zsum (map Aggregator.llc_kb_sum (row :: Aggregator.aggregate pqos tops)))
      with (Aggregator.llc_kb_sum row
            + Zsum (map Aggregator.llc_kb_sum (Aggregator.aggregate pqos tops))).
    rewrite IH by (assumption || lia).
    rewrite Hllc, pid_fold_llc_exact; cbn [fst snd]; [lia | lia | exact Hown | lia].
Qed.

End Aggregation.

Lemma pid_fold_ext pqos pqos' pids :
  (forall pid, In pid pids -> pqos' pid = pqos pid) ->
  forall acc,
    fold_left (Aggregator.pid_step pqos') pids acc
    = fold_left (Aggregator.pid_step pqos) pids acc.
Proof.
  induction pids as [|pid pids IH]; intros Hext acc; [reflexivity|].
  cbn [fold_left]. unfold Aggregator.pid_step at 2 4.
  rewrite (Hext pid) by (left; reflexivity).
  apply IH. intros q Hq. apply Hext. right. exact Hq.
Qed.

Lemma aggregate_ext pqos pqos' tops :
  (forall pid, In pid (sampled tops) -> pqos' pid = pqos pid) ->
  Aggregator.aggregate pqos' tops = Aggregator.aggregate pqos tops.
Proof.
  induction tops as [|[name pids] tops IH]; intros Hext; [reflexivity|].
  unfold sampled in Hext. cbn [flat_map snd] in Hext.
  unfold Aggregator.aggregate. cbn [omap list_omap].
  assert (Hrow : Aggregator.proc_row pqos' (name, pids)
                 = Aggregator.proc_row pqos (name, pids)).
  { unfold Aggregator.proc_row. destruct pids as [|pid pids]; [reflexivity|].
    rewrite (pid_fold_ext pqos pqos' (pid :: pids)); [reflexivity|].
    intros q Hq. apply Hext, in_or_app. left. exact Hq. }
  rewrite Hrow. fold (Aggregator.aggregate pqos' tops).
  fold (Aggregator.aggregate pqos tops).
  rewrite IH; [reflexivity|].
  intros q Hq. apply Hext, in_or_app. right. exact Hq.
Qed.

(** X17. The loop of step 4 of noisy_detector.sh writes one row for
    every listed process that resolved to a pid, in the order of the list
    (a process without pid is skipped; no other label is ever written);
    the sum of the rows' occupancies equals, in bash's wrapping 64-bit
    arithmetic, the sum over all sampled pids of the occupancy that the
    block parser printed for the pid, and equals it exactly when these
    are non-negative with a total below 2^63; the logs of pids outside
    the lists never reach the output. *)
Theorem aggregation_conserves_sampled_occupancy
    (pqos : Z -> list string) (tops : list (string * list Z)) :
  let rows := Aggregator.aggregate pqos tops in
  let per_pid := map (llc_val pqos) (sampled tops) in
  map Aggregator.proc rows = resolved tops
  /\ Aggregator.wrap_s64 (Zsum (map Aggregator.llc_kb_sum rows))
     = Aggregator.wrap_s64 (Zsum per_pid)
  /\ (Forall (fun v => 0 <= v) per_pid -> Zsum per_pid < 2 ^ 63 ->
      Zsum (map Aggregator.llc_kb_sum rows) = Zsum per_pid)
  /\ (forall pqos',
         (forall pid, In pid (sampled tops) -> pqos' pid = pqos pid) ->
         Aggregator.aggregate pqos' tops = rows).
Proof.
  cbv zeta. split; [apply aggregate_labels|].
  split; [apply aggregate_llc_wraps|]. split.
  - intros Hall Hsum. apply aggregate_llc_exact; [|exact Hsum].
    rewrite Forall_map in Hall. exact Hall.
  - intros pqos' Hext. apply aggregate_ext, Hext.
Qed.

Lemma aggregation_conserves_sampled_occupancy_witness :
  Forall (fun v => 0 <= v) (map (llc_val pqos_two_targets) (sampled tops_two_targets))
  /\ Zsum (map (llc_val pqos_two_targets) (sampled tops_two_targets)) < 2 ^ 63
  /\ map Aggregator.proc (Aggregator.aggregate pqos_two_targets tops_two_targets)
     = ["procA"]
  /\ Zsum (map Aggregator.llc_kb_sum
             (Aggregator.aggregate pqos_two_targets tops_two_targets))
     = Zsum (map (llc_val pqos_two_targets) (sampled tops_two_targets)).
Proof.
  assert (Hall : Forall (fun v => 0 <= v)
                   (map (llc_val pqos_two_targets) (sampled tops_two_targets)))
    by (repeat constructor; discriminate).
  assert (Hsum : Zsum (map (llc_val pqos_two_targets) (sampled tops_two_targets))
                 < 2 ^ 63) by reflexivity.
  destruct (aggregation_conserves_sampled_occupancy pqos_two_targets tops_two_targets)
    as (Hlabels & _ & Hexact & _).
  split; [exact Hall|]. split; [exact Hsum|].
  split; [exact Hlabels | exact (Hexact Hall Hsum)].
Defined.

(** ** Running the programs *)

Lemma bind_run {A B} (c : prog A) (k : A -> prog B) (w : world) :
  (c ≫= k) w
  = match c w with
    | (w', Ok a) => k a w'
    | (w', Exit f) => (w', Exit f)
    end.
Proof. reflexivity. Qed.

(** C8, as the code has it. If a monitored process passes the initial
    liveness check and is gone at the first round of the polling loop, the
    run aborts before any poll, in one of five ways.  When the library
    refuses to start the group of the first or of the second process, the
    run ends with the message of [pqos_mon_start_pids] and no file has
    been opened; when an output file cannot be opened, it ends with the
    message of [fopen], the first file left behind empty if it was
    opened; and when both groups were started and both files opened, it
    ends with the message that the pid disappeared, and the two output
    files of the phase have been created by then and hold the header line
    only. *)
Theorem vanished_target_aborts_after_header
    h w pid1 pid2 duration outfile1 outfile2 w1 w2 :
  wait_for_pid h pid1 5 w = (w1, Ok 0) ->
  wait_for_pid h pid2 5 w1 = (w2, Ok 0) ->
  outfile1 <> outfile2 ->
  0 < duration ->
  proc_alive h pid1 (now w2 + 1) = false \/ proc_alive h pid2 (now w2 + 1) = false ->
  let ret1 := mon_start_ret h (Pid pid1) (now w2) in
  let ret2 := mon_start_ret h (Pid pid2) (now w2) in
  exists w' f evs,
    monitor_pids_pair h pid1 pid2 duration outfile1 outfile2 w = (w', Exit f)
    /\ trace w' = trace w2 ++ evs
    /\ ~ In EvMonPoll evs
    /\ (ret1 <> PQOS_RETVAL_OK ->
        f = MonStartFailed pid1 ret1 /\ files w' = files w2)
    /\ (ret1 = PQOS_RETVAL_OK -> ret2 <> PQOS_RETVAL_OK ->
        f = MonStartFailed pid2 ret2 /\ files w' = files w2)
    /\ (ret1 = PQOS_RETVAL_OK -> ret2 = PQOS_RETVAL_OK ->
        io_denied h outfile1 = true ->
        f = FopenFailed outfile1 /\ files w' = files w2)
    /\ (ret1 = PQOS_RETVAL_OK -> ret2 = PQOS_RETVAL_OK ->
        io_denied h outfile1 = false -> io_denied h outfile2 = true ->
        f = FopenFailed outfile2 /\ files w' = <[outfile1 := []]> (files w2))
    /\ (ret1 = PQOS_RETVAL_OK -> ret2 = PQOS_RETVAL_OK ->
        io_denied h outfile1 = false -> io_denied h outfile2 = false ->
        exists pid,
          f = PidDisappeared pid
          /\ (pid = pid1 \/ pid = pid2)
          /\ proc_alive h pid (now w') = false
          /\ files w' !! outfile1 = Some [Header "PID"]
          /\ files w' !! outfile2 = Some [Header "PID"]
          /\ (forall path, path <> outfile1 -> path <> outfile2 ->
                files w' !! path = files w2 !! path)
          /\ evs = [EvMonStart (Pid pid1); EvMonStart (Pid pid2);
                    EvFopen outfile1; EvFopen outfile2]).
Proof.
  intros Hw1 Hw2 Hne Hdur Hgone. cbv zeta.
  destruct w2 as [fs ds t tr]. cbv [now PQOS_RETVAL_OK] in Hgone |- *.
  cbn [files trace].
  destruct (Z.to_nat duration) as [|n] eqn:Hn; [lia|].
  assert (Hframe : forall (a b : list chunk) path,
             path <> outfile1 -> path <> outfile2 ->
             <[outfile2 := b]> (<[outfile1 := a]>
               (<[outfile2 := []]> (<[outfile1 := []]> fs))) !! path = fs !! path).
  { intros a b path H1 H2. rewrite !lookup_insert_ne by congruence. reflexivity. }
  destruct (Z.eq_dec (mon_start_ret h (Pid pid1) t) 0) as [Hs1|Hs1].
  2:{ run_prog. rewrite Hw1. run_prog. rewrite Hw2. run_prog.
      destruct (mon_start_ret h (Pid pid1) t) as [|p|p] eqn:Hr; [congruence| |];
        (eexists _, _, [_]; split; [reflexivity|]; cbn [files trace];
         split; [reflexivity|];
         split; [cbn [In]; intros [?|[]]; discriminate|];
         split; [intros _; split; reflexivity|];
         repeat split; intros; congruence). }
  destruct (Z.eq_dec (mon_start_ret h (Pid pid2) t) 0) as [Hs2|Hs2].
  2:{ run_prog. rewrite Hw1. run_prog. rewrite Hw2. run_prog. rewrite Hs1.
      destruct (mon_start_ret h (Pid pid2) t) as [|p|p] eqn:Hr; [congruence| |];
        (eexists _, _, [_; _; _]; split; [reflexivity|]; cbn [files trace];
         split; [rewrite <- !app_assoc; reflexivity|];
         split; [cbn [In]; intros [?|[?|[?|[]]]]; discriminate|];
         split; [intros; congruence|];
         split; [intros _ _; split; reflexivity|];
         repeat split; intros; congruence). }
  destruct (io_denied h outfile1) eqn:Hio1.
  { run_prog. rewrite Hw1. run_prog. rewrite Hw2. run_prog. rewrite Hs1, Hs2, Hio1.
    eexists _, _, [_; _]. split; [reflexivity|]. cbn [files trace].
    split; [rewrite <- !app_assoc; reflexivity|].
    split; [cbn [In]; intros [?|[?|[]]]; discriminate|].
    split; [intros; congruence|]. split; [intros; congruence|].
    split; [intros _ _ _; split; reflexivity|].
    repeat split; intros; congruence. }
  destruct (io_denied h outfile2) eqn:Hio2.
  { run_prog. rewrite Hw1. run_prog. rewrite Hw2. run_prog.
    rewrite Hs1, Hs2, Hio1, Hio2.
    eexists _, _, [_; _; _]. split; [reflexivity|]. cbn [files trace].
    split; [rewrite <- !app_assoc; reflexivity|].
    split; [cbn [In]; intros [?|[?|[?|[]]]]; discriminate|].
    split; [intros; congruence|]. split; [intros; congruence|].
    split; [intros; congruence|].
    split; [intros _ _ _ _; split; reflexivity|].
    intros; congruence. }
  run_prog. rewrite Hw1. run_prog. rewrite Hw2. run_prog.
  rewrite Hs1, Hs2, Hio1, Hio2, Hn. run_prog.
  assert (Hf1 : forall c : list chunk,
             <[outfile2:=c]>
               (<[outfile1:=default []
                              (<[outfile2:=[]]> (<[outfile1:=[]]> fs) !! outfile1)
                            ++ [Header "PID"]]>
                  (<[outfile2:=[]]> (<[outfile1:=[]]> fs))) !! outfile1
             = Some [Header "PID"]).
  { intros c. rewrite lookup_insert_ne by congruence.
    rewrite lookup_insert_eq, lookup_insert_ne by congruence.
    rewrite lookup_insert_eq. reflexivity. }
  assert (Hf2 : <[outfile2:=default []
                              (<[outfile1:=default []
                                             (<[outfile2:=[]]> (<[outfile1:=[]]> fs)
                                              !! outfile1) ++ [Header "PID"]]>
                                 (<[outfile2:=[]]> (<[outfile1:=[]]> fs))
                               !! outfile2) ++ [Header "PID"]]>
                  (<[outfile1:=default []
                                 (<[outfile2:=[]]> (<[outfile1:=[]]> fs) !! outfile1)
                               ++ [Header "PID"]]>
                     (<[outfile2:=[]]> (<[outfile1:=[]]> fs))) !! outfile2
                = Some [Header "PID"]).
  { rewrite lookup_insert_eq, lookup_insert_ne by congruence.
    rewrite lookup_insert_eq. reflexivity. }
  destruct (proc_alive h pid1 (t + 1)) eqn:Halive1.
  - destruct Hgone as [Hgone|Hgone]; [discriminate|].
    run_prog. rewrite Hgone.
    eexists _, _, [_; _; _; _]. split; [reflexivity|]. cbn [files now trace].
    split; [rewrite <- !app_assoc; reflexivity|].
    split; [cbn [In]; intros [?|[?|[?|[?|[]]]]]; discriminate|].
    split; [intros; congruence|]. split; [intros; congruence|].
    split; [intros; congruence|]. split; [intros; congruence|].
    intros _ _ _ _. exists pid2.
    split; [reflexivity|]. split; [right; reflexivity|]. split; [exact Hgone|].
    split; [apply Hf1|]. split; [exact Hf2|].
    split; [intros path H1 H2; apply Hframe; assumption | reflexivity].
  - eexists _, _, [_; _; _; _]. split; [reflexivity|]. cbn [files now trace].
    split; [rewrite <- !app_assoc; reflexivity|].
    split; [cbn [In]; intros [?|[?|[?|[?|[]]]]]; discriminate|].
    split; [intros; congruence|]. split; [intros; congruence|].
    split; [intros; congruence|]. split; [intros; congruence|].
    intros _ _ _ _. exists pid1.
    split; [reflexivity|]. split; [left; reflexivity|]. split; [exact Halive1|].
    split; [apply Hf1|]. split; [exact Hf2|].
    split; [intros path H1 H2; apply Hframe; assumption | reflexivity].
Qed.

Lemma vanished_target_aborts_after_header_witness :
  wait_for_pid host_vanishing 100 5 (world_with_mask "7fff")
  = (world_with_mask "7fff", Ok 0)
  /\ proc_alive host_vanishing 100 (now (world_with_mask "7fff") + 1) = false
  /\ exists w' f,
       monitor_pids_pair host_vanishing 100 200 30
         "VM1_half_baseline.txt" "VM2_half_baseline.txt" (world_with_mask "7fff")
       = (w', Exit f)
       /\ f = PidDisappeared 100
       /\ files w' !! "VM1_half_baseline.txt" = Some [Header "PID"].
Proof.
  split; [reflexivity|]. split; [reflexivity|].
  destruct (vanished_target_aborts_after_header host_vanishing
              (world_with_mask "7fff") 100 200 30
              "VM1_half_baseline.txt" "VM2_half_baseline.txt"
              (world_with_mask "7fff") (world_with_mask "7fff"))
    as (w' & f & evs & Hrun & _ & _ & _ & _ & _ & _ & Hgone);
    try reflexivity; try discriminate; [left; reflexivity|].
  destruct (Hgone eq_refl eq_refl eq_refl eq_refl) as (pid & Hf & _ & _ & Hfile & _).
  exists w', f. split; [exact Hrun|]. split; [|exact Hfile].
  rewrite Hf. rewrite Hf in Hrun.
  assert (Hrun' : (monitor_pids_pair host_vanishing 100 200 30
                     "VM1_half_baseline.txt" "VM2_half_baseline.txt"
                     (world_with_mask "7fff")).2 = Exit (PidDisappeared pid))
    by (rewrite Hrun; reflexivity).
  vm_compute in Hrun'. injection Hrun' as <-. reflexivity.
Defined.

(** C8, as the specification words it, fails: after the abort both output files of
    the phase exist and hold the header. *)
Lemma vanished_target_leaves_header_files :
  let r := monitor_pids_pair host_vanishing 100 200 30
             "VM1_half_baseline.txt" "VM2_half_baseline.txt"
             (world_with_mask "7fff") in
  r.2 = Exit (PidDisappeared 100)
  /\ files r.1 !! "VM1_half_baseline.txt" = Some [Header "PID"]
  /\ files r.1 !! "VM2_half_baseline.txt" = Some [Header "PID"]
  /\ files r.1 !! "VM1_half_baseline.txt" <> None.
Proof.
  cbv zeta. split; [vm_compute; reflexivity|].
  split; [vm_compute; reflexivity|]. split; [vm_compute; reflexivity|].
  vm_compute. discriminate.
Qed.

(** ** The mask without a set bit *)

(** split_cache_and_monitor.c hands on whatever value the mask text
    denotes, zero included. *)
Lemma split_monitor_reads_mask w cs text cbm_raw full_mask :
  files w !! CBM_MASK_PATH = Some cs ->
  text_of cs = Some text ->
  first_line text = Some cbm_raw ->
  parse_hex_u64 (if SplitMonitor.has_0x cbm_raw then cbm_raw
                 else snprintf 64 ("0x" +:+ cbm_raw)) = Some full_mask ->
  SplitMonitor.read_mask w = (w, Ok full_mask).
Proof.
  intros Hfile Htext Hline Hparse.
  unfold SplitMonitor.read_mask, read_file.
  cbv [mbind prog_bind mret prog_ret option_bind].
  rewrite Hfile, Htext, Hline, Hparse. reflexivity.
Qed.

(** cos.c refuses a mask without a set bit before it changes anything. *)
Lemma cos_refuses_zero_mask h vm1 vm2 duration w cs text cbm_raw full_mask :
  0 < duration ->
  files w !! CBM_MASK_PATH = Some cs ->
  text_of cs = Some text ->
  first_line text = Some cbm_raw ->
  (0 < String.length (Cos.skip_prefix cbm_raw) <= 16)%nat ->
  parse_hex_no_prefix (Cos.skip_prefix cbm_raw) = Some full_mask ->
  Cos.count_bits full_mask = 0 ->
  Cos.main h vm1 vm2 duration w = (w, Exit ZeroBitsSet).
Proof.
  intros Hdur Hfile Htext Hline Hwidth Hparse Hzero.
  unfold Cos.main, Cos.read_mask, read_file.
  replace (duration <=? 0) with false by (symmetry; apply Z.leb_gt; lia).
  cbv [mbind prog_bind mret prog_ret when die option_bind].
  rewrite Hfile, Htext, Hline.
  replace (String.length (Cos.skip_prefix cbm_raw) =? 0)%nat with false
    by (symmetry; apply Nat.eqb_neq; lia).
  replace (16 <? String.length (Cos.skip_prefix cbm_raw))%nat with false
    by (symmetry; apply Nat.ltb_ge; lia).
  cbn [orb]. rewrite Hparse, Hzero. reflexivity.
Qed.

(** C7 on the two programs. cos.c ends with the fatal error for every mask
    text that denotes zero, and leaves the world as it was;
    split_cache_and_monitor.c has no such test: its reading of the mask
    hands the zero on, [split_mask] makes two empty shares of it, and for a
    mask file that holds "0" the program writes them to the schemata of
    both classes and runs to the end. *)
Theorem zero_mask_is_partitioned_by_split_monitor :
  (forall h vm1 vm2 duration w cs text cbm_raw,
      0 < duration ->
      files w !! CBM_MASK_PATH = Some cs ->
      text_of cs = Some text ->
      first_line text = Some cbm_raw ->
      (0 < String.length (Cos.skip_prefix cbm_raw) <= 16)%nat ->
      parse_hex_no_prefix (Cos.skip_prefix cbm_raw) = Some 0 ->
      Cos.main h vm1 vm2 duration w = (w, Exit ZeroBitsSet))
  /\ (forall w cs text cbm_raw,
         files w !! CBM_MASK_PATH = Some cs ->
         text_of cs = Some text ->
         first_line text = Some cbm_raw ->
         parse_hex_u64 (if SplitMonitor.has_0x cbm_raw then cbm_raw
                        else snprintf 64 ("0x" +:+ cbm_raw)) = Some 0 ->
         SplitMonitor.read_mask w = (w, Ok 0))
  /\ SplitMonitor.split_mask 0 = (0, 0)
  /\ Cos.main host_ok "vm1" "vm2" 1 (world_with_mask "0")
     = (world_with_mask "0", Exit ZeroBitsSet)
  /\ let r := SplitMonitor.main host_ok "vm1" "vm2" 1 (world_with_mask "0") in
     r.2 = Ok tt
     /\ In (EvWrite COS1_SCHEMATA "L3:0=0x0;L3:1=0x0000000000000000") (trace r.1)
     /\ In (EvWrite COS2_SCHEMATA "L3:0=0x0;L3:1=0x0000000000000000") (trace r.1)
     /\ In (EvMonPoll) (trace r.1).
Proof.
  split.
  { intros h vm1 vm2 duration w cs text cbm_raw Hdur Hfile Htext Hline Hwidth Hparse.
    exact (cos_refuses_zero_mask h vm1 vm2 duration w cs text cbm_raw 0
             Hdur Hfile Htext Hline Hwidth Hparse eq_refl). }
  split.
  { intros w cs text cbm_raw. apply split_monitor_reads_mask. }
  split; [vm_compute; reflexivity|]. split; [vm_compute; reflexivity|].
  cbv zeta. split; [vm_compute; reflexivity|].
  split; [vm_compute; tauto|]. split; vm_compute; tauto.
Qed.

(** ** Between the two phases *)

(** A file outside a removed class stays as it is. *)
Lemma rmdir_keeps_outside path target (fs : gmap string (list chunk)) :
  String.prefix (path +:+ "/") target = false ->
  filter (fun e : string * list chunk => String.prefix (path +:+ "/") e.1 = false) fs
    !! target = fs !! target.
Proof.
  intros Hp. destruct (fs !! target) as [x|] eqn:Hx.
  - apply map_lookup_filter_Some. split; [exact Hx | exact Hp].
  - apply map_lookup_filter_None. left. exact Hx.
Qed.

(** The teardown of split_cache_and_monitor.c: both pids are appended to
    the default tasks file, then both classes are removed. *)
Lemma split_monitor_teardown_run h w pid1 pid2 :
  (forall path, io_denied h path = false) ->
  COS1_DIR ∈ dirs w -> COS2_DIR ∈ dirs w ->
  pqos_init_ret h (now w) = PQOS_RETVAL_OK ->
  pqos_reset_ret h (now w) = PQOS_RETVAL_OK ->
  exists w',
    SplitMonitor.teardown h pid1 pid2 w = (w', Ok tt)
    /\ trace w'
       = trace w ++ [EvMonReset;
                     EvAppend SplitMonitor.DEFAULT_TASKS (snprintf 32 (dec_of_Z pid1));
                     EvAppend SplitMonitor.DEFAULT_TASKS (snprintf 32 (dec_of_Z pid2));
                     EvRmdir COS1_DIR; EvRmdir COS2_DIR;
                     EvPqosFini; EvPqosInit; EvMonReset]
    /\ files w' !! SplitMonitor.DEFAULT_TASKS
       = Some (default [] (files w !! SplitMonitor.DEFAULT_TASKS)
               ++ [Text (snprintf 32 (dec_of_Z pid1)); Text Cos.newline;
                   Text (snprintf 32 (dec_of_Z pid2)); Text Cos.newline])
    /\ (COS1_DIR ∉ dirs w') /\ (COS2_DIR ∉ dirs w').
Proof.
  intros tasks_writable Hd1 Hd2 Hi Hr.
  destruct w as [fs ds t tr]. cbv [dirs now PQOS_RETVAL_OK] in Hd1, Hd2, Hi, Hr.
  unfold SplitMonitor.teardown.
  cbv [mbind prog_bind mret prog_ret when die negb pqos_mon_reset pqos_init
       pqos_fini emit append_str_to_file rmdir log_event set_files set_dirs
       files dirs now trace PQOS_RETVAL_OK].
  rewrite !tasks_writable. cbn [orb negb].
  rewrite (bool_decide_eq_true_2 _ Hd1). cbn [negb].
  assert (Hd2' : COS2_DIR ∈ ds ∖ {[COS1_DIR]}).
  { apply elem_of_difference. split; [exact Hd2|].
    rewrite elem_of_singleton. discriminate. }
  rewrite (bool_decide_eq_true_2 _ Hd2'). cbn [negb].
  rewrite Hi. cbv [Z.eqb now log_event files dirs trace].
  rewrite Hr. cbv [Z.eqb].
  eexists. split; [reflexivity|]. cbv [trace files dirs].
  split; [rewrite <- !app_assoc; reflexivity|].
  split.
  - rewrite !rmdir_keeps_outside by reflexivity.
    rewrite lookup_insert_eq, lookup_insert_eq. cbn [default]. unfold id.
    rewrite <- app_assoc. reflexivity.
  - split; intros Hin;
      rewrite !elem_of_difference, !elem_of_singleton in Hin;
      intuition congruence.
Qed.

(** The teardown of cos.c: the pids are appended to the tasks files of
    COS1 and COS2, the default tasks file is left as it was, then both
    classes are removed. *)
Lemma cos_teardown_run h w pid1 pid2 :
  (forall path, io_denied h path = false) ->
  COS1_DIR ∈ dirs w -> COS2_DIR ∈ dirs w ->
  pqos_init_ret h (now w) = PQOS_RETVAL_OK ->
  pqos_reset_ret h (now w) = PQOS_RETVAL_OK ->
  exists w',
    Cos.teardown h pid1 pid2 w = (w', Ok tt)
    /\ trace w'
       = trace w ++ [EvMonReset;
                     EvAppend COS1_TASKS (snprintf 32 (dec_of_Z pid1));
                     EvAppend COS2_TASKS (snprintf 32 (dec_of_Z pid2));
                     EvRmdir COS1_DIR; EvRmdir COS2_DIR;
                     EvPqosFini; EvPqosInit; EvMonReset]
    /\ files w' !! SplitMonitor.DEFAULT_TASKS
       = files w !! SplitMonitor.DEFAULT_TASKS
    /\ (COS1_DIR ∉ dirs w') /\ (COS2_DIR ∉ dirs w').
Proof.
  intros tasks_writable Hd1 Hd2 Hi Hr.
  destruct w as [fs ds t tr]. cbv [dirs now PQOS_RETVAL_OK] in Hd1, Hd2, Hi, Hr.
  unfold Cos.teardown.
  cbv [mbind prog_bind mret prog_ret when die negb pqos_mon_reset pqos_init
       pqos_fini emit append_str_to_file rmdir log_event set_files set_dirs
       files dirs now trace PQOS_RETVAL_OK].
  rewrite !tasks_writable. cbn [orb negb].
  rewrite (bool_decide_eq_true_2 _ Hd1). cbn [negb].
  assert (Hd2' : COS2_DIR ∈ ds ∖ {[COS1_DIR]}).
  { apply elem_of_difference. split; [exact Hd2|].
    rewrite elem_of_singleton. discriminate. }
  rewrite (bool_decide_eq_true_2 _ Hd2'). cbn [negb].
  rewrite Hi. cbv [Z.eqb now log_event files dirs trace].
  rewrite Hr. cbv [Z.eqb].
  eexists. split; [reflexivity|]. cbv [trace files dirs].
  split; [rewrite <- !app_assoc; reflexivity|].
  split.
  - rewrite !rmdir_keeps_outside by reflexivity.
    rewrite !lookup_insert_ne by discriminate. reflexivity.
  - split; intros Hin;
      rewrite !elem_of_difference, !elem_of_singleton in Hin;
      intuition congruence.
Qed.

(** C9 on the two programs. Between the phases
    split_cache_and_monitor.c appends both pids to the default tasks file
    and removes both classes; cos.c appends the pids to the tasks files of
    COS1 and COS2 again, leaves the default tasks file as it was, and
    removes both classes.  In a run that completes, cos.c never writes the
    default tasks file. *)
Theorem cos_teardown_appends_to_class_tasks :
  (forall h w pid1 pid2,
      (forall path, io_denied h path = false) ->
      COS1_DIR ∈ dirs w -> COS2_DIR ∈ dirs w ->
      pqos_init_ret h (now w) = PQOS_RETVAL_OK ->
      pqos_reset_ret h (now w) = PQOS_RETVAL_OK ->
      (exists w',
          SplitMonitor.teardown h pid1 pid2 w = (w', Ok tt)
          /\ List.filter membership_event (trace w')
             = List.filter membership_event (trace w)
               ++ [EvAppend SplitMonitor.DEFAULT_TASKS (snprintf 32 (dec_of_Z pid1));
                   EvAppend SplitMonitor.DEFAULT_TASKS (snprintf 32 (dec_of_Z pid2));
                   EvRmdir COS1_DIR; EvRmdir COS2_DIR])
      /\ (exists w',
             Cos.teardown h pid1 pid2 w = (w', Ok tt)
             /\ List.filter membership_event (trace w')
                = List.filter membership_event (trace w)
                  ++ [EvAppend COS1_TASKS (snprintf 32 (dec_of_Z pid1));
                      EvAppend COS2_TASKS (snprintf 32 (dec_of_Z pid2));
                      EvRmdir COS1_DIR; EvRmdir COS2_DIR]
             /\ files w' !! SplitMonitor.DEFAULT_TASKS
                = files w !! SplitMonitor.DEFAULT_TASKS))
  /\ let split := SplitMonitor.main host_ok "vm1" "vm2" 1 (world_with_mask "7fff") in
     let cos := Cos.main host_ok "vm1" "vm2" 1 (world_with_mask "7fff") in
     split.2 = Ok tt
     /\ List.filter membership_event (trace split.1)
        = [EvAppend COS1_TASKS "100"; EvAppend COS2_TASKS "200";
           EvMonStart (Pid 100); EvMonStart (Pid 200);
           EvAppend SplitMonitor.DEFAULT_TASKS "100";
           EvAppend SplitMonitor.DEFAULT_TASKS "200";
           EvRmdir COS1_DIR; EvRmdir COS2_DIR;
           EvMonStart (Pid 100); EvMonStart (Pid 200)]
     /\ files split.1 !! SplitMonitor.DEFAULT_TASKS
        = Some [Text "100"; Text Cos.newline; Text "200"; Text Cos.newline]
     /\ cos.2 = Ok tt
     /\ List.filter membership_event (trace cos.1)
        = [EvAppend COS1_TASKS "100"; EvAppend COS2_TASKS "200";
           EvMonStart (Pid 100); EvMonStart (Pid 200);
           EvAppend COS1_TASKS "100"; EvAppend COS2_TASKS "200";
           EvRmdir COS1_DIR; EvRmdir COS2_DIR;
           EvMonStart (Pid 100); EvMonStart (Pid 200)]
     /\ files cos.1 !! SplitMonitor.DEFAULT_TASKS = None.
Proof.
  split.
  { intros h w pid1 pid2 Hio Hd1 Hd2 Hi Hr. split.
    - destruct (split_monitor_teardown_run h w pid1 pid2 Hio Hd1 Hd2 Hi Hr)
        as (w' & Hrun & Htrace & _).
      exists w'. split; [exact Hrun|]. rewrite Htrace, List.filter_app.
      reflexivity.
    - destruct (cos_teardown_run h w pid1 pid2 Hio Hd1 Hd2 Hi Hr)
        as (w' & Hrun & Htrace & Hfiles & _).
      exists w'. split; [exact Hrun|]. split; [|exact Hfiles].
      rewrite Htrace, List.filter_app. reflexivity. }
  cbv zeta. split; [vm_compute; reflexivity|].
  split; [vm_compute; reflexivity|]. split; [vm_compute; reflexivity|].
  split; [vm_compute; reflexivity|]. split; vm_compute; reflexivity.
Qed.

(** ** Hexadecimal texts *)

Lemma hex_char_ok d :
  0 <= d < 16 -> hex_val (hex_char d) = Some d.
Proof.
  intros Hd.
  assert (H : d = 0 \/ d = 1 \/ d = 2 \/ d = 3 \/ d = 4 \/ d = 5 \/ d = 6
              \/ d = 7 \/ d = 8 \/ d = 9 \/ d = 10 \/ d = 11 \/ d = 12
              \/ d = 13 \/ d = 14 \/ d = 15) by lia.
  repeat (destruct H as [->|H]; [reflexivity|]).
  subst d. reflexivity.
Qed.

Lemma hex_val_range c d : hex_val c = Some d -> 0 <= d < 16.
Proof.
  unfold hex_val. cbv zeta.
  destruct ((48 <=? char_code c) && (char_code c <=? 57)) eqn:H1.
  - intros [= <-]. apply andb_true_iff in H1 as [H H']. lia.
  - destruct ((97 <=? char_code c) && (char_code c <=? 102)) eqn:H2.
    + intros [= <-]. apply andb_true_iff in H2 as [H H']. lia.
    + destruct ((65 <=? char_code c) && (char_code c <=? 70)) eqn:H3;
        [|discriminate].
      intros [= <-]. apply andb_true_iff in H3 as [H H']. lia.
Qed.

Lemma hex_from_app s r acc : hex_from acc (s +:+ r) = hex_from (hex_from acc s) r.
Proof.
  revert acc. induction s as [|c s IH]; intros acc; [reflexivity|].
  rewrite str_app_cons. simpl. apply IH.
Qed.

Lemma hex_from_shift s acc :
  hex_from acc s = acc * 16 ^ Z.of_nat (String.length s) + hex_value s.
Proof.
  unfold hex_value. revert acc. induction s as [|c s IH]; intros acc.
  - simpl. lia.
  - cbn [hex_from String.length]. rewrite IH, (IH (16 * 0 + _)).
    rewrite Nat2Z.inj_succ, Z.pow_succ_r by lia. ring.
Qed.

Lemma hex_from_ge s acc : all_hex s = true -> 0 <= acc -> acc <= hex_from acc s.
Proof.
  revert acc. induction s as [|c s IH]; intros acc Hs Hacc; [simpl; lia|].
  simpl in Hs |- *. destruct (hex_val c) as [d|] eqn:Hd; [|discriminate].
  pose proof (hex_val_range c d Hd). cbn [default].
  specialize (IH (16 * acc + d) Hs ltac:(lia)). unfold id in *. lia.
Qed.

Lemma all_hex_app s r : all_hex (s +:+ r) = all_hex s && all_hex r.
Proof.
  induction s as [|c s IH]; [reflexivity|].
  rewrite str_app_cons. simpl. destruct (hex_val c); [exact IH | reflexivity].
Qed.

Lemma all_hex_zeros k : all_hex (repeat_char "0" k) = true.
Proof. induction k as [|k IH]; [reflexivity | exact IH]. Qed.

Lemma hex_from_zeros k : hex_from 0 (repeat_char "0" k) = 0.
Proof. induction k as [|k IH]; [reflexivity | exact IH]. Qed.

Lemma length_repeat_char c k : String.length (repeat_char c k) = k.
Proof. induction k as [|k IH]; [reflexivity | simpl; rewrite IH; reflexivity]. Qed.

(** [%llx] prints a text of hexadecimal digits that denotes the number
    printed, and no more digits than the number needs. *)
Lemma hex_digits_spec fuel :
  forall n acc, 0 <= n < 16 ^ Z.of_nat (S fuel) ->
    exists ds, hex_digits (S fuel) n acc = ds +:+ acc
               /\ hex_only ds = true /\ hex_value ds = n.
Proof.
  induction fuel as [|fuel IH]; intros n acc Hn.
  - change (16 ^ Z.of_nat 1) with 16 in Hn.
    exists (String (hex_char (n mod 16)) EmptyString).
    assert (Hlt : (n <? 16) = true) by (apply Z.ltb_lt; lia).
    cbn [hex_digits]. rewrite Hlt. rewrite Z.mod_small by lia.
    split; [reflexivity|]. unfold hex_value. simpl.
    rewrite (hex_char_ok n) by lia. split; reflexivity.
  - cbn [hex_digits].
    pose proof (Z.mod_pos_bound n 16 ltac:(lia)) as Hmod.
    destruct (Z.ltb_spec n 16) as [Hlt|Hge].
    + exists (String (hex_char (n mod 16)) EmptyString).
      rewrite Z.mod_small by lia.
      split; [reflexivity|]. unfold hex_value. simpl.
      rewrite (hex_char_ok n) by lia. split; reflexivity.
    + assert (Hdiv : 0 <= n / 16 < 16 ^ Z.of_nat (S fuel)).
      { split; [apply Z.div_pos; lia|].
        apply Z.div_lt_upper_bound; [lia|].
        rewrite (Nat2Z.inj_succ (S fuel)), Z.pow_succ_r in Hn by lia. lia. }
      destruct (IH (n / 16) (String (hex_char (n mod 16)) acc) Hdiv)
        as (ds & Heq & Hds & Hval).
      exists (ds +:+ String (hex_char (n mod 16)) EmptyString).
      split; [|split].
      * change (hex_digits (S fuel) (n / 16) (String (hex_char (n mod 16)) acc)
                = (ds +:+ String (hex_char (n mod 16)) EmptyString) +:+ acc).
        rewrite Heq, str_app_assoc. reflexivity.
      * destruct ds as [|c ds]; [discriminate|]. rewrite str_app_cons.
        change (all_hex (String c (ds +:+ String (hex_char (n mod 16)) EmptyString)) = true).
        rewrite <- str_app_cons, all_hex_app. simpl in Hds.
        change (all_hex (String c ds)) with
          (match hex_val c with Some _ => all_hex ds | None => false end).
        rewrite Hds. simpl. rewrite (hex_char_ok _ Hmod). reflexivity.
      * unfold hex_value in *. rewrite hex_from_app, Hval. simpl.
        rewrite (hex_char_ok _ Hmod). cbn [default]. unfold id.
        pose proof (Z.div_mod n 16). lia.
Qed.

Lemma hex_of_u64_spec n :
  in_u64 n -> hex_only (hex_of_u64 n) = true /\ hex_value (hex_of_u64 n) = n.
Proof.
  intros [Hlo Hhi]. unfold hex_of_u64.
  destruct (hex_digits_spec 15 n EmptyString) as (ds & Heq & Hds & Hval).
  - split; [assumption|]. change (16 ^ Z.of_nat 16) with (2 ^ 64). exact Hhi.
  - rewrite Heq, str_app_nil_r. split; assumption.
Qed.

Lemma hex_digits_length fuel :
  forall n acc w, 0 <= n < 16 ^ Z.of_nat w -> (1 <= w)%nat ->
    (String.length (hex_digits fuel n acc) <= w + String.length acc)%nat.
Proof.
  induction fuel as [|fuel IH]; intros n acc w Hn Hw; [simpl; lia|].
  cbn [hex_digits]. destruct (Z.ltb_spec n 16) as [Hlt|Hge].
  - simpl. lia.
  - destruct w as [|[|w]]; [lia | change (16 ^ Z.of_nat 1) with 16 in Hn; lia |].
    assert (Hdiv : 0 <= n / 16 < 16 ^ Z.of_nat (S w)).
    { split; [apply Z.div_pos; lia|].
      apply Z.div_lt_upper_bound; [lia|].
      rewrite (Nat2Z.inj_succ (S w)), Z.pow_succ_r in Hn by lia. lia. }
    specialize (IH (n / 16) (String (hex_char (n mod 16)) acc) (S w) Hdiv ltac:(lia)).
    simpl in IH |- *. lia.
Qed.

(** A text of hexadecimal digits is read from its first character on. *)
Lemma hex_val_not_space c d : hex_val c = Some d -> is_space c = false.
Proof.
  unfold hex_val, is_space. cbv zeta.
  destruct ((48 <=? char_code c) && (char_code c <=? 57)) eqn:H1.
  - intros _. apply andb_true_iff in H1 as [H H'].
    apply orb_false_iff. split; [apply Z.eqb_neq; lia|].
    apply andb_false_iff. right. apply Z.leb_gt. lia.
  - destruct ((97 <=? char_code c) && (char_code c <=? 102)) eqn:H2.
    + intros _. apply andb_true_iff in H2 as [H H'].
      apply orb_false_iff. split; [apply Z.eqb_neq; lia|].
      apply andb_false_iff. right. apply Z.leb_gt. lia.
    + destruct ((65 <=? char_code c) && (char_code c <=? 70)) eqn:H3;
        [|discriminate].
      intros _. apply andb_true_iff in H3 as [H H'].
      apply orb_false_iff. split; [apply Z.eqb_neq; lia|].
      apply andb_false_iff. right. apply Z.leb_gt. lia.
Qed.

Lemma hex_val_code c d : hex_val c = Some d -> 48 <= char_code c <= 102.
Proof.
  unfold hex_val. cbv zeta.
  destruct ((48 <=? char_code c) && (char_code c <=? 57)) eqn:H1.
  - intros _. apply andb_true_iff in H1 as [H H']. lia.
  - destruct ((97 <=? char_code c) && (char_code c <=? 102)) eqn:H2.
    + intros _. apply andb_true_iff in H2 as [H H']. lia.
    + destruct ((65 <=? char_code c) && (char_code c <=? 70)) eqn:H3;
        [|discriminate].
      intros _. apply andb_true_iff in H3 as [H H']. lia.
Qed.

Lemma take_sign_hex c r d :
  hex_val c = Some d -> take_sign (String c r) = (false, String c r).
Proof.
  intros Hc. pose proof (hex_val_code c d Hc) as Hcode.
  unfold take_sign.
  destruct c as [[|] [|] [|] [|] [|] [|] [|] [|]]; try reflexivity;
    exfalso; destruct Hcode as [Hlo _]; apply Hlo; reflexivity.
Qed.

Lemma skip_0x_hex s : all_hex s = true -> skip_0x s = s.
Proof.
  intros Hs. destruct s as [|c0 [|x [|d r]]]; [reflexivity | | |];
    try (unfold skip_0x;
         destruct c0 as [[|] [|] [|] [|] [|] [|] [|] [|]]; reflexivity).
  assert (Hx : (char_code x =? 120) || (char_code x =? 88) = false).
  { simpl in Hs. destruct (hex_val c0); [|discriminate].
    destruct (hex_val x) as [dx|] eqn:Hx; [|discriminate].
    unfold hex_val in Hx. cbv zeta in Hx. apply orb_false_iff.
    destruct ((48 <=? char_code x) && (char_code x <=? 57)) eqn:H1.
    { apply andb_true_iff in H1 as [H H']. split; apply Z.eqb_neq; lia. }
    destruct ((97 <=? char_code x) && (char_code x <=? 102)) eqn:H2.
    { apply andb_true_iff in H2 as [H H']. split; apply Z.eqb_neq; lia. }
    destruct ((65 <=? char_code x) && (char_code x <=? 70)) eqn:H3;
      [|discriminate].
    apply andb_true_iff in H3 as [H H']. split; apply Z.eqb_neq; lia. }
  unfold skip_0x.
  destruct c0 as [[|] [|] [|] [|] [|] [|] [|] [|]]; try reflexivity.
  rewrite Hx. reflexivity.
Qed.

Lemma scan_hex_all s :
  forall acc n, all_hex s = true -> 0 <= acc -> hex_from acc s < 2 ^ 64 ->
    scan_hex s acc n false
    = (hex_from acc s, n + Z.of_nat (String.length s), false, EmptyString).
Proof.
  induction s as [|c s IH]; intros acc n Hs Hacc Hlt.
  - simpl. rewrite Z.add_0_r. reflexivity.
  - simpl in Hs. cbn [scan_hex hex_from String.length] in *.
    destruct (hex_val c) as [d|] eqn:Hd; [|discriminate].
    pose proof (hex_val_range c d Hd). cbn [default] in *. unfold id in *.
    cbv zeta.
    pose proof (hex_from_ge s (16 * acc + d) Hs ltac:(lia)).
    replace (2 ^ 64 <=? 16 * acc + d) with false
      by (symmetry; apply Z.leb_gt; lia).
    cbn [orb]. rewrite IH by (assumption || lia).
    rewrite Nat2Z.inj_succ. f_equal. f_equal. f_equal. lia.
Qed.

(** A text of hexadecimal digits that fits 64 bits is parsed to the number
    it denotes. *)
Lemma parse_hex_digits s :
  hex_only s = true -> hex_value s < 2 ^ 64 -> parse_hex_no_prefix s = Some (hex_value s).
Proof.
  intros Hs Hlt. destruct s as [|c r]; [discriminate|]. simpl in Hs.
  assert (Hall : all_hex (String c r) = true) by exact Hs.
  destruct (hex_val c) as [d|] eqn:Hd; [|discriminate].
  unfold parse_hex_no_prefix, strtoull16.
  change (skip_space (String c r))
    with (if is_space c then skip_space r else String c r).
  rewrite (hex_val_not_space c d Hd), (take_sign_hex c r d Hd).
  rewrite (skip_0x_hex _ Hall).
  rewrite (scan_hex_all (String c r) 0 0 Hall ltac:(lia) Hlt).
  replace (0 + Z.of_nat (String.length (String c r)) =? 0) with false
    by (symmetry; apply Z.eqb_neq; simpl String.length; lia).
  reflexivity.
Qed.

Lemma scan_hex_flag s :
  forall acc n ovf, all_hex s = true -> 0 <= acc -> s <> EmptyString ->
    scan_hex s acc n ovf
    = (hex_from acc s, n + Z.of_nat (String.length s),
       ovf || (2 ^ 64 <=? hex_from acc s), EmptyString).
Proof.
  induction s as [|c s IH]; intros acc n ovf Hs Hacc Hne; [congruence|].
  simpl in Hs. cbn [scan_hex hex_from String.length].
  destruct (hex_val c) as [d|] eqn:Hd; [|discriminate].
  pose proof (hex_val_range c d Hd). cbn [default]. unfold id. cbv zeta.
  pose proof (hex_from_ge s (16 * acc + d) Hs ltac:(lia)) as Hge.
  rewrite Nat2Z.inj_succ.
  replace (n + Z.succ (Z.of_nat (String.length s)))
    with (n + 1 + Z.of_nat (String.length s)) by lia.
  destruct s as [|c' s'].
  - simpl. rewrite Z.add_0_r. reflexivity.
  - rewrite IH by (assumption || lia || discriminate).
    f_equal. f_equal.
    destruct (Z.leb_spec (2 ^ 64) (16 * acc + d)) as [Hbig|Hsmall].
    + replace (2 ^ 64 <=? hex_from (16 * acc + d) (String c' s')) with true
        by (symmetry; apply Z.leb_le; lia).
      rewrite !orb_true_r. reflexivity.
    + rewrite orb_false_r. reflexivity.
Qed.

Lemma scan_hex_range s :
  forall acc n ovf v n' rest, 0 <= acc ->
    scan_hex s acc n ovf = (v, n', false, rest) ->
    acc < 2 ^ 64 -> 0 <= v < 2 ^ 64.
Proof.
  induction s as [|c s IH]; intros acc n ovf v n' rest Hacc Hscan Hlt.
  - simpl in Hscan. injection Hscan as <- _ _ _. lia.
  - cbn [scan_hex] in Hscan. destruct (hex_val c) as [d|] eqn:Hd.
    + pose proof (hex_val_range c d Hd). cbv zeta in Hscan.
      destruct (Z.leb_spec (2 ^ 64) (16 * acc + d)) as [Hbig|Hsmall].
      * rewrite orb_true_r in Hscan. exfalso.
        clear -Hscan. revert Hscan.
        generalize (16 * acc + d) (n + 1). induction s as [|c' s' IH']; intros a k Hscan.
        -- simpl in Hscan. discriminate.
        -- cbn [scan_hex] in Hscan. destruct (hex_val c'); [|discriminate].
           cbv zeta in Hscan. cbn [orb] in Hscan. exact (IH' _ _ Hscan).
      * rewrite orb_false_r in Hscan.
        eapply IH; [| exact Hscan | exact Hsmall]. lia.
    + injection Hscan as <- _ _ _. lia.
Qed.

Lemma substring_all s : forall k, (String.length s <= k)%nat -> substring 0 k s = s.
Proof.
  induction s as [|c s IH]; intros k Hk; [destruct k; reflexivity|].
  destruct k as [|k]; [simpl in Hk; lia|].
  simpl. rewrite IH by (simpl in Hk; lia). reflexivity.
Qed.

Lemma hex_only_all s : hex_only s = true -> all_hex s = true.
Proof. destruct s; [discriminate | trivial]. Qed.

Lemma pad_hex_spec width n :
  in_u64 n ->
  hex_only (pad_left "0" width (hex_of_u64 n)) = true
  /\ hex_value (pad_left "0" width (hex_of_u64 n)) = n.
Proof.
  intros Hn. destruct (hex_of_u64_spec n Hn) as [Hds Hval].
  unfold pad_left. set (k := (width - String.length (hex_of_u64 n))%nat).
  split.
  - assert (Hall : all_hex (repeat_char "0" k +:+ hex_of_u64 n) = true)
      by (rewrite all_hex_app, all_hex_zeros; apply hex_only_all, Hds).
    destruct (repeat_char "0" k +:+ hex_of_u64 n) eqn:He; [|exact Hall].
    destruct k; [|discriminate He]. simpl in He. rewrite str_app_nil_l in He.
    rewrite He in Hds. discriminate.
  - unfold hex_value. rewrite hex_from_app, hex_from_zeros. exact Hval.
Qed.

Lemma scan_base_range base s :
  forall acc n ovf v n' rest, 0 <= base -> 0 <= acc ->
    scan_base base s acc n ovf = (v, n', false, rest) ->
    acc < 2 ^ 64 -> 0 <= v < 2 ^ 64.
Proof.
  induction s as [|c s IH]; intros acc n ovf v n' rest Hbase Hacc Hscan Hlt.
  - simpl in Hscan. injection Hscan as <- _ _ _. lia.
  - cbn [scan_base] in Hscan. destruct (digit_below base c) as [d|] eqn:Hd.
    + assert (0 <= d).
      { unfold digit_below in Hd. destruct (hex_val c) as [d'|] eqn:Hc; [|discriminate].
        pose proof (hex_val_range c d' Hc). destruct (d' <? base); [|discriminate].
        injection Hd as <-. lia. }
      cbv zeta in Hscan.
      destruct (Z.leb_spec (2 ^ 64) (base * acc + d)) as [Hbig|Hsmall].
      * rewrite orb_true_r in Hscan. exfalso.
        clear -Hscan. revert Hscan.
        generalize (base * acc + d) (n + 1).
        induction s as [|c' s' IH']; intros a k Hscan.
        -- simpl in Hscan. discriminate.
        -- cbn [scan_base] in Hscan. destruct (digit_below base c'); [|discriminate].
           cbv zeta in Hscan. cbn [orb] in Hscan. exact (IH' _ _ Hscan).
      * rewrite orb_false_r in Hscan.
        eapply IH; [exact Hbase | | exact Hscan | exact Hsmall]. nia.
    + injection Hscan as <- _ _ _. lia.
Qed.

Lemma parse_hex_no_prefix_range s v : parse_hex_no_prefix s = Some v -> in_u64 v.
Proof.
  unfold parse_hex_no_prefix, strtoull16.
  destruct (take_sign (skip_space s)) as [neg s1].
  destruct (scan_hex (skip_0x s1) 0 0 false) as [[[x n] ovf] rest] eqn:Hscan.
  destruct (n =? 0).
  - destruct (false || negb (s =? "")%string); [discriminate|].
    intros [= <-]. unfold in_u64. lia.
  - destruct ovf; [discriminate|].
    assert (Hx : 0 <= x < 2 ^ 64)
      by (eapply scan_hex_range; [| exact Hscan |]; lia).
    destruct (false || negb (rest =? "")%string); [discriminate|].
    intros [= <-]. destruct neg; [|exact Hx].
    unfold wrap64, in_u64. apply Z.mod_pos_bound. lia.
Qed.

Lemma base_of_cases s1 : base_of s1 = 16 \/ base_of s1 = 8 \/ base_of s1 = 10.
Proof.
  unfold base_of. destruct s1 as [|c [|x r]]; [tauto | |].
  - destruct (Ascii.eqb_spec c "0") as [->|Hc]; [tauto|].
    destruct c as [[|] [|] [|] [|] [|] [|] [|] [|]]; tauto.
  - destruct ((char_code x =? 120) || (char_code x =? 88));
      destruct c as [[|] [|] [|] [|] [|] [|] [|] [|]]; tauto.
Qed.

Lemma parse_hex_u64_range s v : parse_hex_u64 s = Some v -> in_u64 v.
Proof.
  unfold parse_hex_u64, strtoull0.
  destruct (take_sign (skip_space s)) as [neg s1] eqn:Hsign.
  cbv zeta. destruct (base_of s1 =? 16) eqn:Hbase.
  - intros H. apply (parse_hex_no_prefix_range s). exact H.
  - assert (Hb : 0 <= base_of s1) by (destruct (base_of_cases s1) as [->|[->| ->]]; lia).
    destruct (scan_base (base_of s1) s1 0 0 false) as [[[x n] ovf] rest] eqn:Hscan.
    destruct (n =? 0).
    + destruct (false || negb (s =? "")%string); [discriminate|].
      intros [= <-]. unfold in_u64. lia.
    + destruct ovf; [discriminate|].
      assert (Hx : 0 <= x < 2 ^ 64)
        by (eapply (scan_base_range (base_of s1)); [exact Hb | | exact Hscan |]; lia).
      destruct (false || negb (rest =? "")%string); [discriminate|].
      intros [= <-]. destruct neg; [|exact Hx].
      unfold wrap64, in_u64. apply Z.mod_pos_bound. lia.
Qed.

(** After [0x] the base is 16: there the two parsers agree. *)
Lemma parse_hex_u64_prefixed s :
  parse_hex_u64 ("0x" +:+ s) = parse_hex_no_prefix ("0x" +:+ s).
Proof. reflexivity. Qed.

Lemma parse_hex_no_prefix_skips_0x s :
  hex_only s = true ->
  parse_hex_no_prefix ("0x" +:+ s) = parse_hex_no_prefix s.
Proof.
  intros Hs. destruct s as [|c r]; [discriminate|].
  assert (Hall : all_hex (String c r) = true) by exact Hs.
  simpl in Hs. destruct (hex_val c) as [d|] eqn:Hd; [|discriminate].
  unfold parse_hex_no_prefix, strtoull16.
  change (skip_space ("0x" +:+ String c r)) with ("0x" +:+ String c r).
  change (take_sign ("0x" +:+ String c r)) with (false, "0x" +:+ String c r).
  change (skip_space (String c r))
    with (if is_space c then skip_space r else String c r).
  rewrite (hex_val_not_space c d Hd), (take_sign_hex c r d Hd).
  cbv beta iota.
  change (skip_0x ("0x" +:+ String c r))
    with (if ((char_code "x" =? 120) || (char_code "x" =? 88))
               && bool_decide (is_Some (hex_val c))
          then String c r else "0x" +:+ String c r).
  rewrite Hd. change (bool_decide (is_Some (Some d))) with true.
  change ((char_code "x" =? 120) || (char_code "x" =? 88)) with true.
  cbn [andb]. rewrite (skip_0x_hex _ Hall).
  destruct (scan_hex (String c r) 0 0 false) as [[[x n] ovf] rest] eqn:Hscan.
  assert (Hn : (n =? 0) = false).
  { rewrite (scan_hex_flag (String c r) 0 0 false Hall ltac:(lia) ltac:(discriminate))
      in Hscan.
    injection Hscan as _ <- _ _. apply Z.eqb_neq. simpl String.length. lia. }
  rewrite Hn. reflexivity.
Qed.

Lemma parse_hex_no_prefix_digits s :
  hex_only s = true ->
  parse_hex_no_prefix s = if hex_value s <? 2 ^ 64 then Some (hex_value s) else None.
Proof.
  intros Hs. destruct (Z.ltb_spec (hex_value s) (2 ^ 64)) as [Hlt|Hge].
  - apply parse_hex_digits; assumption.
  - destruct s as [|c r]; [discriminate|].
    assert (Hall : all_hex (String c r) = true) by exact Hs.
    simpl in Hs. destruct (hex_val c) as [d|] eqn:Hd; [|discriminate].
    unfold parse_hex_no_prefix, strtoull16.
    change (skip_space (String c r))
      with (if is_space c then skip_space r else String c r).
    rewrite (hex_val_not_space c d Hd), (take_sign_hex c r d Hd).
    rewrite (skip_0x_hex _ Hall).
    rewrite (scan_hex_flag (String c r) 0 0 false Hall ltac:(lia) ltac:(discriminate)).
    fold (hex_value (String c r)).
    replace (2 ^ 64 <=? hex_value (String c r)) with true
      by (symmetry; apply Z.leb_le; lia).
    replace (0 + Z.of_nat (String.length (String c r)) =? 0) with false
      by (symmetry; apply Z.eqb_neq; simpl String.length; lia).
    reflexivity.
Qed.

(** X1. [parse_hex_u64] and [parse_hex_no_prefix] return 64-bit values
    only.  [parse_hex_no_prefix] reads in base 16: a text of hexadecimal
    digits is the number it denotes when that number fits 64 bits, and is
    refused ([ERANGE]) when it does not.  [parse_hex_u64] reads in base 0:
    it reads the hexadecimal digits that follow [0x] in the same way, but
    takes digits without the prefix as decimal, or as octal after a
    leading [0], and refuses a hexadecimal letter without the prefix:
    ["7fff"] and ["ff"] are refused, ["10"] is ten and ["010"] is eight. *)
Theorem parse_hex_fits_64_bits (s : string) :
  (forall v, parse_hex_no_prefix s = Some v -> in_u64 v)
  /\ (forall v, parse_hex_u64 s = Some v -> in_u64 v)
  /\ (hex_only s = true ->
      parse_hex_no_prefix s
      = (if hex_value s <? 2 ^ 64 then Some (hex_value s) else None)
      /\ parse_hex_u64 ("0x" +:+ s)
         = (if hex_value s <? 2 ^ 64 then Some (hex_value s) else None))
  /\ parse_hex_no_prefix "7fff" = Some 0x7fff
  /\ parse_hex_u64 "0x7fff" = Some 0x7fff
  /\ parse_hex_u64 "7fff" = None
  /\ parse_hex_u64 "ff" = None
  /\ parse_hex_no_prefix "10" = Some 16
  /\ parse_hex_u64 "10" = Some 10
  /\ parse_hex_u64 "010" = Some 8
  /\ parse_hex_u64 "18446744073709551616" = None
  /\ parse_hex_no_prefix "10000000000000000" = None.
Proof.
  split; [intros v; apply parse_hex_no_prefix_range|].
  split; [intros v; apply parse_hex_u64_range|].
  split.
  - intros Hs. split; [apply parse_hex_no_prefix_digits, Hs|].
    rewrite parse_hex_u64_prefixed, parse_hex_no_prefix_skips_0x by exact Hs.
    apply parse_hex_no_prefix_digits, Hs.
  - repeat split; vm_compute; reflexivity.
Qed.

(** X2. The masks the two programs print are read back by their own
    parsers as the masks printed: [0x%016llx] under [parse_hex_u64], and
    [%0*llx] of any width up to 16 under [parse_hex_no_prefix]; neither is
    cut by the 32-byte buffer it is printed into. *)
Theorem mask_text_round_trip (n : Z) (width : nat) :
  in_u64 n -> (width <= 16)%nat ->
  let prefixed := snprintf 32 ("0x" +:+ pad_left "0" 16 (hex_of_u64 n)) in
  let plain := snprintf 32 (pad_left "0" width (hex_of_u64 n)) in
  prefixed = "0x" +:+ pad_left "0" 16 (hex_of_u64 n)
  /\ String.length prefixed = 18%nat
  /\ parse_hex_u64 prefixed = Some n
  /\ plain = pad_left "0" width (hex_of_u64 n)
  /\ parse_hex_no_prefix plain = Some n.
Proof.
  intros Hn Hw. cbv zeta.
  assert (Hlen : (1 <= String.length (hex_of_u64 n) <= 16)%nat).
  { split.
    - destruct (hex_of_u64_spec n Hn) as [Hds _].
      destruct (hex_of_u64 n); [discriminate | simpl; lia].
    - pose proof (hex_digits_length 16 n EmptyString 16) as H.
      change (16 ^ Z.of_nat 16) with (2 ^ 64) in H.
      specialize (H Hn ltac:(lia)).
      change (String.length EmptyString) with 0%nat in H.
      unfold hex_of_u64. lia. }
  assert (Hpad : forall w, (w <= 16)%nat ->
             (String.length (pad_left "0" w (hex_of_u64 n)) <= 16)%nat).
  { intros w Hw'. unfold pad_left. rewrite length_app_str, length_repeat_char. lia. }
  assert (Hpad16 : String.length (pad_left "0" 16 (hex_of_u64 n)) = 16%nat).
  { unfold pad_left. rewrite length_app_str, length_repeat_char. lia. }
  assert (Hparse : forall w, parse_hex_no_prefix (pad_left "0" w (hex_of_u64 n)) = Some n).
  { intros w. destruct (pad_hex_spec w n Hn) as [Hds Hval].
    rewrite parse_hex_digits; rewrite ?Hval; [reflexivity | exact Hds | apply Hn]. }
  assert (Hcut1 : snprintf 32 ("0x" +:+ pad_left "0" 16 (hex_of_u64 n))
                  = "0x" +:+ pad_left "0" 16 (hex_of_u64 n)).
  { unfold snprintf. apply substring_all.
    rewrite length_app_str, Hpad16. simpl. lia. }
  assert (Hcut2 : snprintf 32 (pad_left "0" width (hex_of_u64 n))
                  = pad_left "0" width (hex_of_u64 n)).
  { unfold snprintf. apply substring_all. specialize (Hpad width Hw).
    change (32 - 1)%nat with 31%nat. lia. }
  rewrite Hcut1, Hcut2.
  split; [reflexivity|].
  split; [rewrite length_app_str, Hpad16; reflexivity|].
  split; [|split; [reflexivity | apply Hparse]].
  (* the prefix is skipped, the sixteen digits are read *)
  destruct (pad_hex_spec 16 n Hn) as [Hds Hval].
  destruct (pad_left "0" 16 (hex_of_u64 n)) as [|c r] eqn:Hp; [discriminate|].
  assert (Hall : all_hex (String c r) = true) by (apply hex_only_all, Hds).
  simpl in Hds. destruct (hex_val c) as [d|] eqn:Hd; [|discriminate].
  rewrite parse_hex_u64_prefixed.
  unfold parse_hex_no_prefix, strtoull16.
  change (skip_space ("0x" +:+ String c r)) with ("0x" +:+ String c r).
  change (take_sign ("0x" +:+ String c r)) with (false, "0x" +:+ String c r).
  cbv beta iota.
  change (skip_0x ("0x" +:+ String c r))
    with (if ((char_code "x" =? 120) || (char_code "x" =? 88))
               && bool_decide (is_Some (hex_val c))
          then String c r else "0x" +:+ String c r).
  rewrite Hd. change (bool_decide (is_Some (Some d))) with true.
  change ((char_code "x" =? 120) || (char_code "x" =? 88)) with true.
  cbn [andb].
  rewrite (scan_hex_all (String c r) 0 0 Hall ltac:(lia))
    by (fold (hex_value (String c r)); rewrite Hval; apply Hn).
  fold (hex_value (String c r)). rewrite Hval.
  replace (0 + Z.of_nat (String.length (String c r)) =? 0) with false
    by (symmetry; apply Z.eqb_neq; simpl String.length; lia).
  reflexivity.
Qed.

Lemma mask_text_round_trip_witness :
  in_u64 0x7f80 /\ (4 <= 16)%nat
  /\ snprintf 32 (pad_left "0" 4 (hex_of_u64 0x7f80)) = "7f80"
  /\ parse_hex_no_prefix (snprintf 32 (pad_left "0" 4 (hex_of_u64 0x7f80))) = Some 0x7f80.
Proof.
  assert (Hin : in_u64 0x7f80) by (unfold in_u64; lia).
  assert (Hw : (4 <= 16)%nat) by lia.
  split; [exact Hin|]. split; [exact Hw|]. split; [reflexivity|].
  exact (proj2 (proj2 (proj2 (proj2 (mask_text_round_trip 0x7f80 4 Hin Hw))))).
Defined.

Lemma hex_value_bound s :
  all_hex s = true -> 0 <= hex_value s < 16 ^ Z.of_nat (String.length s).
Proof.
  induction s as [|c s IH]; intros Hs; [unfold hex_value; simpl; lia|].
  simpl in Hs. destruct (hex_val c) as [d|] eqn:Hd; [|discriminate].
  pose proof (hex_val_range c d Hd). specialize (IH Hs).
  unfold hex_value at 1 2. cbn [hex_from String.length]. rewrite Hd. cbn [default].
  unfold id. rewrite hex_from_shift, Nat2Z.inj_succ, Z.pow_succ_r by lia.
  nia.
Qed.

Lemma lor_lt_pow2 a b k :
  0 <= a -> 0 <= b -> 0 <= k -> Z.lor a b < 2 ^ k -> a < 2 ^ k /\ b < 2 ^ k.
Proof.
  intros Ha Hb Hk Hlor.
  assert (Hpow : 0 < 2 ^ k) by (apply Z.pow_pos_nonneg; lia).
  assert (Hor : 0 <= Z.lor a b) by (apply Z.lor_nonneg; split; assumption).
  pose proof (Z.log2_lor a b Ha Hb) as Hlog.
  destruct (Z.eq_dec (Z.lor a b) 0) as [Hz|Hnz].
  - apply Z.lor_eq_0_iff in Hz as [-> ->]. lia.
  - apply Z.log2_lt_pow2 in Hlor; [|lia].
    split.
    + destruct (Z.eq_dec a 0) as [->|Hne]; [lia|]. apply Z.log2_lt_pow2; lia.
    + destruct (Z.eq_dec b 0) as [->|Hne]; [lia|]. apply Z.log2_lt_pow2; lia.
Qed.

Lemma pad_hex_length width m :
  (1 <= width)%nat -> 0 <= m < 16 ^ Z.of_nat width ->
  String.length (pad_left "0" width (hex_of_u64 m)) = width.
Proof.
  intros Hw Hm. unfold pad_left. rewrite length_app_str, length_repeat_char.
  pose proof (hex_digits_length 16 m EmptyString width Hm Hw) as H.
  change (String.length EmptyString) with 0%nat in H. unfold hex_of_u64. lia.
Qed.

(** X3. cos.c writes both shares with as many hexadecimal digits as the
    platform's mask text has: for a mask file that holds one to sixteen
    hexadecimal digits (after an optional [0x]) with a bit set, the mask is
    read as the number the digits denote, and both [%0*llx] texts have
    exactly the width of the digits read and fit their buffers. *)
Theorem cos_shares_keep_mask_width (w : world) (cs : list chunk)
    (text cbm_raw : string) :
  files w !! CBM_MASK_PATH = Some cs ->
  text_of cs = Some text ->
  first_line text = Some cbm_raw ->
  hex_only (Cos.skip_prefix cbm_raw) = true ->
  (String.length (Cos.skip_prefix cbm_raw) <= 16)%nat ->
  hex_value (Cos.skip_prefix cbm_raw) <> 0 ->
  let width := String.length (Cos.skip_prefix cbm_raw) in
  let full_mask := hex_value (Cos.skip_prefix cbm_raw) in
  Cos.read_mask w = (w, Ok (full_mask, width))
  /\ String.length
       (snprintf 32 (pad_left "0" width (hex_of_u64 (fst (Cos.split_mask full_mask)))))
     = width
  /\ String.length
       (snprintf 32 (pad_left "0" width (hex_of_u64 (snd (Cos.split_mask full_mask)))))
     = width.
Proof.
  intros Hfile Htext Hline Hhex Hlen Hnz. cbv zeta.
  set (t := Cos.skip_prefix cbm_raw) in *.
  assert (Hwidth : (1 <= String.length t)%nat)
    by (destruct t; [discriminate | simpl; lia]).
  pose proof (hex_value_bound t (hex_only_all t Hhex)) as Hbound.
  assert (Hpow : 16 ^ Z.of_nat (String.length t) <= 2 ^ 64).
  { change (2 ^ 64) with (16 ^ 16). apply Z.pow_le_mono_r; lia. }
  assert (Hin : in_u64 (hex_value t)) by (unfold in_u64; lia).
  assert (Hparse : parse_hex_no_prefix t = Some (hex_value t))
    by (apply parse_hex_digits; [exact Hhex | lia]).
  assert (Hbits : (Cos.count_bits (hex_value t) =? 0) = false).
  { apply Z.eqb_neq. rewrite count_bits_popcount by exact Hin.
    intros Hz. apply Hnz. apply popcount_zero; assumption. }
  split.
  - unfold Cos.read_mask, read_file.
    cbv [mbind prog_bind mret prog_ret option_bind].
    rewrite Hfile, Htext, Hline. fold t.
    replace (String.length t =? 0)%nat with false
      by (symmetry; apply Nat.eqb_neq; lia).
    replace (16 <? String.length t)%nat with false
      by (symmetry; apply Nat.ltb_ge; lia).
    cbn [orb]. rewrite Hparse, Hbits. reflexivity.
  - unfold Cos.split_mask. cbv zeta.
    rewrite count_bits_popcount by exact Hin.
    assert (Hpc : 0 <= popcount (hex_value t))
      by (rewrite popcount_rank; apply rank_nonneg).
    rewrite Z.quot_div_nonneg by lia.
    assert (Hhalf : 0 <= popcount (hex_value t) / 2 <= popcount (hex_value t)).
    { split; [apply Z.div_pos; lia|]. apply Z.div_le_upper_bound; lia. }
    pose proof (split_with_spec _ _ Hin Hhalf) as Hspec.
    destruct (Partition.split_with (hex_value t) (popcount (hex_value t) / 2))
      as [a b].
    destruct Hspec as (Hor & _ & _ & _ & Ha & Hb). cbn [fst snd].
    assert (Hab : a < 16 ^ Z.of_nat (String.length t)
                  /\ b < 16 ^ Z.of_nat (String.length t)).
    { replace (16 ^ Z.of_nat (String.length t))
        with (2 ^ (4 * Z.of_nat (String.length t)))
        by (rewrite Z.pow_mul_r by lia; reflexivity).
      apply lor_lt_pow2; [apply Ha | apply Hb | lia |].
      rewrite Hor, Z.pow_mul_r by lia. apply Hbound. }
    assert (Hfit : forall m, 0 <= m < 16 ^ Z.of_nat (String.length t) ->
               String.length (snprintf 32 (pad_left "0" (String.length t) (hex_of_u64 m)))
               = String.length t).
    { intros m Hm. pose proof (pad_hex_length _ m Hwidth Hm) as Hp.
      unfold snprintf. rewrite substring_all; [exact Hp|].
      rewrite Hp. change (32 - 1)%nat with 31%nat. lia. }
    split; apply Hfit; [destruct Ha | destruct Hb]; lia.
Qed.

Lemma cos_shares_keep_mask_width_witness :
  hex_only (Cos.skip_prefix "7fff") = true
  /\ Cos.read_mask (world_with_mask "7fff") = (world_with_mask "7fff", Ok (0x7fff, 4%nat))
  /\ snprintf 32 (pad_left "0" 4 (hex_of_u64 (fst (Cos.split_mask 0x7fff)))) = "007f".
Proof.
  split; [reflexivity|].
  split; [|reflexivity].
  refine (proj1 (cos_shares_keep_mask_width (world_with_mask "7fff")
                   [Text "7fff"] "7fff" "7fff" _ _ _ _ _ _));
    try reflexivity; [simpl; lia | discriminate].
Defined.

(** ** The sockets of the host *)

Lemma sweep_length x rest : length (snd (sweep x rest)) = length rest.
Proof.
  revert x. induction rest as [|y r IH]; intros x; [reflexivity|].
  simpl. destruct (y <? x).
  - specialize (IH y). destruct (sweep y r). simpl in *. lia.
  - specialize (IH x). destruct (sweep x r). simpl in *. lia.
Qed.

Lemma sweep_perm x rest : x :: rest ≡ₚ fst (sweep x rest) :: snd (sweep x rest).
Proof.
  revert x. induction rest as [|y r IH]; intros x; [reflexivity|].
  simpl. destruct (y <? x).
  - specialize (IH y). destruct (sweep y r) as [x' r']. simpl in *.
    rewrite IH. apply perm_swap.
  - specialize (IH x). destruct (sweep x r) as [x' r']. simpl in *.
    rewrite (perm_swap y x r), IH. apply perm_swap.
Qed.

Lemma sweep_min x rest :
  fst (sweep x rest) <= x /\ Forall (fun y => fst (sweep x rest) <= y) (snd (sweep x rest)).
Proof.
  revert x. induction rest as [|y r IH]; intros x; [simpl; split; [lia | constructor]|].
  simpl. destruct (Z.ltb_spec y x) as [Hlt|Hge].
  - specialize (IH y). destruct (sweep y r) as [x' r']. simpl in *.
    destruct IH as [Hle Hall]. split; [lia|]. constructor; [lia | exact Hall].
  - specialize (IH x). destruct (sweep x r) as [x' r']. simpl in *.
    destruct IH as [Hle Hall]. split; [lia|]. constructor; [lia | exact Hall].
Qed.

(** The inner loop, from slot [j] on, is [sweep] on the rest of the list. *)
Lemma sort_inner_sweep rest :
  forall pre x mid,
    sort_inner (length rest) (length pre) (S (length pre + length mid))
      (pre ++ x :: mid ++ rest)
    = pre ++ fst (sweep x rest) :: mid ++ snd (sweep x rest).
Proof.
  induction rest as [|y r IH]; intros pre x mid; [reflexivity|].
  cbn [length sort_inner].
  assert (Hi : (pre ++ x :: mid ++ y :: r) !! length pre = Some x)
    by (apply list_lookup_middle; reflexivity).
  assert (Hj : (pre ++ x :: mid ++ y :: r) !! S (length pre + length mid) = Some y).
  { change (pre ++ x :: mid ++ y :: r) with (pre ++ (x :: mid) ++ y :: r).
    rewrite app_assoc. apply list_lookup_middle.
    rewrite length_app. simpl. lia. }
  rewrite Hi, Hj.
  assert (Hnext : forall z, pre ++ z :: mid ++ y :: r
                            = pre ++ z :: (mid ++ [y]) ++ r)
    by (intros z; rewrite <- app_assoc; reflexivity).
  assert (Hlen : forall z : Z, S (S (length pre + length mid))
                     = S (length pre + length (mid ++ [z])))
    by (intros z; rewrite length_app; simpl; lia).
  cbn [sweep]. destruct (y <? x).
  - assert (Hswap : <[length pre := y]>
                      (<[S (length pre + length mid) := x]> (pre ++ x :: mid ++ y :: r))
                    = pre ++ y :: (mid ++ [x]) ++ r).
    { change (pre ++ x :: mid ++ y :: r) with (pre ++ (x :: mid) ++ y :: r).
      rewrite (app_assoc pre (x :: mid) (y :: r)).
      rewrite (insert_app_r_alt (pre ++ x :: mid)) by (rewrite length_app; simpl; lia).
      replace (S (length pre + length mid) - length (pre ++ x :: mid))%nat with 0%nat
        by (rewrite length_app; simpl; lia).
      cbn [list_insert insert]. rewrite <- app_assoc.
      rewrite (insert_app_r_alt pre) by lia. rewrite Nat.sub_diag.
      simpl. rewrite <- app_assoc. reflexivity. }
    rewrite Hswap, (Hlen x), IH.
    destruct (sweep y r) as [x' r']. simpl. rewrite <- app_assoc. reflexivity.
  - rewrite (Hnext x), (Hlen y), IH.
    destruct (sweep x r) as [x' r']. simpl. rewrite <- app_assoc. reflexivity.
Qed.

Lemma sort_outer_sweep_all suf :
  forall pre,
    sort_outer (length suf) (length pre) (pre ++ suf)
    = pre ++ sweep_all (length suf) suf.
Proof.
  remember (length suf) as n eqn:Hn. revert suf Hn.
  induction n as [|n IH]; intros suf Hn pre; [reflexivity|].
  destruct suf as [|x rest]; [discriminate|]. injection Hn as Hn.
  cbn [sort_outer sweep_all].
  replace (length (pre ++ x :: rest) - S (length pre))%nat with (length rest)
    by (rewrite length_app; simpl; lia).
  pose proof (sort_inner_sweep rest pre x []) as Hin.
  rewrite Nat.add_0_r in Hin. simpl app in Hin. rewrite Hin.
  pose proof (sweep_length x rest) as Hlen.
  destruct (sweep x rest) as [x' rest']. simpl in *.
  replace (pre ++ x' :: rest') with ((pre ++ [x']) ++ rest')
    by (rewrite <- app_assoc; reflexivity).
  replace (S (length pre)) with (length (pre ++ [x']))
    by (rewrite length_app; simpl; lia).
  rewrite IH by lia. rewrite <- app_assoc. reflexivity.
Qed.

Lemma sweep_all_sorted n :
  forall l, length l = n ->
    l ≡ₚ sweep_all n l /\ StronglySorted Z.le (sweep_all n l).
Proof.
  induction n as [|n IH]; intros l Hl.
  - destruct l; [|discriminate]. split; [reflexivity | constructor].
  - destruct l as [|x rest]; [discriminate|]. injection Hl as Hl.
    cbn [sweep_all].
    pose proof (sweep_length x rest) as Hlen.
    pose proof (sweep_perm x rest) as Hperm.
    destruct (sweep_min x rest) as [_ Hmin].
    destruct (sweep x rest) as [x' rest']. simpl in *.
    destruct (IH rest' ltac:(lia)) as [Hp Hs].
    split.
    + rewrite Hperm. constructor. exact Hp.
    + constructor; [exact Hs|]. rewrite <- Hp. exact Hmin.
Qed.

Lemma sorted_nodup_strict l :
  StronglySorted Z.le l -> NoDup l -> StronglySorted Z.lt l.
Proof.
  induction 1 as [|x l Hs IH Hall]; intros Hnd; [constructor|].
  apply NoDup_cons in Hnd as [Hx Hnd]. constructor; [apply IH, Hnd|].
  rewrite Forall_forall in Hall |- *. intros y Hy.
  assert (x <> y) by (intros ->; apply Hx; exact Hy).
  specialize (Hall y Hy). lia.
Qed.

Lemma add_unique_spec entries :
  forall acc, NoDup acc ->
    NoDup (fold_left add_unique entries acc)
    /\ (forall x, x ∈ fold_left add_unique entries acc
                  <-> x ∈ acc \/ Some x ∈ entries).
Proof.
  induction entries as [|e entries IH]; intros acc Hnd.
  - simpl. split; [exact Hnd|]. intros x. rewrite elem_of_nil. tauto.
  - cbn [fold_left].
    assert (Hstep : NoDup (add_unique acc e)
                    /\ forall x, x ∈ add_unique acc e <-> x ∈ acc \/ Some x = e).
    { destruct e as [pid|]; simpl.
      - destruct (existsb (Z.eqb pid) acc) eqn:Hex.
        + split; [exact Hnd|]. intros x. split; [tauto|].
          intros [H|[= ->]]; [exact H|].
          apply existsb_exists in Hex as (y & Hy & Heq).
          apply Z.eqb_eq in Heq as ->. apply list_elem_of_In, Hy.
        + split.
          * apply NoDup_app. split; [exact Hnd|]. split; [|apply NoDup_singleton].
            intros x Hx Hx'. apply list_elem_of_singleton in Hx' as ->.
            apply not_true_iff_false in Hex. apply Hex.
            apply existsb_exists. exists pid.
            split; [apply list_elem_of_In, Hx | apply Z.eqb_refl].
          * intros x. rewrite elem_of_app, list_elem_of_singleton.
            split; (intros [H|H]; [left; exact H | right; congruence]).
      - split; [exact Hnd|]. intros x. split; [tauto|]. intros [H|H]; [exact H | discriminate]. }
    destruct Hstep as [Hnd' Hin]. destruct (IH _ Hnd') as [Hnd'' Hin'].
    split; [exact Hnd''|]. intros x. rewrite Hin', Hin, elem_of_cons.
    split; [intros [[H|H]|H] | intros [H|[H|H]]]; auto.
Qed.

(** X4. [detect_sockets] returns the package ids it could read, each once,
    in strictly ascending order, so that [sockets[0]] is the smallest id
    and [sockets[1]] the next one; files it cannot read are skipped, and a
    failing [glob] is the only failure. *)
Theorem detect_sockets_sorted (h : host) (w : world) :
  match cpu_packages h with
  | None => detect_sockets h w = (w, Ok None)
  | Some entries =>
      exists ids,
        detect_sockets h w = (w, Ok (Some ids))
        /\ StronglySorted Z.lt ids
        /\ (forall x, x ∈ ids <-> Some x ∈ entries)
  end.
Proof.
  unfold detect_sockets. destruct (cpu_packages h) as [entries|]; [|reflexivity].
  eexists. split; [reflexivity|].
  destruct (add_unique_spec entries [] (NoDup_nil_2)) as [Hnd Hin].
  set (ids := fold_left add_unique entries []) in *.
  pose proof (sort_outer_sweep_all ids []) as Hsort. simpl in Hsort.
  rewrite Hsort.
  destruct (sweep_all_sorted (length ids) ids eq_refl) as [Hperm Hsorted].
  split.
  - apply sorted_nodup_strict; [exact Hsorted|]. rewrite <- Hperm. exact Hnd.
  - intros x. rewrite <- Hperm, Hin, elem_of_nil. tauto.
Qed.

(** ** Contiguous masks *)

Lemma run_mask_bit lo len i :
  0 <= lo -> 0 <= len -> 0 <= i ->
  Z.testbit (run_mask lo len) i = (lo <=? i) && (i <? lo + len).
Proof.
  intros Hlo Hlen Hi. unfold run_mask. rewrite Z.shiftl_spec by lia.
  destruct (Z.leb_spec lo i) as [Hle|Hgt].
  - rewrite Z.testbit_ones_nonneg by lia. simpl.
    destruct (Z.ltb_spec (i - lo) len), (Z.ltb_spec i (lo + len)); try reflexivity; lia.
  - rewrite Z.testbit_neg_r by lia. reflexivity.
Qed.

Lemma run_mask_u64 lo len :
  0 <= lo -> 0 <= len -> lo + len <= 64 -> in_u64 (run_mask lo len).
Proof.
  intros Hlo Hlen Hsum. unfold in_u64, run_mask.
  rewrite Z.shiftl_mul_pow2, Z.ones_equiv by lia.
  assert (0 < 2 ^ len) by (apply Z.pow_pos_nonneg; lia).
  assert (0 < 2 ^ lo) by (apply Z.pow_pos_nonneg; lia).
  assert (2 ^ len * 2 ^ lo <= 2 ^ 64).
  { rewrite <- Z.pow_add_r by lia. apply Z.pow_le_mono_r; lia. }
  split; [nia | nia].
Qed.

Lemma run_mask_rank lo len (i : nat) :
  0 <= lo -> 0 <= len ->
  rank (run_mask lo len) i = Z.max 0 (Z.min (Z.of_nat i - lo) len).
Proof.
  intros Hlo Hlen. induction i as [|i IH]; [simpl; lia|].
  cbn [rank]. rewrite IH, run_mask_bit by lia.
  destruct (Z.leb_spec lo (Z.of_nat i)), (Z.ltb_spec (Z.of_nat i) (lo + len));
    simpl Z.b2z; lia.
Qed.

Lemma run_mask_popcount lo len :
  0 <= lo -> 0 <= len -> lo + len <= 64 -> popcount (run_mask lo len) = len.
Proof.
  intros Hlo Hlen Hsum. rewrite popcount_rank, run_mask_rank by lia.
  change (Z.of_nat 64) with 64. lia.
Qed.

Lemma split_with_run lo len :
  0 <= lo -> 0 <= len -> lo + len <= 64 ->
  Partition.split_with (run_mask lo len) (len / 2)
  = (run_mask lo (len / 2), run_mask (lo + len / 2) (len - len / 2)).
Proof.
  intros Hlo Hlen Hsum.
  pose proof (run_mask_u64 lo len Hlo Hlen Hsum) as Hin.
  assert (Hhalf : 0 <= len / 2 <= len).
  { split; [apply Z.div_pos; lia|]. apply Z.div_le_upper_bound; lia. }
  pose proof (split_with_spec (run_mask lo len) (len / 2) Hin) as Hspec.
  rewrite run_mask_popcount in Hspec by lia. specialize (Hspec Hhalf).
  destruct (Partition.split_with (run_mask lo len) (len / 2)) as [a b].
  destruct Hspec as (Hor & Hand & _ & Hbits & Ha & Hb).
  assert (Hbit_a : forall i : nat,
             Z.testbit a (Z.of_nat i)
             = (lo <=? Z.of_nat i) && (Z.of_nat i <? lo + len / 2)).
  { intros i. rewrite Hbits. unfold low_share_bit.
    rewrite run_mask_bit, run_mask_rank by lia.
    destruct (Z.leb_spec lo (Z.of_nat i)), (Z.ltb_spec (Z.of_nat i) (lo + len)),
      (Z.ltb_spec (Z.of_nat i) (lo + len / 2)),
      (Z.ltb_spec (Z.max 0 (Z.min (Z.of_nat i - lo) len)) (len / 2));
      try reflexivity; lia. }
  f_equal.
  - apply bits_eq_nat. intros i. rewrite Hbit_a, run_mask_bit by lia. reflexivity.
  - apply bits_eq_nat. intros i.
    assert (Hm : Z.testbit (Z.lor a b) (Z.of_nat i)
                 = (lo <=? Z.of_nat i) && (Z.of_nat i <? lo + len))
      by (rewrite Hor; apply run_mask_bit; lia).
    assert (Hz : Z.testbit (Z.land a b) (Z.of_nat i) = false)
      by (rewrite Hand; apply Z.bits_0).
    rewrite Z.lor_spec in Hm. rewrite Z.land_spec in Hz. rewrite Hbit_a in Hm, Hz.
    rewrite run_mask_bit by lia.
    destruct (Z.testbit b (Z.of_nat i)),
      (Z.leb_spec lo (Z.of_nat i)), (Z.ltb_spec (Z.of_nat i) (lo + len)),
      (Z.ltb_spec (Z.of_nat i) (lo + len / 2)),
      (Z.leb_spec (lo + len / 2) (Z.of_nat i)),
      (Z.ltb_spec (Z.of_nat i) (lo + len / 2 + (len - len / 2)));
      simpl in *; try reflexivity; try discriminate; lia.
Qed.

(** X5. A contiguous mask is split into two contiguous, adjacent shares:
    for the mask with [len] set bits from bit [lo] on, both programs give
    the low share the [len / 2] bits from [lo] on and the high share the
    remaining [len - len / 2] bits above them. *)
Theorem split_mask_keeps_runs (lo len : Z) :
  0 <= lo -> 0 <= len -> lo + len <= 64 ->
  SplitMonitor.split_mask (run_mask lo len)
  = (run_mask lo (len / 2), run_mask (lo + len / 2) (len - len / 2))
  /\ Cos.split_mask (run_mask lo len)
     = (run_mask lo (len / 2), run_mask (lo + len / 2) (len - len / 2)).
Proof.
  intros Hlo Hlen Hsum.
  pose proof (run_mask_u64 lo len Hlo Hlen Hsum) as Hin.
  pose proof (run_mask_popcount lo len Hlo Hlen Hsum) as Hpc.
  split.
  - unfold SplitMonitor.split_mask. cbv zeta.
    rewrite count_loop_popcount, Hpc, Z.quot_div_nonneg by lia.
    apply split_with_run; assumption.
  - unfold Cos.split_mask. cbv zeta.
    rewrite count_bits_popcount, Hpc, Z.quot_div_nonneg by (assumption || lia).
    apply split_with_run; assumption.
Qed.

Lemma split_mask_keeps_runs_witness :
  0 <= 4 /\ 0 <= 11 /\ 4 + 11 <= 64
  /\ run_mask 4 11 = 0x7ff0
  /\ Cos.split_mask 0x7ff0 = (0x1f0, 0x7e00).
Proof.
  assert (H1 : 0 <= 4) by lia. assert (H2 : 0 <= 11) by lia.
  assert (H3 : 4 + 11 <= 64) by lia.
  split; [exact H1|]. split; [exact H2|]. split; [exact H3|].
  split; [reflexivity|].
  exact (proj2 (split_mask_keeps_runs 4 11 H1 H2 H3)).
Defined.

(** ** Waiting for a process *)

Lemma tick_0 w : tick w 0 = w.
Proof. destruct w. unfold tick. simpl. rewrite Nat.add_0_r. reflexivity. Qed.

Lemma tick_tick w a b : tick (tick w a) b = tick w (a + b).
Proof. unfold tick. simpl. rewrite Nat.add_assoc. reflexivity. Qed.

Section WaitLoop.
Variables (h : host) (pid : Z).

Lemma wait_loop_found n :
  forall w k,
    (k < n)%nat ->
    (forall j, (j < k)%nat -> proc_alive h pid (now w + j) = false) ->
    proc_alive h pid (now w + k) = true ->
    wait_loop h n pid w = (tick w k, Ok 0).
Proof.
  induction n as [|n IH]; intros w k Hk Hdead Halive; [lia|].
  cbn [wait_loop]. cbv [mbind prog_bind stat_proc].
  destruct k as [|k].
  - rewrite Nat.add_0_r in Halive. rewrite Halive, tick_0. reflexivity.
  - rewrite <- (Nat.add_0_r (now w)), (Hdead 0%nat) by lia.
    cbv [sleep mret prog_ret]. cbv beta iota.
    rewrite (IH (tick w 1) k); [rewrite tick_tick; reflexivity | lia | |].
    + intros j Hj. cbn [tick now]. rewrite <- Nat.add_assoc. apply Hdead. lia.
    + cbn [tick now]. rewrite <- Nat.add_assoc. exact Halive.
Qed.

Lemma wait_loop_timeout n :
  forall w,
    (forall j, (j < n)%nat -> proc_alive h pid (now w + j) = false) ->
    wait_loop h n pid w = (tick w n, Ok (-1)).
Proof.
  induction n as [|n IH]; intros w Hdead.
  - cbn [wait_loop]. rewrite tick_0. reflexivity.
  - cbn [wait_loop]. cbv [mbind prog_bind stat_proc].
    rewrite <- (Nat.add_0_r (now w)), (Hdead 0%nat) by lia.
    cbv [sleep mret prog_ret]. cbv beta iota.
    rewrite (IH (tick w 1)); [rewrite tick_tick; reflexivity|].
    intros j Hj. cbn [tick now]. rewrite <- Nat.add_assoc. apply Hdead. lia.
Qed.

End WaitLoop.

(** X6. [wait_for_pid] looks for /proc/<pid> once a second, at the seconds
    0 to timeout-1 after the call: it returns 0 at the first of these
    seconds at which the process exists, without sleeping any longer, and
    -1 after timeout seconds when the process exists at none of them; it
    does not look again after the last sleep. *)
Theorem wait_for_pid_first_second_alive (h : host) (pid timeout_sec : Z) (w : world) :
  (forall k,
      (k < Z.to_nat timeout_sec)%nat ->
      (forall j, (j < k)%nat -> proc_alive h pid (now w + j) = false) ->
      proc_alive h pid (now w + k) = true ->
      wait_for_pid h pid timeout_sec w = (tick w k, Ok 0))
  /\ ((forall j, (j < Z.to_nat timeout_sec)%nat ->
                 proc_alive h pid (now w + j) = false) ->
      wait_for_pid h pid timeout_sec w = (tick w (Z.to_nat timeout_sec), Ok (-1))).
Proof.
  unfold wait_for_pid. split.
  - intros k. apply wait_loop_found.
  - apply wait_loop_timeout.
Qed.

(** ** Files *)

Lemma upto_newline_spec s :
  no_newline (upto_newline s) = true
  /\ (s = upto_newline s
      \/ exists rest, s = upto_newline s +:+ String "010" rest).
Proof.
  induction s as [|c s [IHn IHs]]; [split; [reflexivity | left; reflexivity]|].
  cbn [upto_newline]. destruct (char_code c =? 10) eqn:Hc.
  - split; [reflexivity|]. right. exists s. rewrite str_app_nil_l.
    f_equal. apply Z.eqb_eq in Hc.
    destruct c as [[|] [|] [|] [|] [|] [|] [|] [|]]; try discriminate Hc.
    reflexivity.
  - split; [simpl; rewrite Hc; exact IHn|].
    destruct IHs as [IHs|[rest IHs]].
    + left. f_equal. exact IHs.
    + right. exists rest. rewrite str_app_cons. f_equal. exact IHs.
Qed.

(** X7. [read_file] returns the first line of a file without its line
    break and leaves the world as it is: NULL for a file that does not
    exist or holds no text, and otherwise the text before the first line
    break. *)
Theorem read_file_returns_first_line (path : string) (w : world) :
  (files w !! path = None -> read_file path w = (w, Ok None))
  /\ (forall cs text,
        files w !! path = Some cs -> text_of cs = Some text ->
        match text with
        | EmptyString => read_file path w = (w, Ok None)
        | _ =>
            exists line,
              read_file path w = (w, Ok (Some line))
              /\ no_newline line = true
              /\ (text = line \/ exists rest, text = line +:+ String "010" rest)
        end)
  /\ read_file CBM_MASK_PATH (world_with_mask "7fff")
     = (world_with_mask "7fff", Ok (Some "7fff")).
Proof.
  split; [|split].
  - intros Hnone. unfold read_file. rewrite Hnone. reflexivity.
  - intros cs text Hcs Htext. unfold read_file. rewrite Hcs.
    cbn [mbind option_bind]. rewrite Htext. cbn [mbind option_bind].
    destruct text as [|c text]; [reflexivity|].
    exists (upto_newline (String c text)). split; [reflexivity|].
    apply upto_newline_spec.
  - reflexivity.
Qed.

(** X8. [mkdir_if_missing] is idempotent and never replaces anything: on
    an existing directory it succeeds and changes nothing, on an existing
    file it fails and changes nothing, and after a success the directory
    exists, the files are as before, and a second call succeeds without
    any further change. *)
Theorem mkdir_if_missing_idempotent (h : host) (path : string) (w : world) :
  (path ∈ dirs w -> mkdir_if_missing h path w = (w, Ok true))
  /\ (path ∉ dirs w -> is_Some (files w !! path) ->
      mkdir_if_missing h path w = (w, Ok false))
  /\ (forall w' r, mkdir_if_missing h path w = (w', Ok r) ->
        files w' = files w
        /\ dirs w ⊆ dirs w'
        /\ (r = false -> w' = w)
        /\ (r = true -> path ∈ dirs w'
                        /\ mkdir_if_missing h path w' = (w', Ok true))).
Proof.
  unfold mkdir_if_missing. split; [|split].
  - intros Hin. rewrite (bool_decide_eq_true_2 _ Hin). reflexivity.
  - intros Hnot Hfile. rewrite (bool_decide_eq_false_2 _ Hnot).
    rewrite (bool_decide_eq_true_2 _ Hfile). reflexivity.
  - intros w' r. destruct (bool_decide (path ∈ dirs w)) eqn:Hd.
    + apply bool_decide_eq_true_1 in Hd. intros [= <- <-].
      split; [reflexivity|]. split; [reflexivity|]. split; [discriminate|].
      intros _. split; [exact Hd|]. rewrite (bool_decide_eq_true_2 _ Hd). reflexivity.
    + destruct (bool_decide (is_Some (files w !! path))).
      { intros [= <- <-]. split; [reflexivity|]. split; [reflexivity|].
        split; [reflexivity | discriminate]. }
      destruct (io_denied h path).
      { intros [= <- <-]. split; [reflexivity|]. split; [reflexivity|].
        split; [reflexivity | discriminate]. }
      intros [= <- <-]. cbn [files dirs log_event set_dirs].
      split; [reflexivity|]. split; [set_solver|]. split; [discriminate|].
      intros _. assert (Hin : path ∈ {[path]} ∪ dirs w) by set_solver.
      split; [exact Hin|]. rewrite (bool_decide_eq_true_2 _ Hin). reflexivity.
Qed.

(** ** The polling loop of [monitor_pids_pair] *)

Lemma pair_rows_S h t0 pid n :
  pair_rows h t0 pid (S n)
  = Row (sample_of (t0 + 1) (pad_left " " 6 (dec_of_Z pid))
           (mon_read h (Pid pid) (t0 + 1)))
    :: pair_rows h (t0 + 1) pid n.
Proof.
  unfold pair_rows. cbn [seq map]. f_equal.
  rewrite <- seq_shift, map_map. apply map_ext. intros k.
  replace (t0 + 1 + k)%nat with (t0 + S k)%nat by lia. reflexivity.
Qed.

Lemma pair_rows_snoc h t0 pid n :
  pair_rows h t0 pid (S n)
  = pair_rows h t0 pid n
    ++ [Row (sample_of (t0 + S n) (pad_left " " 6 (dec_of_Z pid))
               (mon_read h (Pid pid) (t0 + S n)))].
Proof. unfold pair_rows. rewrite seq_S, map_app. reflexivity. Qed.

Section PollPair.
Variables (h : host) (pid1 pid2 : Z) (outfile1 outfile2 : string).
Hypothesis distinct : outfile1 <> outfile2.

(** The loop stops at the first round that ends the program. *)
Lemma poll_pair_loop_app a b w :
  poll_pair_loop h (a + b) pid1 pid2 outfile1 outfile2 w
  = match poll_pair_loop h a pid1 pid2 outfile1 outfile2 w with
    | (w', Ok _) => poll_pair_loop h b pid1 pid2 outfile1 outfile2 w'
    | (w', Exit f) => (w', Exit f)
    end.
Proof.
  revert w. induction a as [|a IH]; intros w; [reflexivity|].
  cbn [Nat.add poll_pair_loop]. rewrite !bind_run.
  destruct (poll_pair h pid1 pid2 outfile1 outfile2 w) as [w1 [[]|f]];
    [apply IH | reflexivity].
Qed.

(** One round in which both processes exist and the poll succeeds. *)
Lemma poll_pair_ok w c1 c2 :
  files w !! outfile1 = Some c1 ->
  files w !! outfile2 = Some c2 ->
  proc_alive h pid1 (now w + 1) = true ->
  proc_alive h pid2 (now w + 1) = true ->
  mon_poll_ret h (now w + 1) = PQOS_RETVAL_OK ->
  exists w',
    poll_pair h pid1 pid2 outfile1 outfile2 w = (w', Ok tt)
    /\ files w' !! outfile1 = Some (c1 ++ pair_rows h (now w) pid1 1)
    /\ files w' !! outfile2 = Some (c2 ++ pair_rows h (now w) pid2 1)
    /\ (forall p, p <> outfile1 -> p <> outfile2 -> files w' !! p = files w !! p)
    /\ dirs w' = dirs w
    /\ now w' = (now w + 1)%nat
    /\ trace w' = trace w ++ [EvMonPoll].
Proof.
  intros Hf1 Hf2 Ha1 Ha2 Hp. destruct w as [fs ds t tr].
  cbv [files now PQOS_RETVAL_OK] in *.
  unfold poll_pair. run_prog. rewrite Ha1, Ha2, Hp, Hf1. cbn [default].
  rewrite lookup_insert_ne by congruence. rewrite Hf2. cbn [default]. unfold id.
  eexists. split; [reflexivity|]. cbv beta iota.
  split; [rewrite lookup_insert_ne, lookup_insert_eq by congruence; reflexivity|].
  split; [rewrite lookup_insert_eq; reflexivity|].
  split; [|repeat split].
  intros p Hp1 Hp2. rewrite !lookup_insert_ne by congruence. reflexivity.
Qed.

(** [n] rounds in which both processes exist and every poll succeeds. *)
Lemma poll_pair_loop_ok n :
  forall w c1 c2,
    files w !! outfile1 = Some c1 ->
    files w !! outfile2 = Some c2 ->
    (forall k, (1 <= k <= n)%nat ->
               proc_alive h pid1 (now w + k) = true
               /\ proc_alive h pid2 (now w + k) = true
               /\ mon_poll_ret h (now w + k) = PQOS_RETVAL_OK) ->
    exists w',
      poll_pair_loop h n pid1 pid2 outfile1 outfile2 w = (w', Ok tt)
      /\ files w' !! outfile1 = Some (c1 ++ pair_rows h (now w) pid1 n)
      /\ files w' !! outfile2 = Some (c2 ++ pair_rows h (now w) pid2 n)
      /\ (forall p, p <> outfile1 -> p <> outfile2 -> files w' !! p = files w !! p)
      /\ dirs w' = dirs w
      /\ now w' = (now w + n)%nat
      /\ trace w' = trace w ++ repeat EvMonPoll n.
Proof.
  induction n as [|n IH]; intros w c1 c2 Hf1 Hf2 Hok.
  - exists w. cbn [poll_pair_loop repeat]. unfold pair_rows. cbn [seq map].
    rewrite !app_nil_r, Nat.add_0_r. repeat split; assumption || reflexivity.
  - destruct (Hok 1%nat ltac:(lia)) as (Ha1 & Ha2 & Hp).
    destruct (poll_pair_ok w c1 c2 Hf1 Hf2 Ha1 Ha2 Hp)
      as (w1 & Hrun & Hg1 & Hg2 & Hother & Hdirs & Hnow & Htrace).
    destruct (IH w1 _ _ Hg1 Hg2) as (w' & Hrun' & Hh1 & Hh2 & Hother' & Hdirs' & Hnow' & Htrace').
    { intros k Hk. rewrite Hnow, <- Nat.add_assoc. apply Hok. lia. }
    exists w'. cbn [poll_pair_loop]. rewrite bind_run, Hrun.
    split; [exact Hrun'|].
    rewrite Hh1, Hh2, Hnow, <- !app_assoc, !pair_rows_S.
    split; [reflexivity|]. split; [reflexivity|].
    split; [intros p Hp1 Hp2; rewrite Hother', Hother by assumption; reflexivity|].
    split; [congruence|]. split; [lia|].
    rewrite Htrace', Htrace, <- app_assoc. reflexivity.
Qed.

(** A round that ends the program: a process is gone, or the poll fails. *)
Lemma poll_pair_stops w :
  let alive1 := proc_alive h pid1 (now w + 1) in
  let alive2 := proc_alive h pid2 (now w + 1) in
  poll_pair h pid1 pid2 outfile1 outfile2 w
  = if negb alive1 then (tick w 1, Exit (PidDisappeared pid1))
    else if negb alive2 then (tick w 1, Exit (PidDisappeared pid2))
    else if negb (mon_poll_ret h (now w + 1) =? PQOS_RETVAL_OK)
         then (log_event (tick w 1) EvMonPoll, Exit MonPollFailed)
         else poll_pair h pid1 pid2 outfile1 outfile2 w.
Proof.
  cbv zeta. destruct w as [fs ds t tr]. cbv [now].
  destruct (proc_alive h pid1 (t + 1)) eqn:Ha1; cbn [negb];
    [|unfold poll_pair; run_prog; rewrite Ha1; reflexivity].
  destruct (proc_alive h pid2 (t + 1)) eqn:Ha2; cbn [negb];
    [|unfold poll_pair; run_prog; rewrite Ha1, Ha2; reflexivity].
  destruct (mon_poll_ret h (t + 1) =? PQOS_RETVAL_OK) eqn:Hp; cbn [negb];
    [reflexivity|].
  unfold poll_pair. run_prog. rewrite Ha1, Ha2.
  cbv [PQOS_RETVAL_OK] in Hp.
  destruct (mon_poll_ret h (t + 1)) eqn:Hr; try discriminate Hp; reflexivity.
Qed.

End PollPair.

(** ** A run of [monitor_pids_pair] *)

Section MonitorPair.
Variables (h : host) (pid1 pid2 duration : Z) (outfile1 outfile2 : string).
Variables (w w1 w2 : world).
Hypothesis wait1 : wait_for_pid h pid1 5 w = (w1, Ok 0).
Hypothesis wait2 : wait_for_pid h pid2 5 w1 = (w2, Ok 0).
Hypothesis start1 : mon_start_ret h (Pid pid1) (now w2) = PQOS_RETVAL_OK.
Hypothesis start2 : mon_start_ret h (Pid pid2) (now w2) = PQOS_RETVAL_OK.
Hypothesis open1 : io_denied h outfile1 = false.
Hypothesis open2 : io_denied h outfile2 = false.
Hypothesis distinct : outfile1 <> outfile2.

(** Up to the loop: the groups are started, the files are opened, the
    header lines are written. *)
Lemma monitor_pids_pair_prelude :
  monitor_pids_pair h pid1 pid2 duration outfile1 outfile2 w
  = match poll_pair_loop h (Z.to_nat duration) pid1 pid2 outfile1 outfile2
            (after_headers w2 pid1 pid2 outfile1 outfile2) with
    | (w', Ok _) =>
        (log_event (log_event w' (EvMonStop (Pid pid1))) (EvMonStop (Pid pid2)),
         Ok tt)
    | (w', Exit f) => (w', Exit f)
    end.
Proof.
  assert (Hw3 : forall fs ds t tr,
             {| files := <[outfile2 := default []
                             (<[outfile1 := default []
                                  (<[outfile2:=[]]> (<[outfile1:=[]]> fs) !! outfile1)
                                  ++ [Header "PID"]]>
                                (<[outfile2:=[]]> (<[outfile1:=[]]> fs)) !! outfile2)
                             ++ [Header "PID"]]>
                          (<[outfile1 := default []
                               (<[outfile2:=[]]> (<[outfile1:=[]]> fs) !! outfile1)
                               ++ [Header "PID"]]>
                             (<[outfile2:=[]]> (<[outfile1:=[]]> fs)));
                dirs := ds; now := t;
                trace := (((tr ++ [EvMonStart (Pid pid1)]) ++ [EvMonStart (Pid pid2)])
                          ++ [EvFopen outfile1]) ++ [EvFopen outfile2] |}
             = after_headers {| files := fs; dirs := ds; now := t; trace := tr |}
                 pid1 pid2 outfile1 outfile2).
  { intros fs ds t tr. unfold after_headers. cbn [files dirs now trace].
    rewrite <- !app_assoc. f_equal.
    rewrite (lookup_insert_ne _ outfile2 outfile1) by congruence.
    rewrite lookup_insert_eq. cbn [default]. unfold id. simpl app.
    rewrite lookup_insert_ne by congruence. rewrite lookup_insert_eq.
    cbn [default]. unfold id. simpl app.
    rewrite (insert_insert_ne _ outfile1 outfile2) by congruence.
    rewrite insert_insert_eq, insert_insert_eq. reflexivity. }
  destruct w2 as [fs ds t tr]. cbv [now PQOS_RETVAL_OK] in start1, start2.
  run_prog. rewrite wait1. run_prog. rewrite wait2. run_prog.
  rewrite start1, start2, open1, open2. run_prog.
  rewrite Hw3.
  destruct (poll_pair_loop h (Z.to_nat duration) pid1 pid2 outfile1 outfile2
              (after_headers {| files := fs; dirs := ds; now := t; trace := tr |}
                 pid1 pid2 outfile1 outfile2)) as [w' [[]|f]]; reflexivity.
Qed.

End MonitorPair.

(** X9. A run of [monitor_pids_pair] in which both processes exist at
    every second and every poll succeeds writes, to each of the two files,
    the header line followed by one row per second of [duration], in
    order of time, and then stops both groups; nothing else is written. *)
Theorem monitor_pids_pair_writes_one_row_per_second
    (h : host) (pid1 pid2 duration : Z) (outfile1 outfile2 : string)
    (w w1 w2 : world) :
  wait_for_pid h pid1 5 w = (w1, Ok 0) ->
  wait_for_pid h pid2 5 w1 = (w2, Ok 0) ->
  mon_start_ret h (Pid pid1) (now w2) = PQOS_RETVAL_OK ->
  mon_start_ret h (Pid pid2) (now w2) = PQOS_RETVAL_OK ->
  io_denied h outfile1 = false ->
  io_denied h outfile2 = false ->
  outfile1 <> outfile2 ->
  (forall k, (1 <= k <= Z.to_nat duration)%nat ->
             proc_alive h pid1 (now w2 + k) = true
             /\ proc_alive h pid2 (now w2 + k) = true
             /\ mon_poll_ret h (now w2 + k) = PQOS_RETVAL_OK) ->
  exists w',
    monitor_pids_pair h pid1 pid2 duration outfile1 outfile2 w = (w', Ok tt)
    /\ files w' !! outfile1
       = Some (Header "PID" :: pair_rows h (now w2) pid1 (Z.to_nat duration))
    /\ files w' !! outfile2
       = Some (Header "PID" :: pair_rows h (now w2) pid2 (Z.to_nat duration))
    /\ (forall p, p <> outfile1 -> p <> outfile2 -> files w' !! p = files w2 !! p)
    /\ now w' = (now w2 + Z.to_nat duration)%nat
    /\ trace w'
       = trace w2 ++ [EvMonStart (Pid pid1); EvMonStart (Pid pid2);
                      EvFopen outfile1; EvFopen outfile2]
         ++ repeat EvMonPoll (Z.to_nat duration)
         ++ [EvMonStop (Pid pid1); EvMonStop (Pid pid2)].
Proof.
  intros Hw1 Hw2 Hs1 Hs2 Hio1 Hio2 Hne Hok.
  rewrite (monitor_pids_pair_prelude h pid1 pid2 duration outfile1 outfile2
             w w1 w2 Hw1 Hw2 Hs1 Hs2 Hio1 Hio2 Hne).
  destruct (poll_pair_loop_ok h pid1 pid2 outfile1 outfile2 Hne (Z.to_nat duration)
              (after_headers w2 pid1 pid2 outfile1 outfile2)
              [Header "PID"] [Header "PID"])
    as (w' & Hrun & Hf1 & Hf2 & Hother & _ & Hnow & Htrace).
  - cbn [after_headers files]. rewrite lookup_insert_ne by congruence.
    apply lookup_insert_eq.
  - cbn [after_headers files]. apply lookup_insert_eq.
  - exact Hok.
  - rewrite Hrun. eexists. split; [reflexivity|].
    cbn [files now trace log_event]. cbn [after_headers files now trace] in *.
    split; [exact Hf1|]. split; [exact Hf2|].
    split.
    { intros p Hp1 Hp2. rewrite Hother by assumption.
      rewrite !lookup_insert_ne by congruence. reflexivity. }
    split; [exact Hnow|]. rewrite Htrace, <- !app_assoc. reflexivity.
Qed.

Lemma monitor_pids_pair_writes_one_row_per_second_witness :
  wait_for_pid host_ok 100 5 (world_with_mask "7fff") = (world_with_mask "7fff", Ok 0)
  /\ exists w',
       monitor_pids_pair host_ok 100 200 3 "VM1_normal.txt" "VM2_normal.txt"
         (world_with_mask "7fff") = (w', Ok tt)
       /\ files w' !! "VM1_normal.txt"
          = Some (Header "PID" :: pair_rows host_ok 0 100 3)
       /\ length (pair_rows host_ok 0 100 3) = 3%nat.
Proof.
  split; [reflexivity|].
  destruct (monitor_pids_pair_writes_one_row_per_second host_ok 100 200 3
              "VM1_normal.txt" "VM2_normal.txt"
              (world_with_mask "7fff") (world_with_mask "7fff") (world_with_mask "7fff"))
    as (w' & Hrun & Hf1 & _);
    [reflexivity | reflexivity | reflexivity | reflexivity | reflexivity
     | reflexivity | discriminate | intros k _; repeat split |].
  exists w'. split; [exact Hrun|]. split; [exact Hf1 | reflexivity].
Defined.

(** X10. A run of [monitor_pids_pair] that is ended in its round [k], by
    a process that is gone or by a failing poll, keeps what it wrote
    before: each file holds the header line and the rows of the [k - 1]
    rounds that went well; the groups are not stopped. *)
Theorem monitor_pids_pair_abort_keeps_rows
    (h : host) (pid1 pid2 duration : Z) (outfile1 outfile2 : string)
    (w w1 w2 : world) (k : nat) :
  wait_for_pid h pid1 5 w = (w1, Ok 0) ->
  wait_for_pid h pid2 5 w1 = (w2, Ok 0) ->
  mon_start_ret h (Pid pid1) (now w2) = PQOS_RETVAL_OK ->
  mon_start_ret h (Pid pid2) (now w2) = PQOS_RETVAL_OK ->
  io_denied h outfile1 = false ->
  io_denied h outfile2 = false ->
  outfile1 <> outfile2 ->
  (k < Z.to_nat duration)%nat ->
  (forall j, (1 <= j <= k)%nat ->
             proc_alive h pid1 (now w2 + j) = true
             /\ proc_alive h pid2 (now w2 + j) = true
             /\ mon_poll_ret h (now w2 + j) = PQOS_RETVAL_OK) ->
  proc_alive h pid1 (now w2 + S k) = false
  \/ proc_alive h pid2 (now w2 + S k) = false
  \/ mon_poll_ret h (now w2 + S k) <> PQOS_RETVAL_OK ->
  exists w' f,
    monitor_pids_pair h pid1 pid2 duration outfile1 outfile2 w = (w', Exit f)
    /\ (f = PidDisappeared pid1 /\ proc_alive h pid1 (now w2 + S k) = false
        \/ f = PidDisappeared pid2 /\ proc_alive h pid2 (now w2 + S k) = false
        \/ f = MonPollFailed /\ mon_poll_ret h (now w2 + S k) <> PQOS_RETVAL_OK)
    /\ files w' !! outfile1 = Some (Header "PID" :: pair_rows h (now w2) pid1 k)
    /\ files w' !! outfile2 = Some (Header "PID" :: pair_rows h (now w2) pid2 k)
    /\ now w' = (now w2 + S k)%nat
    /\ Forall (fun e => forall t, e <> EvMonStop t)
         (drop (length (trace w2)) (trace w')).
Proof.
  intros Hw1 Hw2 Hs1 Hs2 Hio1 Hio2 Hne Hk Hok Hbad.
  rewrite (monitor_pids_pair_prelude h pid1 pid2 duration outfile1 outfile2
             w w1 w2 Hw1 Hw2 Hs1 Hs2 Hio1 Hio2 Hne).
  replace (Z.to_nat duration) with (k + S (Z.to_nat duration - S k))%nat by lia.
  rewrite poll_pair_loop_app.
  destruct (poll_pair_loop_ok h pid1 pid2 outfile1 outfile2 Hne k
              (after_headers w2 pid1 pid2 outfile1 outfile2)
              [Header "PID"] [Header "PID"])
    as (w3 & Hrun & Hf1 & Hf2 & _ & _ & Hnow & Htrace).
  { cbn [after_headers files]. rewrite lookup_insert_ne by congruence.
    apply lookup_insert_eq. }
  { cbn [after_headers files]. apply lookup_insert_eq. }
  { exact Hok. }
  rewrite Hrun. cbn [poll_pair_loop]. rewrite bind_run.
  cbn [after_headers files now trace] in Hf1, Hf2, Hnow, Htrace.
  assert (Hs : (now w3 + 1 = now w2 + S k)%nat) by lia.
  assert (Hquiet : forall extra,
             Forall (fun e => forall t, e <> EvMonStop t) extra ->
             Forall (fun e => forall t, e <> EvMonStop t)
               (drop (length (trace w2)) (trace w3 ++ extra))).
  { intros extra Hextra. rewrite Htrace, <- !app_assoc, drop_app_length.
    repeat (apply Forall_cons; split; [discriminate|]).
    apply Forall_app. split; [|exact Hextra].
    clear. induction k; simpl; constructor; [discriminate | assumption]. }
  rewrite poll_pair_stops. cbv zeta. rewrite Hs.
  destruct (proc_alive h pid1 (now w2 + S k)) eqn:Ha1; cbn [negb].
  2:{ exists (tick w3 1), (PidDisappeared pid1). split; [reflexivity|].
      split; [left; split; reflexivity|]. cbn [tick files now trace].
      split; [exact Hf1|]. split; [exact Hf2|]. split; [lia|].
      rewrite <- (app_nil_r (trace w3)). apply Hquiet. constructor. }
  destruct (proc_alive h pid2 (now w2 + S k)) eqn:Ha2; cbn [negb].
  2:{ exists (tick w3 1), (PidDisappeared pid2). split; [reflexivity|].
      split; [right; left; split; reflexivity|]. cbn [tick files now trace].
      split; [exact Hf1|]. split; [exact Hf2|]. split; [lia|].
      rewrite <- (app_nil_r (trace w3)). apply Hquiet. constructor. }
  destruct Hbad as [Hbad|[Hbad|Hbad]]; try discriminate Hbad.
  replace (mon_poll_ret h (now w2 + S k) =? PQOS_RETVAL_OK) with false
    by (symmetry; apply Z.eqb_neq; exact Hbad).
  cbn [negb].
  exists (log_event (tick w3 1) EvMonPoll), MonPollFailed. split; [reflexivity|].
  split; [right; right; split; [reflexivity | exact Hbad]|].
  cbn [log_event tick files now trace].
  split; [exact Hf1|]. split; [exact Hf2|]. split; [lia|].
  apply Hquiet. repeat constructor. discriminate.
Qed.

Lemma monitor_pids_pair_abort_keeps_rows_witness :
  (2 < Z.to_nat 30)%nat
  /\ proc_alive (host_gone_after 2) 100 (now (world_with_mask "7fff") + 3) = false
  /\ exists w' f,
       monitor_pids_pair (host_gone_after 2) 100 200 30
         "VM1_normal.txt" "VM2_normal.txt" (world_with_mask "7fff") = (w', Exit f)
       /\ f = PidDisappeared 100
       /\ files w' !! "VM2_normal.txt"
          = Some (Header "PID" :: pair_rows (host_gone_after 2) 0 200 2).
Proof.
  assert (Hk : (2 < Z.to_nat 30)%nat) by (vm_compute; lia).
  split; [exact Hk|]. split; [reflexivity|].
  destruct (monitor_pids_pair_abort_keeps_rows (host_gone_after 2) 100 200 30
              "VM1_normal.txt" "VM2_normal.txt"
              (world_with_mask "7fff") (world_with_mask "7fff")
              (world_with_mask "7fff") 2)
    as (w' & f & Hrun & Hf & _ & Hf2 & _);
    [reflexivity | reflexivity | reflexivity | reflexivity | reflexivity
     | reflexivity | discriminate | exact Hk | | left; reflexivity |].
  { intros j Hj. assert (Hj' : j = 1%nat \/ j = 2%nat) by lia.
    destruct Hj' as [->| ->]; repeat split. }
  exists w', f. split; [exact Hrun|]. split; [|exact Hf2].
  destruct Hf as [[Hf _]|[[_ Hf]|[_ Hf]]]; [exact Hf | discriminate Hf|].
  exfalso. apply Hf. reflexivity.
Defined.

(** X11. [monitor_pids_pair] before its loop: a process, the first or
    the second, that does not exist during its five seconds of waiting
    ends the run with its pid named, before any group is started and
    with no file touched; when the second group cannot be started the first
    one is stopped again and no file is opened; when the second file
    cannot be opened the first one is left behind empty and both groups
    are left running. *)
Theorem monitor_pids_pair_fails_before_loop
    (h : host) (pid1 pid2 duration : Z) (outfile1 outfile2 : string) (w : world) :
  ((forall j, (j < 5)%nat -> proc_alive h pid1 (now w + j) = false) ->
   monitor_pids_pair h pid1 pid2 duration outfile1 outfile2 w
   = (tick w 5, Exit (PidNotRunning pid1)))
  /\ (forall w1,
        wait_for_pid h pid1 5 w = (w1, Ok 0) ->
        (forall j, (j < 5)%nat -> proc_alive h pid2 (now w1 + j) = false) ->
        monitor_pids_pair h pid1 pid2 duration outfile1 outfile2 w
        = (tick w1 5, Exit (PidNotRunning pid2))
        /\ files (tick w1 5) = files w1 /\ trace (tick w1 5) = trace w1)
  /\ files (tick w 5) = files w /\ trace (tick w 5) = trace w
  /\ (forall w1 w2 ret,
        wait_for_pid h pid1 5 w = (w1, Ok 0) ->
        wait_for_pid h pid2 5 w1 = (w2, Ok 0) ->
        mon_start_ret h (Pid pid1) (now w2) = PQOS_RETVAL_OK ->
        mon_start_ret h (Pid pid2) (now w2) = ret ->
        ret <> PQOS_RETVAL_OK ->
        monitor_pids_pair h pid1 pid2 duration outfile1 outfile2 w
        = ({| files := files w2; dirs := dirs w2; now := now w2;
              trace := trace w2 ++ [EvMonStart (Pid pid1); EvMonStart (Pid pid2);
                                    EvMonStop (Pid pid1)] |},
           Exit (MonStartFailed pid2 ret)))
  /\ (forall w1 w2,
        wait_for_pid h pid1 5 w = (w1, Ok 0) ->
        wait_for_pid h pid2 5 w1 = (w2, Ok 0) ->
        mon_start_ret h (Pid pid1) (now w2) = PQOS_RETVAL_OK ->
        mon_start_ret h (Pid pid2) (now w2) = PQOS_RETVAL_OK ->
        io_denied h outfile1 = false ->
        io_denied h outfile2 = true ->
        monitor_pids_pair h pid1 pid2 duration outfile1 outfile2 w
        = ({| files := <[outfile1 := []]> (files w2); dirs := dirs w2;
              now := now w2;
              trace := trace w2 ++ [EvMonStart (Pid pid1); EvMonStart (Pid pid2);
                                    EvFopen outfile1] |},
           Exit (FopenFailed outfile2))).
Proof.
  split; [|split; [|split; [|split; [|split]]]]; try reflexivity.
  - intros Hdead. unfold monitor_pids_pair. rewrite bind_run.
    pose proof (wait_loop_timeout h pid1 5 w Hdead) as Hwait.
    change (wait_loop h 5 pid1 w) with (wait_for_pid h pid1 5 w) in Hwait.
    rewrite Hwait. reflexivity.
  - intros w1 Hw1 Hdead. split; [|split; reflexivity].
    pose proof (wait_loop_timeout h pid2 5 w1 Hdead) as Hwait.
    change (wait_loop h 5 pid2 w1) with (wait_for_pid h pid2 5 w1) in Hwait.
    run_prog. rewrite Hw1. run_prog. rewrite Hwait. reflexivity.
  - intros w1 w2 ret Hw1 Hw2 Hs1 Hs2 Hret.
    destruct w2 as [fs ds t tr]. cbv [now PQOS_RETVAL_OK] in Hs1, Hs2, Hret.
    run_prog. rewrite Hw1. run_prog. rewrite Hw2. run_prog.
    rewrite Hs1, Hs2. cbv [files dirs now trace].
    destruct ret as [|p|p]; [congruence | |]; rewrite <- !app_assoc; reflexivity.
  - intros w1 w2 Hw1 Hw2 Hs1 Hs2 Hio1 Hio2.
    destruct w2 as [fs ds t tr]. cbv [now PQOS_RETVAL_OK] in Hs1, Hs2.
    run_prog. rewrite Hw1. run_prog. rewrite Hw2. run_prog.
    rewrite Hs1, Hs2, Hio1, Hio2. cbv [files dirs now trace].
    rewrite <- !app_assoc. reflexivity.
Qed.

(** ** [monitor_cores] of run_rdt.c *)

Lemma core_rows_S h t0 start nc n :
  core_rows h t0 start nc (S n)
  = Row (sample_of (t0 + 1) (RunRdt.cores_text start nc)
           (mon_read h (Cores start nc) (t0 + 1)))
    :: core_rows h (t0 + 1) start nc n.
Proof.
  unfold core_rows. cbn [seq map]. f_equal.
  rewrite <- seq_shift, map_map. apply map_ext. intros k.
  replace (t0 + 1 + k)%nat with (t0 + S k)%nat by lia. reflexivity.
Qed.

Section PollCores.
Variables (h : host) (start nc : Z) (outfile : string).

Lemma poll_cores_loop_app a b w :
  RunRdt.poll_cores_loop h (a + b) start nc outfile w
  = match RunRdt.poll_cores_loop h a start nc outfile w with
    | (w', Ok _) => RunRdt.poll_cores_loop h b start nc outfile w'
    | (w', Exit f) => (w', Exit f)
    end.
Proof.
  revert w. induction a as [|a IH]; intros w; [reflexivity|].
  cbn [Nat.add RunRdt.poll_cores_loop]. rewrite !bind_run.
  destruct (RunRdt.poll_cores h start nc outfile w) as [w1 [[]|f]];
    [apply IH | reflexivity].
Qed.

Lemma poll_cores_loop_ok n :
  forall w c,
    files w !! outfile = Some c ->
    (forall k, (1 <= k <= n)%nat -> mon_poll_ret h (now w + k) = PQOS_RETVAL_OK) ->
    exists w',
      RunRdt.poll_cores_loop h n start nc outfile w = (w', Ok tt)
      /\ files w' !! outfile = Some (c ++ core_rows h (now w) start nc n)
      /\ (forall p, p <> outfile -> files w' !! p = files w !! p)
      /\ now w' = (now w + n)%nat
      /\ trace w' = trace w ++ repeat EvMonPoll n.
Proof.
  induction n as [|n IH]; intros w c Hf Hok.
  - exists w. cbn [RunRdt.poll_cores_loop repeat]. unfold core_rows. cbn [seq map].
    rewrite !app_nil_r, Nat.add_0_r. repeat split; assumption || reflexivity.
  - pose proof (Hok 1%nat ltac:(lia)) as Hp.
    assert (Hstep : exists w1,
               RunRdt.poll_cores h start nc outfile w = (w1, Ok tt)
               /\ files w1 !! outfile = Some (c ++ core_rows h (now w) start nc 1)
               /\ (forall p, p <> outfile -> files w1 !! p = files w !! p)
               /\ now w1 = (now w + 1)%nat
               /\ trace w1 = trace w ++ [EvMonPoll]).
    { destruct w as [fs ds t tr]. cbv [files now PQOS_RETVAL_OK] in *.
      unfold RunRdt.poll_cores. run_prog. rewrite Hp, Hf. cbn [default]. unfold id.
      eexists. split; [reflexivity|]. cbv beta iota.
      split; [rewrite lookup_insert_eq; reflexivity|].
      split; [|split; reflexivity].
      intros p Hne. rewrite lookup_insert_ne by congruence. reflexivity. }
    destruct Hstep as (w1 & Hrun & Hg & Hother & Hnow & Htrace).
    destruct (IH w1 _ Hg) as (w' & Hrun' & Hh & Hother' & Hnow' & Htrace').
    { intros k Hk. rewrite Hnow, <- Nat.add_assoc. apply Hok. lia. }
    exists w'. cbn [RunRdt.poll_cores_loop]. rewrite bind_run, Hrun.
    split; [exact Hrun'|].
    rewrite Hh, Hnow, <- !app_assoc, !core_rows_S.
    split; [reflexivity|].
    split; [intros p Hne; rewrite Hother', Hother by assumption; reflexivity|].
    split; [lia|].
    rewrite Htrace', Htrace, <- app_assoc. reflexivity.
Qed.

End PollCores.

(** X12. [monitor_cores] writes the header line and then one row per
    second of [duration] for the cores [start] to [start + nc - 1], and
    stops the group, when every poll succeeds; when the poll of round
    [k + 1] fails the run ends there and the file keeps the header and the
    [k] rows written before. *)
Theorem monitor_cores_writes_one_row_per_second
    (h : host) (start nc duration : Z) (outfile : string) (w : world) :
  mon_start_ret h (Cores start nc) (now w) = PQOS_RETVAL_OK ->
  io_denied h outfile = false ->
  ((forall k, (1 <= k <= Z.to_nat duration)%nat ->
              mon_poll_ret h (now w + k) = PQOS_RETVAL_OK) ->
   mon_stop_ret h (Cores start nc) (now w + Z.to_nat duration) = PQOS_RETVAL_OK ->
   exists w',
     RunRdt.monitor_cores h start nc duration outfile w = (w', Ok tt)
     /\ files w' !! outfile
        = Some (Header "CORE" :: core_rows h (now w) start nc (Z.to_nat duration))
     /\ (forall p, p <> outfile -> files w' !! p = files w !! p)
     /\ trace w'
        = trace w ++ [EvMonStart (Cores start nc); EvFopen outfile]
          ++ repeat EvMonPoll (Z.to_nat duration) ++ [EvMonStop (Cores start nc)])
  /\ (forall k,
         (k < Z.to_nat duration)%nat ->
         (forall j, (1 <= j <= k)%nat -> mon_poll_ret h (now w + j) = PQOS_RETVAL_OK) ->
         mon_poll_ret h (now w + S k) <> PQOS_RETVAL_OK ->
         exists w',
           RunRdt.monitor_cores h start nc duration outfile w
           = (w', Exit MonPollFailed)
           /\ files w' !! outfile
              = Some (Header "CORE" :: core_rows h (now w) start nc k)
           /\ trace w'
              = trace w ++ [EvMonStart (Cores start nc); EvFopen outfile]
                ++ repeat EvMonPoll (S k)).
Proof.
  intros Hs Hio.
  assert (Hpre : RunRdt.monitor_cores h start nc duration outfile w
                 = match RunRdt.poll_cores_loop h (Z.to_nat duration) start nc outfile
                           {| files := <[outfile := [Header "CORE"]]> (files w);
                              dirs := dirs w; now := now w;
                              trace := trace w ++ [EvMonStart (Cores start nc);
                                                   EvFopen outfile] |} with
                   | (w', Ok _) =>
                       (log_event w' (EvMonStop (Cores start nc)),
                        if mon_stop_ret h (Cores start nc) (now w') =? PQOS_RETVAL_OK
                        then Ok tt else Exit MonStopFailed)
                   | (w', Exit f) => (w', Exit f)
                   end).
  { destruct w as [fs ds t tr]. cbv [now PQOS_RETVAL_OK files dirs trace] in *.
    unfold RunRdt.monitor_cores. run_prog. rewrite Hs, Hio.
    rewrite lookup_insert_eq. cbn [default]. unfold id. simpl app.
    rewrite insert_insert_eq, <- !app_assoc. simpl app.
    destruct (RunRdt.poll_cores_loop h (Z.to_nat duration) start nc outfile _)
      as [w' [[]|f]]; [|reflexivity].
    destruct w' as [fs' ds' t' tr']. cbv [now trace files dirs].
    destruct (mon_stop_ret h (Cores start nc) t'); reflexivity. }
  split.
  - intros Hok Hstop. rewrite Hpre.
    destruct (poll_cores_loop_ok h start nc outfile (Z.to_nat duration)
                {| files := <[outfile := [Header "CORE"]]> (files w);
                   dirs := dirs w; now := now w;
                   trace := trace w ++ [EvMonStart (Cores start nc);
                                        EvFopen outfile] |}
                [Header "CORE"])
      as (w' & Hrun & Hf & Hother & Hnow & Htrace);
      [apply lookup_insert_eq | exact Hok |].
    rewrite Hrun. cbn [files now trace] in Hf, Hother, Hnow, Htrace.
    rewrite Hnow, Hstop. eexists. split; [reflexivity|].
    cbn [log_event files trace].
    split; [exact Hf|].
    split; [intros p Hne; rewrite Hother, lookup_insert_ne by congruence; reflexivity|].
    rewrite Htrace, <- !app_assoc. reflexivity.
  - intros k Hk Hok Hbad. rewrite Hpre.
    replace (Z.to_nat duration) with (k + S (Z.to_nat duration - S k))%nat by lia.
    rewrite poll_cores_loop_app.
    destruct (poll_cores_loop_ok h start nc outfile k
                {| files := <[outfile := [Header "CORE"]]> (files w);
                   dirs := dirs w; now := now w;
                   trace := trace w ++ [EvMonStart (Cores start nc);
                                        EvFopen outfile] |}
                [Header "CORE"])
      as (w3 & Hrun & Hf & _ & Hnow & Htrace);
      [apply lookup_insert_eq | exact Hok |].
    rewrite Hrun. cbn [files now trace] in Hf, Hnow, Htrace.
    cbn [RunRdt.poll_cores_loop]. rewrite bind_run.
    assert (Hround : RunRdt.poll_cores h start nc outfile w3
                     = (log_event (tick w3 1) EvMonPoll, Exit MonPollFailed)).
    { clear -Hnow Hbad. revert Hnow Hbad. generalize (now w). intros t0 Hnow Hbad.
      destruct w3 as [fs ds t tr]. cbn [now] in Hnow. subst t.
      unfold RunRdt.poll_cores. run_prog.
      replace (t0 + k + 1)%nat with (t0 + S k)%nat by lia.
      cbv [PQOS_RETVAL_OK] in Hbad.
      destruct (mon_poll_ret h (t0 + S k)); [congruence | |]; reflexivity. }
    rewrite Hround. eexists. split; [reflexivity|].
    cbn [log_event tick files trace]. split; [exact Hf|].
    rewrite Htrace, <- !app_assoc. f_equal. f_equal. f_equal.
    clear. induction k; simpl; [reflexivity | f_equal; assumption].
Qed.

Lemma monitor_cores_writes_one_row_per_second_witness :
  mon_start_ret host_ok (Cores 20 8) (now (world_with_mask "7fff")) = PQOS_RETVAL_OK
  /\ io_denied host_ok "victim_before.txt" = false
  /\ RunRdt.cores_text 20 8 = "20-27"
  /\ exists w',
       RunRdt.monitor_cores host_ok 20 8 2 "victim_before.txt" (world_with_mask "7fff")
       = (w', Ok tt)
       /\ files w' !! "victim_before.txt"
          = Some (Header "CORE" :: core_rows host_ok 0 20 8 2).
Proof.
  split; [reflexivity|]. split; [reflexivity|]. split; [reflexivity|].
  destruct (proj1 (monitor_cores_writes_one_row_per_second host_ok 20 8 2
                     "victim_before.txt" (world_with_mask "7fff") eq_refl eq_refl))
    as (w' & Hrun & Hf & _); [intros k _; reflexivity | reflexivity |].
  exists w'. split; [exact Hrun | exact Hf].
Defined.

(** ** Failures of [main] before the first phase *)

Lemma mkdir_if_missing_ok h path w :
  io_denied h path = false -> files w !! path = None ->
  exists w',
    mkdir_if_missing h path w = (w', Ok true)
    /\ files w' = files w /\ now w' = now w
    /\ path ∈ dirs w' /\ dirs w ⊆ dirs w'
    /\ exists extra, trace w' = trace w ++ extra
                     /\ Forall (fun e => setup_event e = true) extra.
Proof.
  intros Hio Hfile. unfold mkdir_if_missing.
  destruct (bool_decide (path ∈ dirs w)) eqn:Hd.
  - apply bool_decide_eq_true_1 in Hd. exists w.
    repeat split; try assumption; try reflexivity.
    exists []. rewrite app_nil_r. split; [reflexivity | constructor].
  - rewrite Hfile, Hio.
    replace (bool_decide (is_Some (@None (list chunk)))) with false
      by (symmetry; apply bool_decide_eq_false_2; intros [? ?]; discriminate).
    eexists. split; [reflexivity|]. cbn [files dirs now trace log_event set_dirs].
    split; [reflexivity|]. split; [reflexivity|].
    split; [set_solver|]. split; [set_solver|].
    eexists. split; [reflexivity|]. repeat constructor.
Qed.

(** X13. With fewer than two sockets detected both programs end with the
    socket error before they create a class or write a file: the world is
    as it was when [main] started. *)
Theorem too_few_sockets_changes_nothing
    (h : host) (vm1 vm2 : string) (duration : Z) (w : world) (sockets : option (list Z)) :
  0 < duration ->
  detect_sockets h w = (w, Ok sockets) ->
  (length (default [] sockets) < 2)%nat ->
  (forall full_mask,
      SplitMonitor.read_mask w = (w, Ok full_mask) ->
      SplitMonitor.main h vm1 vm2 duration w = (w, Exit SocketsFailed))
  /\ (forall full_mask width,
         Cos.read_mask w = (w, Ok (full_mask, width)) ->
         Cos.main h vm1 vm2 duration w = (w, Exit SocketsFailed)).
Proof.
  intros Hdur Hsock Hfew.
  assert (Hd : (duration <=? 0) = false) by (apply Z.leb_gt; lia).
  split.
  - intros full_mask Hread. unfold SplitMonitor.main. rewrite Hd.
    cbv [when]. rewrite bind_run. cbv [mret prog_ret].
    cbv beta iota. rewrite bind_run, Hread. cbv beta iota. rewrite bind_run.
    unfold SplitMonitor.write_classes.
    destruct (SplitMonitor.split_mask full_mask) as [mask1 mask2].
    rewrite bind_run, Hsock.
    destruct sockets as [[|s0 [|s1 rest]]|]; try reflexivity.
    simpl in Hfew. lia.
  - intros full_mask width Hread. unfold Cos.main. rewrite Hd.
    cbv [when]. rewrite bind_run. cbv [mret prog_ret].
    cbv beta iota. rewrite bind_run, Hread. cbv beta iota. rewrite bind_run.
    unfold Cos.write_classes.
    destruct (Cos.split_mask full_mask) as [mask1 mask2].
    rewrite bind_run, Hsock.
    destruct sockets as [[|s0 [|s1 rest]]|]; try reflexivity.
    simpl in Hfew. lia.
Qed.

Lemma too_few_sockets_changes_nothing_witness :
  0 < 30
  /\ detect_sockets host_one_socket (world_with_mask "7fff")
     = (world_with_mask "7fff", Ok (Some [0]))
  /\ SplitMonitor.main host_one_socket "vm1" "vm2" 30 (world_with_mask "7fff")
     = (world_with_mask "7fff", Exit SocketsFailed).
Proof.
  assert (Hdur : 0 < 30) by lia.
  split; [exact Hdur|]. split; [reflexivity|].
  refine (proj1 (too_few_sockets_changes_nothing host_one_socket "vm1" "vm2" 30
                   (world_with_mask "7fff") (Some [0]) Hdur eq_refl _) 0x7fff eq_refl).
  simpl. lia.
Defined.

(** X14. split_cache_and_monitor.c looks for the two QEMU processes after
    it has created the classes: when a VM is not found, or both names
    resolve to the same process, [main] ends with that error and leaves
    COS1 and COS2 behind with the schemata it wrote; no pid is assigned
    and nothing is monitored. *)
Theorem unresolved_vms_leave_classes_behind
    (h : host) (vm1 vm2 : string) (duration : Z) (w : world)
    (full_mask : Z) (sock0 sock1 : Z) (more : list Z) :
  0 < duration ->
  SplitMonitor.read_mask w = (w, Ok full_mask) ->
  detect_sockets h w = (w, Ok (Some (sock0 :: sock1 :: more))) ->
  (forall path, io_denied h path = false) ->
  files w !! COS1_DIR = None ->
  files w !! COS2_DIR = None ->
  vm_pid h vm1 <= 0 \/ vm_pid h vm2 <= 0 \/ vm_pid h vm1 = vm_pid h vm2 ->
  exists w' f extra,
    SplitMonitor.main h vm1 vm2 duration w = (w', Exit f)
    /\ (f = NoQemuPid vm1 \/ f = NoQemuPid vm2 \/ f = SamePid (vm_pid h vm1))
    /\ COS1_DIR ∈ dirs w' /\ COS2_DIR ∈ dirs w'
    /\ is_Some (files w' !! COS1_SCHEMATA)
    /\ is_Some (files w' !! COS2_SCHEMATA)
    /\ trace w' = trace w ++ extra
    /\ Forall (fun e => setup_event e = true) extra.
Proof.
  intros Hdur Hread Hsock Hio Hf1 Hf2 Hbad.
  assert (Hd : (duration <=? 0) = false) by (apply Z.leb_gt; lia).
  unfold SplitMonitor.main. rewrite Hd.
  cbv [when]. rewrite bind_run. cbv [mret prog_ret].
  cbv beta iota. rewrite bind_run, Hread. cbv beta iota. rewrite bind_run.
  assert (Hclasses : exists w4 extra,
             SplitMonitor.write_classes h full_mask w = (w4, Ok tt)
             /\ COS1_DIR ∈ dirs w4 /\ COS2_DIR ∈ dirs w4
             /\ is_Some (files w4 !! COS1_SCHEMATA)
             /\ is_Some (files w4 !! COS2_SCHEMATA)
             /\ trace w4 = trace w ++ extra
             /\ Forall (fun e => setup_event e = true) extra).
  { unfold SplitMonitor.write_classes.
    destruct (SplitMonitor.split_mask full_mask) as [mask1 mask2].
    rewrite bind_run, Hsock. cbv beta iota.
    destruct (mkdir_if_missing_ok h COS1_DIR w (Hio _) Hf1)
      as (w1 & Hm1 & Hfiles1 & _ & Hin1 & Hsub1 & extra1 & Htr1 & Hex1).
    rewrite bind_run, Hm1. cbv beta iota. cbv [when negb].
    rewrite bind_run. cbv [mret prog_ret]. cbv beta iota.
    destruct (mkdir_if_missing_ok h COS2_DIR w1 (Hio _)
                ltac:(rewrite Hfiles1; exact Hf2))
      as (w2 & Hm2 & Hfiles2 & _ & Hin2 & Hsub2 & extra2 & Htr2 & Hex2).
    rewrite bind_run, Hm2. cbv beta iota. cbv [when negb].
    rewrite bind_run. cbv [mret prog_ret]. cbv beta iota.
    unfold write_str_to_file. rewrite bind_run, Hio. cbv beta iota.
    rewrite bind_run. cbv beta iota. rewrite Hio.
    eexists _, (extra1 ++ extra2 ++ [_; _]). split; [reflexivity|].
    cbn [files dirs trace log_event set_files].
    split; [apply Hsub2, Hin1|]. split; [exact Hin2|].
    split; [rewrite lookup_insert_ne by discriminate;
            rewrite lookup_insert_eq; eexists; reflexivity|].
    split; [rewrite lookup_insert_eq; eexists; reflexivity|].
    split; [rewrite Htr2, Htr1, <- !app_assoc; reflexivity|].
    apply Forall_app. split; [exact Hex1|]. apply Forall_app. split; [exact Hex2|].
    repeat constructor. }
  destruct Hclasses as (w4 & extra & Hrun & Hc1 & Hc2 & Hs1 & Hs2 & Htr & Hex).
  rewrite Hrun. cbv beta iota. rewrite bind_run.
  assert (Hpids : exists f,
             SplitMonitor.assign_pids h vm1 vm2 w4 = (w4, Exit f)
             /\ (f = NoQemuPid vm1 \/ f = NoQemuPid vm2
                 \/ f = SamePid (vm_pid h vm1))).
  { unfold SplitMonitor.assign_pids, find_vm_pid.
    cbv [mbind prog_bind mret prog_ret when die].
    destruct (Z.leb_spec (vm_pid h vm1) 0) as [H1|H1];
      [eexists; split; [reflexivity | left; reflexivity]|].
    destruct (Z.leb_spec (vm_pid h vm2) 0) as [H2|H2];
      [eexists; split; [reflexivity | right; left; reflexivity]|].
    destruct Hbad as [Hbad|[Hbad|Hbad]]; [lia | lia |].
    rewrite <- Hbad, Z.eqb_refl.
    eexists; split; [reflexivity | right; right; reflexivity]. }
  destruct Hpids as (f & Hassign & Hf). rewrite Hassign.
  exists w4, f, extra. repeat split; assumption.
Qed.

Lemma unresolved_vms_leave_classes_behind_witness :
  0 < 30
  /\ vm_pid host_one_vm "vm1" = vm_pid host_one_vm "vm2"
  /\ exists w',
       SplitMonitor.main host_one_vm "vm1" "vm2" 30 (world_with_mask "7fff")
       = (w', Exit (SamePid 100))
       /\ COS1_DIR ∈ dirs w'.
Proof.
  assert (Hdur : 0 < 30) by lia.
  split; [exact Hdur|]. split; [reflexivity|].
  destruct (unresolved_vms_leave_classes_behind host_one_vm "vm1" "vm2" 30
              (world_with_mask "7fff") 0x7fff 0 1 [] Hdur eq_refl eq_refl
              (fun _ => eq_refl) eq_refl eq_refl (or_intror (or_intror eq_refl)))
    as (w' & f & extra & Hrun & Hf & Hc1 & _).
  exists w'. split; [|exact Hc1].
  rewrite Hrun. f_equal.
  destruct Hf as [-> | [-> | ->]]; [exfalso | exfalso | reflexivity].
  - apply (f_equal snd) in Hrun. vm_compute in Hrun. discriminate Hrun.
  - apply (f_equal snd) in Hrun. vm_compute in Hrun. discriminate Hrun.
Defined.

(** ** The block parser of noisy_detector.sh *)

Lemma after_last_TIME_none log :
  Forall (fun l => String.prefix "TIME" l = false) log ->
  Aggregator.after_last_TIME log = None.
Proof.
  induction 1 as [|l log Hl Hall IH]; [reflexivity|].
  cbn [Aggregator.after_last_TIME]. rewrite IH, Hl. reflexivity.
Qed.

Lemma after_last_TIME_last pre l blk :
  String.prefix "TIME" l = true ->
  Forall (fun x => String.prefix "TIME" x = false) blk ->
  Aggregator.after_last_TIME (pre ++ l :: blk) = Some blk.
Proof.
  intros Hl Hblk. induction pre as [|p pre IH].
  - cbn [app Aggregator.after_last_TIME].
    rewrite (after_last_TIME_none blk Hblk), Hl. reflexivity.
  - cbn [app Aggregator.after_last_TIME]. rewrite IH. reflexivity.
Qed.

(** X15. The block parser reads the last block of a pqos log only: the
    lines up to and including the last line that starts with TIME never
    influence the three values handed to bash, whatever they hold; a log
    without such a line is read as a whole. *)
Theorem parse_log_reads_last_block_only (pre : list string) (l : string)
    (blk : list string) :
  String.prefix "TIME" l = true ->
  Forall (fun x => String.prefix "TIME" x = false) blk ->
  Aggregator.last_block (pre ++ l :: blk) = blk
  /\ (forall pre' l',
         String.prefix "TIME" l' = true ->
         Aggregator.parse_log (pre' ++ l' :: blk)
         = Aggregator.parse_log (pre ++ l :: blk))
  /\ Aggregator.last_block blk = blk.
Proof.
  intros Hl Hblk.
  assert (Hlast : forall p x, String.prefix "TIME" x = true ->
                              Aggregator.last_block (p ++ x :: blk) = blk).
  { intros p x Hx. unfold Aggregator.last_block.
    rewrite (after_last_TIME_last p x blk Hx Hblk). reflexivity. }
  split; [apply Hlast, Hl|]. split.
  - intros pre' l' Hl'. unfold Aggregator.parse_log.
    rewrite (Hlast pre' l' Hl'), (Hlast pre l Hl). reflexivity.
  - unfold Aggregator.last_block. rewrite (after_last_TIME_none blk Hblk).
    reflexivity.
Qed.

Lemma parse_log_reads_last_block_only_witness :
  String.prefix "TIME" "TIME 2024-05-01 10:00:02" = true
  /\ Aggregator.last_block two_block_log = drop 4 two_block_log
  /\ Aggregator.parse_log two_block_log = (15000, 900, 7).
Proof.
  split; [reflexivity|].
  split; [|reflexivity].
  refine (proj1 (parse_log_reads_last_block_only (take 3 two_block_log)
                   "TIME 2024-05-01 10:00:02" (drop 4 two_block_log) eq_refl _)).
  repeat constructor.
Defined.

Lemma block_rule_skips blk :
  forall acc,
    fold_left Aggregator.block_rule blk acc
    = fold_left Aggregator.block_rule (List.filter Awk.data_line blk) acc.
Proof.
  induction blk as [|l blk IH]; intros acc; [reflexivity|].
  cbn [fold_left List.filter]. destruct (Awk.data_line l) eqn:Hl.
  - cbn [fold_left]. apply IH.
  - rewrite <- IH. unfold Aggregator.block_rule at 2. rewrite Hl. reflexivity.
Qed.

(** X16. Only the lines that begin, after blanks, with a digit count: the
    parser gives the same three values for a log and for the log without
    its other lines, and a log whose last block has no such line, the
    empty log of a failed pqos run among them, gives 0 0 0. *)
Theorem parse_log_counts_data_lines_only (log : list string) :
  Aggregator.parse_log log
  = Aggregator.parse_log (List.filter Awk.data_line (Aggregator.last_block log))
  /\ (Forall (fun l => Awk.data_line l = false) (Aggregator.last_block log) ->
      Aggregator.parse_log log = (0, 0, 0)).
Proof.
  assert (Hdata : forall l, Awk.data_line l = true -> String.prefix "TIME" l = false).
  { intros l Hl. unfold Awk.data_line in Hl.
    destruct l as [|c r]; [reflexivity|].
    destruct (is_space c) eqn:Hsp.
    - destruct c as [[|] [|] [|] [|] [|] [|] [|] [|]]; try reflexivity;
        discriminate Hsp.
    - simpl in Hl. rewrite Hsp in Hl.
      destruct c as [[|] [|] [|] [|] [|] [|] [|] [|]]; try reflexivity;
        discriminate Hl. }
  assert (Hkeep : Aggregator.last_block
                    (List.filter Awk.data_line (Aggregator.last_block log))
                  = List.filter Awk.data_line (Aggregator.last_block log)).
  { unfold Aggregator.last_block at 1. rewrite after_last_TIME_none; [reflexivity|].
    apply Forall_forall. intros l Hin. apply list_elem_of_In, filter_In in Hin as [_ Hl].
    apply Hdata, Hl. }
  split.
  - unfold Aggregator.parse_log. rewrite Hkeep.
    rewrite (block_rule_skips (Aggregator.last_block log)). reflexivity.
  - intros Hnone. unfold Aggregator.parse_log. rewrite block_rule_skips.
    replace (List.filter Awk.data_line (Aggregator.last_block log)) with (@nil string).
    + reflexivity.
    + symmetry. clear Hkeep. induction Hnone as [|x l Hx Hall IH]; [reflexivity|].
      cbn [List.filter]. rewrite Hx. exact IH.
Qed.

(** ** The shares of a tick *)


Lemma Qsum_plus {A} (f g : A -> Q) l :
  (Qsum (map (fun x => f x + g x) l) == Qsum (map f l) + Qsum (map g l))%Q.
Proof.
  unfold Qsum. induction l as [|x l IH]; [reflexivity|].
  cbn [map fold_right]. rewrite IH. ring.
Qed.




(** ** The pointer chain *)

Section ChainProofs.
Variable rand_r : Z -> Z * Z.

Lemma swap_perm idx i j : Chase.swap idx i j ≡ₚ idx.
Proof.
  unfold Chase.swap. destruct (idx !! i) as [a|] eqn:Hi; [|reflexivity].
  destruct (idx !! j) as [b|] eqn:Hj; [|reflexivity].
  apply Permutation_insert_swap; assumption.
Qed.

Lemma shuffle_loop_perm i :
  forall idx seed, Chase.shuffle_loop rand_r i idx seed ≡ₚ idx.
Proof.
  induction i as [|i IH]; intros idx seed; [reflexivity|].
  cbn [Chase.shuffle_loop]. destruct (rand_r seed) as [r seed'].
  cbv zeta. rewrite IH. apply swap_perm.
Qed.

(** X19. [shuffle] rearranges: for every array of [n >= 1] entries, every
    seed and whatever [rand_r] returns, the shuffled array holds the
    entries of the array it was given, each as often as before. *)
Theorem shuffle_is_a_permutation (idx : list nat) (n : nat) (seed : Z) :
  (1 <= n)%nat ->
  length idx = n ->
  exists idx',
    Chase.shuffle rand_r idx n seed = Some idx'
    /\ idx' ≡ₚ idx
    /\ length idx' = length idx.
Proof.
  intros Hn _. destruct n as [|m]; [lia|].
  eexists. split; [reflexivity|].
  pose proof (shuffle_loop_perm m idx seed) as Hp.
  split; [exact Hp | apply Permutation_length, Hp].
Qed.

Section Linked.
Variables (sigma : list nat) (n : nat).
Hypothesis sigma_nodup : NoDup sigma.
Hypothesis sigma_length : length sigma = n.
Hypothesis sigma_range : forall x, x ∈ sigma -> (x < n)%nat.

Lemma link_spec k :
  forall i chain,
    (S (i + k) <= n)%nat -> length chain = n ->
    let chain' := Chase.link k i sigma chain in
    length chain' = n
    /\ (forall t a b, (i <= t < i + k)%nat ->
                      sigma !! t = Some a -> sigma !! S t = Some b ->
                      chain' !! a = Some (Some b))
    /\ (forall p, (forall t, (i <= t < i + k)%nat -> sigma !! t <> Some p) ->
                  chain' !! p = chain !! p).
Proof.
  induction k as [|k IH]; intros i chain Hik Hlen; cbv zeta.
  - cbn [Chase.link]. split; [exact Hlen|]. split; [intros; lia | reflexivity].
  - cbn [Chase.link].
    destruct (lookup_lt_is_Some_2 sigma i ltac:(lia)) as [a Ha].
    destruct (lookup_lt_is_Some_2 sigma (S i) ltac:(lia)) as [b Hb].
    rewrite Ha, Hb.
    assert (Ha_lt : (a < n)%nat) by (apply sigma_range; eapply list_elem_of_lookup_2; eauto).
    destruct (IH (S i) (<[a := Some b]> chain) ltac:(lia)
                ltac:(rewrite length_insert; exact Hlen))
      as (Hlen' & Hlinked & Hother).
    split; [exact Hlen'|]. split.
    + intros t a' b' Ht Hta Htb.
      destruct (Nat.eq_dec t i) as [->|Hne].
      * rewrite Ha in Hta. rewrite Hb in Htb. injection Hta as <-. injection Htb as <-.
        rewrite Hother.
        -- apply list_lookup_insert_eq. lia.
        -- intros t Ht' Hta. pose proof (NoDup_lookup _ _ _ _ sigma_nodup Ha Hta). lia.
      * apply (Hlinked t); [lia | assumption | assumption].
    + intros p Hp. rewrite Hother by (intros t Ht; apply Hp; lia).
      apply list_lookup_insert_ne. intros ->. apply (Hp i); [lia | exact Ha].
Qed.

(** The chain once the cycle is closed. *)
Lemma closed_chain_next m a0 am :
  n = S m ->
  sigma !! 0%nat = Some a0 -> sigma !! m = Some am ->
  let chain := <[am := Some a0]>
                 (Chase.link m 0 sigma (replicate n None)) in
  forall t a b,
    (t < n)%nat -> sigma !! t = Some a -> sigma !! (S t mod n)%nat = Some b ->
    chain !! a = Some (Some b).
Proof.
  intros Hn H0 Hm chain t a b Ht Ha Hb.
  destruct (link_spec m 0 (replicate n None) ltac:(lia) (length_replicate _ _))
    as (Hlen & Hlinked & _).
  unfold chain. destruct (Nat.eq_dec t m) as [->|Hne].
  - rewrite Hm in Ha. injection Ha as <-.
    replace (S m mod n)%nat with 0%nat in Hb by (rewrite <- Hn, Nat.Div0.mod_same; reflexivity).
    rewrite H0 in Hb. injection Hb as <-.
    apply list_lookup_insert_eq. rewrite Hlen.
    apply sigma_range. eapply list_elem_of_lookup_2; eauto.
  - rewrite Nat.mod_small in Hb by lia.
    rewrite list_lookup_insert_ne.
    + apply (Hlinked t); [lia | assumption | assumption].
    + intros <-. pose proof (NoDup_lookup _ _ _ _ sigma_nodup Ha Hm). lia.
Qed.

Lemma chase_along m a0 am :
  n = S m ->
  sigma !! 0%nat = Some a0 -> sigma !! m = Some am ->
  let chain := <[am := Some a0]>
                 (Chase.link m 0 sigma (replicate n None)) in
  forall k t a,
    (t < n)%nat -> sigma !! t = Some a ->
    Chase.chase chain k a = sigma !! ((t + k) mod n)%nat.
Proof.
  intros Hn H0 Hm chain k. induction k as [|k IH]; intros t a Ht Ha.
  - cbn [Chase.chase]. rewrite Nat.add_0_r, Nat.mod_small by lia. symmetry. exact Ha.
  - cbn [Chase.chase].
    assert (Hnext : (S t mod n < n)%nat) by (apply Nat.mod_upper_bound; lia).
    destruct (lookup_lt_is_Some_2 sigma (S t mod n) ltac:(lia)) as [b Hb].
    pose proof (closed_chain_next m a0 am Hn H0 Hm t a b Ht Ha Hb) as Hstep.
    cbv zeta in Hstep. fold chain in Hstep. rewrite Hstep.
    rewrite (IH (S t mod n)%nat b Hnext Hb).
    f_equal. rewrite Nat.Div0.add_mod_idemp_l. f_equal. lia.
Qed.

End Linked.

(** X20. [build_chain] links the cells into one cycle through all of
    them: for every number of cells [nodes >= 1], every seed and whatever
    [rand_r] returns, every cell is written, the worker that starts at
    cell 0 reaches every cell within [nodes - 1] steps, visits no cell
    twice before, and is back at cell 0 after exactly [nodes] steps. *)
Theorem build_chain_is_one_cycle (nodes : nat) (seed : Z) :
  (1 <= nodes)%nat ->
  exists chain,
    Chase.build_chain rand_r nodes seed = Some chain
    /\ length chain = nodes
    /\ (forall p, (p < nodes)%nat ->
                  exists q, chain !! p = Some (Some q) /\ (q < nodes)%nat)
    /\ (forall p, (p < nodes)%nat ->
                  exists k, (k < nodes)%nat /\ Chase.chase chain k 0 = Some p)
    /\ (forall j k, (j < k < nodes)%nat ->
                    Chase.chase chain j 0 <> Chase.chase chain k 0)
    /\ Chase.chase chain nodes 0 = Some 0%nat.
Proof.
  intros Hn. destruct nodes as [|m]; [lia|].
  set (sigma := Chase.shuffle_loop rand_r m (seq 0 (S m)) seed).
  assert (Hbuild : Chase.build_chain rand_r (S m) seed
                   = match sigma !! m, sigma !! 0%nat with
                     | Some a, Some b =>
                         Some (<[a := Some b]>
                                 (Chase.link m 0 sigma (replicate (S m) None)))
                     | _, _ => None
                     end).
  { unfold Chase.build_chain. cbn [Chase.shuffle].
    rewrite Nat.sub_succ, Nat.sub_0_r. reflexivity. }
  rewrite Hbuild. clear Hbuild. remember (S m) as n eqn:En.
  assert (Hperm : sigma ≡ₚ seq 0 n) by apply shuffle_loop_perm.
  assert (Hnd : NoDup sigma) by (rewrite Hperm; apply NoDup_seq).
  assert (Hlen : length sigma = n)
    by (rewrite (Permutation_length Hperm); apply length_seq).
  assert (Hrange : forall x, x ∈ sigma -> (x < n)%nat).
  { intros x Hx. rewrite Hperm in Hx. apply elem_of_seq in Hx. lia. }
  destruct (lookup_lt_is_Some_2 sigma m ltac:(lia)) as [am Hm].
  destruct (lookup_lt_is_Some_2 sigma 0 ltac:(lia)) as [a0 H0].
  rewrite Hm, H0. eexists. split; [reflexivity|].
  pose proof (chase_along sigma n Hnd Hlen Hrange m a0 am En H0 Hm) as Hchase.
  pose proof (closed_chain_next sigma n Hnd Hlen Hrange m a0 am En H0 Hm) as Hnext.
  cbv zeta in Hchase, Hnext.
  set (chain := <[am := Some a0]> (Chase.link m 0 sigma (replicate n None))) in *.
  assert (Hat : forall p, (p < n)%nat -> exists t, (t < n)%nat /\ sigma !! t = Some p).
  { intros p Hp. assert (Hin : p ∈ sigma) by (rewrite Hperm; apply elem_of_seq; lia).
    apply list_elem_of_lookup_1 in Hin as [t Ht]. exists t. split; [|exact Ht].
    rewrite <- Hlen. eapply lookup_lt_Some, Ht. }
  destruct (Hat 0%nat ltac:(lia)) as (t0 & Ht0 & Hs0).
  split.
  { unfold chain. rewrite length_insert.
    destruct (link_spec sigma n Hnd Hlen Hrange m 0 (replicate n None)
                ltac:(lia) (length_replicate _ _)) as (Hl & _). exact Hl. }
  split.
  { intros p Hp. destruct (Hat p Hp) as (t & Ht & Hs).
    assert (Hnx : (S t mod n < n)%nat) by (apply Nat.mod_upper_bound; lia).
    destruct (lookup_lt_is_Some_2 sigma (S t mod n) ltac:(lia)) as [q Hq].
    exists q. split; [exact (Hnext t p q Ht Hs Hq)|].
    apply Hrange. eapply list_elem_of_lookup_2, Hq. }
  split.
  { intros p Hp. destruct (Hat p Hp) as (t & Ht & Hs).
    exists ((t + n - t0) mod n)%nat. split; [apply Nat.mod_upper_bound; lia|].
    rewrite (Hchase _ t0 0%nat Ht0 Hs0), Nat.Div0.add_mod_idemp_r.
    replace (t0 + (t + n - t0))%nat with (t + 1 * n)%nat by lia.
    rewrite Nat.Div0.mod_add, Nat.mod_small by lia. exact Hs. }
  split.
  { intros j k Hjk. rewrite !(Hchase _ t0 0%nat Ht0 Hs0). intros Heq.
    assert (Hj : ((t0 + j) mod n < n)%nat) by (apply Nat.mod_upper_bound; lia).
    destruct (lookup_lt_is_Some_2 sigma ((t0 + j) mod n) ltac:(lia)) as [x Hx].
    rewrite Hx in Heq. symmetry in Heq.
    pose proof (NoDup_lookup _ _ _ _ Hnd Hx Heq) as Hmod.
    assert (Hcases : ((t0 + j) mod n = t0 + j
                      \/ (n <= t0 + j /\ (t0 + j) mod n = t0 + j - n))%nat).
    { destruct (Nat.lt_ge_cases (t0 + j) n) as [Hlt|Hge].
      - left. apply Nat.mod_small. exact Hlt.
      - right. split; [exact Hge|]. replace (t0 + j)%nat with ((t0 + j - n) + 1 * n)%nat at 1 by lia.
        rewrite Nat.Div0.mod_add. apply Nat.mod_small. lia. }
    assert (Hcases' : ((t0 + k) mod n = t0 + k
                       \/ (n <= t0 + k /\ (t0 + k) mod n = t0 + k - n))%nat).
    { destruct (Nat.lt_ge_cases (t0 + k) n) as [Hlt|Hge].
      - left. apply Nat.mod_small. exact Hlt.
      - right. split; [exact Hge|]. replace (t0 + k)%nat with ((t0 + k - n) + 1 * n)%nat at 1 by lia.
        rewrite Nat.Div0.mod_add. apply Nat.mod_small. lia. }
    pose proof (Nat.mod_upper_bound (t0 + k) n ltac:(lia)).
    lia. }
  rewrite (Hchase _ t0 0%nat Ht0 Hs0).
  replace (t0 + n)%nat with (t0 + 1 * n)%nat by lia.
  rewrite Nat.Div0.mod_add, Nat.mod_small by lia. exact Hs0.
Qed.

Lemma lookups_of_all {A} (l : list A) :
  forall f : A -> Z,
    map (fun i => f <$> l !! i) (seq 0 (length l)) = map (fun x => Some (f x)) l.
Proof.
  intros f. induction l as [|x l IH]; [reflexivity|].
  cbn [length seq map]. f_equal. rewrite <- seq_shift, map_map. exact IH.
Qed.

(** X25. The sweep of victim.c touches every cache line of its buffer
    once: for every number of lines [nodes >= 1], every seed and whatever
    [rand_r] returns, the pointers that [build_chain] stores are the
    offsets [0, 64, ..., 64 * (nodes - 1)] of the buffer in some order,
    each exactly once, so all of them lie inside the buffer. *)
Theorem sweep_touches_every_line_once (nodes : nat) (seed : Z) :
  (1 <= nodes)%nat ->
  exists chain,
    Chase.build_offsets rand_r nodes seed = Some chain
    /\ length chain = nodes
    /\ chain ≡ₚ map (fun k => Some (Z.of_nat k * Chase.STRIDE)) (seq 0 nodes)
    /\ NoDup chain
    /\ (forall p, p ∈ chain ->
          exists off, p = Some off /\ 0 <= off < Z.of_nat nodes * Chase.STRIDE
                      /\ off mod Chase.STRIDE = 0).
Proof.
  intros Hn. unfold Chase.build_offsets. destruct nodes as [|m]; [lia|].
  cbn [Chase.shuffle].
  pose proof (shuffle_loop_perm m (seq 0 (S m)) seed) as Hp.
  set (idx := Chase.shuffle_loop rand_r m (seq 0 (S m)) seed) in *.
  assert (Hlen : length idx = S m)
    by (rewrite (Permutation_length Hp); apply length_seq).
  eexists. split; [reflexivity|].
  replace (Chase.fill idx (S m))
    with (map (fun x => Some (Z.of_nat x * Chase.STRIDE)) idx)
    by (unfold Chase.fill; rewrite <- Hlen; symmetry; apply lookups_of_all).
  assert (Hperm : map (fun x => Some (Z.of_nat x * Chase.STRIDE)) idx
                  ≡ₚ map (fun k => Some (Z.of_nat k * Chase.STRIDE)) (seq 0 (S m)))
    by (apply Permutation_map, Hp).
  split; [rewrite length_map; exact Hlen|]. split; [exact Hperm|].
  split.
  - rewrite Hperm. apply NoDup_fmap_2; [|apply NoDup_seq].
    intros a b Hab. injection Hab as Hab. unfold Chase.STRIDE in Hab. lia.
  - intros p Hp'. rewrite Hperm in Hp'.
    apply list_elem_of_In, in_map_iff in Hp' as (k & <- & Hk).
    apply in_seq in Hk. eexists. split; [reflexivity|].
    unfold Chase.STRIDE. split; [lia|]. apply Z.mod_mul. lia.
Qed.

End ChainProofs.

Lemma shuffle_is_a_permutation_witness :
  (1 <= 8)%nat
  /\ Chase.shuffle lcg (seq 0 8) 8 42 = Some [2; 4; 6; 7; 1; 5; 0; 3]%nat
  /\ exists idx',
       Chase.shuffle lcg (seq 0 8) 8 42 = Some idx' /\ idx' ≡ₚ seq 0 8.
Proof.
  assert (Hn : (1 <= 8)%nat) by lia. split; [exact Hn|].
  split; [vm_compute; reflexivity|].
  destruct (shuffle_is_a_permutation lcg (seq 0 8) 8 42 Hn eq_refl)
    as (idx' & Hrun & Hperm & _).
  exists idx'. split; [exact Hrun | exact Hperm].
Defined.

Lemma build_chain_is_one_cycle_witness :
  (1 <= 8)%nat
  /\ Chase.build_chain lcg 8 42
     = Some [Some 3; Some 5; Some 4; Some 2; Some 6; Some 0; Some 7; Some 1]%nat
  /\ exists chain,
       Chase.build_chain lcg 8 42 = Some chain
       /\ Chase.chase chain 8 0 = Some 0%nat.
Proof.
  assert (Hn : (1 <= 8)%nat) by lia. split; [exact Hn|].
  split; [vm_compute; reflexivity|].
  destruct (build_chain_is_one_cycle lcg 8 42 Hn)
    as (chain & Hrun & _ & _ & _ & _ & Hback).
  exists chain. split; [exact Hrun | exact Hback].
Defined.

Lemma sweep_touches_every_line_once_witness :
  (1 <= 8)%nat
  /\ exists chain,
       Chase.build_offsets lcg 8 42 = Some chain
       /\ chain ≡ₚ map (fun k => Some (Z.of_nat k * Chase.STRIDE)) (seq 0 8).
Proof.
  assert (Hn : (1 <= 8)%nat) by lia. split; [exact Hn|].
  destruct (sweep_touches_every_line_once lcg 8 42 Hn)
    as (chain & Hrun & _ & Hperm & _).
  exists chain. split; [exact Hrun | exact Hperm].
Defined.

(** ** The per-core scorer: suffixes of the MISSES column *)

Lemma gsub_suffix_miss c repl s a :
  Ascii.eqb a c = false ->
  Awk.gsub_suffix c repl (s +:+ String a EmptyString) = s +:+ String a EmptyString.
Proof.
  intros Ha. induction s as [|b s IH].
  - simpl. rewrite Ha. reflexivity.
  - rewrite !str_app_cons. cbn [Awk.gsub_suffix]. rewrite IH.
    destruct s; reflexivity.
Qed.

Lemma strtonum_zeros d zeros :
  digits_only d = true -> all_digits zeros = true -> dec_value zeros = 0 ->
  (Awk.strtonum (d +:+ zeros)
   == inject_Z (dec_value d * 10 ^ Z.of_nat (String.length zeros)))%Q.
Proof.
  intros Hd Hz Hv.
  rewrite strtonum_digits by (apply digits_only_app_l; assumption).
  rewrite dec_value_app, Hv, Z.add_0_r. reflexivity.
Qed.

(** X21. The per-core scorer expands all four scaling suffixes of the
    MISSES column: digits followed by [k] or [K] are read as 1000 times
    their value, digits followed by [m] or [M] as 1000000 times their
    value, and digits alone as their plain value. *)
Theorem expand_mis_four_suffixes (d : string) :
  digits_only d = true ->
  (CoreScript.expand_mis (d +:+ "k") == inject_Z (dec_value d * 1000))%Q
  /\ (CoreScript.expand_mis (d +:+ "K") == inject_Z (dec_value d * 1000))%Q
  /\ (CoreScript.expand_mis (d +:+ "m") == inject_Z (dec_value d * 1000000))%Q
  /\ (CoreScript.expand_mis (d +:+ "M") == inject_Z (dec_value d * 1000000))%Q
  /\ (CoreScript.expand_mis d == inject_Z (dec_value d))%Q.
Proof.
  intros Hd. pose proof (digits_only_all d Hd) as Hall.
  assert (Hz3 : all_digits (d +:+ "000") = true)
    by (rewrite all_digits_app, Hall; reflexivity).
  assert (Hz6 : all_digits (d +:+ "000000") = true)
    by (rewrite all_digits_app, Hall; reflexivity).
  unfold CoreScript.expand_mis. repeat split.
  - rewrite gsub_suffix_hit.
    rewrite !(gsub_suffix_digits _ _ (d +:+ "000")) by (reflexivity || exact Hz3).
    apply (strtonum_zeros d "000"); [assumption | reflexivity | reflexivity].
  - rewrite !(gsub_suffix_miss _ _ d "K") by reflexivity.
    rewrite gsub_suffix_hit.
    rewrite !(gsub_suffix_digits _ _ (d +:+ "000")) by (reflexivity || exact Hz3).
    apply (strtonum_zeros d "000"); [assumption | reflexivity | reflexivity].
  - rewrite !(gsub_suffix_miss _ _ d "m") by reflexivity.
    rewrite gsub_suffix_hit.
    rewrite !(gsub_suffix_digits _ _ (d +:+ "000000")) by (reflexivity || exact Hz6).
    apply (strtonum_zeros d "000000"); [assumption | reflexivity | reflexivity].
  - rewrite !(gsub_suffix_miss _ _ d "M") by reflexivity.
    rewrite gsub_suffix_hit.
    apply (strtonum_zeros d "000000"); [assumption | reflexivity | reflexivity].
  - rewrite !(gsub_suffix_digits _ _ d) by (reflexivity || exact Hall).
    apply strtonum_digits, Hd.
Qed.

Lemma expand_mis_four_suffixes_witness :
  digits_only "12" = true
  /\ (CoreScript.expand_mis ("12" +:+ "K") == inject_Z (dec_value "12" * 1000))%Q.
Proof.
  split; [reflexivity|].
  exact (proj1 (proj2 (expand_mis_four_suffixes "12" eq_refl))).
Defined.

(** ** The per-core scorer: the block arrays *)

Lemma index_digits i :
  digits_only (CoreScript.index (Some i)) = true
  /\ dec_value (CoreScript.index (Some i)) = Z.of_nat i.
Proof.
  unfold CoreScript.index, dec_of_Z.
  replace (Z.of_nat i <? 0) with false by (symmetry; apply Z.ltb_ge; lia).
  apply dec_of_nonneg_spec. lia.
Qed.

Lemma index_set_not_unset i : CoreScript.index None <> CoreScript.index (Some i).
Proof.
  intros H. destruct (index_digits i) as [Hd _]. rewrite <- H in Hd.
  discriminate.
Qed.

Lemma index_inj i j :
  CoreScript.index (Some i) = CoreScript.index (Some j) -> i = j.
Proof.
  intros H. destruct (index_digits i) as [_ Hi], (index_digits j) as [_ Hj].
  rewrite H in Hi. lia.
Qed.

Lemma blank_is_space c : Awk.is_blank c = true -> is_space c = true.
Proof.
  unfold Awk.is_blank, is_space. intros H.
  apply orb_true_iff in H as [H|H]; [apply orb_true_iff in H as [H|H]|];
    apply Z.eqb_eq in H; rewrite H; reflexivity.
Qed.

Lemma fields_from_some s w :
  exists x rest, Awk.fields_from s (Some w) = (w +:+ x) :: rest.
Proof.
  revert w. induction s as [|c s IH]; intros w.
  - exists EmptyString, []. simpl. rewrite str_app_nil_r. reflexivity.
  - cbn [Awk.fields_from]. destruct (Awk.is_blank c).
    + exists EmptyString, (Awk.fields_from s None). rewrite str_app_nil_r.
      reflexivity.
    + destruct (IH (default EmptyString (Some w) +:+ String c EmptyString))
        as (x & rest & Heq).
      exists (String c x), rest. rewrite Heq. cbn [default].
      rewrite str_app_assoc. reflexivity.
Qed.

(** A data line is no TIME line: its first field starts with a digit or
    with a control character. *)
Lemma data_line_not_time line :
  CoreScript.data_line line = true -> time_line line = false.
Proof.
  unfold time_line, Awk.fields. induction line as [|c r IH]; [discriminate|].
  intros Hd. cbn [Awk.fields_from].
  destruct (Awk.is_blank c) eqn:Hb.
  - apply IH. unfold CoreScript.data_line in *. cbn [skip_space] in Hd.
    rewrite (blank_is_space c Hb) in Hd. exact Hd.
  - destruct (fields_from_some r (default EmptyString None +:+ String c EmptyString))
      as (x & rest & Heq).
    rewrite Heq. cbn [default Awk.field Nat.sub nth].
    rewrite str_app_nil_l, str_app_cons, str_app_nil_l.
    destruct (Ascii.eqb_spec c "T") as [->|Hne].
    + discriminate Hd.
    + cbn [String.eqb]. apply Ascii.eqb_neq in Hne. rewrite Hne. reflexivity.
Qed.

Section CoreScriptRun.
Variable core2proc : gmap string string.
Variable K : Q.
Variable for_in : gset string -> list string.

Lemma rules_data st line :
  CoreScript.data_line line = true ->
  CoreScript.rules core2proc K for_in st line
  = Some {| CoreScript.time := CoreScript.time st;
            CoreScript.have_block := true;
            CoreScript.idx := Some (S (default 0%nat (CoreScript.idx st)));
            CoreScript.rows :=
              <[CoreScript.index (CoreScript.idx st) := CoreScript.read_row core2proc line]>
                (CoreScript.rows st);
            CoreScript.OUT := CoreScript.OUT st;
            CoreScript.VER := CoreScript.VER st |}.
Proof.
  intros Hd. unfold CoreScript.rules.
  pose proof (data_line_not_time line Hd) as Ht. unfold time_line in Ht.
  rewrite Ht, Hd. reflexivity.
Qed.

(** The data rule on a run of data lines, once [idx] holds a number. *)
Lemma store_rows ls :
  forall st n,
    CoreScript.idx st = Some n ->
    Forall (fun l => CoreScript.data_line l = true) ls ->
    exists st',
      CoreScript.run_rules core2proc K for_in st ls = Some st'
      /\ CoreScript.time st' = CoreScript.time st
      /\ CoreScript.OUT st' = CoreScript.OUT st
      /\ CoreScript.VER st' = CoreScript.VER st
      /\ CoreScript.idx st' = Some (n + length ls)%nat
      /\ (ls <> [] \/ CoreScript.have_block st = true ->
          CoreScript.have_block st' = true)
      /\ (forall j l, ls !! j = Some l ->
            CoreScript.rows st' !! CoreScript.index (Some (n + j)%nat)
            = Some (CoreScript.read_row core2proc l))
      /\ (forall k, (forall j, (j < length ls)%nat ->
                       k <> CoreScript.index (Some (n + j)%nat)) ->
            CoreScript.rows st' !! k = CoreScript.rows st !! k).
Proof.
  induction ls as [|l ls IH]; intros st n Hidx Hall.
  - exists st. cbn [length]. rewrite Nat.add_0_r.
    repeat split; try reflexivity; try assumption; auto.
    + intros [H|H]; [congruence | exact H].
    + intros j l Hl. rewrite lookup_nil in Hl. discriminate.
  - apply Forall_cons in Hall as [Hl Hall].
    cbn [CoreScript.run_rules]. rewrite (rules_data st l Hl). cbn [mbind option_bind].
    rewrite Hidx. cbn [default CoreScript.index].
    match goal with
    | |- context [CoreScript.run_rules _ _ _ ?s ls] => set (st1 := s)
    end.
    destruct (IH st1 (S n) eq_refl Hall)
      as (st' & Hrun & Ht & Ho & Hv & Hi & Hb & Hin & Hout).
    exists st'. rewrite Hrun.
    split; [reflexivity|]. split; [exact Ht|]. split; [exact Ho|].
    split; [exact Hv|].
    split; [rewrite Hi; f_equal; cbn [length]; lia|].
    split; [intros _; apply Hb; right; reflexivity|].
    split.
    + intros [|j] x Hx.
      * cbn in Hx. injection Hx as <-. rewrite Hout.
        -- subst st1. cbn [CoreScript.rows]. rewrite Nat.add_0_r.
           apply lookup_insert_eq.
        -- intros j Hj Heq. apply index_inj in Heq. lia.
      * cbn in Hx. replace (n + S j)%nat with (S n + j)%nat by lia.
        apply Hin, Hx.
    + intros k Hk. rewrite Hout.
      * subst st1. cbn [CoreScript.rows]. apply lookup_insert_ne.
        intros Heq. apply (Hk 0%nat); [cbn [length]; lia|].
        rewrite Nat.add_0_r. symmetry. exact Heq.
      * intros j Hj. replace (S n + j)%nat with (n + S j)%nat by lia.
        apply Hk. cbn [length]. lia.
Qed.

Lemma map_seq_lookup {A B} (f : nat -> B) (g : A -> B) (ls : list A) :
  forall n, (forall j l, ls !! j = Some l -> f (n + j)%nat = g l) ->
    map f (seq n (length ls)) = map g ls.
Proof.
  induction ls as [|l ls IH]; intros n H; [reflexivity|].
  cbn [length seq map]. f_equal.
  - rewrite <- (H 0%nat l eq_refl). f_equal. lia.
  - apply IH. intros j x Hx. replace (S n + j)%nat with (n + S j)%nat by lia.
    apply H. exact Hx.
Qed.

(** The data rule on the data lines of a block: with [idx] unset, as it
    is until the first [reset_block], the first line is stored under the
    empty subscript and an unset row is read in its place; with [idx = 0]
    every line is read. *)
Lemma data_lines_stored (st : CoreScript.state)
    (l : string) (ls : list string) :
  Forall (fun x => CoreScript.data_line x = true) (l :: ls) ->
  CoreScript.rows st = ∅ ->
  exists st',
    CoreScript.run_rules core2proc K for_in st (l :: ls) = Some st'
    /\ CoreScript.have_block st' = true
    /\ CoreScript.time st' = CoreScript.time st
    /\ CoreScript.OUT st' = CoreScript.OUT st
    /\ CoreScript.VER st' = CoreScript.VER st
    /\ (CoreScript.idx st = None ->
        CoreScript.block st'
        = CoreScript.unset_row :: map (CoreScript.read_row core2proc) ls)
    /\ (CoreScript.idx st = Some 0%nat ->
        CoreScript.block st' = map (CoreScript.read_row core2proc) (l :: ls)).
Proof.
  intros Hall Hrows. pose proof Hall as Hall'.
  apply Forall_cons in Hall' as [Hl Hls].
  destruct (CoreScript.idx st) as [n|] eqn:Hidx.
  - destruct (store_rows (l :: ls) st n Hidx Hall)
      as (st' & Hrun & Ht & Ho & Hv & Hi & Hb & Hin & _).
    exists st'. split; [exact Hrun|].
    split; [apply Hb; left; discriminate|].
    split; [exact Ht|]. split; [exact Ho|]. split; [exact Hv|].
    split; [discriminate|].
    intros Hn. injection Hn as ->. unfold CoreScript.block. rewrite Hi.
    cbn [default]. unfold id. rewrite Nat.add_0_l.
    apply map_seq_lookup. intros j x Hx. rewrite (Hin j x Hx). reflexivity.
  - cbn [CoreScript.run_rules]. rewrite (rules_data st l Hl). cbn [mbind option_bind].
    rewrite Hidx, Hrows. cbn [default].
    match goal with
    | |- context [CoreScript.run_rules _ _ _ ?s ls] => set (st1 := s)
    end.
    destruct (store_rows ls st1 1%nat eq_refl Hls)
      as (st' & Hrun & Ht & Ho & Hv & Hi & Hb & Hin & Hout).
    exists st'. split; [exact Hrun|].
    split; [apply Hb; right; reflexivity|].
    split; [exact Ht|]. split; [exact Ho|]. split; [exact Hv|].
    split; [|discriminate].
    intros _. unfold CoreScript.block. rewrite Hi. cbn [default]. unfold id.
    cbn [Nat.add seq map]. f_equal.
    + rewrite Hout.
      * subst st1. cbn [CoreScript.rows].
        rewrite lookup_insert_ne by apply index_set_not_unset.
        rewrite lookup_empty. reflexivity.
      * intros j _ Heq. apply index_inj in Heq. lia.
    + apply map_seq_lookup. intros j x Hx. rewrite (Hin j x Hx). reflexivity.
Qed.

(** X22. The first data line of a log is never scored. [idx] is first
    assigned by [reset_block], so the first data line is stored under the
    empty subscript and the flush of the first block reads an unset row (a
    process with the empty name and zero counts) in its place, followed by
    the other rows in order; after a [reset_block] the flush reads every
    row of the block. *)
Theorem first_data_line_is_never_scored (st : CoreScript.state)
    (l : string) (ls : list string) :
  Forall (fun x => CoreScript.data_line x = true) (l :: ls) ->
  CoreScript.rows st = ∅ ->
  exists st',
    CoreScript.run_rules core2proc K for_in st (l :: ls) = Some st'
    /\ CoreScript.have_block st' = true
    /\ CoreScript.time st' = CoreScript.time st
    /\ CoreScript.OUT st' = CoreScript.OUT st
    /\ CoreScript.VER st' = CoreScript.VER st
    /\ (CoreScript.idx st = None ->
        CoreScript.block st'
        = CoreScript.unset_row :: map (CoreScript.read_row core2proc) ls)
    /\ (CoreScript.idx st = Some 0%nat ->
        CoreScript.block st' = map (CoreScript.read_row core2proc) (l :: ls)).
Proof. apply data_lines_stored. Qed.

End CoreScriptRun.

Lemma first_data_line_is_never_scored_witness :
  exists st',
    CoreScript.run_rules sample_core_map 1 elements CoreScript.BEGIN
      (drop 2 one_block_log) = Some st'
    /\ CoreScript.block st'
       = CoreScript.unset_row
         :: map (CoreScript.read_row sample_core_map) (drop 3 one_block_log).
Proof.
  destruct (first_data_line_is_never_scored sample_core_map 1 elements
              CoreScript.BEGIN
              "      24        1.10         12k       700.0         1.0         2.0"
              (drop 3 one_block_log))
    as (st' & Hrun & _ & _ & _ & _ & Hfirst & _).
  - repeat constructor.
  - reflexivity.
  - exists st'. split; [exact Hrun | apply Hfirst; reflexivity].
Defined.

(** ** The per-core scorer: the sums of a block *)

Lemma rows_of_cons p r rs :
  rows_of p (r :: rs)
  = if String.eqb (CoreScript.PROC r) p then r :: rows_of p rs else rows_of p rs.
Proof. reflexivity. Qed.

(** The first loop of [flush_block]: what [P_IPC] and the other four
    arrays hold for [p] after the rows [rs]. *)
Lemma fold_add_row rs :
  forall P p,
    fold_left CoreScript.add_row rs P !! p
    = match rows_of p rs with
      | [] => P !! p
      | _ => Some (fold_left CoreScript.plus_row (rows_of p rs)
                     (default CoreScript.no_sums (P !! p)))
      end.
Proof.
  induction rs as [|r rs IH]; intros P p; [reflexivity|].
  cbn [fold_left]. rewrite IH, rows_of_cons. unfold CoreScript.add_row.
  destruct (String.eqb_spec (CoreScript.PROC r) p) as [->|Hne].
  - rewrite lookup_insert_eq. cbn [default]. unfold id.
    destruct (rows_of p rs); reflexivity.
  - rewrite lookup_insert_ne by exact Hne. reflexivity.
Qed.

Lemma rows_of_nil_iff p rs :
  rows_of p rs = [] <-> forall r, r ∈ rs -> CoreScript.PROC r <> p.
Proof.
  induction rs as [|r rs IH].
  - split; [|reflexivity]. intros _ r Hr. apply elem_of_nil in Hr. contradiction.
  - rewrite rows_of_cons.
    destruct (String.eqb_spec (CoreScript.PROC r) p) as [Heq|Hne].
    + split; [discriminate|]. intros H. exfalso. apply (H r); [left | exact Heq].
    + rewrite IH. split.
      * intros H x Hx. apply elem_of_cons in Hx as [->|Hx]; [exact Hne | apply H, Hx].
      * intros H x Hx. apply H. right. exact Hx.
Qed.

Lemma sums_by_label rs p :
  fold_left CoreScript.add_row rs ∅ !! p
  = if bool_decide (rows_of p rs = []) then None else Some (label_sums p rs).
Proof.
  rewrite fold_add_row, lookup_empty. unfold label_sums.
  destruct (rows_of p rs); reflexivity.
Qed.

Lemma labels_of_block rs p :
  p ∈ dom (fold_left CoreScript.add_row rs ∅)
  <-> exists r, r ∈ rs /\ CoreScript.PROC r = p.
Proof.
  rewrite elem_of_dom, sums_by_label. case_bool_decide as Hnil.
  - split; [intros [x Hx]; discriminate|].
    intros (r & Hr & Hp). exfalso.
    apply (proj1 (rows_of_nil_iff p rs) Hnil r Hr Hp).
  - split; [|eauto]. intros _.
    destruct (rows_of p rs) as [|r rest] eqn:Hrows; [congruence|].
    assert (Hin : In r (rows_of p rs)) by (rewrite Hrows; left; reflexivity).
    unfold rows_of in Hin. apply filter_In in Hin as [Hin Hp].
    exists r. split; [apply list_elem_of_In, Hin | apply String.eqb_eq, Hp].
Qed.

(** Sums of rationals. *)

Lemma Qsum_ext {A} (f g : A -> Q) l :
  (forall x, x ∈ l -> (f x == g x)%Q) -> (Qsum (map f l) == Qsum (map g l))%Q.
Proof.
  unfold Qsum. induction l as [|x l IH]; intros H; [reflexivity|].
  cbn [map fold_right]. rewrite (H x), IH; [reflexivity | | left].
  intros y Hy. apply H. right. exact Hy.
Qed.

Lemma Qsum_zero {A} (l : list A) : (Qsum (map (fun _ => 0%Q) l) == 0)%Q.
Proof.
  unfold Qsum. induction l as [|x l IH]; [reflexivity|].
  cbn [map fold_right]. rewrite IH. reflexivity.
Qed.

Lemma fold_plus_Qsum {A} (g : A -> Q) l :
  forall a, (fold_left (fun s r => s + g r) l a == a + Qsum (map g l))%Q.
Proof.
  induction l as [|r l IH]; intros a.
  - simpl. rewrite Qplus_0_r. reflexivity.
  - cbn [fold_left map]. rewrite IH. unfold Qsum. cbn [fold_right].
    rewrite Qplus_assoc. reflexivity.
Qed.

(** One label picks its own term of a sum over distinct labels. *)
Lemma Qsum_pick (v : Q) (x : string) ps :
  NoDup ps -> x ∈ ps ->
  (Qsum (map (fun p => if String.eqb x p then v else 0%Q) ps) == v)%Q.
Proof.
  unfold Qsum. induction ps as [|p ps IH]; intros Hnd Hin.
  - apply elem_of_nil in Hin. contradiction.
  - apply NoDup_cons in Hnd as [Hp Hnd]. cbn [map fold_right].
    destruct (String.eqb_spec x p) as [->|Hne].
    + fold (Qsum (map (fun q => if String.eqb p q then v else 0%Q) ps)).
      rewrite (Qsum_ext (fun q => if String.eqb p q then v else 0%Q)
                 (fun _ => 0%Q)).
      * rewrite Qsum_zero. apply Qplus_0_r.
      * intros y Hy. destruct (String.eqb_spec p y) as [->|_];
          [contradiction | reflexivity].
    + apply elem_of_cons in Hin as [Hx|Hin]; [contradiction|].
      rewrite (IH Hnd Hin). apply Qplus_0_l.
Qed.

(** Summing a column label by label gives the column's sum over the
    block. *)
Lemma Qsum_by_label (f : CoreScript.row -> Q) ps rs :
  NoDup ps ->
  (forall r, r ∈ rs -> CoreScript.PROC r ∈ ps) ->
  (Qsum (map (fun p => Qsum (map f (rows_of p rs))) ps) == Qsum (map f rs))%Q.
Proof.
  intros Hnd. induction rs as [|r rs IH]; intros Hall.
  - apply (Qsum_zero ps).
  - rewrite (Qsum_ext _ (fun p => (if String.eqb (CoreScript.PROC r) p
                                   then f r else 0%Q)
                                  + Qsum (map f (rows_of p rs)))%Q).
    + rewrite (Qsum_plus
                 (fun p => if String.eqb (CoreScript.PROC r) p then f r else 0%Q)
                 (fun p => Qsum (map f (rows_of p rs)))).
      rewrite Qsum_pick by (exact Hnd || (apply Hall; left)).
      rewrite IH by (intros x Hx; apply Hall; right; exact Hx).
      reflexivity.
    + intros p _. rewrite rows_of_cons.
      destruct (String.eqb (CoreScript.PROC r) p).
      * reflexivity.
      * rewrite Qplus_0_l. reflexivity.
Qed.

Lemma plus_rows_fields rs :
  forall s,
    let s' := fold_left CoreScript.plus_row rs s in
    (CoreScript.P_MIS s'
     == CoreScript.P_MIS s + Qsum (map CoreScript.MIS rs))%Q
    /\ (CoreScript.P_LLC s'
        == CoreScript.P_LLC s + Qsum (map CoreScript.LLC rs))%Q
    /\ (CoreScript.P_MBL s' + CoreScript.P_MBR s'
        == CoreScript.P_MBL s + CoreScript.P_MBR s
           + Qsum (map (fun r => CoreScript.MBL r + CoreScript.MBR r) rs))%Q.
Proof.
  induction rs as [|r rs IH]; intros s; cbv zeta.
  - unfold Qsum. cbn [fold_left map fold_right]. rewrite !Qplus_0_r.
    repeat split; reflexivity.
  - cbn [fold_left]. destruct (IH (CoreScript.plus_row s r)) as (H1 & H2 & H3).
    cbv zeta in H1, H2, H3. rewrite H1, H2, H3.
    unfold Qsum. cbn [map fold_right CoreScript.plus_row CoreScript.P_MIS
                      CoreScript.P_LLC CoreScript.P_MBL CoreScript.P_MBR].
    repeat split; ring.
Qed.

Lemma label_sums_fields p rs :
  (CoreScript.P_MIS (label_sums p rs)
   == Qsum (map CoreScript.MIS (rows_of p rs)))%Q
  /\ (CoreScript.P_LLC (label_sums p rs)
      == Qsum (map CoreScript.LLC (rows_of p rs)))%Q
  /\ (CoreScript.P_MBL (label_sums p rs) + CoreScript.P_MBR (label_sums p rs)
      == Qsum (map (fun r => CoreScript.MBL r + CoreScript.MBR r) (rows_of p rs)))%Q.
Proof.
  unfold label_sums.
  destruct (plus_rows_fields (rows_of p rs) CoreScript.no_sums) as (H1 & H2 & H3).
  cbv zeta in H1, H2, H3. rewrite H1, H2, H3.
  cbn [CoreScript.no_sums CoreScript.P_MIS CoreScript.P_LLC CoreScript.P_MBL
       CoreScript.P_MBR].
  repeat split; ring.
Qed.

Lemma or_one_never_zero s : Qeq_bool (Scorer.or_one s) 0 = false.
Proof.
  unfold Scorer.or_one. destruct (Qeq_bool s 0) eqn:H; [reflexivity | exact H].
Qed.

Lemma or_one_eq s t : (s == t)%Q -> (Scorer.or_one s == Scorer.or_one t)%Q.
Proof.
  intros Heq. unfold Scorer.or_one.
  destruct (Qeq_bool s 0) eqn:Hs, (Qeq_bool t 0) eqn:Ht; try reflexivity.
  - apply Qeq_bool_iff in Hs. apply Qeq_bool_neq in Ht. rewrite Heq in Hs.
    contradiction.
  - apply Qeq_bool_iff in Ht. apply Qeq_bool_neq in Hs. rewrite Heq in Hs.
    contradiction.
  - exact Heq.
Qed.

(** The second loop of [flush_block]. *)
Lemma fold_add_total P ps :
  forall t,
    let t' := fold_left (CoreScript.add_total P) ps t in
    let s p := default CoreScript.no_sums (P !! p) in
    (CoreScript.sum_bw t'
     == CoreScript.sum_bw t
        + Qsum (map (fun p => CoreScript.P_MBL (s p) + CoreScript.P_MBR (s p)) ps))%Q
    /\ (CoreScript.sum_occ t'
        == CoreScript.sum_occ t + Qsum (map (fun p => CoreScript.P_LLC (s p)) ps))%Q
    /\ (CoreScript.sum_mis t'
        == CoreScript.sum_mis t + Qsum (map (fun p => CoreScript.P_MIS (s p)) ps))%Q.
Proof.
  induction ps as [|p ps IH]; intros t; cbv zeta.
  - unfold Qsum. cbn [fold_left map fold_right]. rewrite !Qplus_0_r.
    repeat split; reflexivity.
  - cbn [fold_left]. destruct (IH (CoreScript.add_total P t p)) as (H1 & H2 & H3).
    cbv zeta in H1, H2, H3. rewrite H1, H2, H3.
    unfold Qsum. cbn [map fold_right CoreScript.add_total CoreScript.sum_bw
                      CoreScript.sum_occ CoreScript.sum_mis].
    repeat split; ring.
Qed.

(** The third loop of [flush_block] never fails once the sums were
    floored, and prints one line per subscript. *)
Lemma score_loop_lines (K : Q) tm P t ps :
  Qeq_bool (CoreScript.sum_bw t) 0 = false ->
  Qeq_bool (CoreScript.sum_occ t) 0 = false ->
  Qeq_bool (CoreScript.sum_mis t) 0 = false ->
  forall acc,
  exists lines best,
    CoreScript.score_loop K tm P t ps acc = Some (acc.1 ++ lines, best)
    /\ map CoreScript.process lines = ps
    /\ (ps = [] -> best = acc.2)
    /\ Forall (fun l =>
         let s := CoreScript.per_process l in
         CoreScript.line_time l = tm
         /\ s = default CoreScript.no_sums (P !! CoreScript.process l)
         /\ CoreScript.norm_bw l
            = ((CoreScript.P_MBL s + CoreScript.P_MBR s) / CoreScript.sum_bw t)%Q
         /\ CoreScript.norm_llc_occ l = (CoreScript.P_LLC s / CoreScript.sum_occ t)%Q
         /\ CoreScript.norm_llc_miss l = (CoreScript.P_MIS s / CoreScript.sum_mis t)%Q
         /\ CoreScript.Occ_Score l
            = (CoreScript.norm_bw l + CoreScript.norm_llc_occ l)%Q
         /\ CoreScript.Harm_Score l = CoreScript.norm_llc_miss l
         /\ CoreScript.Noise_Score l
            = (CoreScript.Occ_Score l + K * CoreScript.Harm_Score l)%Q) lines.
Proof.
  intros Hbw Hocc Hmis. induction ps as [|p ps IH]; intros acc.
  - exists [], acc.2. cbn [CoreScript.score_loop]. rewrite app_nil_r.
    destruct acc as [a b]. repeat split; constructor.
  - cbn [CoreScript.score_loop]. unfold CoreScript.score_step at 1.
    unfold Scorer.div. rewrite Hbw, Hocc, Hmis. cbn [mbind option_bind].
    match goal with
    | |- context [CoreScript.score_loop _ _ _ _ _ ?a] =>
        destruct (IH a) as (lines & best & Hrun & Hmap & _ & Hall)
    end.
    rewrite Hrun. cbn [fst]. eexists (_ :: lines), best.
    split; [rewrite <- app_assoc; reflexivity|].
    split; [cbn [map CoreScript.process]; rewrite Hmap; reflexivity|].
    split; [discriminate|].
    constructor; [|exact Hall]. cbv zeta.
    cbn [CoreScript.line_time CoreScript.per_process CoreScript.process
         CoreScript.norm_bw CoreScript.norm_llc_occ CoreScript.norm_llc_miss
         CoreScript.Occ_Score CoreScript.Harm_Score CoreScript.Noise_Score].
    repeat split; reflexivity.
Qed.

(** The three floored sums of [flush_block] are the sums of the block's
    columns. *)
Lemma flush_totals (for_in : gset string -> list string) rs :
  (forall s, for_in s ≡ₚ elements s) ->
  let P := fold_left CoreScript.add_row rs ∅ in
  let ps := for_in (dom P) in
  let t := CoreScript.floors
             (fold_left (CoreScript.add_total P) ps
                {| CoreScript.sum_bw := 0; CoreScript.sum_occ := 0;
                   CoreScript.sum_mis := 0 |}) in
  NoDup ps
  /\ (forall p, p ∈ ps <-> exists r, r ∈ rs /\ CoreScript.PROC r = p)
  /\ (forall p, p ∈ ps -> P !! p = Some (label_sums p rs))
  /\ (CoreScript.sum_bw t
      == Scorer.or_one
           (Qsum (map (fun r => CoreScript.MBL r + CoreScript.MBR r) rs)))%Q
  /\ (CoreScript.sum_occ t == Scorer.or_one (Qsum (map CoreScript.LLC rs)))%Q
  /\ (CoreScript.sum_mis t == Scorer.or_one (Qsum (map CoreScript.MIS rs)))%Q.
Proof.
  intros Hperm P ps t.
  assert (Hnd : NoDup ps) by (unfold ps; rewrite Hperm; apply NoDup_elements).
  assert (Hin : forall p, p ∈ ps <-> exists r, r ∈ rs /\ CoreScript.PROC r = p).
  { intros p. unfold ps. rewrite Hperm, elem_of_elements.
    apply labels_of_block. }
  assert (HP : forall p, p ∈ ps -> P !! p = Some (label_sums p rs)).
  { intros p Hp. unfold P. rewrite sums_by_label. case_bool_decide as Hnil; [|reflexivity].
    apply Hin in Hp as (r & Hr & Hlab). exfalso.
    apply (proj1 (rows_of_nil_iff p rs) Hnil r Hr Hlab). }
  assert (Hcover : forall r, r ∈ rs -> CoreScript.PROC r ∈ ps)
    by (intros r Hr; apply Hin; eauto).
  split; [exact Hnd|]. split; [exact Hin|]. split; [exact HP|].
  destruct (fold_add_total P ps
              {| CoreScript.sum_bw := 0; CoreScript.sum_occ := 0;
                 CoreScript.sum_mis := 0 |}) as (Hbw & Hocc & Hmis).
  cbv zeta in Hbw, Hocc, Hmis.
  cbn [CoreScript.sum_bw CoreScript.sum_occ CoreScript.sum_mis] in Hbw, Hocc, Hmis.
  rewrite Qplus_0_l in Hbw, Hocc, Hmis.
  unfold t, CoreScript.floors.
  cbn [CoreScript.sum_bw CoreScript.sum_occ CoreScript.sum_mis].
  split; [|split]; apply or_one_eq.
  - rewrite Hbw.
    rewrite <- (Qsum_by_label (fun r => (CoreScript.MBL r + CoreScript.MBR r)%Q)
                  ps rs Hnd Hcover).
    apply Qsum_ext. intros p Hp. rewrite (HP p Hp). cbn [default]. unfold id.
    apply label_sums_fields.
  - rewrite Hocc. rewrite <- (Qsum_by_label CoreScript.LLC ps rs Hnd Hcover).
    apply Qsum_ext. intros p Hp. rewrite (HP p Hp). cbn [default]. unfold id.
    apply label_sums_fields.
  - rewrite Hmis. rewrite <- (Qsum_by_label CoreScript.MIS ps rs Hnd Hcover).
    apply Qsum_ext. intros p Hp. rewrite (HP p Hp). cbn [default]. unfold id.
    apply label_sums_fields.
Qed.

(** What a flush prints: one line per label of the block, with the sums
    of the rows that carry the label. *)
Lemma flush_block_lines (K : Q)
    (for_in : gset string -> list string) (st : CoreScript.state) :
  (forall s, for_in s ≡ₚ elements s) ->
  let rs := CoreScript.block st in
  exists lines v,
    CoreScript.flush_block K for_in st
    = Some {| CoreScript.time := CoreScript.time st;
              CoreScript.have_block := CoreScript.have_block st;
              CoreScript.idx := CoreScript.idx st;
              CoreScript.rows := CoreScript.rows st;
              CoreScript.OUT := CoreScript.OUT st ++ lines;
              CoreScript.VER := CoreScript.VER st ++ [v] |}
    /\ CoreScript.verdict_time v = CoreScript.time st
    /\ NoDup (map CoreScript.process lines)
    /\ (forall p, p ∈ map CoreScript.process lines
                  <-> exists r, r ∈ rs /\ CoreScript.PROC r = p)
    /\ Forall (fun l =>
         let s := CoreScript.per_process l in
         CoreScript.line_time l = CoreScript.time st
         /\ s = label_sums (CoreScript.process l) rs
         /\ (CoreScript.norm_bw l
             == (CoreScript.P_MBL s + CoreScript.P_MBR s)
                / Scorer.or_one
                    (Qsum (map (fun r => CoreScript.MBL r + CoreScript.MBR r) rs)))%Q
         /\ (CoreScript.norm_llc_occ l
             == CoreScript.P_LLC s / Scorer.or_one (Qsum (map CoreScript.LLC rs)))%Q
         /\ (CoreScript.norm_llc_miss l
             == CoreScript.P_MIS s / Scorer.or_one (Qsum (map CoreScript.MIS rs)))%Q
         /\ (CoreScript.Noise_Score l
             == CoreScript.norm_bw l + CoreScript.norm_llc_occ l
                + K * CoreScript.norm_llc_miss l)%Q) lines.
Proof.
  intros Hperm rs.
  destruct (flush_totals for_in rs Hperm) as (Hnd & Hin & HP & Hbw & Hocc & Hmis).
  cbv zeta in Hnd, Hin, HP, Hbw, Hocc, Hmis.
  unfold CoreScript.flush_block. fold rs.
  set (P := fold_left CoreScript.add_row rs ∅) in *.
  set (ps := for_in (dom P)) in *.
  set (t := CoreScript.floors _) in *.
  destruct (score_loop_lines K (CoreScript.time st) P t ps
              (or_one_never_zero _) (or_one_never_zero _) (or_one_never_zero _)
              ([], (- (1), EmptyString)%Q))
    as (lines & [maxN culprit] & Hrun & Hmap & _ & Hall).
  rewrite Hrun. cbn [mbind option_bind fst app].
  exists lines, {| CoreScript.verdict_time := CoreScript.time st;
                   CoreScript.culprit := culprit; CoreScript.noise := maxN |}.
  split; [reflexivity|]. split; [reflexivity|].
  split; [rewrite Hmap; exact Hnd|].
  split; [intros p; rewrite Hmap; apply Hin|].
  apply Forall_forall. intros l Hl.
  pose proof (proj1 (Forall_forall _ _) Hall l Hl)
    as (Htm & Hs & Hnbw & Hnocc & Hnmis & Hoc & Hh & Hn).
  cbv zeta in Hs, Hnbw, Hnocc, Hnmis.
  assert (Hp : CoreScript.process l ∈ ps).
  { rewrite <- Hmap. apply list_elem_of_In, in_map, list_elem_of_In, Hl. }
  rewrite (HP _ Hp) in Hs. cbn [default] in Hs. unfold id in Hs.
  cbv zeta. split; [exact Htm|]. split; [exact Hs|].
  split; [rewrite Hnbw, Hbw; reflexivity|].
  split; [rewrite Hnocc, Hocc; reflexivity|].
  split; [rewrite Hnmis, Hmis; reflexivity|].
  rewrite Hn, Hoc, Hh. reflexivity.
Qed.

(** X23. A flush counts every row that it reads once, under the row's
    label, rows of unmapped cores included: it never fails, prints one
    line per label of the block, the line's five sums are those of the
    rows that carry the label, and each share is the label's sum over the
    floored sum of the whole block. *)
Theorem flush_block_counts_every_row (K : Q)
    (for_in : gset string -> list string) (st : CoreScript.state) :
  (forall s, for_in s ≡ₚ elements s) ->
  let rs := CoreScript.block st in
  exists lines v,
    CoreScript.flush_block K for_in st
    = Some {| CoreScript.time := CoreScript.time st;
              CoreScript.have_block := CoreScript.have_block st;
              CoreScript.idx := CoreScript.idx st;
              CoreScript.rows := CoreScript.rows st;
              CoreScript.OUT := CoreScript.OUT st ++ lines;
              CoreScript.VER := CoreScript.VER st ++ [v] |}
    /\ CoreScript.verdict_time v = CoreScript.time st
    /\ NoDup (map CoreScript.process lines)
    /\ (forall p, p ∈ map CoreScript.process lines
                  <-> exists r, r ∈ rs /\ CoreScript.PROC r = p)
    /\ Forall (fun l =>
         let s := CoreScript.per_process l in
         CoreScript.line_time l = CoreScript.time st
         /\ s = label_sums (CoreScript.process l) rs
         /\ (CoreScript.norm_bw l
             == (CoreScript.P_MBL s + CoreScript.P_MBR s)
                / Scorer.or_one
                    (Qsum (map (fun r => CoreScript.MBL r + CoreScript.MBR r) rs)))%Q
         /\ (CoreScript.norm_llc_occ l
             == CoreScript.P_LLC s / Scorer.or_one (Qsum (map CoreScript.LLC rs)))%Q
         /\ (CoreScript.norm_llc_miss l
             == CoreScript.P_MIS s / Scorer.or_one (Qsum (map CoreScript.MIS rs)))%Q
         /\ (CoreScript.Noise_Score l
             == CoreScript.norm_bw l + CoreScript.norm_llc_occ l
                + K * CoreScript.norm_llc_miss l)%Q) lines.
Proof. apply flush_block_lines. Qed.

Lemma flush_block_counts_every_row_witness :
  exists lines v,
    CoreScript.flush_block 1 elements second_block
    = Some {| CoreScript.time := CoreScript.time second_block;
              CoreScript.have_block := CoreScript.have_block second_block;
              CoreScript.idx := CoreScript.idx second_block;
              CoreScript.rows := CoreScript.rows second_block;
              CoreScript.OUT := CoreScript.OUT second_block ++ lines;
              CoreScript.VER := CoreScript.VER second_block ++ [v] |}
    /\ NoDup (map CoreScript.process lines)
    /\ "unmapped" ∈ map CoreScript.process lines.
Proof.
  destruct (flush_block_counts_every_row 1 elements second_block)
    as (lines & v & Hrun & _ & Hnd & Hin & _).
  - intros s. reflexivity.
  - exists lines, v. split; [exact Hrun|]. split; [exact Hnd|].
    apply Hin.
    exists (CoreScript.read_row sample_core_map
              "      40        0.50          1M       200.0         0.0         0.0").
    split; [|vm_compute; reflexivity].
    apply list_elem_of_In. vm_compute. right. right. left. reflexivity.
Defined.

(** ** The per-core scorer: verdicts *)

Lemma flush_block_verdict (K : Q) (for_in : gset string -> list string) st :
  exists lines v,
    CoreScript.flush_block K for_in st
    = Some {| CoreScript.time := CoreScript.time st;
              CoreScript.have_block := CoreScript.have_block st;
              CoreScript.idx := CoreScript.idx st;
              CoreScript.rows := CoreScript.rows st;
              CoreScript.OUT := CoreScript.OUT st ++ lines;
              CoreScript.VER := CoreScript.VER st ++ [v] |}
    /\ (for_in (dom (fold_left CoreScript.add_row (CoreScript.block st) ∅)) = [] ->
        lines = []
        /\ v = {| CoreScript.verdict_time := CoreScript.time st;
                  CoreScript.culprit := EmptyString;
                  CoreScript.noise := (- (1))%Q |}).
Proof.
  unfold CoreScript.flush_block.
  set (P := fold_left CoreScript.add_row (CoreScript.block st) ∅).
  set (ps := for_in (dom P)).
  set (t := CoreScript.floors _).
  destruct (score_loop_lines K (CoreScript.time st) P t ps
              (or_one_never_zero _) (or_one_never_zero _) (or_one_never_zero _)
              ([], (- (1), EmptyString)%Q))
    as (lines & [maxN culprit] & Hrun & Hmap & Hbest & _).
  rewrite Hrun. cbn [mbind option_bind fst app].
  exists lines, {| CoreScript.verdict_time := CoreScript.time st;
                   CoreScript.culprit := culprit; CoreScript.noise := maxN |}.
  split; [reflexivity|]. intros Hnil.
  specialize (Hbest Hnil). cbn [snd] in Hbest. injection Hbest as -> ->.
  rewrite Hnil in Hmap. destruct lines; [|discriminate]. split; reflexivity.
Qed.

Section CoreScriptVerdicts.
Variable core2proc : gmap string string.
Variable K : Q.
Variable for_in : gset string -> list string.

Lemma rules_keep_have_block st line :
  CoreScript.have_block st = true ->
  exists st',
    CoreScript.rules core2proc K for_in st line = Some st'
    /\ CoreScript.have_block st' = true
    /\ length (CoreScript.VER st')
       = (length (CoreScript.VER st) + if time_line line then 1 else 0)%nat.
Proof.
  intros Hb. unfold CoreScript.rules. fold (time_line line).
  destruct (time_line line).
  - rewrite Hb. destruct (flush_block_verdict K for_in st) as (lines & v & Hrun & _).
    rewrite Hrun. cbn [option_map mbind option_bind].
    eexists. split; [reflexivity|].
    cbn [CoreScript.reset_block CoreScript.have_block CoreScript.VER].
    split; [exact Hb|]. rewrite length_app. reflexivity.
  - destruct (CoreScript.data_line line).
    + eexists. split; [reflexivity|]. cbn [CoreScript.have_block CoreScript.VER].
      split; [reflexivity | lia].
    + exists st. split; [reflexivity|]. split; [exact Hb | lia].
Qed.

(** X24. [have_block] is never cleared. Once a data line was read, every
    later TIME line appends one verdict and so does the END block; a TIME
    line that follows a TIME line without a data line in between appends
    the verdict of an empty block (no culprit, noise -1) and prints no
    score line. *)
Theorem every_time_line_adds_a_verdict (st : CoreScript.state)
    (log : list string) :
  CoreScript.have_block st = true ->
  (exists st' st'',
      CoreScript.run_rules core2proc K for_in st log = Some st'
      /\ CoreScript.have_block st' = true
      /\ length (CoreScript.VER st')
         = (length (CoreScript.VER st) + length (List.filter time_line log))%nat
      /\ CoreScript.END K for_in st' = Some st''
      /\ length (CoreScript.VER st'') = S (length (CoreScript.VER st')))
  /\ (for_in ∅ = [] -> after_reset st ->
      forall line, time_line line = true ->
        exists st',
          CoreScript.rules core2proc K for_in st line = Some st'
          /\ after_reset st'
          /\ CoreScript.OUT st' = CoreScript.OUT st
          /\ CoreScript.VER st'
             = CoreScript.VER st
               ++ [{| CoreScript.verdict_time := CoreScript.time st;
                      CoreScript.culprit := EmptyString;
                      CoreScript.noise := (- (1))%Q |}]).
Proof.
  intros Hb. split.
  - revert st Hb. induction log as [|line log IH]; intros st Hb.
    + destruct (flush_block_verdict K for_in st) as (lines & v & Hrun & _).
      eexists st, _. cbn [CoreScript.run_rules List.filter length].
      split; [reflexivity|]. split; [exact Hb|]. split; [lia|].
      unfold CoreScript.END. rewrite Hb. split; [exact Hrun|].
      cbn [CoreScript.VER]. rewrite length_app. cbn [length]. lia.
    + destruct (rules_keep_have_block st line Hb) as (st1 & Hstep & Hb1 & Hlen1).
      destruct (IH st1 Hb1) as (st' & st'' & Hrun & Hb' & Hlen & Hend & Hlen').
      exists st', st''. cbn [CoreScript.run_rules]. rewrite Hstep.
      cbn [mbind option_bind]. split; [exact Hrun|]. split; [exact Hb'|].
      split; [|split; [exact Hend | exact Hlen']].
      rewrite Hlen, Hlen1. cbn [List.filter]. destruct (time_line line);
        cbn [length]; lia.
  - intros Hempty (_ & Hidx & Hrows) line Htime.
    unfold CoreScript.rules. fold (time_line line). rewrite Htime, Hb.
    destruct (flush_block_verdict K for_in st) as (lines & v & Hrun & Hnil).
    destruct Hnil as [-> ->].
    { unfold CoreScript.block. rewrite Hidx. cbn [default]. unfold id.
      cbn [seq map fold_left]. rewrite dom_empty_L. exact Hempty. }
    rewrite Hrun. cbn [option_map mbind option_bind].
    eexists. split; [reflexivity|].
    cbn [CoreScript.reset_block CoreScript.have_block CoreScript.idx
         CoreScript.rows CoreScript.OUT CoreScript.VER].
    split; [repeat split; exact Hb|]. split; [apply app_nil_r | reflexivity].
Qed.

End CoreScriptVerdicts.

Lemma every_time_line_adds_a_verdict_witness :
  exists st' st'',
    CoreScript.run_rules sample_core_map 1 elements
      (CoreScript.reset_block
         {| CoreScript.time := "2024-05-01 10:00:01";
            CoreScript.have_block := true; CoreScript.idx := Some 1%nat;
            CoreScript.rows := ∅; CoreScript.OUT := []; CoreScript.VER := [] |})
      one_block_log = Some st'
    /\ CoreScript.have_block st' = true
    /\ length (CoreScript.VER st') = 1%nat
    /\ CoreScript.END 1 elements st' = Some st''
    /\ length (CoreScript.VER st'') = 2%nat.
Proof.
  destruct (every_time_line_adds_a_verdict sample_core_map 1 elements
              (CoreScript.reset_block
                 {| CoreScript.time := "2024-05-01 10:00:01";
                    CoreScript.have_block := true; CoreScript.idx := Some 1%nat;
                    CoreScript.rows := ∅; CoreScript.OUT := [];
                    CoreScript.VER := [] |})
              one_block_log eq_refl)
    as [(st' & st'' & Hrun & Hb & Hlen & Hend & Hlen') _].
  exists st', st''. split; [exact Hrun|]. split; [exact Hb|].
  split; [exact Hlen|]. split; [exact Hend|]. rewrite Hlen', Hlen. reflexivity.
Defined.

(** ** The random load *)

(** X26. The random load never leaves its buffer: for every value of the
    time-stamp counter the offset it touches is a byte offset below the
    buffer size. The offset is not held to the start of a cache line: a
    counter below the buffer size is its own offset, so every byte of the
    buffer can be hit. *)
Theorem random_offset_stays_in_buffer (tsc : Z) :
  in_u64 tsc ->
  0 <= RandomLoad.offset tsc < RandomLoad.BUF_SIZE
  /\ (tsc < RandomLoad.BUF_SIZE -> RandomLoad.offset tsc = tsc).
Proof.
  intros [Hlo Hhi]. unfold RandomLoad.offset, RandomLoad.ADDR_MASK.
  change (Z.shiftl 1 29 - 1) with (Z.ones 29). cbv zeta.
  rewrite Z.land_ones by lia. change RandomLoad.BUF_SIZE with (2 ^ 29).
  split; [apply Z.mod_pos_bound; lia|].
  intros Hsmall. rewrite Z.shiftr_div_pow2 by lia.
  rewrite (Z.div_small tsc (2 ^ 32)) by lia.
  rewrite (Z.mod_small tsc (2 ^ 32)) by lia.
  change (0 mod 2 ^ 32) with 0. rewrite Z.lxor_0_r.
  apply Z.mod_small. lia.
Qed.

Lemma random_offset_stays_in_buffer_witness :
  in_u64 (2 ^ 40 + 77)
  /\ 0 <= RandomLoad.offset (2 ^ 40 + 77) < RandomLoad.BUF_SIZE.
Proof.
  assert (Hin : in_u64 (2 ^ 40 + 77)) by (unfold in_u64; lia).
  split; [exact Hin|].
  exact (proj1 (random_offset_stays_in_buffer (2 ^ 40 + 77) Hin)).
Defined.

(** ** The tree load *)

Lemma child_some max c : (c < max)%nat -> child max c = Some c.
Proof. intros H. unfold child. apply Nat.ltb_lt in H. rewrite H. reflexivity. Qed.

Lemma child_none max c : (max <= c)%nat -> child max c = None.
Proof. intros H. unfold child. apply Nat.ltb_ge in H. rewrite H. reflexivity. Qed.

Lemma full_tree_length max : length (full_tree max) = max.
Proof. unfold full_tree. rewrite length_fmap. apply length_seq. Qed.

Lemma full_tree_lookup max k :
  (k < max)%nat -> full_tree max !! k = Some (heap_node max k).
Proof.
  intros Hk. unfold full_tree. rewrite list_lookup_fmap, lookup_seq_lt by exact Hk.
  reflexivity.
Qed.

Lemma growing_lookup h n k :
  (k < n)%nat -> (growing h <$> seq 0 n) !! k = Some (growing h k).
Proof.
  intros Hk. rewrite list_lookup_fmap, lookup_seq_lt by exact Hk. reflexivity.
Qed.

Lemma ltb_true a b : (a < b)%nat -> (a <? b)%nat = true.
Proof. apply Nat.ltb_lt. Qed.

Lemma ltb_false a b : (b <= a)%nat -> (a <? b)%nat = false.
Proof. apply Nat.ltb_ge. Qed.

Lemma node_eq v v' l l' r r' :
  v = v' -> l = l' -> r = r' ->
  Some {| Tree.val := v; Tree.left := l; Tree.right := r |}
  = Some {| Tree.val := v'; Tree.left := l'; Tree.right := r' |}.
Proof. intros -> -> ->. reflexivity. Qed.

(** A full round of the loop, at [head = h]: the two nodes are the calls
    [2h+2] and [2h+3] of [malloc] and go to the slots [2h+1] and [2h+2]
    of the queue. *)
Lemma step_two malloc h s max :
  grown h s -> Z.of_nat (2 * h + 2) < max ->
  exists s1,
    grown (S h) s1 /\ Tree.slots s1 = Tree.slots s
    /\ Tree.step malloc max s
       = if negb (malloc (2 * h + 2)%nat Tree.NODE_SIZE)
         then Some (Tree.Exit "malloc L")
         else if Tree.slots s <=? Z.of_nat (2 * h + 1) then None
         else if negb (malloc (2 * h + 3)%nat Tree.NODE_SIZE)
         then Some (Tree.Exit "malloc R")
         else if Tree.slots s <=? Z.of_nat (2 * h + 2) then None
         else Some (Tree.Ret s1).
Proof.
  intros (Hh & Hc & Hq & Hheap) Hmax.
  exists {| Tree.heap :=
              alter (Tree.set_right (Some (2 * h + 2)%nat)) h
                (alter (Tree.set_left (Some (2 * h + 1)%nat)) h
                   (Tree.heap s ++ [Tree.leaf (Tree.count s)])
                 ++ [Tree.leaf (Tree.count s + 1)]);
            Tree.queue := (Tree.queue s ++ [(2 * h + 1)%nat]) ++ [(2 * h + 2)%nat];
            Tree.slots := Tree.slots s;
            Tree.head := S h;
            Tree.count := Tree.count s + 1 + 1 |}.
  assert (HlenH : length (Tree.heap s) = (2 * h + 1)%nat)
    by (rewrite Hheap, length_fmap, length_seq; reflexivity).
  assert (HlenQ : length (Tree.queue s) = (2 * h + 1)%nat)
    by (rewrite Hq, length_seq; reflexivity).
  split; [|split; [reflexivity|]].
  2:{ unfold Tree.step. rewrite Hh.
      replace (Tree.queue s !! h) with (Some h)
        by (rewrite Hq, lookup_seq_lt by lia; reflexivity).
      cbn [mbind option_bind].
      rewrite !length_alter, !length_app, HlenH, HlenQ. cbn [length].
      replace (S (2 * h + 1)) with (2 * h + 2)%nat by lia.
      replace (S (2 * h + 1 + 1)) with (2 * h + 3)%nat by lia.
      replace (2 * h + 1 + 1)%nat with (2 * h + 2)%nat by lia.
      replace (Tree.count s + 1 <? max) with true
        by (symmetry; apply Z.ltb_lt; lia).
      reflexivity. }
  unfold grown. cbn [Tree.head Tree.count Tree.queue Tree.heap].
  split; [reflexivity|]. split; [lia|].
  split.
  - rewrite Hq. replace (2 * S h + 1)%nat with ((2 * h + 1) + 1 + 1)%nat by lia.
    rewrite !seq_app. cbn [seq Nat.add].
    replace (2 * h + 1 + 1)%nat with (2 * h + 2)%nat by lia. reflexivity.
  - apply list_eq. intros k. rewrite Hheap, Hc.
    destruct (Nat.lt_ge_cases k (2 * S h + 1)%nat) as [Hk|Hk].
    2:{ rewrite (lookup_ge_None_2 (growing (S h) <$> _))
          by (rewrite length_fmap, length_seq; lia).
        apply lookup_ge_None_2.
        rewrite !length_alter, !length_app, !length_alter, !length_app,
          !length_fmap, !length_seq. cbn [length]. lia. }
    rewrite growing_lookup by exact Hk.
    destruct (Nat.eq_dec k h) as [->|Hne].
    + rewrite list_lookup_alter_eq.
      rewrite lookup_app_l
        by (rewrite length_alter, length_app, length_fmap, length_seq;
            cbn [length]; lia).
      rewrite list_lookup_alter_eq.
      rewrite lookup_app_l by (rewrite length_fmap, length_seq; lia).
      rewrite growing_lookup by lia. cbn [fmap option_fmap option_map].
      unfold growing, Tree.set_right, Tree.set_left.
      cbn [Tree.val Tree.left Tree.right].
      rewrite (ltb_true h (S h)) by lia.
      apply node_eq; reflexivity.
    + rewrite list_lookup_alter_ne by (intros ->; apply Hne; reflexivity).
      destruct (Nat.eq_dec k (2 * h + 2)%nat) as [->|Hne2].
      * rewrite lookup_app_r
          by (rewrite length_alter, length_app, length_fmap, length_seq;
              cbn [length]; lia).
        rewrite length_alter, length_app, length_fmap, length_seq. cbn [length].
        replace (2 * h + 2 - (2 * h + 1 + 1))%nat with 0%nat by lia.
        cbn [lookup list_lookup]. unfold Tree.leaf, growing.
        rewrite (ltb_false (2 * h + 2) (S h)) by lia.
        apply node_eq; [lia | reflexivity | reflexivity].
      * rewrite lookup_app_l
          by (rewrite length_alter, length_app, length_fmap, length_seq;
              cbn [length]; lia).
        rewrite list_lookup_alter_ne by (intros ->; apply Hne; reflexivity).
        destruct (Nat.eq_dec k (2 * h + 1)%nat) as [->|Hne1].
        -- rewrite lookup_app_r by (rewrite length_fmap, length_seq; lia).
           rewrite length_fmap, length_seq.
           replace (2 * h + 1 - (2 * h + 1))%nat with 0%nat by lia.
           cbn [lookup list_lookup]. unfold Tree.leaf, growing.
           rewrite (ltb_false (2 * h + 1) (S h)) by lia. reflexivity.
        -- rewrite lookup_app_l by (rewrite length_fmap, length_seq; lia).
           rewrite growing_lookup by lia. unfold growing.
           apply node_eq; [reflexivity | |];
             destruct (Nat.ltb_spec k h), (Nat.ltb_spec k (S h));
             reflexivity || lia.
Qed.

(** The invariant at the end of the loop gives the full tree. *)
Lemma grown_full h :
  growing h <$> seq 0 (2 * h + 1) = full_tree (2 * h + 1).
Proof.
  unfold full_tree. apply list_fmap_ext. intros i k Hk.
  apply lookup_seq in Hk as [Heq Hk]. cbn [Nat.add] in Heq. subst i.
  unfold growing, heap_node, child.
  apply (inj Some), node_eq; [reflexivity | |].
  - destruct (Nat.ltb_spec k h), (Nat.ltb_spec (2 * k + 1) (2 * h + 1));
      reflexivity || lia.
  - destruct (Nat.ltb_spec k h), (Nat.ltb_spec (2 * k + 2) (2 * h + 1));
      reflexivity || lia.
Qed.

(** Whatever the allocator does: a loop that ends without [exit] leaves
    the full tree. *)
Lemma grow_ret malloc fuel :
  forall h s n s',
    grown h s ->
    Tree.grow malloc fuel (Z.of_nat (2 * (h + n) + 1)) s = Some (Tree.Ret s') ->
    Tree.heap s' = full_tree (2 * (h + n) + 1).
Proof.
  induction fuel as [|fuel IH]; intros h s n s' Hg Hrun.
  - cbn [Tree.grow] in Hrun. pose proof Hg as (_ & Hc & _ & Hheap).
    destruct (Z.ltb_spec (Tree.count s) (Z.of_nat (2 * (h + n) + 1))) as [Hlt|Hge];
      [discriminate|].
    injection Hrun as <-. assert (n = 0%nat) as -> by lia.
    rewrite Nat.add_0_r, Hheap. apply grown_full.
  - cbn [Tree.grow] in Hrun. pose proof Hg as (_ & Hc & _ & Hheap).
    destruct (Z.ltb_spec (Tree.count s) (Z.of_nat (2 * (h + n) + 1))) as [Hlt|Hge].
    + destruct n as [|n]; [lia|].
      destruct (step_two malloc h s (Z.of_nat (2 * (h + S n) + 1)) Hg)
        as (s1 & Hg1 & _ & Hstep); [lia|].
      rewrite Hstep in Hrun.
      destruct (negb (malloc (2 * h + 2)%nat Tree.NODE_SIZE)); [discriminate|].
      destruct (Tree.slots s <=? Z.of_nat (2 * h + 1)); [discriminate|].
      destruct (negb (malloc (2 * h + 3)%nat Tree.NODE_SIZE)); [discriminate|].
      destruct (Tree.slots s <=? Z.of_nat (2 * h + 2)); [discriminate|].
      replace (h + S n)%nat with (S h + n)%nat in Hrun |- * by lia.
      exact (IH (S h) s1 n s' Hg1 Hrun).
    + injection Hrun as <-. assert (n = 0%nat) as -> by lia.
      rewrite Nat.add_0_r, Hheap. apply grown_full.
Qed.

(** With every node granted and room in the queue, the loop ends after
    as many rounds as the tree has inner nodes. *)
Lemma grow_odd malloc fuel :
  forall h s n,
    grown h s -> (n <= fuel)%nat ->
    (forall k, (1 <= k <= 2 * (h + n) + 1)%nat -> malloc k Tree.NODE_SIZE = true) ->
    Z.of_nat (2 * (h + n) + 1) <= Tree.slots s ->
    exists s',
      Tree.grow malloc fuel (Z.of_nat (2 * (h + n) + 1)) s = Some (Tree.Ret s').
Proof.
  induction fuel as [|fuel IH]; intros h s n Hg Hn Hgrant Hslots.
  - assert (n = 0%nat) as -> by lia. rewrite Nat.add_0_r.
    destruct Hg as (Hh & Hc & Hq & Hheap). exists s.
    cbn [Tree.grow]. rewrite Hc, Z.ltb_irrefl. reflexivity.
  - destruct n as [|n].
    + rewrite Nat.add_0_r. destruct Hg as (Hh & Hc & Hq & Hheap). exists s.
      cbn [Tree.grow]. rewrite Hc, Z.ltb_irrefl. reflexivity.
    + cbn [Tree.grow]. pose proof Hg as (_ & Hc & _).
      rewrite Hc.
      replace (Z.of_nat (2 * h + 1) <? Z.of_nat (2 * (h + S n) + 1)) with true
        by (symmetry; apply Z.ltb_lt; lia).
      destruct (step_two malloc h s (Z.of_nat (2 * (h + S n) + 1)) Hg)
        as (s1 & Hg1 & Hs1 & Hstep); [lia|].
      rewrite Hstep, !Hgrant by lia. cbn [negb].
      replace (Tree.slots s <=? Z.of_nat (2 * h + 1)) with false
        by (symmetry; apply Z.leb_gt; lia).
      replace (Tree.slots s <=? Z.of_nat (2 * h + 2)) with false
        by (symmetry; apply Z.leb_gt; lia).
      replace (h + S n)%nat with (S h + n)%nat in Hgrant, Hslots |- * by lia.
      apply IH; [exact Hg1 | lia | exact Hgrant | rewrite Hs1; exact Hslots].
Qed.

Lemma pow2_odd (L : nat) : (1 <= L)%nat -> exists n, (2 ^ L - 1 = 2 * n + 1)%nat.
Proof.
  intros HL. destruct L as [|L]; [lia|]. exists (2 ^ L - 1)%nat.
  rewrite Nat.pow_succ_r'. pose proof (Nat.pow_nonzero 2 L). lia.
Qed.

Lemma max_nodes_odd (levels : Z) n :
  1 <= levels -> (2 ^ Z.to_nat levels - 1 = 2 * n + 1)%nat ->
  Z.shiftl 1 levels - 1 = Z.of_nat (2 * (0 + n) + 1).
Proof.
  intros Hl Hn. rewrite Z.shiftl_1_l. cbn [Nat.add]. rewrite <- Hn.
  rewrite Nat2Z.inj_sub by (pose proof (Nat.pow_nonzero 2 (Z.to_nat levels)); lia).
  rewrite Nat2Z.inj_pow, Z2Nat.id by lia. reflexivity.
Qed.

(** Whatever the allocator does, a tree that [build_tree] returns for
    [levels] between 1 and 63 is the full tree. *)
Lemma build_tree_ret malloc (fuel : nat) (levels : Z) root nodes :
  1 <= levels <= 63 ->
  Tree.build_tree malloc fuel levels = Some (Tree.Ret (root, nodes)) ->
  root = Some 0%nat /\ nodes = full_tree (2 ^ Z.to_nat levels - 1).
Proof.
  intros Hl Hbuild. unfold Tree.build_tree in Hbuild.
  replace (levels =? 0) with false in Hbuild by (symmetry; apply Z.eqb_neq; lia).
  replace (64 <=? levels) with false in Hbuild by (symmetry; apply Z.leb_gt; lia).
  cbv zeta in Hbuild.
  destruct (negb (malloc 0%nat _)); [discriminate|].
  destruct (negb (malloc 1%nat _)); [discriminate|].
  destruct (_ <=? 0); [discriminate|].
  destruct (pow2_odd (Z.to_nat levels)) as (n & Hn); [lia|].
  rewrite (max_nodes_odd levels n) in Hbuild by (lia || exact Hn).
  destruct (Tree.grow malloc fuel _ _) as [[s|what]|] eqn:Hgrow;
    cbn [mbind option_bind] in Hbuild; [|discriminate|discriminate].
  injection Hbuild as <- <-. split; [reflexivity|].
  rewrite Hn. change (2 * n + 1)%nat with (2 * (0 + n) + 1)%nat.
  eapply grow_ret; [|exact Hgrow]. repeat split.
Qed.

Lemma queue_size_fits (levels : Z) :
  1 <= levels <= 61 ->
  wrap64 ((Z.shiftl 1 levels - 1) * Tree.POINTER_SIZE)
  = (Z.shiftl 1 levels - 1) * Tree.POINTER_SIZE.
Proof.
  intros Hl.
  assert (Hpow : 2 <= 2 ^ levels <= 2 ^ 61).
  { split; [change 2 with (2 ^ 1) at 1|]; apply Z.pow_le_mono_r; lia. }
  unfold wrap64, Tree.POINTER_SIZE. rewrite Z.shiftl_1_l.
  apply Z.mod_small. change (2 ^ 64) with (2 ^ 61 * 8). lia.
Qed.

(** [build_tree] for [levels] between 1 and 61, where the size of the
    queue does not wrap, when every request is granted. *)
Lemma build_tree_full malloc (fuel : nat) (levels : Z) :
  1 <= levels <= 61 ->
  (2 ^ Z.to_nat levels <= 2 * fuel + 2)%nat ->
  malloc 0%nat ((Z.shiftl 1 levels - 1) * Tree.POINTER_SIZE) = true ->
  (forall k, (1 <= k <= 2 ^ Z.to_nat levels - 1)%nat ->
             malloc k Tree.NODE_SIZE = true) ->
  Tree.build_tree malloc fuel levels
  = Some (Tree.Ret (Some 0%nat, full_tree (2 ^ Z.to_nat levels - 1))).
Proof.
  intros Hl Hfuel Hqueue Hnodes.
  assert (Hpow : 2 <= 2 ^ levels <= 2 ^ 61).
  { split; [change 2 with (2 ^ 1) at 1|]; apply Z.pow_le_mono_r; lia. }
  pose proof (queue_size_fits levels Hl) as Hsize.
  destruct (pow2_odd (Z.to_nat levels)) as (n & Hn); [lia|].
  pose proof (max_nodes_odd levels n ltac:(lia) Hn) as Hmax.
  unfold Tree.build_tree.
  replace (levels =? 0) with false by (symmetry; apply Z.eqb_neq; lia).
  replace (64 <=? levels) with false by (symmetry; apply Z.leb_gt; lia).
  cbv zeta. rewrite Hsize, Hqueue, (Hnodes 1%nat) by lia. cbn [negb].
  rewrite Z.div_mul by (unfold Tree.POINTER_SIZE; lia).
  replace (Z.shiftl 1 levels - 1 <=? 0) with false
    by (symmetry; apply Z.leb_gt; rewrite Z.shiftl_1_l; lia).
  rewrite Hmax.
  destruct (grow_odd malloc fuel 0%nat
              {| Tree.heap := [Tree.leaf 0]; Tree.queue := [0%nat];
                 Tree.slots := Z.of_nat (2 * (0 + n) + 1);
                 Tree.head := 0%nat; Tree.count := 1 |} n)
    as (s' & Hgrow); [repeat split | lia | | cbn [Tree.slots]; lia |].
  - intros k Hk. apply Hnodes. cbn [Nat.add] in Hk. lia.
  - rewrite Hgrow. cbn [mbind option_bind].
    apply grow_ret in Hgrow; [|repeat split].
    rewrite Hgrow, Hn. reflexivity.
Qed.


(** The first refusal of a node ends the loop in [exit(1)]: a left child
    is an even call of [malloc], a right child an odd one. *)
Lemma grow_refused malloc fuel :
  forall h s n k,
    grown h s -> (n <= fuel)%nat ->
    (2 * h + 2 <= k <= 2 * (h + n) + 1)%nat ->
    (forall j, (1 <= j < k)%nat -> malloc j Tree.NODE_SIZE = true) ->
    malloc k Tree.NODE_SIZE = false ->
    Z.of_nat (2 * (h + n) + 1) <= Tree.slots s ->
    Tree.grow malloc fuel (Z.of_nat (2 * (h + n) + 1)) s
    = Some (Tree.Exit (if Nat.even k then "malloc L" else "malloc R")).
Proof.
  induction fuel as [|fuel IH]; intros h s n k Hg Hn Hk Hgrant Hrefuse Hslots; [lia|].
  destruct n as [|n]; [lia|].
  cbn [Tree.grow]. pose proof Hg as (_ & Hc & _). rewrite Hc.
  replace (Z.of_nat (2 * h + 1) <? Z.of_nat (2 * (h + S n) + 1)) with true
    by (symmetry; apply Z.ltb_lt; lia).
  destruct (step_two malloc h s (Z.of_nat (2 * (h + S n) + 1)) Hg)
    as (s1 & Hg1 & Hs1 & Hstep); [lia|].
  rewrite Hstep.
  destruct (Nat.eq_dec k (2 * h + 2)%nat) as [->|Hne].
  { rewrite Hrefuse. cbn [negb].
    replace (2 * h + 2)%nat with (0 + 2 * (h + 1))%nat by lia.
    rewrite Nat.even_add_mul_2. reflexivity. }
  rewrite (Hgrant (2 * h + 2)%nat) by lia. cbn [negb].
  replace (Tree.slots s <=? Z.of_nat (2 * h + 1)) with false
    by (symmetry; apply Z.leb_gt; lia).
  destruct (Nat.eq_dec k (2 * h + 3)%nat) as [->|Hne'].
  { rewrite Hrefuse. cbn [negb].
    replace (2 * h + 3)%nat with (1 + 2 * (h + 1))%nat by lia.
    rewrite Nat.even_add_mul_2. reflexivity. }
  rewrite (Hgrant (2 * h + 3)%nat) by lia. cbn [negb].
  replace (Tree.slots s <=? Z.of_nat (2 * h + 2)) with false
    by (symmetry; apply Z.leb_gt; lia).
  replace (h + S n)%nat with (S h + n)%nat in Hslots |- * by lia.
  apply IH; try assumption; lia.
Qed.

(** X27. [build_tree] lays the full binary tree out level by level.  For
    [levels] between 1 and 57, when the queue of [8 * (2^levels - 1)]
    bytes and the [2^levels - 1] nodes of 64 bytes are granted, it returns
    the node allocated first, [2^levels - 1] nodes are allocated, and the
    node allocated as number [k] holds the value [k] and points to the
    nodes [2k+1] and [2k+2], or to [NULL] where these do not exist; for 0
    levels it returns [NULL] and allocates nothing.  A request that is
    refused ends the program in [exit(1)], with the message of the queue,
    of the root, or of the left or right child that was refused.  From 58
    levels on the queue and the nodes need more than the [2^64] bytes
    that can be addressed, and for 62 and 63 levels the size of the queue
    wraps to [2^64 - 8]. *)
Theorem build_tree_is_level_order
    (malloc : nat -> Z -> bool) (fuel : nat) (levels : Z) :
  1 <= levels <= 57 ->
  (2 ^ Z.to_nat levels <= 2 * fuel + 2)%nat ->
  malloc 0%nat ((Z.shiftl 1 levels - 1) * Tree.POINTER_SIZE) = true ->
  (forall k, (1 <= k <= 2 ^ Z.to_nat levels - 1)%nat ->
             malloc k Tree.NODE_SIZE = true) ->
  let max := (2 ^ Z.to_nat levels - 1)%nat in
  (exists nodes,
      Tree.build_tree malloc fuel levels = Some (Tree.Ret (Some 0%nat, nodes))
      /\ length nodes = max
      /\ (forall k, (k < max)%nat ->
            nodes !! k
            = Some {| Tree.val := Z.of_nat k;
                      Tree.left := if (2 * k + 1 <? max)%nat
                                   then Some (2 * k + 1)%nat else None;
                      Tree.right := if (2 * k + 2 <? max)%nat
                                    then Some (2 * k + 2)%nat else None |}))
  /\ Tree.build_tree malloc fuel 0 = Some (Tree.Ret (None, []))
  /\ (Z.of_nat max * Tree.POINTER_SIZE + Z.of_nat max * Tree.NODE_SIZE < 2 ^ 64)
  /\ (forall refuse : nat -> Z -> bool,
        refuse 0%nat ((Z.shiftl 1 levels - 1) * Tree.POINTER_SIZE) = false ->
        Tree.build_tree refuse fuel levels = Some (Tree.Exit "malloc queue"))
  /\ (forall refuse : nat -> Z -> bool,
        refuse 0%nat ((Z.shiftl 1 levels - 1) * Tree.POINTER_SIZE) = true ->
        refuse 1%nat Tree.NODE_SIZE = false ->
        Tree.build_tree refuse fuel levels = Some (Tree.Exit "malloc root"))
  /\ (forall (refuse : nat -> Z -> bool) (k : nat),
        refuse 0%nat ((Z.shiftl 1 levels - 1) * Tree.POINTER_SIZE) = true ->
        (2 <= k <= max)%nat ->
        (forall j, (1 <= j < k)%nat -> refuse j Tree.NODE_SIZE = true) ->
        refuse k Tree.NODE_SIZE = false ->
        Tree.build_tree refuse fuel levels
        = Some (Tree.Exit (if Nat.even k then "malloc L" else "malloc R")))
  /\ (forall lv, 58 <= lv <= 63 ->
        2 ^ 64 < (Z.shiftl 1 lv - 1) * Tree.POINTER_SIZE
                 + (Z.shiftl 1 lv - 1) * Tree.NODE_SIZE)
  /\ wrap64 ((Z.shiftl 1 62 - 1) * Tree.POINTER_SIZE) = 2 ^ 64 - 8
  /\ wrap64 ((Z.shiftl 1 63 - 1) * Tree.POINTER_SIZE) = 2 ^ 64 - 8.
Proof.
  intros Hl Hfuel Hqueue Hnodes max.
  assert (Hpow : 2 <= 2 ^ levels <= 2 ^ 57).
  { split; [change 2 with (2 ^ 1) at 1|]; apply Z.pow_le_mono_r; lia. }
  assert (Hmaxz : Z.of_nat max = 2 ^ levels - 1).
  { unfold max.
    rewrite Nat2Z.inj_sub by (pose proof (Nat.pow_nonzero 2 (Z.to_nat levels)); lia).
    rewrite Nat2Z.inj_pow, Z2Nat.id by lia. reflexivity. }
  destruct (pow2_odd (Z.to_nat levels)) as (n & Hn); [lia|].
  pose proof (max_nodes_odd levels n ltac:(lia) Hn) as Hmax.
  assert (Hstart : forall refuse : nat -> Z -> bool,
             refuse 0%nat ((Z.shiftl 1 levels - 1) * Tree.POINTER_SIZE) = true ->
             refuse 1%nat Tree.NODE_SIZE = true ->
             Tree.build_tree refuse fuel levels
             = (r ← Tree.grow refuse fuel (Z.of_nat (2 * (0 + n) + 1))
                      {| Tree.heap := [Tree.leaf 0]; Tree.queue := [0%nat];
                         Tree.slots := Z.of_nat (2 * (0 + n) + 1);
                         Tree.head := 0%nat; Tree.count := 1 |};
                match r with
                | Tree.Ret s => Some (Tree.Ret (Some 0%nat, Tree.heap s))
                | Tree.Exit what => Some (Tree.Exit what)
                end)).
  { intros refuse Hq Hroot. unfold Tree.build_tree.
    replace (levels =? 0) with false by (symmetry; apply Z.eqb_neq; lia).
    replace (64 <=? levels) with false by (symmetry; apply Z.leb_gt; lia).
    cbv zeta. rewrite queue_size_fits, Hq, Hroot by lia. cbn [negb].
    rewrite Z.div_mul by (unfold Tree.POINTER_SIZE; lia).
    replace (Z.shiftl 1 levels - 1 <=? 0) with false
      by (symmetry; apply Z.leb_gt; rewrite Z.shiftl_1_l; lia).
    rewrite Hmax. reflexivity. }
  split.
  { exists (full_tree max).
    split; [apply build_tree_full; try assumption; lia|].
    split; [apply full_tree_length|].
    intros k Hk. apply full_tree_lookup, Hk. }
  split; [reflexivity|].
  split.
  { rewrite Hmaxz. unfold Tree.POINTER_SIZE, Tree.NODE_SIZE.
    change (2 ^ 64) with (2 ^ 57 * 128). lia. }
  split.
  { intros refuse Hq. unfold Tree.build_tree.
    replace (levels =? 0) with false by (symmetry; apply Z.eqb_neq; lia).
    replace (64 <=? levels) with false by (symmetry; apply Z.leb_gt; lia).
    cbv zeta. rewrite queue_size_fits, Hq by lia. reflexivity. }
  split.
  { intros refuse Hq Hroot. unfold Tree.build_tree.
    replace (levels =? 0) with false by (symmetry; apply Z.eqb_neq; lia).
    replace (64 <=? levels) with false by (symmetry; apply Z.leb_gt; lia).
    cbv zeta. rewrite queue_size_fits, Hq, Hroot by lia. reflexivity. }
  split.
  { intros refuse k Hq Hk Hgrant Hrefuse.
    rewrite Hstart by (assumption || (apply Hgrant; lia)).
    rewrite (grow_refused refuse fuel 0%nat _ n k);
      [reflexivity | repeat split | lia | cbn [Nat.add]; unfold max in Hk; lia
       | exact Hgrant | exact Hrefuse | cbn [Tree.slots]; lia]. }
  split.
  { intros lv Hlv. rewrite Z.shiftl_1_l.
    assert (2 ^ 58 <= 2 ^ lv) by (apply Z.pow_le_mono_r; lia).
    unfold Tree.POINTER_SIZE, Tree.NODE_SIZE.
    change (2 ^ 64) with (2 ^ 58 * 64). lia. }
  split; reflexivity.
Qed.

Lemma build_tree_is_level_order_witness :
  exists nodes,
    Tree.build_tree granting 3 3 = Some (Tree.Ret (Some 0%nat, nodes))
    /\ length nodes = 7%nat
    /\ nodes !! 2%nat
       = Some {| Tree.val := 2; Tree.left := Some 5%nat; Tree.right := Some 6%nat |}.
Proof.
  destruct (build_tree_is_level_order granting 3 3)
    as ((nodes & Hrun & Hlen & Hnodes) & _).
  - lia.
  - vm_compute. lia.
  - reflexivity.
  - reflexivity.
  - exists nodes. split; [exact Hrun|]. split; [exact Hlen|].
    apply (Hnodes 2%nat). vm_compute. lia.
Defined.

(** The sweep of the subtree below a node of the full tree. *)
Lemma traverse_visit (L : nat) :
  forall d l k,
    (l + d = L)%nat -> (2 ^ l <= k + 1 < 2 ^ S l)%nat ->
    Tree.traverse d (full_tree (2 ^ L - 1)) (child (2 ^ L - 1) k)
    = Some (visit d k).
Proof.
  induction d as [|d IH]; intros l k Hl Hk.
  - rewrite child_none; [reflexivity|].
    replace l with L in Hk by lia. lia.
  - assert (Hpow : (2 ^ S l <= 2 ^ L)%nat) by (apply Nat.pow_le_mono_r; lia).
    rewrite child_some by lia. cbn [Tree.traverse visit].
    rewrite full_tree_lookup by lia. cbn [mbind option_bind].
    unfold heap_node at 1. cbn [Tree.val].
    assert (Hkids : forall c, (c = 2 * k + 1 \/ c = 2 * k + 2)%nat ->
              Tree.traverse d (full_tree (2 ^ L - 1)) (child (2 ^ L - 1) c)
              = Some (visit d c)).
    { intros c Hc. apply (IH (S l)); [lia|].
      rewrite (Nat.pow_succ_r' 2 (S l)). rewrite Nat.pow_succ_r' in Hk |- *.
      lia. }
    unfold heap_node. cbn [Tree.left Tree.right].
    rewrite !Hkids by lia.
    destruct (Z.of_nat k mod 2 =? 0); reflexivity.
Qed.

Lemma visit_length d : forall k, (length (visit d k) + 1 = 2 ^ d)%nat.
Proof.
  induction d as [|d IH]; intros k; [reflexivity|].
  cbn [visit]. rewrite Nat.pow_succ_r'.
  pose proof (IH (2 * k + 1)%nat). pose proof (IH (2 * k + 2)%nat).
  destruct (Z.of_nat k mod 2 =? 0); cbn [length]; rewrite length_app; lia.
Qed.

Lemma visit_elem d :
  forall k x j, (j < d)%nat ->
    ((k + 1) * 2 ^ j <= x + 1 < (k + 2) * 2 ^ j)%nat -> x ∈ visit d k.
Proof.
  induction d as [|d IH]; intros k x j Hj Hx; [lia|].
  assert (Hin : x = k \/ x ∈ visit d (2 * k + 1) \/ x ∈ visit d (2 * k + 2)).
  { destruct j as [|j].
    - left. cbn [Nat.pow] in Hx. lia.
    - right. rewrite Nat.pow_succ_r' in Hx.
      destruct (Nat.lt_ge_cases (x + 1)%nat ((2 * k + 3) * 2 ^ j)%nat) as [Hlt|Hge].
      + left. apply (IH _ _ j); [lia|]. nia.
      + right. apply (IH _ _ j); [lia|]. nia. }
  cbn [visit]. destruct (Z.of_nat k mod 2 =? 0);
    rewrite elem_of_cons, elem_of_app; tauto.
Qed.

(** One sweep from the root reads every node once. *)
Lemma sweep_full_tree (L : nat) :
  (1 <= L)%nat ->
  exists reads,
    Tree.traverse L (full_tree (2 ^ L - 1)) (Some 0%nat) = Some reads
    /\ reads ≡ₚ seq 0 (2 ^ L - 1).
Proof.
  intros HL. exists (visit L 0).
  assert (Hpos : (2 <= 2 ^ L)%nat).
  { destruct L as [|L]; [lia|]. rewrite Nat.pow_succ_r'.
    pose proof (Nat.pow_nonzero 2 L). lia. }
  split.
  - rewrite <- (child_some (2 ^ L - 1) 0) by lia.
    apply (traverse_visit L L 0%nat 0%nat); [lia | cbn; lia].
  - symmetry. apply NoDup_Permutation_bis.
    + apply NoDup_ListNoDup, NoDup_seq.
    + rewrite length_seq. pose proof (visit_length L 0). lia.
    + intros x Hx. apply in_seq in Hx. apply list_elem_of_In.
      apply (visit_elem L 0%nat x (Nat.log2 (x + 1))).
      * apply Nat.log2_lt_pow2; lia.
      * cbn [Nat.add]. rewrite Nat.mul_1_l.
        pose proof (Nat.log2_spec (x + 1) ltac:(lia)) as Hlog.
        rewrite Nat.pow_succ_r' in Hlog. lia.
Qed.

(** X28. One sweep reads every node of the tree once: on the tree that
    [build_tree] returns for [levels] between 1 and 63, [traverse] from
    the root never follows a pointer out of the allocated nodes, recurses
    no deeper than [levels] calls below the root, and reads each of the
    [2^levels - 1] nodes exactly once. *)
Theorem traverse_reads_every_node_once
    (malloc : nat -> Z -> bool) (fuel : nat) (levels : Z)
    (root : option nat) (nodes : list Tree.Node) :
  1 <= levels <= 63 ->
  Tree.build_tree malloc fuel levels = Some (Tree.Ret (root, nodes)) ->
  exists reads,
    Tree.traverse (Z.to_nat levels) nodes root = Some reads
    /\ reads ≡ₚ seq 0 (length nodes)
    /\ length nodes = (2 ^ Z.to_nat levels - 1)%nat.
Proof.
  intros Hl Hbuild.
  destruct (build_tree_ret malloc fuel levels root nodes Hl Hbuild) as [-> ->].
  destruct (sweep_full_tree (Z.to_nat levels)) as (reads & Hrun & Hperm); [lia|].
  exists reads. rewrite full_tree_length. split; [exact Hrun|].
  split; [exact Hperm | reflexivity].
Qed.

Lemma traverse_reads_every_node_once_witness :
  Tree.build_tree granting 3 3 = Some (Tree.Ret (Some 0%nat, full_tree 7))
  /\ exists reads,
       Tree.traverse 3 (full_tree 7) (Some 0%nat) = Some reads
       /\ reads ≡ₚ seq 0 7.
Proof.
  assert (Hl : 1 <= 3 <= 63) by lia.
  assert (Hb : Tree.build_tree granting 3 3
               = Some (Tree.Ret (Some 0%nat, full_tree 7)))
    by (vm_compute; reflexivity).
  split; [exact Hb|].
  destruct (traverse_reads_every_node_once granting 3 3 (Some 0%nat) (full_tree 7)
              Hl Hb)
    as (reads & Hrun & Hperm & _).
  exists reads. split; [exact Hrun | exact Hperm].
Defined.

(** ** The per-core scorer: the map file *)

Lemma no_sp_app s r : no_sp (s +:+ r) = no_sp s && no_sp r.
Proof.
  induction s as [|c s IH]; [reflexivity|].
  rewrite str_app_cons. cbn [no_sp]. rewrite IH, andb_assoc. reflexivity.
Qed.

Lemma no_comma_app s r : no_comma (s +:+ r) = no_comma s && no_comma r.
Proof.
  induction s as [|c s IH]; [reflexivity|].
  rewrite str_app_cons. cbn [no_comma]. rewrite IH, andb_assoc. reflexivity.
Qed.

Lemma sp_not_comma c : CoreMap.is_sp c = true -> CoreMap.is_comma c = false.
Proof.
  unfold CoreMap.is_sp, CoreMap.is_comma. intros H.
  apply orb_true_iff in H as [H|H]; apply Z.eqb_eq in H; rewrite H; reflexivity.
Qed.

Lemma drop_sp_none s : no_sp s = true -> CoreMap.drop_sp s = s.
Proof.
  destruct s as [|c s]; [reflexivity|]. cbn [no_sp CoreMap.drop_sp].
  intros H. apply andb_true_iff in H as [Hc _]. apply negb_true_iff in Hc.
  rewrite Hc. reflexivity.
Qed.

Lemma drop_sp_end_none s : no_sp s = true -> CoreMap.drop_sp_end s = s.
Proof.
  induction s as [|c s IH]; [reflexivity|]. cbn [no_sp CoreMap.drop_sp_end].
  intros H. apply andb_true_iff in H as [Hc Hs]. apply negb_true_iff in Hc.
  rewrite Hc, IH by exact Hs. reflexivity.
Qed.

(** No piece that [split] returns holds a comma. *)
Lemma pieces_no_comma s :
  forall cur pend sep,
    no_comma cur = true -> no_comma pend = true ->
    Forall (fun p => no_comma p = true) (CoreMap.pieces s cur pend sep).
Proof.
  induction s as [|c s IH]; intros cur pend sep Hcur Hpend.
  - cbn [CoreMap.pieces]. constructor; [|constructor].
    rewrite no_comma_app, Hcur, Hpend. reflexivity.
  - cbn [CoreMap.pieces]. destruct (CoreMap.is_sp c) eqn:Hsp.
    + destruct sep; apply IH; try assumption.
      rewrite no_comma_app, Hpend. cbn [no_comma].
      rewrite (sp_not_comma c Hsp). reflexivity.
    + destruct (CoreMap.is_comma c) eqn:Hc.
      * constructor; [exact Hcur|]. apply IH; reflexivity.
      * apply IH; [|reflexivity].
        rewrite !no_comma_app, Hcur, Hpend. cbn [no_comma]. rewrite Hc.
        reflexivity.
Qed.

Lemma comma_pieces_none s :
  forall cur, no_comma s = true -> CoreMap.comma_pieces s cur = [cur +:+ s].
Proof.
  induction s as [|c s IH]; intros cur Hs.
  - cbn [CoreMap.comma_pieces]. rewrite str_app_nil_r. reflexivity.
  - cbn [no_comma] in Hs. apply andb_true_iff in Hs as [Hc Hs].
    apply negb_true_iff in Hc. cbn [CoreMap.comma_pieces]. rewrite Hc.
    rewrite IH by exact Hs. rewrite str_app_assoc. reflexivity.
Qed.

Lemma split_comma_none s :
  no_comma s = true ->
  CoreMap.split_comma s = match s with EmptyString => [] | _ => [s] end.
Proof.
  intros Hs. destruct s as [|c s]; [reflexivity|].
  unfold CoreMap.split_comma. rewrite comma_pieces_none by exact Hs.
  reflexivity.
Qed.

(** An entry is read into the piece as it stands. *)
Lemma pieces_entry f :
  forall r cur sep,
    no_sp f = true -> no_comma f = true ->
    CoreMap.pieces (f +:+ r) cur EmptyString sep
    = CoreMap.pieces r (cur +:+ f) EmptyString
        (match f with EmptyString => sep | _ => false end).
Proof.
  induction f as [|c f IH]; intros r cur sep Hsp Hco.
  - rewrite str_app_nil_l, str_app_nil_r. reflexivity.
  - cbn [no_sp] in Hsp. cbn [no_comma] in Hco.
    apply andb_true_iff in Hsp as [Hc1 Hsp]. apply negb_true_iff in Hc1.
    apply andb_true_iff in Hco as [Hc2 Hco]. apply negb_true_iff in Hc2.
    rewrite str_app_cons. cbn [CoreMap.pieces]. rewrite Hc1, Hc2.
    rewrite str_app_nil_l, IH by assumption.
    rewrite str_app_assoc. destruct f; reflexivity.
Qed.

Lemma pieces_more l :
  forall cur sep,
    Forall entry l ->
    CoreMap.pieces (more_entries l) cur EmptyString sep = cur :: l.
Proof.
  induction l as [|s l IH]; intros cur sep Hall.
  - cbn [more_entries CoreMap.pieces]. rewrite str_app_nil_r. reflexivity.
  - apply Forall_cons in Hall as [(Hne & Hsp & Hco) Hall].
    cbn [more_entries]. rewrite str_app_cons, str_app_nil_l.
    cbn [CoreMap.pieces].
    change (CoreMap.is_sp ",") with false. change (CoreMap.is_comma ",") with true.
    cbv iota. rewrite pieces_entry by assumption.
    rewrite str_app_nil_l, IH by exact Hall. reflexivity.
Qed.

Lemma no_sp_more l : Forall entry l -> no_sp (more_entries l) = true.
Proof.
  induction l as [|s l IH]; intros Hall; [reflexivity|].
  apply Forall_cons in Hall as [(_ & Hsp & _) Hall].
  cbn [more_entries]. rewrite str_app_cons, str_app_nil_l. cbn [no_sp].
  change (CoreMap.is_sp ",") with false.
  rewrite no_sp_app, Hsp, IH by exact Hall. reflexivity.
Qed.

(** X29. A map line enters at most one segment of its core list: the
    array [parts] that the segment loop of the BEGIN block goes through
    never holds more than one element, and for a line
    [proc,s1,s2,...,sk] it holds [s1] alone, so the segments after the
    first comma of a core list never reach [core2proc]. *)
Theorem map_line_keeps_first_segment_only (raw proc s1 : string)
    (rest : list string) :
  (forall p parts, CoreMap.map_line raw = Some (p, parts) ->
                   (length parts <= 1)%nat)
  /\ (entry proc -> String.prefix "#" proc = false ->
      entry s1 -> Forall entry rest ->
      CoreMap.map_line (proc +:+ more_entries (s1 :: rest)) = Some (proc, [s1])).
Proof.
  split.
  - intros p parts. unfold CoreMap.map_line. cbv zeta.
    destruct (_ || _); [discriminate|]. intros [= _ <-].
    set (a := CoreMap.split_sep (CoreMap.trim raw)).
    assert (Ha : Forall (fun x => no_comma x = true) a).
    { unfold a, CoreMap.split_sep. destruct (CoreMap.trim raw); [constructor|].
      apply pieces_no_comma; reflexivity. }
    assert (Hspec : no_comma (nth 1 a EmptyString) = true).
    { destruct (nth_in_or_default 1 a EmptyString) as [Hin | Hdef]; [|rewrite Hdef; reflexivity].
      rewrite List.Forall_forall in Ha. apply Ha, Hin. }
    rewrite split_comma_none by exact Hspec.
    destruct (nth 1 a EmptyString); cbn [length]; lia.
  - intros (Hne & Hsp & Hco) Hhash (Hne1 & Hsp1 & Hco1) Hrest.
    assert (Hall : Forall entry (s1 :: rest))
      by (constructor; [repeat split; assumption | exact Hrest]).
    unfold CoreMap.map_line, CoreMap.trim. cbv zeta.
    assert (Hline : no_sp (proc +:+ more_entries (s1 :: rest)) = true)
      by (rewrite no_sp_app, Hsp, no_sp_more by exact Hall; reflexivity).
    rewrite drop_sp_none, drop_sp_end_none by (rewrite ?drop_sp_none; exact Hline).
    destruct proc as [|c proc']; [congruence|].
    assert (Hpre : String.prefix "#" (String c proc' +:+ more_entries (s1 :: rest))
                   = false).
    { rewrite str_app_cons.
      change (String.prefix "#" (String c proc'))
        with (if Ascii.ascii_dec "#" c then String.prefix "" proc' else false)
        in Hhash.
      change (String.prefix "#" (String c (proc' +:+ more_entries (s1 :: rest))))
        with (if Ascii.ascii_dec "#" c
              then String.prefix "" (proc' +:+ more_entries (s1 :: rest))
              else false).
      destruct (Ascii.ascii_dec "#" c) as [Heq|Hneq]; [|reflexivity].
      destruct proc'; discriminate Hhash. }
    assert (Hnonempty : String.eqb (String c proc' +:+ more_entries (s1 :: rest))
                          EmptyString = false)
      by (rewrite str_app_cons; reflexivity).
    assert (Hsplit : CoreMap.split_sep (String c proc' +:+ more_entries (s1 :: rest))
                     = String c proc' :: s1 :: rest).
    { unfold CoreMap.split_sep. rewrite str_app_cons.
      change (String c (proc' +:+ more_entries (s1 :: rest)))
        with (String c proc' +:+ more_entries (s1 :: rest)).
      rewrite pieces_entry, str_app_nil_l, pieces_more by assumption.
      reflexivity. }
    rewrite Hnonempty, Hpre, Hsplit. cbn [orb nth].
    rewrite split_comma_none by exact Hco1.
    destruct s1; [congruence | reflexivity].
Qed.

Lemma map_line_keeps_first_segment_only_witness :
  CoreMap.map_line "proc1,24,26-27" = Some ("proc1", ["24"]).
Proof.
  apply (proj2 (map_line_keeps_first_segment_only EmptyString "proc1" "24" ["26-27"])).
  - repeat split; discriminate.
  - reflexivity.
  - repeat split; discriminate.
  - constructor; [repeat split; discriminate | constructor].
Defined.

(** ** The suffixes that the block parser leaves in place *)

(** Digits followed by an upper-case suffix read as the digits alone. *)
Lemma strtonum_digits_upper d a :
  digits_only d = true -> a = "K"%char \/ a = "M"%char ->
  (Awk.strtonum (d +:+ String a EmptyString) == inject_Z (dec_value d))%Q.
Proof.
  intros Hd Ha. destruct d as [|c s]; [discriminate|].
  pose proof Hd as Hall. simpl in Hall.
  apply andb_true_iff in Hall as [Hc Hrest].
  unfold Awk.strtonum. rewrite str_app_cons. cbn [skip_space].
  rewrite (is_digit_not_space c Hc), (take_sign_digit c _ Hc).
  rewrite <- str_app_cons, scan_digits_all by exact Hd.
  fold (dec_value (String c s)).
  assert (Hlen : (0 + Z.of_nat (String.length (String c s)) + 0 =? 0) = false)
    by (apply Z.eqb_neq; cbn [String.length]; lia).
  destruct Ha as [-> | ->]; cbn [Awk.scan_digits];
    change (is_digit _) with false; cbv beta iota; rewrite Hlen;
    cbn [Awk.scan_exponent];
    change (Qpower (10 # 1) (0 - 0)) with 1%Q; apply Qmult_1_r.
Qed.

Lemma expand_miss_upper d a :
  digits_only d = true -> a = "K"%char \/ a = "M"%char ->
  (Awk.expand_miss (d +:+ String a EmptyString) == inject_Z (dec_value d))%Q.
Proof.
  intros Hd Ha. unfold Awk.expand_miss.
  rewrite !(gsub_suffix_miss _ _ d a) by (destruct Ha as [-> | ->]; reflexivity).
  apply strtonum_digits_upper; assumption.
Qed.

Lemma expand_mis_upper_K d :
  digits_only d = true ->
  (CoreScript.expand_mis (d +:+ "K") == inject_Z (dec_value d * 1000))%Q.
Proof.
  intros Hd. pose proof (digits_only_all d Hd) as Hall.
  assert (Hz3 : all_digits (d +:+ "000") = true)
    by (rewrite all_digits_app, Hall; reflexivity).
  unfold CoreScript.expand_mis.
  rewrite !(gsub_suffix_miss _ _ d "K") by reflexivity.
  rewrite gsub_suffix_hit.
  rewrite !(gsub_suffix_digits _ _ (d +:+ "000")) by (reflexivity || exact Hz3).
  apply (strtonum_zeros d "000"); [assumption | reflexivity | reflexivity].
Qed.

Lemma expand_mis_upper_M d :
  digits_only d = true ->
  (CoreScript.expand_mis (d +:+ "M") == inject_Z (dec_value d * 1000000))%Q.
Proof.
  intros Hd. unfold CoreScript.expand_mis.
  rewrite !(gsub_suffix_miss _ _ d "M") by reflexivity.
  rewrite gsub_suffix_hit.
  apply (strtonum_zeros d "000000"); [assumption | reflexivity | reflexivity].
Qed.

(** C6 on the two parsers. The block parser of noisy_detector.sh expands
    the lower-case suffixes [k] and [m] of the miss count before its
    arithmetic and reads digits alone as their value, but it leaves the
    upper-case suffixes in place: digits followed by [K] or [M] are read
    as the digits alone, so ["12K"] counts as 12 and ["3M"] as 3, and a
    log whose only row reads [3M] is handed to bash as 3 misses.  The
    per-core scorer, the sibling parser of the same column, expands [K]
    and [M] as well. *)
Theorem miss_suffix_upper_case_is_not_expanded :
  (forall d,
      digits_only d = true ->
      (Awk.expand_miss (d +:+ "k") == inject_Z (dec_value d * 1000))%Q
      /\ (Awk.expand_miss (d +:+ "m") == inject_Z (dec_value d * 1000000))%Q
      /\ (Awk.expand_miss d == inject_Z (dec_value d))%Q
      /\ (Awk.expand_miss (d +:+ "K") == inject_Z (dec_value d))%Q
      /\ (Awk.expand_miss (d +:+ "M") == inject_Z (dec_value d))%Q
      /\ (CoreScript.expand_mis (d +:+ "K") == inject_Z (dec_value d * 1000))%Q
      /\ (CoreScript.expand_mis (d +:+ "M") == inject_Z (dec_value d * 1000000))%Q)
  /\ (forall acc line,
         Awk.data_line line = true ->
         Aggregator.sum_miss (Aggregator.block_rule acc line)
         = (Aggregator.sum_miss acc
            + (Awk.expand_miss (Awk.field 4 (Awk.fields line)) + 0))%Q)
  /\ (Awk.expand_miss "12k" == 12000)%Q
  /\ (Awk.expand_miss "3m" == 3000000)%Q
  /\ (Awk.expand_miss "12K" == 12)%Q
  /\ ~ (Awk.expand_miss "12K" == 12000)%Q
  /\ (Awk.expand_miss "3M" == 3)%Q
  /\ ~ (Awk.expand_miss "3M" == 3000000)%Q
  /\ Awk.field 4 (Awk.fields (nth 2 upper_case_log EmptyString)) = "3M"
  /\ Aggregator.parse_log upper_case_log = (3, 512, 3).
Proof.
  split.
  { intros d Hd.
    split; [apply expand_miss_k, Hd|].
    split; [apply expand_miss_m, Hd|].
    split; [apply expand_miss_plain, Hd|].
    split; [apply expand_miss_upper; [exact Hd | left; reflexivity]|].
    split; [apply expand_miss_upper; [exact Hd | right; reflexivity]|].
    split; [apply expand_mis_upper_K, Hd | apply expand_mis_upper_M, Hd]. }
  split.
  { intros acc line Hline. unfold Aggregator.block_rule. rewrite Hline.
    reflexivity. }
  split; [reflexivity|]. split; [reflexivity|]. split; [reflexivity|].
  split; [discriminate|]. split; [reflexivity|]. split; [discriminate|].
  split; [reflexivity|]. vm_compute. reflexivity.
Qed.

(** ** Reading a written row back *)

Lemma fields_from_space s :
  Awk.fields_from (String " " s) None = Awk.fields_from s None.
Proof. reflexivity. Qed.

Lemma fields_from_blanks k s :
  Awk.fields_from (repeat_char " " k +:+ s) None = Awk.fields_from s None.
Proof. induction k as [|k IH]; [reflexivity | exact IH]. Qed.

Lemma fields_from_word_some w rest cur :
  no_blank w = true ->
  Awk.fields_from (w +:+ String " " rest) (Some cur)
  = (cur +:+ w) :: Awk.fields_from rest None.
Proof.
  revert cur. induction w as [|c w IH]; intros cur Hw.
  - rewrite str_app_nil_l, str_app_nil_r. reflexivity.
  - simpl in Hw. apply andb_true_iff in Hw as [Hc Hw].
    apply negb_true_iff in Hc. rewrite str_app_cons. cbn [Awk.fields_from].
    rewrite Hc, IH by assumption. cbn [default]. rewrite str_app_assoc. reflexivity.
Qed.

Lemma fields_from_word_blank w rest :
  word w ->
  Awk.fields_from (w +:+ String " " rest) None = w :: Awk.fields_from rest None.
Proof.
  intros [Hne Hw]. destruct w as [|c w]; [congruence|].
  simpl in Hw. apply andb_true_iff in Hw as [Hc Hw].
  apply negb_true_iff in Hc. rewrite str_app_cons. cbn [Awk.fields_from].
  rewrite Hc, fields_from_word_some by assumption. reflexivity.
Qed.

Lemma fields_from_last w : word w -> Awk.fields_from w None = [w].
Proof.
  intros [Hne Hw]. apply (fields_pad_word 0 w Hne Hw).
Qed.

(** A padded column that is followed by a blank gives one field. *)
Lemma fields_from_column k w rest :
  word w ->
  Awk.fields_from (repeat_char " " k +:+ w +:+ String " " rest) None
  = w :: Awk.fields_from rest None.
Proof.
  intros Hw. rewrite fields_from_blanks. apply fields_from_word_blank, Hw.
Qed.

Lemma fields_from_split a b :
  forall cur,
    Awk.fields_from (a +:+ String " " b) cur
    = Awk.fields_from (a +:+ " ") cur ++ Awk.fields_from b None.
Proof.
  induction a as [|c a IH]; intros cur.
  - rewrite !str_app_nil_l. destruct cur; reflexivity.
  - rewrite !str_app_cons. cbn [Awk.fields_from].
    destruct (Awk.is_blank c); [|apply IH].
    destruct cur; [cbn [app]; f_equal|]; apply IH.
Qed.

Lemma word_digits d : digits_only d = true -> word d.
Proof.
  intros Hd. split; [destruct d; discriminate|].
  apply all_digits_no_blank, digits_only_all, Hd.
Qed.

Lemma word_app a b : word a -> no_blank b = true -> word (a +:+ b).
Proof.
  intros [Hne Ha] Hb. split.
  - destruct a; [congruence | discriminate].
  - rewrite no_blank_app, Ha, Hb. reflexivity.
Qed.

Lemma dec_of_Z_nonneg n : 0 <= n -> dec_of_Z n = dec_of_nonneg n.
Proof.
  intros Hn. unfold dec_of_Z.
  replace (n <? 0) with false by (symmetry; apply Z.ltb_ge; lia). reflexivity.
Qed.

Section WrittenRow.
Variable fixed2 : Q -> string.
Hypothesis fixed2_word : forall q, word (fixed2 q).

(** The fields of a written row: those of the target, then the five
    columns. *)
Lemma row_line_fields t target v :
  0 <= llc_misses_delta v -> 0 <= llc v ->
  Awk.fields (row_line fixed2 (sample_of t target v))
  = Awk.fields ("     " +:+ target +:+ " ")
    ++ [fixed2 (ipc v);
        dec_of_nonneg (llc_misses_delta v / 1024) +:+ "k";
        dec_of_nonneg (llc v / 1024);
        fixed2 (inject_Z (mbm_local_delta v) / inject_Z 1000000)%Q;
        fixed2 (inject_Z (mbm_remote_delta v) / inject_Z 1000000)%Q].
Proof.
  intros Hm Hl.
  destruct (dec_of_nonneg_spec (llc_misses_delta v / 1024)) as [Hdm _];
    [apply Z.div_pos; lia|].
  destruct (dec_of_nonneg_spec (llc v / 1024)) as [Hdl _];
    [apply Z.div_pos; lia|].
  unfold Awk.fields, row_line. cbn [sample_of row_target row_ipc row_misses
                                     row_llc_kb row_mbl row_mbr].
  rewrite <- (str_app_assoc "     " target).
  change ("   " +:+ ?x) with (String " " ("  " +:+ x)).
  rewrite fields_from_split. f_equal.
  unfold miss_field, pad_left.
  rewrite !str_app_assoc, !str_app_cons, !str_app_nil_l.
  match goal with
  | |- context [String "k" (String " " ?r)] =>
      change (String "k" (String " " r)) with ("k" +:+ String " " r)
  end.
  rewrite <- (str_app_assoc (dec_of_nonneg (llc_misses_delta v / 1024)) "k").
  rewrite !fields_from_space.
  rewrite fields_from_column by apply fixed2_word.
  rewrite !fields_from_space.
  rewrite fields_from_column by (apply word_app; [apply word_digits, Hdm | reflexivity]).
  rewrite !fields_from_space.
  rewrite fields_from_column by apply word_digits, Hdl.
  rewrite !fields_from_space.
  rewrite fields_from_column by apply fixed2_word.
  rewrite !fields_from_space.
  rewrite fields_from_blanks, fields_from_last by apply fixed2_word.
  reflexivity.
Qed.

(** The target column of a pid row is one field. *)
Lemma pid_target_fields pid :
  0 <= pid ->
  Awk.fields ("     " +:+ pad_left " " 6 (dec_of_Z pid) +:+ " ") = [dec_of_Z pid].
Proof.
  intros Hpid. rewrite !(dec_of_Z_nonneg pid Hpid).
  destruct (dec_of_nonneg_spec pid Hpid) as [Hd _].
  unfold Awk.fields, pad_left.
  rewrite !str_app_assoc, !str_app_cons, !str_app_nil_l, !fields_from_space.
  rewrite fields_from_column by apply word_digits, Hd. reflexivity.
Qed.

Lemma one_digit e :
  0 <= e <= 9 ->
  pad_left " " 2 (dec_of_Z e) = String " " (dec_of_Z e) /\ word (dec_of_Z e).
Proof.
  intros He.
  assert (H : e = 0 \/ e = 1 \/ e = 2 \/ e = 3 \/ e = 4 \/ e = 5 \/ e = 6
              \/ e = 7 \/ e = 8 \/ e = 9) by lia.
  repeat (destruct H as [->|H];
          [split; [reflexivity | split; [discriminate | reflexivity]]|]).
  subst e. split; [reflexivity | split; [discriminate | reflexivity]].
Qed.

(** The target column of a row of run_rdt.c holds a blank when the last
    core has one digit: awk reads two fields there. *)
Lemma cores_target_fields start nc :
  0 <= start -> 0 <= start + nc - 1 <= 9 ->
  Awk.fields ("     " +:+ RunRdt.cores_text start nc +:+ " ")
  = [dec_of_Z start +:+ "-"; dec_of_Z (start + nc - 1)].
Proof.
  intros Hs He. destruct (one_digit (start + nc - 1) He) as [Hpad Hword].
  unfold RunRdt.cores_text. rewrite Hpad, !(dec_of_Z_nonneg start Hs).
  destruct (dec_of_nonneg_spec start Hs) as [Hd _].
  unfold Awk.fields, pad_left.
  rewrite !str_app_assoc, !str_app_cons, !str_app_nil_l, !fields_from_space.
  match goal with
  | |- context [String "-" (String " " ?r)] =>
      change (String "-" (String " " r)) with ("-" +:+ String " " r)
  end.
  rewrite <- (str_app_assoc (dec_of_nonneg start) "-").
  rewrite fields_from_column by (apply word_app; [apply word_digits, Hd | reflexivity]).
  rewrite fields_from_word_blank by exact Hword. reflexivity.
Qed.

Lemma skip_digits_all s r :
  all_digits s = true ->
  CoreScript.skip_digits (s +:+ String " " r) = String " " r.
Proof.
  induction s as [|c s IH]; intros Hs; [reflexivity|].
  simpl in Hs. apply andb_true_iff in Hs as [Hc Hs].
  rewrite str_app_cons. cbn [CoreScript.skip_digits]. rewrite Hc. apply IH, Hs.
Qed.

(** The data rule of the per-core scorer matches a pid row. *)
Lemma pid_row_is_data_line t pid v :
  0 <= pid ->
  CoreScript.data_line
    (row_line fixed2 (sample_of t (pad_left " " 6 (dec_of_Z pid)) v)) = true.
Proof.
  intros Hpid. rewrite !(dec_of_Z_nonneg pid Hpid).
  destruct (dec_of_nonneg_spec pid Hpid) as [Hd _].
  unfold CoreScript.data_line, row_line. cbn [sample_of row_target].
  unfold pad_left at 1.
  rewrite !str_app_assoc.
  change ("     " +:+ ?x) with (repeat_char " " 5 +:+ x).
  rewrite !skip_space_pad.
  destruct (dec_of_nonneg pid) as [|c d] eqn:Hdec; [discriminate|].
  simpl in Hd. apply andb_true_iff in Hd as [Hc Hd].
  rewrite str_app_cons. cbn [skip_space]. rewrite (is_digit_not_space c Hc), Hc.
  change ("   " +:+ ?x) with (String " " ("  " +:+ x)).
  rewrite skip_digits_all by exact Hd. reflexivity.
Qed.

(** The block rule of noisy_detector.sh matches every written row whose
    target starts with a digit. *)
Lemma cores_row_is_data_line t start nc v :
  0 <= start ->
  Awk.data_line (row_line fixed2 (sample_of t (RunRdt.cores_text start nc) v)) = true.
Proof.
  intros Hs. unfold Awk.data_line, row_line, RunRdt.cores_text.
  cbn [sample_of row_target]. rewrite !(dec_of_Z_nonneg start Hs).
  destruct (dec_of_nonneg_spec start Hs) as [Hd _].
  unfold pad_left at 1. rewrite !str_app_assoc.
  change ("     " +:+ ?x) with (repeat_char " " 5 +:+ x).
  rewrite !skip_space_pad.
  destruct (dec_of_nonneg start) as [|c d] eqn:Hdec; [discriminate|].
  simpl in Hd. apply andb_true_iff in Hd as [Hc Hd].
  rewrite str_app_cons. cbn [skip_space]. rewrite (is_digit_not_space c Hc).
  exact Hc.
Qed.

Lemma expand_mis_lower_k d :
  digits_only d = true ->
  (CoreScript.expand_mis (d +:+ "k") == inject_Z (dec_value d * 1000))%Q.
Proof.
  intros Hd. pose proof (digits_only_all d Hd) as Hall.
  assert (Hz3 : all_digits (d +:+ "000") = true)
    by (rewrite all_digits_app, Hall; reflexivity).
  unfold CoreScript.expand_mis. rewrite gsub_suffix_hit.
  rewrite !(gsub_suffix_digits _ _ (d +:+ "000")) by (reflexivity || exact Hz3).
  apply (strtonum_zeros d "000"); [assumption | reflexivity | reflexivity].
Qed.

Lemma thousands_below delta :
  1024 <= delta -> delta / 1024 * 1000 < delta.
Proof.
  intros Hbig.
  pose proof (Z.div_mod delta 1024 ltac:(lia)).
  pose proof (Z.mod_pos_bound delta 1024 ltac:(lia)).
  assert (1 <= delta / 1024) by (apply Z.div_le_lower_bound; lia).
  lia.
Qed.

(** C10. In every round of their polling loops [monitor_pids_pair] and
    [monitor_cores] append one row whose MISSES column holds the raw miss
    delta divided by 1024 (integer division) followed by [k].  Read back
    from the text of the row, the column is the field that the data rule
    of the per-core scorer takes as misses on a pid row, and the field
    that the block parser of noisy_detector.sh takes as misses on a row
    of run_rdt.c whose last core has one digit; the suffix expansion of
    either parser makes [floor(delta/1024) * 1000] of it, which is less
    than the raw delta whenever the delta is at least 1024: the round
    trip is not the identity. *)
Theorem miss_round_trip_understates (h : host) :
  (forall w pid1 pid2 outfile1 outfile2 c1 c2,
      outfile1 <> outfile2 ->
      files w !! outfile1 = Some c1 ->
      files w !! outfile2 = Some c2 ->
      proc_alive h pid1 (now w + 1) = true ->
      proc_alive h pid2 (now w + 1) = true ->
      mon_poll_ret h (now w + 1) = PQOS_RETVAL_OK ->
      exists w' r1 r2,
        poll_pair h pid1 pid2 outfile1 outfile2 w = (w', Ok tt)
        /\ files w' !! outfile1 = Some (c1 ++ [Row r1])
        /\ files w' !! outfile2 = Some (c2 ++ [Row r2])
        /\ r1 = sample_of (now w + 1) (pad_left " " 6 (dec_of_Z pid1))
                  (mon_read h (Pid pid1) (now w + 1))
        /\ r2 = sample_of (now w + 1) (pad_left " " 6 (dec_of_Z pid2))
                  (mon_read h (Pid pid2) (now w + 1))
        /\ row_misses r1
           = pad_left " " 8
               (dec_of_nonneg
                  (llc_misses_delta (mon_read h (Pid pid1) (now w + 1)) / 1024))
             +:+ "k"
        /\ row_misses r2
           = pad_left " " 8
               (dec_of_nonneg
                  (llc_misses_delta (mon_read h (Pid pid2) (now w + 1)) / 1024))
             +:+ "k")
  /\ (forall w start nc outfile c,
        files w !! outfile = Some c ->
        mon_poll_ret h (now w + 1) = PQOS_RETVAL_OK ->
        exists w' r,
          RunRdt.poll_cores h start nc outfile w = (w', Ok tt)
          /\ files w' !! outfile = Some (c ++ [Row r])
          /\ r = sample_of (now w + 1) (RunRdt.cores_text start nc)
                   (mon_read h (Cores start nc) (now w + 1))
          /\ row_misses r
             = pad_left " " 8
                 (dec_of_nonneg
                    (llc_misses_delta (mon_read h (Cores start nc) (now w + 1))
                     / 1024))
               +:+ "k")
  /\ (forall (core2proc : gmap string string) t pid v,
        0 <= pid -> in_u64 (llc_misses_delta v) -> 0 <= llc v ->
        let line := row_line fixed2 (sample_of t (pad_left " " 6 (dec_of_Z pid)) v) in
        CoreScript.data_line line = true
        /\ Awk.field 3 (Awk.fields line)
           = dec_of_nonneg (llc_misses_delta v / 1024) +:+ "k"
        /\ (CoreScript.MIS (CoreScript.read_row core2proc line)
            == inject_Z (llc_misses_delta v / 1024 * 1000))%Q
        /\ (1024 <= llc_misses_delta v ->
            (CoreScript.MIS (CoreScript.read_row core2proc line)
             < inject_Z (llc_misses_delta v))%Q))
  /\ (forall acc t start nc v,
        0 <= start -> 0 <= start + nc - 1 <= 9 ->
        in_u64 (llc_misses_delta v) -> 0 <= llc v ->
        let line := row_line fixed2 (sample_of t (RunRdt.cores_text start nc) v) in
        Awk.data_line line = true
        /\ Awk.field 4 (Awk.fields line)
           = dec_of_nonneg (llc_misses_delta v / 1024) +:+ "k"
        /\ (Aggregator.sum_miss (Aggregator.block_rule acc line)
            == Aggregator.sum_miss acc
               + inject_Z (llc_misses_delta v / 1024 * 1000))%Q
        /\ (1024 <= llc_misses_delta v ->
            (Aggregator.sum_miss (Aggregator.block_rule acc line)
             < Aggregator.sum_miss acc + inject_Z (llc_misses_delta v))%Q)).
Proof.
  split; [|split; [|split]].
  - intros w pid1 pid2 outfile1 outfile2 c1 c2 Hne Hf1 Hf2 Ha1 Ha2 Hp.
    destruct (poll_pair_ok h pid1 pid2 outfile1 outfile2 Hne w c1 c2 Hf1 Hf2 Ha1 Ha2 Hp)
      as (w' & Hrun & Hg1 & Hg2 & _).
    eexists w', _, _. split; [exact Hrun|].
    split; [exact Hg1|]. split; [exact Hg2|].
    repeat split.
  - intros w start nc outfile c Hf Hp.
    destruct w as [fs ds t tr]. cbv [files now PQOS_RETVAL_OK] in *.
    unfold RunRdt.poll_cores. run_prog. rewrite Hp, Hf. cbn [default]. unfold id.
    eexists _, _. split; [reflexivity|]. cbv beta iota.
    split; [rewrite lookup_insert_eq; reflexivity|]. split; reflexivity.
  - intros core2proc t pid v Hpid [Hlo Hhi] Hl line.
    destruct (dec_of_nonneg_spec (llc_misses_delta v / 1024)) as [Hd Hv];
      [apply Z.div_pos; lia|].
    assert (Hfields : Awk.fields line
                      = [dec_of_Z pid; fixed2 (ipc v);
                         dec_of_nonneg (llc_misses_delta v / 1024) +:+ "k";
                         dec_of_nonneg (llc v / 1024);
                         fixed2 (inject_Z (mbm_local_delta v) / inject_Z 1000000)%Q;
                         fixed2 (inject_Z (mbm_remote_delta v) / inject_Z 1000000)%Q]).
    { unfold line. rewrite row_line_fields, pid_target_fields by assumption.
      reflexivity. }
    assert (Hmis : (CoreScript.MIS (CoreScript.read_row core2proc line)
                    == inject_Z (llc_misses_delta v / 1024 * 1000))%Q).
    { unfold CoreScript.read_row. cbn [CoreScript.MIS]. rewrite Hfields.
      cbn [Awk.field Nat.sub nth]. rewrite expand_mis_lower_k, Hv by exact Hd.
      apply Qplus_0_r. }
    split; [apply pid_row_is_data_line, Hpid|].
    split; [rewrite Hfields; reflexivity|]. split; [exact Hmis|].
    intros Hbig. rewrite Hmis, <- Zlt_Qlt. apply thousands_below, Hbig.
  - intros acc t start nc v Hs He [Hlo Hhi] Hl line.
    destruct (dec_of_nonneg_spec (llc_misses_delta v / 1024)) as [Hd Hv];
      [apply Z.div_pos; lia|].
    assert (Hfields : Awk.fields line
                      = [dec_of_Z start +:+ "-"; dec_of_Z (start + nc - 1);
                         fixed2 (ipc v);
                         dec_of_nonneg (llc_misses_delta v / 1024) +:+ "k";
                         dec_of_nonneg (llc v / 1024);
                         fixed2 (inject_Z (mbm_local_delta v) / inject_Z 1000000)%Q;
                         fixed2 (inject_Z (mbm_remote_delta v) / inject_Z 1000000)%Q]).
    { unfold line. rewrite row_line_fields, cores_target_fields by assumption.
      reflexivity. }
    assert (Hline : Awk.data_line line = true)
      by (apply cores_row_is_data_line, Hs).
    assert (Hmis : (Aggregator.sum_miss (Aggregator.block_rule acc line)
                    == Aggregator.sum_miss acc
                       + inject_Z (llc_misses_delta v / 1024 * 1000))%Q).
    { unfold Aggregator.block_rule. rewrite Hline. cbn [Aggregator.sum_miss].
      rewrite Hfields. cbn [Awk.field Nat.sub nth].
      rewrite expand_miss_k, Hv by exact Hd. rewrite Qplus_0_r. reflexivity. }
    split; [exact Hline|]. split; [rewrite Hfields; reflexivity|].
    split; [exact Hmis|].
    intros Hbig. rewrite Hmis. apply Qplus_lt_r. rewrite <- Zlt_Qlt.
    apply thousands_below, Hbig.
Qed.

End WrittenRow.

Lemma no_blank_zeros k : no_blank (repeat_char "0" k) = true.
Proof. induction k as [|k IH]; [reflexivity | exact IH]. Qed.

Lemma two_decimals_word q : word (two_decimals q).
Proof.
  unfold two_decimals. cbv zeta.
  set (c := (2 * Z.abs (Qnum q) * 100 + Z.pos (Qden q)) / (2 * Z.pos (Qden q))).
  assert (Hc : 0 <= c) by (apply Z.div_pos; lia).
  destruct (dec_of_nonneg_spec (c / 100)) as [Hd1 _]; [apply Z.div_pos; lia|].
  destruct (dec_of_nonneg_spec (c mod 100)) as [Hd2 _];
    [apply Z.mod_pos_bound; lia|].
  assert (Hrest : word (dec_of_nonneg (c / 100) +:+ "."
                        +:+ pad_left "0" 2 (dec_of_nonneg (c mod 100)))).
  { apply word_app; [apply word_digits, Hd1|].
    unfold pad_left. rewrite str_app_cons, str_app_nil_l.
    cbn [no_blank]. rewrite no_blank_app, no_blank_zeros.
    rewrite all_digits_no_blank by (apply digits_only_all, Hd2). reflexivity. }
  destruct (Qnum q <? 0); [|exact Hrest].
  destruct Hrest as [Hne Hnb]. split; [discriminate|].
  rewrite str_app_cons, str_app_nil_l. cbn [no_blank]. exact Hnb.
Qed.

Lemma miss_round_trip_understates_witness :
  (forall q, word (two_decimals q))
  /\ row_line two_decimals (sample_of 1 (pad_left " " 6 (dec_of_Z 100)) poll_5000)
     = "        100    1.00          4k      4000      2.00       0.00"
  /\ (CoreScript.MIS
        (CoreScript.read_row sample_core_map
           (row_line two_decimals
              (sample_of 1 (pad_left " " 6 (dec_of_Z 100)) poll_5000)))
      == 4000)%Q
  /\ (4000 < inject_Z (llc_misses_delta poll_5000))%Q.
Proof.
  split; [exact two_decimals_word|]. split; [reflexivity|].
  destruct (miss_round_trip_understates two_decimals two_decimals_word host_ok)
    as (_ & _ & Hpid & _).
  destruct (Hpid sample_core_map 1%nat 100 poll_5000)
    as (_ & _ & Hmis & _); [lia | unfold in_u64; simpl; lia | simpl; lia |].
  split; [exact Hmis | reflexivity].
Defined.

(** ** The scoring loop in awk's arithmetic *)

Section RoundedLoop.
Variables (rnd : Q -> Q) (K : Q) (st : Scorer.scorer).
Hypothesis mis_nonzero : Qeq_bool (Scorer.sum_mis st) 0 = false.
Hypothesis llc_nonzero : Qeq_bool (Scorer.sum_llc st) 0 = false.
Hypothesis bw_nonzero : Qeq_bool (Scorer.sum_bw st) 0 = false.

Lemma rounded_step_ok acc p :
  Rounded.score_step rnd K st acc p
  = Some {| Scorer.lines := Scorer.lines acc ++ [rounded_line rnd K st p];
            Scorer.maxN := fst (pick (Scorer.maxN acc, Scorer.noisy acc)
                                     (rounded_line rnd K st p));
            Scorer.noisy := snd (pick (Scorer.maxN acc, Scorer.noisy acc)
                                      (rounded_line rnd K st p)) |}.
Proof.
  unfold Rounded.score_step, Rounded.div.
  rewrite mis_nonzero, llc_nonzero, bw_nonzero. cbn [mbind option_bind].
  unfold pick. cbn [fst Scorer.Noise_Score rounded_line].
  destruct (Scorer.gt _ _); reflexivity.
Qed.

Lemma rounded_loop_ok ps :
  forall acc,
    Rounded.score_loop rnd K st ps acc
    = Some {| Scorer.lines := Scorer.lines acc ++ map (rounded_line rnd K st) ps;
              Scorer.maxN :=
                fst (fold_left pick (map (rounded_line rnd K st) ps)
                       (Scorer.maxN acc, Scorer.noisy acc));
              Scorer.noisy :=
                snd (fold_left pick (map (rounded_line rnd K st) ps)
                       (Scorer.maxN acc, Scorer.noisy acc)) |}.
Proof.
  induction ps as [|p ps IH]; intros acc.
  - simpl. rewrite app_nil_r. destruct acc; reflexivity.
  - cbn [Rounded.score_loop]. rewrite rounded_step_ok. cbn [mbind option_bind].
    rewrite IH. cbn [Scorer.lines Scorer.maxN Scorer.noisy map fold_left].
    rewrite <- app_assoc. cbn [app].
    destruct (pick (Scorer.maxN acc, Scorer.noisy acc) (rounded_line rnd K st p));
      reflexivity.
Qed.

End RoundedLoop.

Lemma rounded_procs rnd rows :
  forall st0,
    Scorer.procs (fold_left (Rounded.row_rule rnd) rows st0)
    = Scorer.procs st0 ++ map Aggregator.proc rows.
Proof.
  induction rows as [|r rows IH]; intros st0; simpl.
  - rewrite app_nil_r. reflexivity.
  - rewrite IH. cbn [Scorer.procs Rounded.row_rule]. rewrite <- app_assoc.
    reflexivity.
Qed.

(** The scoring program always ends with a report: one line per row of
    the CSV, every quotient taken by a floored sum. *)
Lemma rounded_report rnd K rows :
  let st := Scorer.floors (fold_left (Rounded.row_rule rnd) rows Scorer.start) in
  let ls := map (rounded_line rnd K st) (map Aggregator.proc rows) in
  Rounded.score rnd K rows
  = Some {| Scorer.lines := ls;
            Scorer.maxN := fst (fold_left pick ls ((- (1))%Q, EmptyString));
            Scorer.noisy := snd (fold_left pick ls ((- (1))%Q, EmptyString)) |}.
Proof.
  cbv zeta. unfold Rounded.score, Rounded.END.
  rewrite rounded_loop_ok by (cbn [Scorer.floors Scorer.sum_mis Scorer.sum_llc
                                   Scorer.sum_bw]; apply or_one_nonzero).
  rewrite rounded_procs. reflexivity.
Qed.

Lemma rounded_line_processes rnd K st ps :
  map Scorer.process (map (rounded_line rnd K st) ps) = ps.
Proof.
  induction ps as [|p ps IH]; [reflexivity|]. cbn [map]. rewrite IH. reflexivity.
Qed.

(** With the identity for the rounding, the program is [Scorer]. *)
Lemma rounded_exact K rows :
  Rounded.score (fun q => q) K rows = Scorer.score K rows.
Proof.
  rewrite rounded_report, score_report. cbv zeta.
  cbn [Scorer.floors Scorer.procs]. rewrite fold_procs.
  reflexivity.
Qed.

(** ** Rounding to binary64 *)

Lemma binary64_zero x : (x == 0)%Q -> (Rounded.binary64 x == 0)%Q.
Proof.
  intros Hx. unfold Rounded.binary64. apply Qeq_bool_iff in Hx. rewrite Hx.
  reflexivity.
Qed.




(** ** The floors of the three sums, in awk's arithmetic *)

(** Without bandwidth and occupancy in the rows, the cells of [BW] and
    [LLC] all read as zero. *)
Lemma rounded_cells_zero rnd rows :
  (forall x, (x == 0)%Q -> (rnd x == 0)%Q) ->
  Forall (fun r => Aggregator.bw_sum r = 0 /\ Aggregator.llc_kb_sum r = 0) rows ->
  forall st0,
    (forall p, (Scorer.cell (Scorer.BW st0) p == 0)%Q
               /\ (Scorer.cell (Scorer.LLC st0) p == 0)%Q) ->
    forall p,
      (Scorer.cell (Scorer.BW (fold_left (Rounded.row_rule rnd) rows st0)) p == 0)%Q
      /\ (Scorer.cell (Scorer.LLC (fold_left (Rounded.row_rule rnd) rows st0)) p
          == 0)%Q.
Proof.
  intros Hrnd. induction 1 as [|r rows [Hbw Hllc] Hall IH]; intros st0 Hst p;
    [apply Hst|].
  cbn [fold_left]. apply IH. intros q.
  cbn [Rounded.row_rule Scorer.BW Scorer.LLC]. unfold Scorer.cell.
  rewrite Hbw, Hllc.
  destruct (decide (Aggregator.proc r = q)) as [->|Hne].
  - rewrite !lookup_insert_eq. cbn [default]. unfold id.
    split; apply Hrnd; reflexivity.
  - rewrite !lookup_insert_ne by exact Hne. apply Hst.
Qed.

(** C4. Each of the three tick-wide sums that is zero is replaced by 1
    before the scoring loop, and the loop takes every quotient by the
    sums so replaced: it never divides by zero, and the scorer ends with
    a report that holds one line for every row of the CSV.  In a tick in
    which every process has zero bandwidth and zero occupancy, the
    OccupancyScore of every process is 0.  This is so in exact arithmetic
    and in every arithmetic that rounds zero to zero, as binary64 does. *)
Theorem scorer_floors_the_sums (rnd : Q -> Q) (K : Q)
    (rows : list Aggregator.agg_row) :
  (forall x, (x == 0)%Q -> (rnd x == 0)%Q) ->
  let sums := fold_left (Rounded.row_rule rnd) rows Scorer.start in
  let st := Scorer.floors sums in
  Scorer.sum_bw st
  = (if Qeq_bool (Scorer.sum_bw sums) 0 then 1%Q else Scorer.sum_bw sums)
  /\ Scorer.sum_llc st
     = (if Qeq_bool (Scorer.sum_llc sums) 0 then 1%Q else Scorer.sum_llc sums)
  /\ Scorer.sum_mis st
     = (if Qeq_bool (Scorer.sum_mis sums) 0 then 1%Q else Scorer.sum_mis sums)
  /\ ~ (Scorer.sum_bw st == 0)%Q
  /\ ~ (Scorer.sum_llc st == 0)%Q
  /\ ~ (Scorer.sum_mis st == 0)%Q
  /\ (exists rep,
         Rounded.score rnd K rows = Some rep
         /\ Scorer.lines rep
            = map (rounded_line rnd K st) (map Aggregator.proc rows)
         /\ map Scorer.process (Scorer.lines rep) = map Aggregator.proc rows
         /\ (Forall (fun r => Aggregator.bw_sum r = 0 /\ Aggregator.llc_kb_sum r = 0)
               rows ->
             forall r, In r rows ->
               exists l, In l (Scorer.lines rep)
                         /\ Scorer.process l = Aggregator.proc r
                         /\ (Scorer.Occ_Score l == 0)%Q))
  /\ Rounded.score (fun q => q) K rows = Scorer.score K rows.
Proof.
  intros Hrnd. cbv zeta.
  cbn [Scorer.floors Scorer.sum_bw Scorer.sum_llc Scorer.sum_mis].
  split; [reflexivity|]. split; [reflexivity|]. split; [reflexivity|].
  split; [apply or_one_not_zero|]. split; [apply or_one_not_zero|].
  split; [apply or_one_not_zero|].
  split; [|apply rounded_exact].
  eexists. split; [apply rounded_report|]. cbv zeta. cbn [Scorer.lines].
  split; [reflexivity|].
  split; [apply rounded_line_processes|].
  intros Hzero r Hin.
  exists (rounded_line rnd K
            (Scorer.floors (fold_left (Rounded.row_rule rnd) rows Scorer.start))
            (Aggregator.proc r)).
  split; [apply in_map, in_map, Hin|]. split; [reflexivity|].
  destruct (rounded_cells_zero rnd rows Hrnd Hzero Scorer.start
              ltac:(intros q; split; reflexivity) (Aggregator.proc r)) as [Hbw Hllc].
  unfold rounded_line. cbn [Scorer.Occ_Score Scorer.floors Scorer.BW Scorer.LLC].
  apply Hrnd.
  rewrite (Hrnd _ (zero_div _ _ Hbw)), (Hrnd _ (zero_div _ _ Hllc)). reflexivity.
Qed.

Lemma scorer_floors_the_sums_witness :
  (forall x, (x == 0)%Q -> (Rounded.binary64 x == 0)%Q)
  /\ exists rep,
       Rounded.score Rounded.binary64 1 tick_idle = Some rep
       /\ map Scorer.process (Scorer.lines rep) = ["a"; "b"]
       /\ exists l, In l (Scorer.lines rep)
                    /\ Scorer.process l = "b" /\ (Scorer.Occ_Score l == 0)%Q.
Proof.
  split; [exact binary64_zero|].
  destruct (scorer_floors_the_sums Rounded.binary64 1 tick_idle binary64_zero)
    as (_ & _ & _ & _ & _ & _ & (rep & Hrep & _ & Hprocs & Hocc) & _).
  exists rep. split; [exact Hrep|]. split; [exact Hprocs|].
  apply (Hocc ltac:(repeat constructor) (agg "b" 7 0 0)).
  right. left. reflexivity.
Defined.

(** ** Ties and the starting value of the maximum, in awk's arithmetic *)






(** ** Conservation of the occupancy in the per-core scorer *)

(** A flush reports, summed over its lines, the occupancy of the rows it
    read. *)
Lemma flush_conserves_occupancy (K : Q) (for_in : gset string -> list string)
    (st : CoreScript.state) :
  (forall s, for_in s ≡ₚ elements s) ->
  exists lines v,
    CoreScript.flush_block K for_in st
    = Some {| CoreScript.time := CoreScript.time st;
              CoreScript.have_block := CoreScript.have_block st;
              CoreScript.idx := CoreScript.idx st;
              CoreScript.rows := CoreScript.rows st;
              CoreScript.OUT := CoreScript.OUT st ++ lines;
              CoreScript.VER := CoreScript.VER st ++ [v] |}
    /\ (reported_occupancy lines == sampled_occupancy (CoreScript.block st))%Q
    /\ (forall r, r ∈ CoreScript.block st ->
                  CoreScript.PROC r ∈ map CoreScript.process lines).
Proof.
  intros Hperm.
  destruct (flush_block_lines K for_in st Hperm)
    as (lines & v & Hrun & _ & Hnd & Hin & Hall).
  cbv zeta in Hin, Hall.
  exists lines, v. split; [exact Hrun|].
  assert (Hcover : forall r, r ∈ CoreScript.block st ->
                             CoreScript.PROC r ∈ map CoreScript.process lines)
    by (intros r Hr; apply Hin; eauto).
  split; [|exact Hcover].
  unfold reported_occupancy, sampled_occupancy.
  rewrite <- (Qsum_by_label CoreScript.LLC (map CoreScript.process lines)
                (CoreScript.block st) Hnd Hcover).
  rewrite map_map. apply Qsum_ext. intros l Hl.
  pose proof (proj1 (Forall_forall _ _) Hall l Hl) as (_ & Hs & _).
  rewrite Hs. apply label_sums_fields.
Qed.

(** The first block of a log, from the TIME line to the END block: the
    occupancy reported is that of the data lines after the first. *)
Lemma first_block_run (core2proc : gmap string string) (K : Q)
    (for_in : gset string -> list string) (tl l : string) (ls : list string) :
  (forall s, for_in s ≡ₚ elements s) ->
  time_line tl = true ->
  Forall (fun x => CoreScript.data_line x = true) (l :: ls) ->
  exists st',
    CoreScript.run core2proc K for_in (tl :: l :: ls) = Some st'
    /\ (reported_occupancy (CoreScript.OUT st')
        == sampled_occupancy (map (CoreScript.read_row core2proc) ls))%Q
    /\ EmptyString ∈ map CoreScript.process (CoreScript.OUT st')
    /\ length (CoreScript.VER st') = 1%nat.
Proof.
  intros Hperm Htl Hall. unfold time_line in Htl.
  set (st1 := {| CoreScript.time :=
                   Awk.field 2 (Awk.fields tl) +:+ " " +:+ Awk.field 3 (Awk.fields tl);
                 CoreScript.have_block := false;
                 CoreScript.idx := None; CoreScript.rows := ∅;
                 CoreScript.OUT := []; CoreScript.VER := [] |}).
  assert (Htime : CoreScript.rules core2proc K for_in CoreScript.BEGIN tl = Some st1)
    by (unfold CoreScript.rules; cbv zeta; rewrite Htl; reflexivity).
  unfold CoreScript.run.
  change (CoreScript.run_rules core2proc K for_in CoreScript.BEGIN (tl :: l :: ls))
    with (CoreScript.rules core2proc K for_in CoreScript.BEGIN tl
          ≫= fun st => CoreScript.run_rules core2proc K for_in st (l :: ls)).
  rewrite Htime. cbn [mbind option_bind].
  destruct (data_lines_stored core2proc K for_in st1 l ls Hall eq_refl)
    as (st2 & Hrun & Hhave & _ & Hout & Hver & Hfirst & _).
  rewrite Hrun. cbn [mbind option_bind]. unfold CoreScript.END. rewrite Hhave.
  destruct (flush_conserves_occupancy K for_in st2 Hperm)
    as (lines & v & Hflush & Hcons & Hcover).
  rewrite Hflush, Hout, Hver. eexists. split; [reflexivity|].
  cbn [CoreScript.OUT CoreScript.VER st1 app].
  rewrite (Hfirst eq_refl) in Hcons, Hcover.
  split; [|split; [|reflexivity]].
  - rewrite Hcons. unfold sampled_occupancy, Qsum.
    cbn [map fold_right CoreScript.LLC CoreScript.unset_row]. apply Qplus_0_l.
  - apply (Hcover CoreScript.unset_row). left.
Qed.

(** C3 on the per-core scorer, the aggregation of the repository that
    labels its samples from a map.  A data line of a core that is absent
    from the map is labelled [unmapped], and a flush counts every row that
    it reads under its label: summed over the lines it prints, the
    occupancy is that of the rows read, rows of unmapped cores included.
    After a [reset_block] the flush reads every data line of its block.
    In the first block of a log it does not: the first data line is stored
    under the empty subscript and never read, so the occupancy reported
    for the first tick is that of the other data lines alone, and a
    process with the empty name is printed in its place.  On the log of
    one block of three cores that hold 700, 100 and 200 KB, 300 KB are
    reported. *)
Theorem first_block_loses_its_first_row :
  (forall (core2proc : gmap string string) line,
      core2proc !! CoreScript.subscript
                     (Awk.strtonum (Awk.field 1 (Awk.fields line)) + 0)%Q = None ->
      CoreScript.PROC (CoreScript.read_row core2proc line) = "unmapped")
  /\ (forall K for_in st,
        (forall s, for_in s ≡ₚ elements s) ->
        exists lines v,
          CoreScript.flush_block K for_in st
          = Some {| CoreScript.time := CoreScript.time st;
                    CoreScript.have_block := CoreScript.have_block st;
                    CoreScript.idx := CoreScript.idx st;
                    CoreScript.rows := CoreScript.rows st;
                    CoreScript.OUT := CoreScript.OUT st ++ lines;
                    CoreScript.VER := CoreScript.VER st ++ [v] |}
          /\ (reported_occupancy lines
              == sampled_occupancy (CoreScript.block st))%Q
          /\ (forall r, r ∈ CoreScript.block st ->
                        CoreScript.PROC r ∈ map CoreScript.process lines))
  /\ (forall core2proc K for_in st l ls,
        after_reset st ->
        Forall (fun x => CoreScript.data_line x = true) (l :: ls) ->
        exists st',
          CoreScript.run_rules core2proc K for_in st (l :: ls) = Some st'
          /\ CoreScript.block st' = map (CoreScript.read_row core2proc) (l :: ls))
  /\ (forall core2proc K for_in tl l ls,
        (forall s, for_in s ≡ₚ elements s) ->
        time_line tl = true ->
        Forall (fun x => CoreScript.data_line x = true) (l :: ls) ->
        exists st',
          CoreScript.run core2proc K for_in (tl :: l :: ls) = Some st'
          /\ (reported_occupancy (CoreScript.OUT st')
              == sampled_occupancy (map (CoreScript.read_row core2proc) ls))%Q
          /\ (reported_occupancy (CoreScript.OUT st')
              + CoreScript.LLC (CoreScript.read_row core2proc l)
              == sampled_occupancy (map (CoreScript.read_row core2proc) (l :: ls)))%Q
          /\ EmptyString ∈ map CoreScript.process (CoreScript.OUT st'))
  /\ (exists st',
         CoreScript.run sample_core_map 1 elements one_block_log = Some st'
         /\ map CoreScript.process (CoreScript.OUT st') = ["unmapped"; "proc2"; ""]
         /\ (reported_occupancy (CoreScript.OUT st') == 300)%Q
         /\ (sampled_occupancy
               (map (CoreScript.read_row sample_core_map) (drop 2 one_block_log))
             == 1000)%Q).
Proof.
  split; [|split; [|split; [|split]]].
  - intros core2proc line Hnone. unfold CoreScript.read_row.
    cbn [CoreScript.PROC]. rewrite Hnone. reflexivity.
  - intros K for_in st Hperm. apply flush_conserves_occupancy, Hperm.
  - intros core2proc K for_in st l ls (_ & Hidx & Hrows) Hall.
    destruct (data_lines_stored core2proc K for_in st l ls Hall Hrows)
      as (st' & Hrun & _ & _ & _ & _ & _ & Hread).
    exists st'. split; [exact Hrun | apply Hread, Hidx].
  - intros core2proc K for_in tl l ls Hperm Htl Hall.
    destruct (first_block_run core2proc K for_in tl l ls Hperm Htl Hall)
      as (st' & Hrun & Hcons & Hphantom & _).
    exists st'. split; [exact Hrun|]. split; [exact Hcons|].
    split; [|exact Hphantom].
    rewrite Hcons. unfold sampled_occupancy, Qsum. cbn [map fold_right].
    apply Qplus_comm.
  - eexists. split; [vm_compute; reflexivity|]. cbn [CoreScript.OUT].
    split; [reflexivity|]. split; reflexivity.
Qed.
